(* ===== verification/_CoqProject ===== *)
-Q . S2P
Prelude.v
JsString.v
Regex.v
RegexSpec.v
Scan.v
ChannelId.v
Models.v
Collection.v
CountryCode.v
Validate.v
Playlist.v
Machine.v
Async.v
ValidateProcess.v
Reconcile.v
Number.v
InPlace.v
Generate.v
GenerateProcess.v
Pipeline.v
