(* ===== verification/Prelude.v ===== *)
(** * Verification of the playlist validation and reconciliation pipeline

    The program is the pair of command scripts
    [src/scripts/commands/playlist/validate.ts] and
    [src/scripts/commands/playlist/generate.ts].  The first parses every
    playlist file, checks each stream against the channel database, a
    per-file set of seen URLs and the legal blocklist, prints a report and
    decides the exit status.  The second reads the reference files and the
    stream database, sorts, deduplicates and completes the streams
    ([loadStreams]) and hands the result to ten playlist generators.

    ** Files, in the order of their dependencies

    - [Prelude] (this file): notation scope, tactics, hint database and the
      list lemmas every component shares ([take_while], [drop_while], the
      boolean filter [bfilter] with its [Proper] instance for
      permutations, sorted lists and sublists).
    - [JsString]: JavaScript strings as lists of UTF-16 code units ([N]),
      the ASCII character classes, [trim], [padEnd], number printing, the
      code-unit order used by [<] on strings (a decidable total order,
      declared as instances), and the class [JsRuntime],
      the interface to the Unicode-dependent built-ins ([toLowerCase],
      [toUpperCase]) and to the [transliteration] package, with the laws
      the scripts rely on and an instance for the ASCII fragment.
    - [Regex]: the regular expressions the scripts use: an abstract syntax
      that mirrors the literals, a backtracking matcher in
      continuation-passing style that follows the ECMAScript matcher
      (greedy quantifiers, rejection of empty iterations, capture groups,
      [^] and [$], the [i] flag), [String.prototype.match] and the global
      [String.prototype.replace].
    - [RegexSpec]: a declarative reading of the syntax (derivations), the
      proof that the matcher succeeds exactly when a derivation exists, and
      the tactics that read a derivation of a concrete literal.
    - [Scan]: a scanner for literals of the shape "blanks, opener, text,
      closer, blanks" and the proof that the matcher and the replacement
      loop compute the same on them.
    - [ChannelId]: [generateChannelId] (validate.ts, lines 121-133), one
      definition per replacement step, each regular expression as a value
      of the syntax of [Regex].
    - [Models]: the records [Stream], [Channel], [Blocked], [Category],
      [Language] and the path queries of [File] (code outside [src/],
      modelled from the specification).
    - [Collection]: the operations of [Collection] and [Dictionary] the
      scripts call ([first], [filter], [concat], [count], [keyBy],
      [orderBy], [uniqBy] with the [uniqueId] counter).
    - [CountryCode]: the country code of a playlist file (validate.ts,
      line 39): the literal, the extraction and a reference for it without
      regular expression.
    - [Validate]: [main] of validate.ts (lines 18-117): the three checks
      of a stream, the loop over the streams of a file with its buffer of
      seen URLs as explicit state, the [try]/[catch] around parsing as a
      sum type, the report and the exit status.  The parser is a parameter
      of the section; the theorems hold for every parser.
    - [Playlist]: the parser of playlists, which is outside [src/]: the
      contract the validation command relies on, as the class [Parser]
      (the streams of a document carry their source lines, counted from 1
      and increasing), a reference implementation on documents whose
      lines are already classified, and what the contract gives the
      command.
    - [Machine]: [main] of validate.ts once more, as a transition system
      over its program points (the start, the head of each of the two
      loops, the report of a file, the summary, the end), with its
      transition function, its measure, its invariant and the events a
      transition causes (a file of data read, the playlists listed, the
      parser called, a line printed, the exit).
    - [Async]: what the models of the two commands as interaction trees
      share: [await] with a rejected promise thrown as an error, loops
      over collections, the two ways a run ends without returning
      ([process.exit], an error nothing caught), the evaluation of a tree
      with fuel.
    - [ValidateProcess]: [main] of validate.ts a third time, as an
      interaction tree: the function is [async], and its events are the
      promises it awaits ([storage.json], [streamsStorage.list], [parser.parse]), the
      calls of the logger and [process.exit].  An awaited promise answers
      with a value or an error; an error of the storage is thrown and ends
      the run, an error of the parser is caught (lines 43-88).  A handler
      interprets the events in a world (what the storage and the parser
      answer) and records them as events of [Machine].
    - [Reconcile]: [loadStreams] of generate.ts (lines 100-148): sort by
      (channel, url), deduplicate by channel or fresh token with the
      counter of [uniqueId] threaded through, complete from the channel.
    - [Number]: the two places where the scripts do arithmetic, at the
      width of a JavaScript number: the sum of the counts in the summary
      of validate.ts (line 109) and the counter of lodash's [uniqueId]
      behind line 119 of generate.ts.  [round53] rounds a natural number
      to the nearest double, [js_add] and [js_increment] are the
      operations, [loadStreamsDouble] and [summaryDouble] the code with
      them.
    - [InPlace]: [loadStreams] once more, on a heap: line 117 allocates
      one object per row, lines 118-119 sort and deduplicate references,
      and the callback of lines 120-145 assigns to the properties of the
      object it is given.  The state is the heap of stream objects and
      the counter of [uniqueId]; the operations are programs of a state
      monad ([newStream], [getStream], [assign], [drawId]).  The
      generators of lines 50-95 are programs of the same heap, given the
      references [loadStreams] returned ([runGenerators], [mainInPlace]).
    - [Generate]: [main] of generate.ts (lines 21-96) as a program of a
      state monad that records the calls to the storage, the database,
      the logger and the generators.
    - [GenerateProcess]: [main] and [loadStreams] of generate.ts once
      more, as interaction trees ([main], [loadStreamsT], [generate] for
      one of the ten blocks of lines 50-95): the events are the promises
      the command awaits (six files, the database to load and then its
      rows, the stream of the log, the ten generators), the
      announcements and the draws of
      [uniqueId].  The script catches nothing, so a promise that is
      rejected ends the run where it is awaited.  A handler answers the
      events from a world and records them in the state of [Generate].
    - [Pipeline]: the two commands side by side: when the channel lookup
      of one agrees with the search of the other, and when their two
      country-code patterns give the same code.

    [Validate], [Playlist], [Machine], [Async], [ValidateProcess],
    [Number], [InPlace], [Generate], [GenerateProcess] and [Pipeline] each hold one
    module of the same name, so that the functions [main] and the helpers
    of the same name are told apart ([Validate.main], [Generate.main]).

    ** What is proved

    - Regex: a match ends inside the subject; the matcher implements the
      derivations (sound and complete); a search that fails means no
      derivation starts anywhere; greedy one-unit loops try the longest
      run first.
    - ChannelId: the identifier is empty exactly on an empty input and
      otherwise has the shape "letters and digits, dot, lower-cased code";
      lines 124 to 127 equal definitions without regular expressions (a
      scanner for the bracketed groups, a map for the plus signs, a
      filter); [trim] and [transliterate] are no-ops where the script calls
      them; the examples of the specification; the bracket literal cuts
      text between two bracketed groups.
    - Validate: the loop with its buffer refines a specification on lists
      ([fileItems]); a duplicate warning is emitted exactly for a non-empty
      URL seen earlier in the same file; the errors of a file are the
      blocklist items of its streams, one per matching stream, citing the
      first matching entry, and matching ignores ASCII case; the warnings
      are the unknown channels and repeated URLs; a failing parse yields
      one error at line 0; the exit status is 1 exactly when some file
      logs an error; the summary counts add up; files are reported in
      order; the columns of a report line.
    - CountryCode: the country code of line 39 equals a scanner without
      regular expression and is empty or two ASCII letters; a file whose
      name starts with two letters followed by the extension, at once or
      after an underscore and more text, yields these two letters as
      written, whatever its directory; the identifier derived from a
      stream name and the code of a file is the same under every runtime
      that satisfies the laws of [JsRuntime].
    - Playlist: for every parser that keeps the contract, the lines of
      the log of a file never decrease and line 0 marks a failed parse and
      nothing else; the reference parser keeps the contract, accepts
      exactly the documents in which directives and locations alternate,
      and returns the streams a document was written from.
    - Machine: the transition relation is the graph of the transition
      function and no configuration but the end is stuck; every
      configuration reaches the end of the process after exactly
      [distance] transitions (so the command terminates whatever the
      parser answers), with the output and status of [Validate.main]; in
      every reachable configuration the accumulators are those of the
      files visited, the log holds the items of the streams checked and
      the buffer exactly their URLs; every transition keeps the
      configuration well formed (errors among the errors, warnings among
      the warnings, a buffer that holds nothing but [true], a status of 0
      or 1); a run first announces and reads the
      data, lists the playlists only when no argument names a file, then
      calls the parser once per playlist, in the order of the files, and
      prints the report of a file before it touches the next.
    - ValidateProcess: for every world, the interpreted tree of [main] is
      the run [ValidateProcess.run] computes from the answers of the world
      ([behaviour_run]); hence the process ends in every world (with
      enough fuel, evaluation returns that run); when the data can be
      read, its calls are the trace of the machine, in order, what it
      prints is what [Validate.main] returns, and it returns for status 0
      and exits with status 1 otherwise; a run that an uncaught error
      ended was ended by the storage, before any playlist was parsed, and
      never by the parser.
    - InPlace: [loadStreams] on the heap returns references to new and
      distinct objects that hold the streams [loadStreams] on values
      returns, in the same order, with the same counter, and touches no
      object that was there before; the row dropped as a duplicate stays
      in the heap as it came; the assignments are idempotent, so a stream
      that occurred twice in the collection would still be completed
      once; the generators share the objects: each finds what the
      generators before it left, and when none assigns to a stream each
      finds what [loadStreams] returned.
    - Reconcile: the sort is a stable sorted permutation, and the only
      one (every stable sort returns the same list); reconciling the
      reconciled list again changes nothing; after
      deduplication no channel occurs twice, the survivor of a channel
      (not a decimal numeral) is the first in sorted order and has the
      least URL, every row without channel survives and the counter
      advances by their number, the result does not depend on the counter
      when no channel is a numeral; a token can collide with a channel
      that is a numeral; completion on both branches; the default broadcast
      area in closed form.
    - Number: rounding to a double is the identity up to [2^53] and
      moves a larger number by at most half a unit of its 53 leading
      bits; the counts of the summary are exact, since arrays hold fewer
      than [2^32] elements; [loadStreams] with a counter that is a double
      is [loadStreams] as long as the counter and the rows without
      channel do not pass [2^53], and at [2^53] the counter stops, so
      that two rows without channel get the same token.
    - Generate: the calls happen in the order of the source, the ten
      generators run once each, and each is given the reconciled list.
    - GenerateProcess: for every world, the interpreted tree of [main] is
      the run [GenerateProcess.run] computes from the answers of the
      world, the calls of [Generate.main] up to the first that fails
      ([behaviour_generation]); hence the command ends in every world,
      with the error of the first rejected promise or with the state of
      [Generate.main]; in a world where every call succeeds it is
      [Generate.main]; and no generator is called unless the six files,
      the database and the log were opened.
    - Pipeline: validation warns about an unknown channel exactly when
      reconciliation finds no channel data (and then uses the default
      broadcast area); on playlists named by two lower-case letters the
      two commands derive the same country code.

    ** Fuel and measures

    [Machine.exec n] makes [n] transitions or as many as there are;
    [Machine.distance] is the exact number of transitions a configuration
    has left, so [exec (distance c) c] is the end of the process
    ([Machine.every_run_exits]).

    An interaction tree is evaluated with fuel ([Async.evaluate],
    one unit per silent step of the interpreter);
    [ValidateProcess.process_always_ends] and
    [GenerateProcess.generation_ends_at_first_failure] show that for
    every world some amount is enough and that more changes nothing.  In
    the examples 100 units are enough and 5 or 10 are not.

    The other definitions with fuel are the loops of the matcher and of
    the global replacement.  A [*] or [+] gets the number of remaining
    code units plus one and the replacement loop the length of the subject
    plus one.  Each iteration consumes at least one code unit, so the fuel
    is never exhausted: [Regex.star_fuel_is_enough] and
    [Regex.replace_fuel_is_enough] show that any larger amount gives the
    same result, and [RegexSpec.matcher_implements_derivations] that no
    match is lost.

    ** Bounds

    Numbers are [N] and [nat] in every file but [Number].  The line of a
    stream, the counts of the summary and the counter of [uniqueId] are
    doubles in the scripts; the unbounded models are exact below [2^53]
    ([Number.round53_exact]): for the counts always
    ([Number.summary_counts_exact]), for the counter under the hypothesis
    of [Number.loadStreams_exact_up_to_2_53], which
    [Number.counter_saturates] shows to be the best one.  A number is
    printed in decimal ([number_toString]); JavaScript prints in decimal
    below [10^21], which no number of the scripts reaches.

    ** Modelling choices

    - Characters are UTF-16 code units as [N]; nothing bounds them by
      65536 because no operation of the scripts depends on the bound.
    - A value of TypeScript type [string] that the scripts test for
      truthiness ([stream.channel], [stream.url], [name], [code]) is a
      [jsstring]; the empty list is the only falsy one, and an absent
      channel is the empty string, which sorts before every other.
    - Output is a list of report lines; colours of [chalk] are constructors
      of a markup type.  Calls to collaborators outside [src/] are events
      of a trace.
    - [Validate] and [Reconcile] are the models the theorems about the
      results are stated on, and [Generate] the model of the order of
      the calls; [Machine], [ValidateProcess], [GenerateProcess] and
      [InPlace] model the same lines with their control points, their
      input and output, their errors and their mutable objects, and are
      proved to compute what the first three compute.
    - A rejected promise that nothing catches ends the run; what Node does
      then (the message it prints, the status it exits with) is not
      modelled: the run ends with the error as its outcome.  The calls of
      [logger.info] and of [uniqueId] never fail.  What the parser
      rejects with is an error that has a message (line 86 reads it).
    - The generators are given the collection [loadStreams] returns, that
      is, the same objects one after the other.  [Generate] and
      [GenerateProcess] pass the streams as values, which is right when
      no generator assigns to a stream it is given
      ([InPlace.generators_share_the_objects]); the generators are
      outside [src/], so that they do not assign is a hypothesis.
    - Not modelled: the grammar of the attributes of a playlist
      directive (an external format the specification does not give; the
      parser is a parameter of the validation command and a class with its
      contract), the contents of the generators (templating), the file
      system, JSON decoding, the database driver and command-line parsing
      (their results are parameters).  Line 10 of validate.ts hands
      [process.argv] to [commander]; the model starts from
      [program.args], the positional arguments [commander] leaves, since
      what it does with options and with more than one argument depends
      on the library and its version.
*)

From Stdlib Require Export NArith Lia.
From stdpp Require Export base tactics option list sorting.

(** ** A scope for JavaScript-level notations *)

Declare Scope js_scope.
Delimit Scope js_scope with js.

(** ** Hint database of the development *)

Create HintDb iptv discriminated.
Create Rewrite HintDb iptv.

(** ** Tactics *)

(** Case analysis on the first boolean test, [decide] or [match] on an
    option of the goal, keeping the equation. *)
Ltac case_test :=
  match goal with
  | |- context [if ?b then _ else _] =>
      lazymatch type of b with
      | bool => let E := fresh "E" in destruct b eqn:E
      | _ => destruct b
      end
  | |- context [match ?o with Some _ => _ | None => _ end] =>
      let E := fresh "E" in destruct o eqn:E
  end.

(** Turn boolean connectives and comparisons on [N], in the goal and in
    the hypotheses, into propositions that [lia] reads. *)
Ltac bool_to_prop :=
  rewrite ?orb_true_iff, ?andb_true_iff, ?orb_false_iff, ?andb_false_iff,
    ?negb_true_iff, ?negb_false_iff, ?N.leb_le, ?N.leb_gt, ?N.ltb_lt,
    ?N.ltb_ge, ?N.eqb_eq, ?N.eqb_neq in *.

(** Decide a closed proposition by evaluation. *)
Ltac by_compute := apply (bool_decide_unpack _); vm_compute; exact I.

(** ** Longest prefix satisfying a test *)

Section TakeDrop.
Context {A : Type} (p : A → bool).

Fixpoint take_while (l : list A) : list A :=
  match l with
  | x :: l' => if p x then x :: take_while l' else []
  | [] => []
  end.

Fixpoint drop_while (l : list A) : list A :=
  match l with
  | x :: l' => if p x then drop_while l' else l
  | [] => []
  end.

Lemma take_drop_while l : take_while l ++ drop_while l = l.
Proof. induction l as [|x l IH]; simpl; [done|]. destruct (p x); simpl; congruence. Qed.

Lemma take_while_all l : Forall (λ x, p x = true) (take_while l).
Proof. induction l as [|x l IH]; simpl; [constructor|]. destruct (p x) eqn:E; auto. Qed.

Lemma drop_while_head l x l' : drop_while l = x :: l' → p x = false.
Proof.
  induction l as [|y l IH]; simpl; [done|].
  destruct (p y) eqn:E; [auto|]. intros [= -> ->]. done.
Qed.

Lemma length_drop_while l : length (drop_while l) ≤ length l.
Proof. induction l as [|x l IH]; simpl; [lia|]. destruct (p x); simpl; lia. Qed.

Lemma drop_while_false x l : p x = false → drop_while (x :: l) = x :: l.
Proof. simpl. by intros ->. Qed.

Lemma take_while_false x l : p x = false → take_while (x :: l) = [].
Proof. simpl. by intros ->. Qed.

Lemma drop_take_while l : drop (length (take_while l)) l = drop_while l.
Proof. induction l as [|x l IH]; simpl; [done|]. by destruct (p x). Qed.

Lemma take_take_while l : take (length (take_while l)) l = take_while l.
Proof. induction l as [|x l IH]; simpl; [done|]. destruct (p x); simpl; congruence. Qed.

(** Inside the longest prefix every element passes the test. *)
Lemma drop_lt_take_while j l :
  j < length (take_while l) → ∃ x l', drop j l = x :: l' ∧ p x = true.
Proof.
  revert j. induction l as [|y l IH]; simpl; intros j Hj; [lia|].
  destruct (p y) eqn:E; simpl in Hj; [|lia].
  destruct j as [|j]; [by eauto|]. simpl. apply IH. lia.
Qed.

Lemma take_while_app l1 l2 :
  Forall (λ x, p x = true) l1 → take_while (l1 ++ l2) = l1 ++ take_while l2.
Proof. induction 1 as [|x l1 Hx _ IH]; simpl; [done|]. by rewrite Hx, IH. Qed.

Lemma drop_while_app l1 l2 :
  Forall (λ x, p x = true) l1 → drop_while (l1 ++ l2) = drop_while l2.
Proof. induction 1 as [|x l1 Hx _ IH]; simpl; [done|]. by rewrite Hx. Qed.

Lemma drop_while_all l : Forall (λ x, p x = true) l → drop_while l = [].
Proof. induction 1 as [|x l Hx _ IH]; simpl; [done|]. by rewrite Hx. Qed.

End TakeDrop.

(** ** Filtering with a boolean test *)

Section BoolFilter.
Context {A : Type} (p : A → bool).

Fixpoint bfilter (l : list A) : list A :=
  match l with
  | x :: l' => if p x then x :: bfilter l' else bfilter l'
  | [] => []
  end.

Lemma bfilter_app l1 l2 : bfilter (l1 ++ l2) = bfilter l1 ++ bfilter l2.
Proof. induction l1 as [|x l1 IH]; simpl; [done|]. destruct (p x); simpl; congruence. Qed.

Lemma bfilter_all l : Forall (λ x, p x = true) (bfilter l).
Proof. induction l as [|x l IH]; simpl; [constructor|]. destruct (p x) eqn:E; auto. Qed.

Lemma bfilter_id l : Forall (λ x, p x = true) l → bfilter l = l.
Proof. induction 1 as [|x l Hx _ IH]; simpl; [done|]. rewrite Hx. congruence. Qed.

Lemma bfilter_none l : Forall (λ x, p x = false) l → bfilter l = [].
Proof. induction 1 as [|x l Hx _ IH]; simpl; [done|]. by rewrite Hx. Qed.

Lemma bfilter_idemp l : bfilter (bfilter l) = bfilter l.
Proof. apply bfilter_id, bfilter_all. Qed.

Lemma length_bfilter l : length (bfilter l) ≤ length l.
Proof. induction l as [|x l IH]; simpl; [lia|]. destruct (p x); simpl; lia. Qed.

Lemma elem_of_bfilter x l : x ∈ bfilter l ↔ x ∈ l ∧ p x = true.
Proof.
  induction l as [|y l IH]; simpl.
  - split; [by intros ?%elem_of_nil | by intros [?%elem_of_nil _]].
  - destruct (p y) eqn:E; rewrite ?elem_of_cons, IH.
    + split; [intros [->|[? ?]]; auto | intros [[->|?] ?]; auto].
    + split; [intros [? ?]; auto | intros [[->|?] ?]; [congruence | auto]].
Qed.

End BoolFilter.

Lemma bfilter_ext {A} (p q : A → bool) l :
  (∀ x, p x = q x) → bfilter p l = bfilter q l.
Proof. intros E. induction l as [|x l IH]; simpl; [done|]. by rewrite E, IH. Qed.

Lemma bfilter_fmap {A B} (p : B → bool) (f : A → B) l :
  bfilter p (f <$> l) = f <$> bfilter (λ x, p (f x)) l.
Proof.
  induction l as [|x l IH]; [done|]. rewrite fmap_cons. cbn [bfilter].
  destruct (p (f x)); rewrite ?fmap_cons; by rewrite IH.
Qed.

Lemma bfilter_sublist {A} (p : A → bool) l : bfilter p l `sublist_of` l.
Proof.
  induction l as [|x l IH]; simpl; [done|].
  destruct (p x); [by apply sublist_skip | by apply sublist_cons].
Qed.

(** Filtering commutes with reordering. *)
#[export] Instance bfilter_Permutation {A} (p : A → bool) :
  Proper ((≡ₚ) ==> (≡ₚ)) (bfilter p).
Proof.
  induction 1 as [|x l l' _ IH|x y l|l l' l'' _ IH1 _ IH2]; simpl; [done|..].
  - destruct (p x); by rewrite IH.
  - destruct (p x), (p y); by rewrite ?(Permutation_swap x y).
  - by rewrite IH1.
Qed.

(** ** Deciding a property of every element by computation *)

Lemma Forall_forallb {A} (p : A → bool) (l : list A) :
  forallb p l = true → Forall (λ x, p x = true) l.
Proof.
  induction l as [|x l IH]; simpl; [constructor|].
  intros [??]%andb_true_iff. constructor; auto.
Qed.

Lemma forallb_Forall {A} (p : A → bool) (l : list A) :
  Forall (λ x, p x = true) l → forallb p l = true.
Proof. induction 1 as [|x l Hx _ IH]; simpl; [done|]. by rewrite Hx. Qed.

Lemma sublist_Forall {A} (P : A → Prop) (l1 l2 : list A) :
  l1 `sublist_of` l2 → Forall P l2 → Forall P l1.
Proof. rewrite !Forall_forall. eauto using elem_of_sublist. Qed.

(** ** Concatenated images *)

Lemma elem_of_flat_map {A B} (f : A → list B) (l : list A) (x : B) :
  x ∈ flat_map f l ↔ ∃ y, y ∈ l ∧ x ∈ f y.
Proof.
  rewrite list_elem_of_In, in_flat_map.
  by setoid_rewrite list_elem_of_In.
Qed.

Lemma Forall_flat_map {A B} (P : B → Prop) (f : A → list B) (l : list A) :
  (∀ y, Forall P (f y)) → Forall P (flat_map f l).
Proof.
  intros Hf. apply Forall_forall. intros x (y & _ & Hx)%elem_of_flat_map.
  revert x Hx. apply Forall_forall, Hf.
Qed.

(** ** Sorted lists *)

Lemma StronglySorted_sublist {A} (R : A → A → Prop) (l1 l2 : list A) :
  l1 `sublist_of` l2 → StronglySorted R l2 → StronglySorted R l1.
Proof.
  induction 1 as [|x l1 l2 Hsub IH|x l1 l2 Hsub IH]; [done|..];
    intros [Hs Hx]%StronglySorted_inv; [|auto].
  constructor; [auto|]. apply Forall_forall. intros y Hy.
  rewrite Forall_forall in Hx. eauto using elem_of_sublist.
Qed.

(** In a sorted list, the elements that satisfy a test closed under
    predecessors come first. *)
(** A list whose elements are related pairwise is sorted. *)
Lemma StronglySorted_pairwise {A} (R : relation A) l :
  (∀ x y, x ∈ l → y ∈ l → R x y) → StronglySorted R l.
Proof.
  induction l as [|x l IH]; intros Hl; constructor.
  - apply IH. intros y z Hy Hz. apply Hl; by right.
  - apply Forall_forall. intros y Hy. apply Hl; [by left | by right].
Qed.

Lemma StronglySorted_partition {A} (R : A → A → Prop) (p : A → bool) l :
  (∀ x y, R x y → p y = true → p x = true) →
  StronglySorted R l →
  l = bfilter p l ++ bfilter (λ x, negb (p x)) l.
Proof.
  intros Hp. induction 1 as [|x l _ IH Hx]; simpl; [done|].
  destruct (p x) eqn:E; simpl; [by f_equal|].
  rewrite bfilter_none, bfilter_id; [done|..];
    (eapply Forall_impl; [exact Hx|]); intros y Hy; simpl;
    destruct (p y) eqn:Ey; try done; by rewrite (Hp _ _ Hy Ey) in E.
Qed.

(** The elements kept by a test, when a relation maps every kept element
    to its image, form a sublist of the images. *)
Lemma bfilter_sublist_Forall2 {A B} (p : B → bool) (f : A → B) (l : list A)
    (k : list B) :
  Forall2 (λ x y, p (f x) = true → f x = y) l k →
  bfilter p (f <$> l) `sublist_of` k.
Proof.
  induction 1 as [|x y l k Hxy _ IH]; simpl; [done|].
  destruct (p (f x)) eqn:E; [|by apply sublist_cons].
  rewrite (Hxy eq_refl). by apply sublist_skip.
Qed.

#[export] Hint Rewrite @bfilter_app @bfilter_idemp @take_drop_while : iptv.
#[export] Hint Resolve bfilter_all take_while_all : iptv.
