(* ===== verification/JsString.v ===== *)
(** * JavaScript strings

    Strings of the scripts are sequences of UTF-16 code units.  This file
    holds the character classes of the regular expressions, the string
    built-ins the scripts call ([trim], [padEnd], printing of a number,
    truthiness, the order of [<]) and the interface [JsRuntime] to the
    built-ins whose behaviour outside ASCII is given by Unicode tables. *)

From Stdlib Require Import Ascii String DecimalN.
From S2P Require Import Prelude.

Abbreviation jsstring := (list N).

(** A literal of the source as a list of code units. *)
Definition js (s : string) : jsstring :=
  N_of_ascii <$> list_ascii_of_string s.
Arguments js _%_string.

(** One character of the source as a code unit. *)
Definition ch (a : ascii) : N := N_of_ascii a.
Arguments ch _%_char.

(** ** Character classes *)

Definition in_range (lo hi c : N) : bool := ((lo <=? c) && (c <=? hi))%N.

Definition is_digit (c : N) : bool := in_range 48 57 c.
Definition is_upper (c : N) : bool := in_range 65 90 c.
Definition is_lower (c : N) : bool := in_range 97 122 c.
Definition is_alpha (c : N) : bool := is_upper c || is_lower c.
Definition is_alnum (c : N) : bool := is_digit c || is_alpha c.
Definition is_ascii (c : N) : bool := (c <? 128)%N.

(** ASCII case mapping of one code unit. *)
Definition lower_unit (c : N) : N := if is_upper c then (c + 32)%N else c.
Definition upper_unit (c : N) : N := if is_lower c then (c - 32)%N else c.

(** WhiteSpace and LineTerminator of ECMAScript, the code units [trim]
    removes. *)
Definition is_line_terminator (c : N) : bool :=
  ((c =? 10) || (c =? 13) || (c =? 8232) || (c =? 8233))%N.

Definition is_whitespace (c : N) : bool :=
  (in_range 9 13 c || (c =? 32) || (c =? 160) || (c =? 5760)
   || in_range 8192 8202 c || (c =? 8232) || (c =? 8233) || (c =? 8239)
   || (c =? 8287) || (c =? 12288) || (c =? 65279))%N.

(** ** Built-ins that do not depend on Unicode tables *)

(** A string is falsy exactly when it is empty. *)
Definition truthy (s : jsstring) : bool :=
  match s with [] => false | _ :: _ => true end.

(** [String.prototype.trim]. *)
Definition trim (s : jsstring) : jsstring :=
  reverse (drop_while is_whitespace (reverse (drop_while is_whitespace s))).

(** [String.prototype.padEnd]: the string itself when it is long enough or
    the filler is empty, else the string followed by the filler repeated
    and cut to the missing length. *)
Definition padEnd (n : nat) (fill s : jsstring) : jsstring :=
  if decide (n ≤ length s) then s
  else match fill with
       | [] => s
       | _ :: _ => s ++ take (n - length s) (mjoin (replicate (n - length s) fill))
       end.

(** [s.replace(pat, repl)] with a string as pattern: the first occurrence
    of [pat] is replaced, and an empty pattern occurs at the start. *)
Fixpoint replace_literal (pat repl s : jsstring) : jsstring :=
  if bool_decide (pat `prefix_of` s) then repl ++ drop (length pat) s
  else match s with
       | [] => []
       | c :: s' => c :: replace_literal pat repl s'
       end.

(** The double quote and the line feed, which a literal cannot hold. *)
Definition dquote : jsstring := [34%N].
Definition newline : jsstring := [10%N].

(** [Number.prototype.toString] on a non-negative integer. *)
Fixpoint uint_units (d : Decimal.uint) : jsstring :=
  match d with
  | Decimal.Nil => []
  | Decimal.D0 d => 48%N :: uint_units d
  | Decimal.D1 d => 49%N :: uint_units d
  | Decimal.D2 d => 50%N :: uint_units d
  | Decimal.D3 d => 51%N :: uint_units d
  | Decimal.D4 d => 52%N :: uint_units d
  | Decimal.D5 d => 53%N :: uint_units d
  | Decimal.D6 d => 54%N :: uint_units d
  | Decimal.D7 d => 55%N :: uint_units d
  | Decimal.D8 d => 56%N :: uint_units d
  | Decimal.D9 d => 57%N :: uint_units d
  end.

Definition number_toString (n : N) : jsstring := uint_units (N.to_uint n).

(** The order of [<] and [>] on strings: lexicographic on code units. *)
Fixpoint js_compare (a b : jsstring) : comparison :=
  match a, b with
  | [], [] => Eq
  | [], _ :: _ => Lt
  | _ :: _, [] => Gt
  | x :: a', y :: b' =>
      match (x ?= y)%N with
      | Eq => js_compare a' b'
      | c => c
      end
  end.

Definition js_leb (a b : jsstring) : bool :=
  match js_compare a b with Gt => false | _ => true end.

(** ** The Unicode-dependent built-ins

    [toLowerCase] and [toUpperCase] follow the Unicode case tables and
    [transliterate] the table of the [transliteration] package.  The
    scripts only rely on their behaviour on ASCII, which the laws state;
    everything proved about the scripts holds for every runtime that
    satisfies them. *)
Class JsRuntime := {
  toLowerCase : jsstring → jsstring;
  toUpperCase : jsstring → jsstring;
  transliterate : jsstring → jsstring;
  toLowerCase_ascii s :
    Forall (λ c, is_ascii c = true) s → toLowerCase s = lower_unit <$> s;
  toUpperCase_ascii s :
    Forall (λ c, is_ascii c = true) s → toUpperCase s = upper_unit <$> s;
  transliterate_alnum s :
    Forall (λ c, is_alnum c = true) s → transliterate s = s
}.

(** The runtime restricted to ASCII: code units above 127 are left alone.
    It is the runtime the concrete examples are evaluated with. *)
#[export] Instance ascii_runtime : JsRuntime := {|
  toLowerCase := fmap lower_unit;
  toUpperCase := fmap upper_unit;
  transliterate := id;
  toLowerCase_ascii _ _ := eq_refl;
  toUpperCase_ascii _ _ := eq_refl;
  transliterate_alnum _ _ := eq_refl
|}.

(** ** Character class lemmas *)

(** Evaluate the character and string literals of the goal. *)
Ltac lit_compute :=
  repeat match goal with
  | |- context [ch ?a] =>
      let v := eval vm_compute in (ch a) in change (ch a) with v
  | |- context [js ?a] =>
      let v := eval vm_compute in (js a) in change (js a) with v
  end.

(** Unfold the character classes and decide the resulting arithmetic. *)
Ltac char_lia :=
  unfold is_alnum, is_alpha, is_digit, is_upper, is_lower, is_whitespace,
    is_line_terminator, is_ascii, in_range in *;
  bool_to_prop; lia.

(** Decide that a concrete string is made of code units of a class. *)
Ltac all_units := apply Forall_forallb; vm_compute; reflexivity.

Lemma is_alnum_ascii c : is_alnum c = true → is_ascii c = true.
Proof. char_lia. Qed.

Lemma is_alnum_not_whitespace c : is_alnum c = true → is_whitespace c = false.
Proof. char_lia. Qed.

Lemma lower_unit_idemp c : lower_unit (lower_unit c) = lower_unit c.
Proof.
  unfold lower_unit. destruct (is_upper c) eqn:E; [|by rewrite E].
  destruct (is_upper (c + 32)) eqn:E'; [char_lia | done].
Qed.

Lemma lower_unit_ascii c : is_ascii c = true → is_ascii (lower_unit c) = true.
Proof. unfold lower_unit. destruct (is_upper c) eqn:E; [char_lia | done]. Qed.

Lemma lower_unit_not_upper c : is_upper (lower_unit c) = false.
Proof. unfold lower_unit. destruct (is_upper c) eqn:E; [char_lia | done]. Qed.

Lemma upper_lower_unit c : is_lower c = true → lower_unit (upper_unit c) = c.
Proof.
  unfold lower_unit, upper_unit. intros E. rewrite E.
  destruct (is_upper (c - 32)) eqn:E'; char_lia.
Qed.

(** ** Truthiness, trimming, padding *)

(** With the [i] flag the range of the lower-case letters holds the
    letters of both cases. *)
Lemma alpha_range_ci u :
  in_range 97 122 (upper_unit u) || in_range 97 122 (lower_unit u) = is_alpha u.
Proof.
  unfold upper_unit, lower_unit. apply eq_true_iff_eq.
  destruct (is_lower u) eqn:El, (is_upper u) eqn:Eu; char_lia.
Qed.

Lemma truthy_nil s : truthy s = false ↔ s = [].
Proof. destruct s; simpl; split; congruence. Qed.

Lemma truthy_length s : truthy s = true ↔ 0 < length s.
Proof. destruct s; simpl; split; (congruence || lia || auto). Qed.

(** A string whose first and last code units are not white space is left
    unchanged by [trim]. *)
Lemma trim_no_whitespace s :
  Forall (λ c, is_whitespace c = false) s → trim s = s.
Proof.
  intros H. unfold trim.
  assert (Hd : ∀ l, Forall (λ c, is_whitespace c = false) l →
                    drop_while is_whitespace l = l).
  { intros [|c l] Hl; [done|]. inversion Hl; subst. by apply drop_while_false. }
  rewrite (Hd s H), Hd, reverse_involutive; [done|].
  by apply Forall_reverse.
Qed.

Lemma trim_alnum s : Forall (λ c, is_alnum c = true) s → trim s = s.
Proof.
  intros H. apply trim_no_whitespace.
  eapply Forall_impl; [exact H|]. apply is_alnum_not_whitespace.
Qed.

Lemma padEnd_length n fill s :
  fill ≠ [] → length (padEnd n fill s) = max n (length s).
Proof.
  intros Hf. unfold padEnd. case_decide; [lia|].
  destruct fill as [|c fill]; [done|].
  rewrite length_app, length_take.
  assert (n - length s ≤ length (mjoin (replicate (n - length s) (c :: fill)))).
  { generalize (n - length s). intros k. induction k as [|k IH]; simpl; [lia|].
    rewrite length_app. lia. }
  lia.
Qed.

Lemma padEnd_prefix n fill s : s `prefix_of` padEnd n fill s.
Proof.
  unfold padEnd. case_decide; [done|].
  destruct fill; [done|]. by apply prefix_app_r.
Qed.

(** ** Printing numbers *)

Lemma uint_units_inj d d' : uint_units d = uint_units d' → d = d'.
Proof.
  revert d'. induction d; intros []; simpl; intros E; simplify_eq; f_equal; auto.
Qed.

(** Different numbers print differently. *)
Lemma number_toString_inj n n' : number_toString n = number_toString n' → n = n'.
Proof. intros E%uint_units_inj. by apply Unsigned.to_uint_inj. Qed.

Lemma uint_units_digits d : Forall (λ c, is_digit c = true) (uint_units d).
Proof. induction d; simpl; constructor; done. Qed.

Lemma number_toString_digits n : Forall (λ c, is_digit c = true) (number_toString n).
Proof. apply uint_units_digits. Qed.

(** A printed number is never the empty string. *)
Lemma number_toString_truthy n : truthy (number_toString n) = true.
Proof.
  unfold number_toString. destruct n as [|p]; [done|].
  change (N.to_uint (N.pos p)) with (Pos.to_uint p).
  destruct (Pos.to_uint p) eqn:E; try done.
  by destruct (DecimalPos.Unsigned.to_uint_nonnil p).
Qed.

(** ** The string order *)

Lemma js_compare_refl a : js_compare a a = Eq.
Proof. induction a as [|x a IH]; simpl; [done|]. by rewrite N.compare_refl. Qed.

Lemma js_compare_eq a b : js_compare a b = Eq ↔ a = b.
Proof.
  split; [|intros ->; apply js_compare_refl].
  revert b. induction a as [|x a IH]; intros [|y b]; simpl; try done.
  destruct (N.compare_spec x y); try done. intros ?%IH. congruence.
Qed.

Lemma js_compare_antisym a b : js_compare b a = CompOpp (js_compare a b).
Proof.
  revert b. induction a as [|x a IH]; intros [|y b]; simpl; try done.
  rewrite (N.compare_antisym x y).
  destruct (x ?= y)%N; simpl; auto.
Qed.

Lemma js_compare_lt_trans a b c :
  js_compare a b = Lt → js_compare b c = Lt → js_compare a c = Lt.
Proof.
  revert b c. induction a as [|x a IH]; intros [|y b] [|z c]; simpl; try done.
  destruct (N.compare_spec x y), (N.compare_spec y z); try done; subst.
  - rewrite N.compare_refl. apply IH.
  - intros _ _. by apply N.compare_lt_iff in H0 as ->.
  - intros _ _. by apply N.compare_lt_iff in H as ->.
  - intros _ _. assert (Hxz : (x < z)%N) by lia.
    by apply N.compare_lt_iff in Hxz as ->.
Qed.

Lemma js_leb_refl a : js_leb a a = true.
Proof. unfold js_leb. by rewrite js_compare_refl. Qed.

Lemma js_leb_total a b : js_leb a b = true ∨ js_leb b a = true.
Proof.
  unfold js_leb. rewrite (js_compare_antisym a b).
  destruct (js_compare a b); simpl; auto.
Qed.

Lemma js_leb_trans a b c : js_leb a b = true → js_leb b c = true → js_leb a c = true.
Proof.
  unfold js_leb.
  destruct (js_compare a b) eqn:E1; [|
    destruct (js_compare b c) eqn:E2; [| |done] | done].
  - apply js_compare_eq in E1 as ->. done.
  - apply js_compare_eq in E2 as ->. by rewrite E1.
  - by rewrite (js_compare_lt_trans _ _ _ E1 E2).
Qed.

Lemma js_leb_antisym a b : js_leb a b = true → js_leb b a = true → a = b.
Proof.
  unfold js_leb. rewrite (js_compare_antisym a b).
  destruct (js_compare a b) eqn:E; simpl; try done.
  intros _ _. by apply js_compare_eq.
Qed.

(** The order of [<=] on strings as a relation: a decidable total
    order. *)
Definition js_le (a b : jsstring) : Prop := js_leb a b = true.

#[export] Instance js_le_dec a b : Decision (js_le a b).
Proof. unfold js_le. apply _. Defined.

#[export] Instance js_le_partial_order : PartialOrder js_le.
Proof.
  split; [split|]; [exact js_leb_refl | exact js_leb_trans | exact js_leb_antisym].
Qed.

#[export] Instance js_le_total : Total js_le.
Proof. exact js_leb_total. Qed.

#[export] Instance js_le_total_order : TotalOrder js_le.
Proof.
  split; [apply _|]. intros a b. destruct (decide (a = b)) as [->|Hne]; [by right; left|].
  destruct (total js_le a b) as [Hab|Hba]; [left | right; right];
    (split; [done|]); intros ?; by apply Hne, (anti_symm js_le).
Qed.

#[export] Hint Resolve js_leb_refl is_alnum_ascii is_alnum_not_whitespace : iptv.
#[export] Hint Rewrite js_compare_refl lower_unit_idemp : iptv.
