(* ===== verification/Regex.v ===== *)
(** * Regular expressions of the scripts

    The scripts use six regular expression literals.  This file gives them
    a syntax ([regex], one constructor per construct the literals use), and
    models the ECMAScript matcher on it: a backtracking matcher in
    continuation-passing style ([m]), the search for the first match
    ([search], the loop of [RegExp.prototype.exec]), and the two string
    methods the scripts call with a regular expression, [js_match]
    ([String.prototype.match] without the [g] flag) and [replace]
    ([String.prototype.replace], with and without [g]; the replacement
    strings of the scripts contain no [$]).

    Quantifiers are greedy and an iteration of [*] that consumes nothing is
    rejected, as in the standard.  With the [i] flag a code unit is
    compared after ASCII upper-casing; the standard's [Canonicalize] maps
    no code unit above 127 to ASCII, and the literals of the scripts hold
    ASCII only, so this is exact for them. *)

From Stdlib Require Import Ascii String.
From stdpp Require Import gmap.
From S2P Require Import Prelude JsString.

(** ** Syntax *)

(** Members of a bracket expression: [x], [a-z], [\d]. *)
Inductive class_atom :=
| CChar (c : N)
| CRange (lo hi : N)
| CDigit.

Inductive regex :=
| REmpty                                   (* the empty alternative *)
| RChar (c : N)                            (* a literal or an escaped one *)
| RDot                                     (* . *)
| RClass (negated : bool) (atoms : list class_atom)  (* [..] and [^..] *)
| RSeq (r1 r2 : regex)
| RAlt (r1 r2 : regex)                     (* r1|r2 *)
| RStar (r : regex)                        (* r* *)
| RPlus (r : regex)                        (* r+ *)
| RRepeat (n : nat) (r : regex)            (* r{n} *)
| RGroup (i : nat) (r : regex)             (* the i-th capturing group *)
| RBol                                     (* ^ *)
| REol.                                    (* $ *)

(** A literal with its flags. *)
Record Regex := {
  pattern : regex;
  ignoreCase : bool;
  global : bool
}.

(** ** Matcher state: the end index, the input from there on, and the
    captures made so far. *)
Record mstate := MState {
  consumed : nat;
  rest : jsstring;
  caps : gmap nat jsstring
}.

Abbreviation cont := (mstate → option mstate).

Definition accept : cont := Some.

Definition canon (ic : bool) (c : N) : N := if ic then upper_unit c else c.

Definition atom_mem (ic : bool) (u : N) (a : class_atom) : bool :=
  match a with
  | CChar c => (canon ic u =? canon ic c)%N
  | CRange lo hi =>
      if ic then in_range lo hi (upper_unit u) || in_range lo hi (lower_unit u)
      else in_range lo hi u
  | CDigit => is_digit u
  end.

Definition class_mem (ic negated : bool) (atoms : list class_atom) (u : N) : bool :=
  xorb negated (existsb (atom_mem ic u) atoms).

(** The capture groups inside a pattern; an iteration of a quantifier
    resets them. *)
Fixpoint groups (r : regex) : list nat :=
  match r with
  | RSeq r1 r2 | RAlt r1 r2 => groups r1 ++ groups r2
  | RStar r' | RPlus r' | RRepeat _ r' => groups r'
  | RGroup i r' => i :: groups r'
  | _ => []
  end.

Definition clear_groups (r : regex) (x : mstate) : mstate :=
  MState (consumed x) (rest x) (foldr delete (caps x) (groups r)).

Definition set_cap (i : nat) (w : jsstring) (y : mstate) : mstate :=
  MState (consumed y) (rest y) (<[i:=w]> (caps y)).

(** One code unit that satisfies [p]. *)
Definition consume (p : N → bool) (k : cont) (x : mstate) : option mstate :=
  match rest x with
  | c :: s => if p c then k (MState (S (consumed x)) s (caps x)) else None
  | [] => None
  end.

(** Greedy iteration: try one more iteration first, and reject an
    iteration that ends where it started; fall back to the continuation. *)
Fixpoint loop (mr : cont → cont) (clear : mstate → mstate) (fuel : nat)
    (k : cont) (x : mstate) : option mstate :=
  match fuel with
  | 0 => k x
  | S f =>
      match mr (λ y, if consumed y =? consumed x then None
                     else loop mr clear f k y) (clear x) with
      | Some z => Some z
      | None => k x
      end
  end.

Fixpoint repeat_n (mr : cont → cont) (clear : mstate → mstate) (n : nat)
    (k : cont) (x : mstate) : option mstate :=
  match n with
  | 0 => k x
  | S n' => mr (repeat_n mr clear n' k) (clear x)
  end.

Fixpoint m (ic : bool) (r : regex) (k : cont) (x : mstate) : option mstate :=
  match r with
  | REmpty => k x
  | RChar c => consume (λ u, (canon ic u =? canon ic c)%N) k x
  | RDot => consume (λ u, negb (is_line_terminator u)) k x
  | RClass negated atoms => consume (class_mem ic negated atoms) k x
  | RSeq r1 r2 => m ic r1 (m ic r2 k) x
  | RAlt r1 r2 =>
      match m ic r1 k x with
      | Some z => Some z
      | None => m ic r2 k x
      end
  | RStar r' => loop (m ic r') (clear_groups r') (S (length (rest x))) k x
  | RPlus r' =>
      m ic r' (λ y, loop (m ic r') (clear_groups r') (S (length (rest y))) k y)
        (clear_groups r' x)
  | RRepeat n r' => repeat_n (m ic r') (clear_groups r') n k x
  | RGroup i r' =>
      m ic r' (λ y, k (set_cap i (take (consumed y - consumed x) (rest x)) y)) x
  | RBol => if consumed x =? 0 then k x else None
  | REol => match rest x with [] => k x | _ :: _ => None end
  end.

(** ** Searching and the string methods *)

(** A match attempt at index [i], where [s] is the input from [i] on. *)
Definition match_at (r : Regex) (i : nat) (s : jsstring) : option mstate :=
  m (ignoreCase r) (pattern r) accept (MState i s ∅).

(** The first index from [i] on at which the pattern matches, with the
    final state of that match. *)
Fixpoint search (r : Regex) (i : nat) (s : jsstring) : option (nat * mstate) :=
  match match_at r i s with
  | Some y => Some (i, y)
  | None =>
      match s with
      | [] => None
      | _ :: s' => search r (S i) s'
      end
  end.

(** [s.match(r)] for a literal without [g]: the array of the whole match
    and of each group, or [None] for [null]. *)
Definition js_match (r : Regex) (s : jsstring) : option (list (option jsstring)) :=
  match search r 0 s with
  | None => None
  | Some (j, y) =>
      Some (Some (take (consumed y - j) (drop j s))
            :: ((λ i, caps y !! i) <$> seq 1 (length (groups (pattern r)))))
  end.

(** The loop of a global replace from index [i], where [s] is the input
    from [i] on.  After an empty match the next search starts one code
    unit further. *)
Fixpoint replace_loop (r : Regex) (repl : jsstring) (fuel i : nat)
    (s : jsstring) : jsstring :=
  match fuel with
  | 0 => s
  | S f =>
      match search r i s with
      | None => s
      | Some (j, y) =>
          let pre := take (j - i) s in
          if consumed y =? j then
            match drop (j - i) s with
            | [] => pre ++ repl
            | c :: s' => pre ++ repl ++ c :: replace_loop r repl f (S j) s'
            end
          else pre ++ repl ++ replace_loop r repl f (consumed y) (rest y)
      end
  end.

Definition replace (r : Regex) (repl s : jsstring) : jsstring :=
  if global r then replace_loop r repl (S (length s)) 0 s
  else match search r 0 s with
       | None => s
       | Some (j, y) => take j s ++ repl ++ rest y
       end.

(** ** The matcher only moves forward

    [advances x y]: state [y] is reached from [x] by consuming a prefix of
    the remaining input. *)
Definition advances (x y : mstate) : Prop :=
  ∃ w, rest x = w ++ rest y ∧ consumed y = consumed x + length w.

(** A matcher component is forward when a success is a success of its
    continuation on a state further on, and when it only looks at its
    continuation on such states. *)
Definition forward (mr : cont → cont) : Prop :=
  (∀ k x z, mr k x = Some z → ∃ y, advances x y ∧ k y = Some z) ∧
  (∀ k1 k2 x, (∀ y, advances x y → k1 y = k2 y) → mr k1 x = mr k2 x).

(** A reset of captures leaves the position alone. *)
Definition keeps_position (clear : mstate → mstate) : Prop :=
  ∀ x, consumed (clear x) = consumed x ∧ rest (clear x) = rest x.

Lemma advances_refl x : advances x x.
Proof. exists []. simpl. split; [done | lia]. Qed.

Lemma advances_trans x y z : advances x y → advances y z → advances x z.
Proof.
  intros (w1 & H1 & H1') (w2 & H2 & H2'). exists (w1 ++ w2).
  rewrite H1, H2, length_app, <-app_assoc. split; [done | lia].
Qed.

Lemma advances_length x y : advances x y → length (rest y) ≤ length (rest x).
Proof. intros (w & -> & _). rewrite length_app. lia. Qed.

Lemma advances_consumed x y : advances x y → consumed x ≤ consumed y.
Proof. intros (w & _ & ->). lia. Qed.

(** A step that consumed something left strictly less input. *)
Lemma advances_progress x y :
  advances x y → consumed y ≠ consumed x → length (rest y) < length (rest x).
Proof.
  intros (w & -> & Hc) Hne. rewrite length_app.
  destruct w; simpl in *; lia.
Qed.

Lemma advances_same x x' y :
  consumed x' = consumed x → rest x' = rest x → advances x' y ↔ advances x y.
Proof. intros Hc Hr. unfold advances. by rewrite Hc, Hr. Qed.

Lemma advances_consume x c s :
  rest x = c :: s → advances x (MState (S (consumed x)) s (caps x)).
Proof. intros H. exists [c]. simpl. split; [done | lia]. Qed.

Lemma clear_groups_keeps r : keeps_position (clear_groups r).
Proof. by intros x. Qed.

Lemma advances_set_cap x y i w : advances x y → advances x (set_cap i w y).
Proof. done. Qed.

#[export] Hint Resolve advances_refl advances_consume clear_groups_keeps
  advances_set_cap : iptv.

(** Close a goal [∃ y, advances x y ∧ k y = Some z] from the
    hypotheses. *)
Ltac fwd :=
  intros;
  match goal with
  | H : ?k ?y = Some ?z |- ∃ _, _ ∧ ?k _ = Some ?z =>
      exists y; split;
      [solve [eauto using advances_trans with iptv] | exact H]
  end.

Lemma forward_consume p : forward (consume p).
Proof.
  split; unfold consume.
  - intros k x z. destruct (rest x) as [|c s] eqn:E; [done|].
    destruct (p c); [|done]. intros Hk. eexists. split; [|exact Hk].
    by eapply advances_consume.
  - intros k1 k2 x H. destruct (rest x) as [|c s] eqn:E; [done|].
    destruct (p c); [|done]. apply H. by eapply advances_consume.
Qed.

Section Quantifiers.
Context (mr : cont → cont) (clear : mstate → mstate).
Context (Hmr : forward mr) (Hclear : keeps_position clear).

Lemma advances_clear x y : advances (clear x) y → advances x y.
Proof. destruct (Hclear x). by apply advances_same. Qed.

Lemma loop_sound fuel k x z :
  loop mr clear fuel k x = Some z → ∃ y, advances x y ∧ k y = Some z.
Proof.
  revert k x. induction fuel as [|f IH]; intros k x; simpl; [fwd|].
  destruct (mr _ (clear x)) as [z'|] eqn:E; [|fwd].
  intros [= ->]. apply Hmr in E as (y & Hy%advances_clear & Hk).
  destruct (consumed y =? consumed x); [done|].
  apply IH in Hk as (y' & ? & ?). fwd.
Qed.

Lemma loop_ext fuel k1 k2 x :
  (∀ y, advances x y → k1 y = k2 y) →
  loop mr clear fuel k1 x = loop mr clear fuel k2 x.
Proof.
  revert x. induction fuel as [|f IH]; intros x H; simpl.
  { auto with iptv. }
  rewrite (H x) by auto with iptv.
  erewrite (proj2 Hmr); [done|]. intros y Hy%advances_clear. simpl.
  destruct (consumed y =? consumed x); [done|].
  apply IH. eauto using advances_trans.
Qed.

(** Fuel above the length of the remaining input is never exhausted:
    any two such amounts give the same result. *)
Lemma loop_fuel_enough f1 f2 k x :
  length (rest x) < f1 → length (rest x) < f2 →
  loop mr clear f1 k x = loop mr clear f2 k x.
Proof.
  revert f2 x. induction f1 as [|f1 IH]; intros [|f2] x H1 H2; try lia.
  simpl. erewrite (proj2 Hmr); [done|].
  intros y Hy%advances_clear. simpl.
  destruct (consumed y =? consumed x) eqn:E; [done|].
  apply Nat.eqb_neq in E. pose proof (advances_progress _ _ Hy E).
  apply IH; lia.
Qed.

Lemma repeat_n_sound n k x z :
  repeat_n mr clear n k x = Some z → ∃ y, advances x y ∧ k y = Some z.
Proof.
  revert x. induction n as [|n IH]; intros x; simpl; [fwd|].
  intros (y & Hy%advances_clear & Hk)%Hmr.
  apply IH in Hk as (y' & ? & ?). fwd.
Qed.

Lemma repeat_n_ext n k1 k2 x :
  (∀ y, advances x y → k1 y = k2 y) →
  repeat_n mr clear n k1 x = repeat_n mr clear n k2 x.
Proof.
  revert x. induction n as [|n IH]; intros x H; simpl; [auto with iptv|].
  apply (proj2 Hmr). intros y Hy%advances_clear.
  apply IH. eauto using advances_trans.
Qed.

End Quantifiers.

(** Every pattern denotes a forward matcher. *)
Lemma forward_m ic r : forward (m ic r).
Proof.
  induction r as [|c| |neg atoms|r1 IH1 r2 IH2|r1 IH1 r2 IH2|r IH|r IH|n r IH
                  |i r IH| |]; cbn [m]; try apply forward_consume.
  - split; [fwd | auto with iptv].
  - split.
    + intros k x z (y & ? & (y' & ? & ?)%IH2)%IH1. fwd.
    + intros k1 k2 x H. apply IH1. intros y Hy. apply IH2.
      eauto using advances_trans.
  - split.
    + intros k x z. destruct (m ic r1 k x) eqn:E.
      * intros [= ->]. by apply IH1.
      * apply IH2.
    + intros k1 k2 x H.
      by rewrite (proj2 IH1 k1 k2 x H), (proj2 IH2 k1 k2 x H).
  - split.
    + intros k x z. by apply loop_sound.
    + intros k1 k2 x. by apply loop_ext.
  - split.
    + intros k x z (y & Hy & (y' & ? & ?)%loop_sound)%IH; [|done..]. fwd.
    + intros k1 k2 x H. apply IH. intros y Hy.
      apply loop_ext; [done..|]. eauto using advances_trans.
  - split.
    + intros k x z. by apply repeat_n_sound.
    + intros k1 k2 x. by apply repeat_n_ext.
  - split.
    + intros k x z (y & Hy & Hk)%IH. fwd.
    + intros k1 k2 x H. apply IH. intros y Hy. auto with iptv.
  - split; [intros k x z | intros k1 k2 x H];
      destruct (consumed x =? 0); first [done | fwd | auto with iptv].
  - split; [intros k x z | intros k1 k2 x H];
      destruct (rest x); first [done | fwd | auto with iptv].
Qed.

(** A success of the matcher is a success of the continuation further on. *)
Lemma m_sound ic r k x z :
  m ic r k x = Some z → ∃ y, advances x y ∧ k y = Some z.
Proof. apply forward_m. Qed.

(** ** Bounds of a match *)

(** A match that starts at index [i] ends inside the input: the final
    state holds a suffix of the input and the index after the matched
    text. *)
Lemma match_at_advances r i s y :
  match_at r i s = Some y → advances (MState i s ∅) y.
Proof.
  unfold match_at. intros (y' & Hy & [= ->])%m_sound. done.
Qed.

(** [search] returns the leftmost index at which the pattern matches. *)
Lemma search_Some r i s j y :
  search r i s = Some (j, y) →
  i ≤ j ≤ i + length s
  ∧ match_at r j (drop (j - i) s) = Some y
  ∧ ∀ n, n < j - i → match_at r (i + n) (drop n s) = None.
Proof.
  revert i. induction s as [|c s IH]; intros i; simpl.
  - destruct (match_at r i []) eqn:E; [|done]. intros [= -> ->].
    rewrite Nat.sub_diag. repeat split; [lia.. | done | lia].
  - destruct (match_at r i (c :: s)) eqn:E.
    + intros [= -> ->]. rewrite Nat.sub_diag. repeat split; [lia.. | done | lia].
    + intros (Hj & Hm & Hleft)%IH. replace (j - i) with (S (j - S i)) by lia.
      repeat split; [lia.. | done |]. intros [|n] Hn.
      * by rewrite Nat.add_0_r.
      * replace (i + S n) with (S i + n) by lia. apply Hleft. lia.
Qed.

Lemma search_None r i s n :
  search r i s = None → n ≤ length s → match_at r (i + n) (drop n s) = None.
Proof.
  revert i n. induction s as [|c s IH]; intros i n; simpl.
  - destruct (match_at r i []) eqn:E; [done|]. intros _ Hn.
    replace n with 0 by lia. by rewrite Nat.add_0_r.
  - destruct (match_at r i (c :: s)) eqn:E; [done|]. intros Hs Hn.
    destruct n as [|n]; [by rewrite Nat.add_0_r|].
    replace (i + S n) with (S i + n) by lia. apply IH; [done | lia].
Qed.

(** The state a search ends in is ahead of the index it reports. *)
Lemma search_advances r i s j y :
  search r i s = Some (j, y) →
  ∃ w, drop (j - i) s = w ++ rest y ∧ consumed y = j + length w.
Proof.
  intros (_ & Hm%match_at_advances & _)%search_Some.
  destruct Hm as (w & Hw & Hc). by exists w.
Qed.

(** ** Fuel of the global replacement *)

(** An iteration of the replacement loop leaves less input than it
    found, so fuel above the length of the input is never exhausted. *)
Lemma replace_loop_fuel_enough r repl f1 f2 i s :
  length s < f1 → length s < f2 →
  replace_loop r repl f1 i s = replace_loop r repl f2 i s.
Proof.
  revert f2 i s. induction f1 as [|f1 IH]; intros [|f2] i s H1 H2; try lia.
  simpl. destruct (search r i s) as [[j y]|] eqn:E; [|done].
  pose proof (search_Some _ _ _ _ _ E) as (Hj & _ & _).
  destruct (search_advances _ _ _ _ _ E) as (w & Hw & Hc).
  assert (Hlen : length (drop (j - i) s) = length s - (j - i)) by apply length_drop.
  destruct (consumed y =? j) eqn:Hempty.
  - destruct (drop (j - i) s) as [|c s'] eqn:Hd; [done|].
    do 3 f_equal. simpl in Hlen. apply IH; lia.
  - do 2 f_equal. apply Nat.eqb_neq in Hempty.
    rewrite Hw, length_app in Hlen. destruct w; simpl in *; [lia|].
    apply IH; lia.
Qed.

(** ** Patterns that consume one code unit

    A literal, the dot and a bracket expression all test one code unit.
    For such a pattern a global replacement rewrites every code unit that
    passes the test, and for its [+] every maximal run of them. *)

Fixpoint replace_units (p : N → bool) (repl s : jsstring) : jsstring :=
  match s with
  | [] => []
  | c :: s' => (if p c then repl else [c]) ++ replace_units p repl s'
  end.

Fixpoint replace_runs (p : N → bool) (repl : jsstring) (in_run : bool)
    (s : jsstring) : jsstring :=
  match s with
  | [] => []
  | c :: s' =>
      if p c then (if in_run then [] else repl) ++ replace_runs p repl true s'
      else c :: replace_runs p repl false s'
  end.

(** The test of a one-unit pattern. *)
Definition unit_test (ic : bool) (r : regex) : option (N → bool) :=
  match r with
  | RChar c => Some (λ u, (canon ic u =? canon ic c)%N)
  | RDot => Some (λ u, negb (is_line_terminator u))
  | RClass negated atoms => Some (class_mem ic negated atoms)
  | _ => None
  end.

Lemma unit_test_m ic r p : unit_test ic r = Some p → m ic r = consume p.
Proof. destruct r; simpl; intros [= <-]; done. Qed.

Lemma unit_test_groups ic r p x :
  unit_test ic r = Some p → clear_groups r x = x.
Proof. destruct r, x; simpl; intros [= <-]; done. Qed.

Lemma replace_units_ext p q repl s :
  (∀ u, p u = q u) → replace_units p repl s = replace_units q repl s.
Proof. intros E. induction s as [|c s IH]; simpl; [done|]. by rewrite E, IH. Qed.

Lemma replace_runs_ext p q repl in_run s :
  (∀ u, p u = q u) → replace_runs p repl in_run s = replace_runs q repl in_run s.
Proof.
  intros E. revert in_run. induction s as [|c s IH]; intros in_run; simpl; [done|].
  by rewrite E, !IH.
Qed.

Section Units.
Context (p : N → bool).
Implicit Types (s repl : jsstring).

Lemma replace_runs_skip repl in_run pre s :
  Forall (λ c, p c = false) pre →
  replace_runs p repl in_run (pre ++ s) = pre ++ replace_runs p repl false s
  ∨ pre = [].
Proof.
  intros Hpre. destruct Hpre as [|c pre Hc Hpre]; [by right|]. left.
  simpl. rewrite Hc. f_equal. clear c Hc.
  induction Hpre as [|c pre Hc _ IH]; simpl; [done|]. by rewrite Hc, IH.
Qed.

Lemma replace_runs_false_skip repl pre s :
  Forall (λ c, p c = false) pre →
  replace_runs p repl false (pre ++ s) = pre ++ replace_runs p repl false s.
Proof. intros [?| ->]%(replace_runs_skip repl false pre s); done. Qed.

Lemma replace_units_skip repl pre s :
  Forall (λ c, negb (p c) = true) pre →
  replace_units p repl (pre ++ s) = pre ++ replace_units p repl s.
Proof.
  induction 1 as [|c pre Hc%negb_true_iff _ IH]; simpl; [done|].
  by rewrite Hc, IH.
Qed.

Lemma replace_runs_in_run repl s :
  replace_runs p repl true s = replace_runs p repl false (drop_while p s).
Proof.
  induction s as [|c s IH]; simpl; [done|].
  destruct (p c) eqn:E; simpl; [done | by rewrite E].
Qed.

Lemma replace_runs_nil in_run s :
  replace_runs p [] in_run s = bfilter (λ c, negb (p c)) s.
Proof.
  revert in_run. induction s as [|c s IH]; intros in_run; simpl; [done|].
  destruct (p c); simpl; rewrite IH; by destruct in_run.
Qed.

Lemma loop_consume clear fuel x :
  (∀ y, clear y = y) → length (rest x) < fuel →
  loop (consume p) clear fuel accept x
  = Some (MState (consumed x + length (take_while p (rest x)))
                 (drop_while p (rest x)) (caps x)).
Proof.
  intros Hclear. revert x.
  induction fuel as [|f IH]; intros [i s cp] Hf; [simpl in Hf; lia|].
  cbn [loop]. rewrite Hclear. unfold consume at 1. cbn [rest consumed caps].
  destruct s as [|c s]; [cbn; by rewrite Nat.add_0_r|].
  cbn [take_while drop_while].
  destruct (p c) eqn:E; [|cbn; by rewrite Nat.add_0_r].
  rewrite (proj2 (Nat.eqb_neq (S i) i)) by lia.
  rewrite IH by (cbn in *; lia). cbn. do 2 f_equal. lia.
Qed.

End Units.

(** *** Search and replacement when a match is decided by its first unit

    [R] matches at a position exactly when the code unit there passes
    [p], and then takes [n] more code units. *)
Section FirstUnit.
Context (R : Regex) (p : N → bool) (n : jsstring → nat).
Context (Hm : ∀ i s, match_at R i s =
  match s with
  | [] => None
  | c :: s' => if p c then Some (MState (S i + n s') (drop (n s') s') ∅) else None
  end).
Implicit Types (s repl : jsstring).

Local Abbreviation q := (λ c, negb (p c)).

Lemma search_first_unit i s :
  search R i s =
  match drop_while q s with
  | [] => None
  | c :: s' =>
      let j := i + length (take_while q s) in
      Some (j, MState (S j + n s') (drop (n s') s') ∅)
  end.
Proof.
  revert i. induction s as [|c s IH]; intros i; simpl; rewrite Hm; [done|].
  destruct (p c); simpl; [by rewrite Nat.add_0_r|].
  rewrite IH. destruct (drop_while q s); [done|]. simpl.
  by rewrite <-!Nat.add_succ_comm.
Qed.

Lemma replace_loop_first_unit repl f i s :
  replace_loop R repl (S f) i s =
  take_while q s ++
  match drop_while q s with
  | [] => []
  | c :: s' =>
      repl ++ replace_loop R repl f (S (i + length (take_while q s)) + n s')
                (drop (n s') s')
  end.
Proof.
  cbn [replace_loop]. rewrite search_first_unit.
  pose proof (take_drop_while q s) as Hs.
  destruct (drop_while q s) as [|c s'] eqn:E.
  { by rewrite app_nil_r in Hs |- *. }
  cbn zeta. cbn [consumed rest].
  destruct (Nat.eqb_spec (S (i + length (take_while q s)) + n s')
              (i + length (take_while q s))) as [|_]; [lia|].
  replace (i + length (take_while q s) - i) with (length (take_while q s)) by lia.
  by rewrite take_take_while.
Qed.

End FirstUnit.

Section UnitPatterns.
Context (R : Regex) (r : regex) (p : N → bool).
Context (Hp : unit_test (ignoreCase R) r = Some p) (Hg : global R = true).
Implicit Types (s repl : jsstring).

Lemma match_at_unit i s :
  pattern R = r →
  match_at R i s =
  match s with
  | [] => None
  | c :: s' => if p c then Some (MState (S i + 0) (drop 0 s') ∅) else None
  end.
Proof.
  intros HR. unfold match_at. rewrite HR, (unit_test_m _ _ _ Hp).
  unfold consume. simpl. destruct s; [done|]. by rewrite Nat.add_0_r.
Qed.

Lemma match_at_unit_plus i s :
  pattern R = RPlus r →
  match_at R i s =
  match s with
  | [] => None
  | c :: s' =>
      if p c then Some (MState (S i + length (take_while p s'))
                               (drop (length (take_while p s')) s') ∅)
      else None
  end.
Proof.
  intros HR. unfold match_at. rewrite HR. cbn [m].
  rewrite (unit_test_m _ _ _ Hp), (unit_test_groups _ _ _ _ Hp).
  unfold consume at 1. cbn [rest consumed caps]. destruct s as [|c s]; [done|].
  destruct (p c); [|done].
  rewrite loop_consume; [|by intros; eapply unit_test_groups|cbn; lia].
  by rewrite drop_take_while.
Qed.

(** A global replacement with a one-unit pattern rewrites each code unit
    that passes the test. *)
Lemma replace_unit repl s :
  pattern R = r → replace R repl s = replace_units p repl s.
Proof.
  intros HR. unfold replace. rewrite Hg. generalize 0 at 1. generalize (S (length s)) (Nat.lt_succ_diag_r (length s)).
  intros f. revert s. induction f as [|f IH]; intros s Hf i; [lia|].
  rewrite (replace_loop_first_unit R p (λ _, 0)) by (intros; by apply match_at_unit).
  trans (replace_units p repl (take_while (λ c, negb (p c)) s
                               ++ drop_while (λ c, negb (p c)) s));
    [|by rewrite take_drop_while].
  rewrite replace_units_skip by apply take_while_all. f_equal.
  pose proof (length_drop_while (λ c, negb (p c)) s) as Hlen.
  destruct (drop_while (λ c, negb (p c)) s) as [|c s'] eqn:E; [done|].
  apply drop_while_head, negb_false_iff in E. simpl. rewrite E. f_equal.
  change (drop 0 s') with s'. apply IH. simpl in Hlen. lia.
Qed.

(** A global replacement with the [+] of a one-unit pattern rewrites each
    maximal run of code units that pass the test. *)
Lemma replace_unit_plus repl s :
  pattern R = RPlus r → replace R repl s = replace_runs p repl false s.
Proof.
  intros HR. unfold replace. rewrite Hg. generalize 0 at 1. generalize (S (length s)) (Nat.lt_succ_diag_r (length s)).
  intros f. revert s. induction f as [|f IH]; intros s Hf i; [lia|].
  rewrite (replace_loop_first_unit R p (λ s', length (take_while p s')))
    by (intros; by apply match_at_unit_plus).
  trans (replace_runs p repl false (take_while (λ c, negb (p c)) s
                                    ++ drop_while (λ c, negb (p c)) s));
    [|by rewrite take_drop_while].
  pose proof (length_drop_while (λ c, negb (p c)) s) as Hlen.
  rewrite replace_runs_false_skip; [f_equal|].
  2: { eapply Forall_impl; [apply take_while_all|]. intros c. apply negb_true_iff. }
  destruct (drop_while (λ c, negb (p c)) s) as [|c s'] eqn:E; [done|].
  apply drop_while_head, negb_false_iff in E. simpl. rewrite E.
  f_equal. rewrite replace_runs_in_run, drop_take_while.
  apply IH. pose proof (length_drop_while p s'). simpl in Hlen. lia.
Qed.

End UnitPatterns.

(** ** Summary theorems *)

(** A match never reads past the input: the state it ends in holds a
    suffix of the input, and its end index is the start index plus the
    length of the matched text. *)
Theorem match_within_input r i s y :
  match_at r i s = Some y →
  ∃ matched, s = matched ++ rest y ∧ consumed y = i + length matched
             ∧ consumed y ≤ i + length s.
Proof.
  intros (w & Hw & Hc)%match_at_advances. simpl in *. exists w.
  rewrite Hw, length_app. repeat split; [done | lia].
Qed.

(** The quantifier loops terminate within their fuel: the matcher
    gives [*] one unit of fuel more than there are code units left, and
    any larger amount yields the same result. *)
Theorem star_fuel_is_enough ic r k x f :
  length (rest x) < f →
  m ic (RStar r) k x = loop (m ic r) (clear_groups r) f k x.
Proof.
  intros Hf. cbn [m]. apply loop_fuel_enough; auto using forward_m with iptv.
Qed.

(** [search] reports the leftmost index at which the pattern matches:
    the pattern matches there and at no index before it. *)
Theorem search_is_leftmost r i s j y :
  search r i s = Some (j, y) →
  match_at r j (drop (j - i) s) = Some y
  ∧ ∀ n, n < j - i → match_at r (i + n) (drop n s) = None.
Proof. by intros (_ & ? & ?)%search_Some. Qed.

(** The global replacement terminates within its fuel: with any fuel
    above the length of the subject the loop returns what [replace]
    returns. *)
Theorem replace_fuel_is_enough r repl s f :
  global r = true → length s < f →
  replace r repl s = replace_loop r repl f 0 s.
Proof.
  intros Hg Hf. unfold replace. rewrite Hg.
  apply replace_loop_fuel_enough; lia.
Qed.

(** A literal to try the theorems on: "/a+b/g". *)
Definition example_regex : Regex := {|
  pattern := RSeq (RPlus (RChar (ch "a"))) (RChar (ch "b"));
  ignoreCase := false;
  global := true
|}.

Lemma match_within_input_witness :
  ∃ matched, js "aabc" = matched ++ js "c" ∧ 3 = 0 + length matched
             ∧ 3 ≤ 0 + length (js "aabc").
Proof.
  apply (match_within_input example_regex 0 (js "aabc") (MState 3 (js "c") ∅)).
  vm_compute. reflexivity.
Defined.

Lemma star_fuel_is_enough_witness :
  m false (RStar (RChar (ch "a"))) accept (MState 0 (js "aab") ∅)
  = loop (m false (RChar (ch "a"))) (clear_groups (RChar (ch "a"))) 7 accept
      (MState 0 (js "aab") ∅).
Proof.
  apply (star_fuel_is_enough false (RChar (ch "a")) accept (MState 0 (js "aab") ∅) 7).
  vm_compute. lia.
Defined.

Lemma search_is_leftmost_witness :
  match_at example_regex 1 (drop (1 - 0) (js "caabab")) = Some (MState 4 (js "ab") ∅)
  ∧ ∀ n, n < 1 - 0 → match_at example_regex (0 + n) (drop n (js "caabab")) = None.
Proof.
  apply (search_is_leftmost example_regex 0 (js "caabab") 1 (MState 4 (js "ab") ∅)).
  vm_compute. reflexivity.
Defined.

Lemma replace_fuel_is_enough_witness :
  replace example_regex (js "-") (js "caabab")
  = replace_loop example_regex (js "-") 9 0 (js "caabab").
Proof.
  apply (replace_fuel_is_enough example_regex (js "-") (js "caabab") 9).
  - reflexivity.
  - vm_compute. lia.
Defined.
