(* ===== verification/RegexSpec.v ===== *)
(** * What a regular expression matches

    A declarative reading of the syntax of [Regex]: [derives ic r x y]
    says that pattern [r] can take the matcher from state [x] to state
    [y], with no order among the alternatives and no bound on the
    iterations.  The backtracking matcher [m] implements it: it succeeds
    exactly when some derivation leads to a state its continuation
    accepts, and the state it hands to the continuation is the end of a
    derivation.  The theorems about the literals of the scripts that hold
    for every subject are proved on derivations, by inversion. *)

From stdpp Require Import gmap.
From S2P Require Import Prelude JsString Regex.

(** ** Derivations *)

Inductive derives (ic : bool) : regex → mstate → mstate → Prop :=
| derives_empty x : derives ic REmpty x x
| derives_char c x u s :
    rest x = u :: s → canon ic u = canon ic c →
    derives ic (RChar c) x (MState (S (consumed x)) s (caps x))
| derives_dot x u s :
    rest x = u :: s → is_line_terminator u = false →
    derives ic RDot x (MState (S (consumed x)) s (caps x))
| derives_class negated atoms x u s :
    rest x = u :: s → class_mem ic negated atoms u = true →
    derives ic (RClass negated atoms) x (MState (S (consumed x)) s (caps x))
| derives_seq r1 r2 x y z :
    derives ic r1 x y → derives ic r2 y z → derives ic (RSeq r1 r2) x z
| derives_alt_l r1 r2 x y : derives ic r1 x y → derives ic (RAlt r1 r2) x y
| derives_alt_r r1 r2 x y : derives ic r2 x y → derives ic (RAlt r1 r2) x y
| derives_star_stop r x : derives ic (RStar r) x x
| derives_star_step r x y z :
    derives ic r (clear_groups r x) y → consumed y ≠ consumed x →
    derives ic (RStar r) y z → derives ic (RStar r) x z
| derives_plus r x y z :
    derives ic r (clear_groups r x) y → derives ic (RStar r) y z →
    derives ic (RPlus r) x z
| derives_repeat_0 r x : derives ic (RRepeat 0 r) x x
| derives_repeat_S n r x y z :
    derives ic r (clear_groups r x) y → derives ic (RRepeat n r) y z →
    derives ic (RRepeat (S n) r) x z
| derives_group i r x y :
    derives ic r x y →
    derives ic (RGroup i r) x (set_cap i (take (consumed y - consumed x) (rest x)) y)
| derives_bol x : consumed x = 0 → derives ic RBol x x
| derives_eol x : rest x = [] → derives ic REol x x.

(** A pattern matches at index [i] of a subject of which [s] is the part
    from [i] on. *)
Definition matches_at (r : Regex) (i : nat) (s : jsstring) (y : mstate) : Prop :=
  derives (ignoreCase r) (pattern r) (MState i s ∅) y.

(** The text a derivation consumed. *)
Definition matched (x y : mstate) : jsstring :=
  take (consumed y - consumed x) (rest x).

#[export] Hint Constructors derives : iptv.

(** ** One code unit *)

Lemma consume_Some p k x z :
  consume p k x = Some z ↔
  ∃ u s, rest x = u :: s ∧ p u = true ∧ k (MState (S (consumed x)) s (caps x)) = Some z.
Proof.
  unfold consume. destruct (rest x) as [|u s].
  { split; [done | by intros (? & ? & ? & _)]. }
  destruct (p u) eqn:E.
  - split; [by exists u, s | by intros (? & ? & [= <- <-] & _ & ?)].
  - split; [done | intros (? & ? & [= <- <-] & ? & _); congruence].
Qed.

(** ** Derivations move forward *)

Lemma derives_advances ic r x y : derives ic r x y → advances x y.
Proof.
  induction 1; eauto using advances_trans, advances_refl, advances_consume;
    try (eapply advances_trans; [|eassumption]);
    by apply (advances_clear _ (clear_groups_keeps _)).
Qed.

Lemma advances_matched x y : advances x y → rest x = matched x y ++ rest y.
Proof.
  intros (w & Hw & Hc). unfold matched. rewrite Hw, Hc.
  replace (consumed x + length w - consumed x) with (length w) by lia.
  by rewrite take_app_length.
Qed.

(** ** The matcher follows a derivation *)

Section MatcherSound.
Context (ic : bool).

Local Abbreviation sound r :=
  (∀ k x z, m ic r k x = Some z → ∃ y, derives ic r x y ∧ k y = Some z).

Lemma loop_derives r fuel k x z :
  sound r →
  loop (m ic r) (clear_groups r) fuel k x = Some z →
  ∃ y, derives ic (RStar r) x y ∧ k y = Some z.
Proof.
  intros Hr. revert x. induction fuel as [|f IH]; intros x; cbn [loop].
  { eauto with iptv. }
  destruct (m ic r _ (clear_groups r x)) as [z'|] eqn:E; [|eauto with iptv].
  intros [= ->]. apply Hr in E as (y & Hy & Hk).
  destruct (Nat.eqb_spec (consumed y) (consumed x)); [done|].
  apply IH in Hk as (y' & ? & ?). eauto with iptv.
Qed.

Lemma repeat_n_derives r n k x z :
  sound r →
  repeat_n (m ic r) (clear_groups r) n k x = Some z →
  ∃ y, derives ic (RRepeat n r) x y ∧ k y = Some z.
Proof.
  intros Hr. revert x. induction n as [|n IH]; intros x; cbn [repeat_n].
  { eauto with iptv. }
  intros (y & Hy & (y' & ? & ?)%IH)%Hr. eauto with iptv.
Qed.

Lemma m_derives r : sound r.
Proof.
  induction r as [|c| |neg atoms|r1 IH1 r2 IH2|r1 IH1 r2 IH2|r IH|r IH|n r IH
                  |i r IH| |]; intros k x z; cbn [m].
  - eauto with iptv.
  - intros (u & s & ? & ?%N.eqb_eq & ?)%consume_Some. eauto with iptv.
  - intros (u & s & ? & ?%negb_true_iff & ?)%consume_Some. eauto with iptv.
  - intros (u & s & ? & ? & ?)%consume_Some. eauto with iptv.
  - intros (y & ? & (y' & ? & ?)%IH2)%IH1. eauto with iptv.
  - destruct (m ic r1 k x) eqn:E.
    + intros [= ->]. apply IH1 in E as (y & ? & ?). eauto with iptv.
    + intros (y & ? & ?)%IH2. eauto with iptv.
  - by apply loop_derives.
  - intros (y & ? & (y' & ? & ?)%loop_derives)%IH; eauto with iptv.
  - by apply repeat_n_derives.
  - intros (y & ? & ?)%IH. eauto with iptv.
  - destruct (Nat.eqb_spec (consumed x) 0); [eauto with iptv | done].
  - destruct (rest x) eqn:E; [eauto with iptv | done].
Qed.

End MatcherSound.

(** ** The matcher finds a derivation when there is one *)

Section MatcherComplete.
Context (ic : bool).

Lemma loop_stop r fuel k x :
  is_Some (k x) → is_Some (loop (m ic r) (clear_groups r) fuel k x).
Proof. destruct fuel; cbn [loop]; [done|]. by destruct (m ic r _ _). Qed.

Lemma derives_m r x y :
  derives ic r x y → ∀ k, is_Some (k y) → is_Some (m ic r k x).
Proof.
  induction 1 as [x|c x u s Hx Hu|x u s Hx Hu|neg atoms x u s Hx Hu
    |r1 r2 x y z _ IH1 _ IH2|r1 r2 x y _ IH|r1 r2 x y _ IH|r x
    |r x y z Hy IH1 Hne _ IH2|r x y z _ IH1 _ IH2|r x|n r x y z _ IH1 _ IH2
    |i r x y _ IH|x Hx|x Hx]; intros k Hk; cbn [m] in *.
  - done.
  - unfold consume. by rewrite Hx, Hu, N.eqb_refl.
  - unfold consume. by rewrite Hx, Hu.
  - unfold consume. by rewrite Hx, Hu.
  - auto.
  - destruct (IH k Hk) as [z ->]. done.
  - destruct (m ic r1 k x); [done | auto].
  - by apply loop_stop.
  - cbn [loop]. match goal with |- is_Some (match ?t with _ => _ end) =>
      assert (is_Some t) as [z' ->]; [|done] end.
    apply IH1. rewrite (proj2 (Nat.eqb_neq _ _) Hne).
    apply derives_advances, (advances_clear _ (clear_groups_keeps _)) in Hy.
    pose proof (advances_progress _ _ Hy Hne).
    erewrite loop_fuel_enough; [by apply IH2 | auto using forward_m with iptv..|];
      lia.
  - auto.
  - done.
  - cbn [repeat_n]. auto.
  - auto.
  - by rewrite Hx.
  - by rewrite Hx.
Qed.

End MatcherComplete.

(** The matcher succeeds exactly when a derivation ends in a state the
    continuation accepts. *)
Lemma m_is_Some ic r k x :
  is_Some (m ic r k x) ↔ ∃ y, derives ic r x y ∧ is_Some (k y).
Proof.
  split.
  - intros [z (y & ? & Hk)%m_derives]. exists y. by rewrite Hk.
  - intros (y & ? & ?). by eapply derives_m.
Qed.

(** ** Match attempts and searches *)

Lemma match_at_matches r i s y : match_at r i s = Some y → matches_at r i s y.
Proof. unfold match_at. by intros (y' & ? & [= ->])%m_derives. Qed.

Lemma match_at_None r i s : match_at r i s = None ↔ ∀ y, ¬ matches_at r i s y.
Proof.
  rewrite eq_None_not_Some. unfold match_at. rewrite m_is_Some. split.
  - intros Hno y Hy. apply Hno. by exists y.
  - intros Hno (y & Hy & _). by apply (Hno y).
Qed.

(** A search that finds nothing: no index of the subject starts a
    derivation. *)
Lemma search_None_iff r i s :
  search r i s = None ↔
  ∀ n y, n ≤ length s → ¬ matches_at r (i + n) (drop n s) y.
Proof.
  split.
  - intros Hs n y Hn. by apply (match_at_None r), search_None.
  - revert i. induction s as [|c s IH]; intros i Hno; cbn [search].
    + replace (match_at r i []) with (@None mstate); [done|].
      symmetry. apply match_at_None. intros y.
      specialize (Hno 0 y). rewrite Nat.add_0_r in Hno. apply Hno. simpl. lia.
    + replace (match_at r i (c :: s)) with (@None mstate).
      * apply IH. intros n y Hn. specialize (Hno (S n) y).
        rewrite <-Nat.add_succ_comm in Hno. apply Hno. simpl. lia.
      * symmetry. apply match_at_None. intros y.
        specialize (Hno 0 y). rewrite Nat.add_0_r in Hno. apply Hno. simpl. lia.
Qed.

(** A search that finds a match: the leftmost index that starts a
    derivation, and the end of one of its derivations. *)
Lemma search_matches r i s j y :
  search r i s = Some (j, y) →
  i ≤ j ≤ i + length s
  ∧ matches_at r j (drop (j - i) s) y
  ∧ ∀ n y', n < j - i → ¬ matches_at r (i + n) (drop n s) y'.
Proof.
  intros (Hj & Hm%match_at_matches & Hleft)%search_Some.
  repeat split; [lia.. | done |]. intros n y' Hn. by apply match_at_None, Hleft.
Qed.

(** ** Captures *)

Lemma lookup_clear_groups r x i :
  i ∉ groups r → caps (clear_groups r x) !! i = caps x !! i.
Proof.
  unfold clear_groups. cbn [caps]. induction (groups r) as [|j l IH]; [done|].
  intros [Hne Hl]%not_elem_of_cons. cbn [foldr].
  by rewrite lookup_delete_ne, IH.
Qed.

(** A derivation only writes the groups of its pattern. *)
Lemma derives_caps_frame ic r x y i :
  derives ic r x y → i ∉ groups r → caps y !! i = caps x !! i.
Proof.
  induction 1 as [| | | |r1 r2 x y z _ IH1 _ IH2| | | |r x y z _ IH1 _ _ IH2
    |r x y z _ IH1 _ IH2| |n r x y z _ IH1 _ IH2|j r x y _ IH| |];
    cbn [groups]; rewrite ?not_elem_of_app, ?not_elem_of_cons; intros Hi;
    try done; try tauto.
  - rewrite IH2, IH1; tauto.
  - by rewrite IH2, IH1, lookup_clear_groups.
  - by rewrite IH2, IH1, lookup_clear_groups.
  - by rewrite IH2, IH1, lookup_clear_groups.
  - destruct Hi. cbn [caps set_cap]. rewrite lookup_insert_ne by done. auto.
Qed.

(** ** Iterations of a one-unit pattern *)

(** A derivation of a one-unit pattern consumes one code unit that
    passes the test. *)
Lemma derives_unit ic r p x y :
  unit_test ic r = Some p → derives ic r x y →
  ∃ u, rest x = u :: rest y ∧ p u = true
       ∧ consumed y = S (consumed x) ∧ caps y = caps x.
Proof.
  intros Hr H. destruct r; simplify_eq/=; inversion H; simplify_eq/=;
    eexists; repeat split; eauto; by first [apply N.eqb_eq | apply negb_true_iff].
Qed.

Lemma derives_unit_intro ic r p u s i cp :
  unit_test ic r = Some p → p u = true →
  derives ic r (MState i (u :: s) cp) (MState (S i) s cp).
Proof.
  intros Hr Hp. destruct r; simplify_eq/=;
    apply (derives_char _ _ (MState i (u :: s) cp) u s) ||
    apply (derives_dot _ (MState i (u :: s) cp) u s) ||
    apply (derives_class _ _ _ (MState i (u :: s) cp) u s);
    try done; by first [apply N.eqb_eq | apply negb_true_iff].
Qed.

(** Any number of code units that pass the test can be iterated over. *)
Lemma derives_star_units ic r p w i s cp :
  unit_test ic r = Some p → Forall (λ u, p u = true) w →
  derives ic (RStar r) (MState i (w ++ s) cp) (MState (i + length w) s cp).
Proof.
  intros Hr Hw. revert i. induction Hw as [|u w Hu _ IH]; intros i.
  { rewrite Nat.add_0_r. constructor. }
  apply (derives_star_step _ _ _ (MState (S i) (w ++ s) cp)).
  - rewrite (unit_test_groups _ _ _ _ Hr). by eapply derives_unit_intro.
  - simpl. lia.
  - simpl. rewrite <-Nat.add_succ_comm. apply IH.
Qed.

(** An iteration of a one-unit pattern consumed code units that pass the
    test, and wrote no capture. *)
Lemma derives_star_units_inv ic r p x y :
  unit_test ic r = Some p → derives ic (RStar r) x y →
  ∃ w, rest x = w ++ rest y ∧ Forall (λ u, p u = true) w
       ∧ consumed y = consumed x + length w ∧ caps y = caps x.
Proof.
  intros Hr H. remember (RStar r) as r' eqn:Er.
  induction H as [| | | | | | |r0 x|r0 x y z Hstep _ Hne _ IH| | | | | |];
    try discriminate; injection Er as ->.
  { exists []. simpl. by rewrite Nat.add_0_r. }
  destruct (IH eq_refl) as (w & Hw & Hall & Hc & Hcaps).
  rewrite (unit_test_groups _ _ _ _ Hr) in Hstep.
  destruct (derives_unit ic r p x y Hr Hstep) as (u & Hu & Hp & Hy & Hcy).
  exists (u :: w). rewrite Hu, Hw, Hc, Hy, Hcaps, Hcy. simpl.
  split; [done|]. split; [by constructor|]. split; [lia | done].
Qed.

(** ** Reading a derivation of a concrete pattern *)

(** Invert every hypothesis [derives ic r x y] whose pattern [r] is a
    constructor other than [RStar]. *)
Ltac inv_derives :=
  repeat match goal with
  | H : matches_at ?r ?i ?s ?y |- _ =>
      let p := eval vm_compute in (pattern r) in
      let ic := eval vm_compute in (ignoreCase r) in
      change (derives ic p (MState i s ∅) y) in H
  | H : derives _ ?r _ _ |- _ =>
      lazymatch r with
      | REmpty => idtac | RChar _ => idtac | RDot => idtac | RClass _ _ => idtac
      | RSeq _ _ => idtac | RAlt _ _ => idtac | RPlus _ => idtac
      | RRepeat 0 _ => idtac | RRepeat (S _) _ => idtac
      | RGroup _ _ => idtac | RBol => idtac | REol => idtac
      end;
      inversion H; clear H;
      cbn [rest consumed caps canon clear_groups set_cap groups foldr app] in *;
      simplify_eq
  end.

(** Show the pattern of the goal [matches_at r i s y]. *)
Ltac matches_goal :=
  lazymatch goal with
  | |- matches_at ?r ?i ?s ?y =>
      let p := eval vm_compute in (pattern r) in
      let ic := eval vm_compute in (ignoreCase r) in
      change (derives ic p (MState i s ∅) y)
  end.

(** ** Subjects without a match *)

Section NoMatch.
Context (r : Regex) (s : jsstring).
Context (Hno : ∀ n y, n ≤ length s → ¬ matches_at r n (drop n s) y).

Lemma search_no_match : search r 0 s = None.
Proof. apply search_None_iff. intros n y. apply Hno. Qed.

(** A replacement changes nothing when the pattern matches nowhere. *)
Lemma replace_no_match repl : replace r repl s = s.
Proof.
  unfold replace. destruct (global r); [|by rewrite search_no_match].
  cbn [replace_loop]. by rewrite search_no_match.
Qed.

Lemma js_match_no_match : js_match r s = None.
Proof. unfold js_match. by rewrite search_no_match. Qed.

End NoMatch.

(** A pattern all of whose matches hold the code unit [c] matches
    nowhere in a subject without [c]. *)
Lemma replace_without_unit r c repl s :
  (∀ i s' y, matches_at r i s' y → c ∈ s') → c ∉ s → replace r repl s = s.
Proof.
  intros Hc Hs. apply replace_no_match. intros n y _ Hm%Hc. apply Hs.
  eapply elem_of_sublist; [done | apply sublist_drop].
Qed.

(** ** Searching with a reference test

    When a test [here] on the index and the rest of the subject decides
    whether the pattern matches there, and [cap] gives group [g] of any
    match there, the search returns the group at the first index where
    the test holds. *)

Fixpoint first_cap (here : nat → jsstring → bool) (cap : jsstring → jsstring)
    (i : nat) (s : jsstring) : jsstring :=
  if here i s then cap s
  else match s with
       | [] => []
       | _ :: s' => first_cap here cap (S i) s'
       end.

Section SearchReference.
Context (r : Regex) (g : nat).
Context (here : nat → jsstring → bool) (cap : jsstring → jsstring).
Context (Hinv : ∀ i s y, matches_at r i s y →
                         here i s = true ∧ caps y !! g = Some (cap s)).
Context (Hintro : ∀ i s, here i s = true → ∃ y, matches_at r i s y).

Lemma match_at_here i s :
  match match_at r i s with
  | Some y => here i s = true ∧ caps y !! g = Some (cap s)
  | None => here i s = false
  end.
Proof.
  destruct (match_at r i s) as [y|] eqn:E.
  - by apply Hinv, match_at_matches.
  - destruct (here i s) eqn:Hh; [|done]. apply Hintro in Hh as [y Hy].
    by destruct (proj1 (match_at_None r i s) E y).
Qed.

Lemma search_first_cap i s :
  match search r i s with
  | Some (_, y) => default [] (caps y !! g)
  | None => []
  end = first_cap here cap i s.
Proof.
  revert i. induction s as [|c s IH]; intros i; cbn [search first_cap].
  - pose proof (match_at_here i []) as Hh.
    destruct (match_at r i []); [by destruct Hh as [-> ->] | by rewrite Hh].
  - pose proof (match_at_here i (c :: s)) as Hh.
    destruct (match_at r i (c :: s));
      [by destruct Hh as [-> ->] | rewrite Hh; apply IH].
Qed.

End SearchReference.

(** ** Summary theorem *)

(** C37. The backtracking matcher implements the derivations: when it
    succeeds, the state it handed to its continuation is the end of a
    derivation; and it fails exactly when the continuation rejects the
    end of every derivation, so neither the order of the alternatives nor
    the fuel of the loops loses a match. *)
Theorem matcher_implements_derivations ic r k x :
  (∀ z, m ic r k x = Some z → ∃ y, derives ic r x y ∧ k y = Some z)
  ∧ (m ic r k x = None ↔ ∀ y, derives ic r x y → k y = None).
Proof.
  split; [apply m_derives|]. rewrite eq_None_not_Some, m_is_Some. split.
  - intros Hno y Hy. apply eq_None_not_Some. intros Hk. apply Hno. by exists y.
  - intros Hno (y & Hy & Hk). apply Hno in Hy. rewrite Hy in Hk. by destruct Hk.
Qed.
