(* ===== verification/Scan.v ===== *)
(** * Bracketed groups without regular expressions

    The literals of lines 124 and 125 of [validate.ts] have the shape
    "blanks, an opener, any text without closing parenthesis, a closer,
    blanks".  This file gives a scanner for that shape ([group_len], the
    length of the match that starts at the head of a string, and [scan],
    the global replacement) and proves that the matcher and the
    replacement loop of [Regex] compute the same.  The proof goes through
    the greedy loop over one code unit: it hands to its continuation the
    longest run first and then shorter ones ([greedy]). *)

From Stdlib Require Import Ascii String.
From stdpp Require Import gmap.
From S2P Require Import Prelude JsString Regex.

(** ** Definitions *)

(** Try [k] after [n] code units of [s], then after fewer. *)
Fixpoint greedy (k : cont) (i : nat) (s : jsstring) (cp : gmap nat jsstring)
    (n : nat) : option mstate :=
  match k (MState (i + n) (drop n s) cp) with
  | Some z => Some z
  | None => match n with 0 => None | S n' => greedy k i s cp n' end
  end.

(** The largest index up to [n] at which [s] holds [c]. *)
Fixpoint last_at (c : N) (s : jsstring) (n : nat) : option nat :=
  if bool_decide (s !! n = Some c) then Some n
  else match n with 0 => None | S n' => last_at c s n' end.

Definition is_blank (u : N) : bool := (u =? ch " ")%N.
Definition not_rparen (u : N) : bool := negb (u =? ch ")")%N.

(** The length of the group that starts at the head of [s]: blanks, the
    opener [o], text up to the last closer [c] that stands before or at
    the first closing parenthesis, blanks. *)
Definition group_len (o c : N) (s : jsstring) : option nat :=
  let n1 := length (take_while is_blank s) in
  match drop_while is_blank s with
  | u :: s2 =>
      if (u =? o)%N then
        match last_at c s2 (length (take_while not_rparen s2)) with
        | Some j =>
            Some (n1 + 1 + j + 1 + length (take_while is_blank (drop (S j) s2)))
        | None => None
        end
      else None
  | [] => None
  end.

(** The global replacement by [repl] of what [len] finds: [skip] code
    units of a match are still to be passed over. *)
Fixpoint scan (len : jsstring → option nat) (repl : jsstring) (skip : nat)
    (s : jsstring) : jsstring :=
  match s with
  | [] => []
  | u :: s' =>
      match skip with
      | S k => scan len repl k s'
      | 0 =>
          match len s with
          | Some n => repl ++ scan len repl (n - 1) s'
          | None => u :: scan len repl 0 s'
          end
      end
  end.

(** The pattern "/ *o[^)]*c */". *)
Definition group_pattern (o c : N) : regex :=
  RSeq (RStar (RChar (ch " ")))
 (RSeq (RChar o)
 (RSeq (RStar (RClass true [CChar (ch ")")]))
 (RSeq (RChar c)
       (RStar (RChar (ch " ")))))).

(** ** The greedy loop over one code unit *)

Section Greedy.
Context (p : N → bool) (clear : mstate → mstate) (Hclear : ∀ y, clear y = y).
(** [p'] is the test as the pattern writes it. *)
Context (p' : N → bool) (Hp : ∀ u, p' u = p u).

Lemma greedy_cons k i u s cp n :
  greedy k i (u :: s) cp (S n)
  = match greedy k (S i) s cp n with
    | Some z => Some z
    | None => k (MState i (u :: s) cp)
    end.
Proof.
  induction n as [|n IH].
  - cbn [greedy drop]. rewrite !Nat.add_0_r, Nat.add_1_r, drop_0.
    destruct (k (MState (S i) s cp)); [done|]. by destruct (k _).
  - cbn [greedy] in *. cbn [drop]. rewrite <-Nat.add_succ_comm.
    destruct (k (MState (S i + S n) (drop (S n) s) cp)); [done|].
    cbn [drop] in IH. by rewrite IH.
Qed.

(** The loop tries the longest run of code units that pass the test
    first, then shorter runs. *)
Lemma loop_consume_greedy fuel k x :
  length (rest x) < fuel →
  loop (consume p') clear fuel k x
  = greedy k (consumed x) (rest x) (caps x) (length (take_while p (rest x))).
Proof.
  revert x. induction fuel as [|f IH]; intros [i s cp] Hf; [simpl in Hf; lia|].
  cbn [loop]. rewrite Hclear. unfold consume at 1. cbn [rest consumed caps] in *.
  destruct s as [|u s].
  { cbn [take_while length greedy drop]. rewrite Nat.add_0_r. by destruct (k _). }
  cbn [take_while]. rewrite Hp. destruct (p u) eqn:E.
  - rewrite (proj2 (Nat.eqb_neq (S i) i)) by lia.
    rewrite IH by (cbn [rest length] in *; lia). cbn [rest consumed caps length].
    by rewrite greedy_cons.
  - cbn [length greedy drop]. rewrite Nat.add_0_r. by destruct (k _).
Qed.

(** When the continuation fails after every shorter run, the loop is the
    continuation after the longest. *)
Lemma greedy_longest k i s cp n :
  (∀ j, j < n → k (MState (i + j) (drop j s) cp) = None) →
  greedy k i s cp n = k (MState (i + n) (drop n s) cp).
Proof.
  induction n as [|n IH]; intros Hk; cbn [greedy]; [by destruct (k _)|].
  destruct (k (MState (i + S n) _ _)) eqn:E; [done|].
  rewrite IH by (intros; apply Hk; lia). apply Hk. lia.
Qed.

End Greedy.

(** A continuation that wants a code unit failing the test of the loop
    only succeeds after the longest run. *)
Lemma loop_consume_then p p' q clear fuel k x :
  (∀ y, clear y = y) → (∀ u, p' u = p u) → (∀ u, p u = true → q u = false) →
  length (rest x) < fuel →
  loop (consume p') clear fuel (consume q k) x
  = consume q k (MState (consumed x + length (take_while p (rest x)))
                        (drop_while p (rest x)) (caps x)).
Proof.
  intros Hclear Hp Hpq Hf. rewrite (loop_consume_greedy p) by done.
  rewrite greedy_longest, drop_take_while; [done|].
  intros j Hj. unfold consume. cbn [rest].
  destruct (drop_lt_take_while p j (rest x) Hj) as (u & s' & -> & Hu).
  by rewrite (Hpq u Hu).
Qed.

(** ** The closer: the last one the run allows *)

Lemma last_at_Some c s n j :
  last_at c s n = Some j → s !! j = Some c ∧ j ≤ n.
Proof.
  induction n as [|n IH]; cbn [last_at]; case_bool_decide as E;
    try (intros [= <-]; by split); try done.
  intros [? ?]%IH. split; [done | lia].
Qed.

(** A continuation that succeeds exactly on the code unit [c] is reached
    by the greedy loop at the last [c] of the run. *)
Lemma greedy_last_at c f k i s cp n :
  (∀ j, k (MState (i + j) (drop j s) cp)
        = if bool_decide (s !! j = Some c) then Some (f j) else None) →
  greedy k i s cp n = f <$> last_at c s n.
Proof.
  intros Hk. induction n as [|n IH]; cbn [greedy last_at]; rewrite Hk;
    case_bool_decide; by rewrite ?IH.
Qed.

Lemma length_take_while_le {A} (p : A → bool) l : length (take_while p l) ≤ length l.
Proof.
  rewrite <-(take_drop_while p l) at 2. rewrite length_app. lia.
Qed.

Lemma group_len_bounds o c s n : group_len o c s = Some n → 0 < n ≤ length s.
Proof.
  unfold group_len. pose proof (take_drop_while is_blank s) as Hs.
  destruct (drop_while is_blank s) as [|u s2]; [done|].
  destruct (u =? o)%N; [|done].
  destruct (last_at c s2 _) as [j|] eqn:E; [|done]. intros [= <-].
  apply last_at_Some in E as [Hj%lookup_lt_Some _].
  pose proof (length_take_while_le is_blank (drop (S j) s2)) as Hn3.
  rewrite length_drop in Hn3. apply (f_equal length) in Hs.
  rewrite length_app in Hs. simpl in Hs. lia.
Qed.

(** ** The matcher on a group pattern *)

Section Group.
Context (R : Regex) (o c : N).
Context (HR : pattern R = group_pattern o c) (Hic : ignoreCase R = false).
Context (Ho : o ≠ ch " ").

Lemma blank_not_opener u : is_blank u = true → (u =? o)%N = false.
Proof.
  unfold is_blank. intros ->%N.eqb_eq. by apply N.eqb_neq.
Qed.

Lemma rparen_class u : class_mem false true [CChar (ch ")")] u = not_rparen u.
Proof. unfold class_mem, existsb, atom_mem, not_rparen. by rewrite orb_false_r. Qed.

(** After the closer the blanks are taken and the match ends. *)
Lemma closer_then_blanks i0 s2 j :
  consume (λ u, (u =? c)%N)
    (m false (RStar (RChar (ch " "))) accept)
    (MState (i0 + j) (drop j s2) ∅)
  = if bool_decide (s2 !! j = Some c)
    then Some (MState (S (i0 + j) + length (take_while is_blank (drop (S j) s2)))
                      (drop_while is_blank (drop (S j) s2)) ∅)
    else None.
Proof.
  unfold consume. cbn [rest consumed caps].
  assert (Hl : s2 !! j = head (drop j s2))
    by (by rewrite head_lookup, lookup_drop, Nat.add_0_r).
  rewrite Hl. destruct (drop j s2) as [|u s3] eqn:Ed; [done|].
  cbn [head]. destruct (N.eqb_spec u c) as [->|Hne].
  - rewrite bool_decide_eq_true_2 by done. cbn [m].
    replace (drop (S j) s2) with s3
      by (by rewrite <-(Nat.add_1_r j), <-drop_drop, Ed).
    apply (loop_consume is_blank); [by intros [] | cbn; lia].
  - rewrite bool_decide_eq_false_2; [done|]. by intros [= ->].
Qed.

Lemma match_at_group i s :
  match_at R i s = (λ n, MState (i + n) (drop n s) ∅) <$> group_len o c s.
Proof.
  unfold match_at, group_len. rewrite HR, Hic. unfold group_pattern. cbn [m].
  etrans; [apply (loop_consume_then is_blank _ (λ u, (u =? o)%N));
             [by intros [] | done | apply blank_not_opener | cbn; lia]|].
  cbn [rest consumed caps]. pose proof (take_drop_while is_blank s) as Hs.
  unfold consume at 1. cbn [rest consumed caps].
  destruct (drop_while is_blank s) as [|u s2]; [done|].
  destruct (u =? o)%N; [|done]. set (n1 := length (take_while is_blank s)) in *.
  etrans; [apply (loop_consume_greedy not_rparen);
             [by intros [] | apply rparen_class | cbn; lia]|].
  cbn [rest consumed caps].
  erewrite greedy_last_at; [|intros j; apply closer_then_blanks].
  destruct (last_at c s2 _) as [j|]; [|done]. cbn [fmap option_fmap option_map].
  f_equal. f_equal; [lia|].
  assert (Hd : drop (n1 + 1 + j + 1) s = drop (S j) s2).
  { rewrite <-Hs. replace (n1 + 1 + j + 1) with (n1 + S (S j)) by lia.
    by rewrite drop_app_add'. }
  by rewrite <-drop_drop, Hd, drop_take_while.
Qed.

End Group.

(** ** The replacement loop on a pattern decided by a length function *)

(** When the pattern does not match at the head, the loop keeps the head
    and goes on behind it. *)
Lemma replace_loop_head_unmatched R repl f i u s :
  match_at R i (u :: s) = None →
  replace_loop R repl (S f) i (u :: s) = u :: replace_loop R repl (S f) (S i) s.
Proof.
  intros Hno. cbn [replace_loop search]. rewrite Hno.
  destruct (search R (S i) s) as [[j y]|] eqn:E; [|done].
  apply search_Some in E as (Hj & _ & _).
  replace (j - i) with (S (j - S i)) by lia. cbn [take drop app].
  destruct (consumed y =? j); [|done]. by destruct (drop (j - S i) s).
Qed.

Section ScanReplace.
Context (R : Regex) (len : jsstring → option nat).
Context (Hm : ∀ i s, match_at R i s = (λ n, MState (i + n) (drop n s) ∅) <$> len s).
Context (Hlen : ∀ s n, len s = Some n → 0 < n ≤ length s).

Lemma scan_skip repl k s :
  k ≤ length s → scan len repl k s = scan len repl 0 (drop k s).
Proof.
  revert k. induction s as [|u s IH]; intros [|k] Hk; simpl in Hk;
    try done; try lia.
  cbn [scan drop]. apply IH. lia.
Qed.

Lemma replace_loop_scan repl n :
  ∀ s f i, length s = n → n < f →
           replace_loop R repl f i s = scan len repl 0 s.
Proof.
  induction n as [n IH] using lt_wf_ind. intros s [|f] i Hn Hf; [lia|].
  destruct s as [|u s].
  { cbn [replace_loop search scan]. rewrite Hm.
    destruct (len []) as [k|] eqn:E; [|done]. apply Hlen in E. simpl in E. lia. }
  cbn [scan]. destruct (len (u :: s)) as [k|] eqn:E.
  - pose proof (Hlen _ _ E) as Hk. cbn [replace_loop search]. rewrite Hm, E.
    cbn [fmap option_fmap option_map consumed rest].
    rewrite Nat.sub_diag, (proj2 (Nat.eqb_neq _ _)) by lia. cbn [take app].
    f_equal. rewrite scan_skip by (simpl in Hk; lia).
    replace (drop k (u :: s)) with (drop (k - 1) s)
      by (destruct k; [lia | cbn [drop]; f_equal; lia]).
    apply (IH (length (drop (k - 1) s))); [|done|];
      rewrite length_drop; simpl in *; lia.
  - rewrite replace_loop_head_unmatched by (by rewrite Hm, E). f_equal.
    apply (IH (length s)); simpl in *; lia.
Qed.

(** The global replacement is the scanner. *)
Lemma replace_scan repl s :
  global R = true → replace R repl s = scan len repl 0 s.
Proof.
  intros Hg. unfold replace. rewrite Hg.
  apply (replace_loop_scan repl (length s)); [done | lia].
Qed.

End ScanReplace.

(** The global replacement with a group pattern. *)
Lemma replace_group R o c repl s :
  pattern R = group_pattern o c → ignoreCase R = false → global R = true →
  o ≠ ch " " →
  replace R repl s = scan (group_len o c) repl 0 s.
Proof.
  intros HR Hic Hg Ho. apply replace_scan; [|apply group_len_bounds | done].
  intros i s'. by apply match_at_group.
Qed.
