(* ===== verification/ChannelId.v ===== *)
(** * Derived channel identifiers

    [generateChannelId] of [validate.ts] (lines 121-133): the identifier
    the blocklist check derives from a stream's display name and the
    country code of its playlist file.  Each regular expression literal of
    the function is a value of [Regex.Regex]; each replacement step is a
    definition, and [generateChannelId] composes them in the order of the
    source. *)

From Stdlib Require Import Ascii String.
From stdpp Require Import gmap.
From S2P Require Import Prelude JsString Regex RegexSpec Scan.

(** ** The four literals *)

(** Line 124: "/ *\([^)]*\) */g". *)
Definition re_parens : Regex := {|
  pattern :=
    RSeq (RStar (RChar (ch " ")))
   (RSeq (RChar (ch "("))
   (RSeq (RStar (RClass true [CChar (ch ")")]))
   (RSeq (RChar (ch ")"))
         (RStar (RChar (ch " "))))));
  ignoreCase := false;
  global := true
|}.

(** Line 125: "/ *\[[^)]*\] */g".  The class inside the brackets excludes
    the closing parenthesis, as in the source. *)
Definition re_brackets : Regex := {|
  pattern :=
    RSeq (RStar (RChar (ch " ")))
   (RSeq (RChar (ch "["))
   (RSeq (RStar (RClass true [CChar (ch ")")]))
   (RSeq (RChar (ch "]"))
         (RStar (RChar (ch " "))))));
  ignoreCase := false;
  global := true
|}.

(** Line 126: "/\+/gi". *)
Definition re_plus : Regex := {|
  pattern := RChar (ch "+");
  ignoreCase := true;
  global := true
|}.

(** Line 127: "/[^a-z\d]+/gi". *)
Definition re_nonalnum : Regex := {|
  pattern := RPlus (RClass true [CRange (ch "a") (ch "z"); CDigit]);
  ignoreCase := true;
  global := true
|}.

(** ** The replacement steps, lines 124 to 127 *)

Definition strip_parens (name : jsstring) : jsstring :=
  replace re_parens [] name.

Definition strip_brackets (name : jsstring) : jsstring :=
  replace re_brackets [] name.

Definition plus_to_word (name : jsstring) : jsstring :=
  replace re_plus (js "Plus") name.

Definition strip_nonalnum (name : jsstring) : jsstring :=
  replace re_nonalnum [] name.

(** ** The function *)

Section WithRuntime.
Context `{JsRuntime}.

Definition generateChannelId (name code : jsstring) : jsstring :=
  if negb (truthy name) || negb (truthy code) then []
  else
    let name := strip_parens name in
    let name := strip_brackets name in
    let name := plus_to_word name in
    let name := strip_nonalnum name in
    let name := trim name in
    let name := transliterate name in
    let code := toLowerCase code in
    name ++ js "." ++ code.

End WithRuntime.

(** The identifier of one code unit of a name that has no parenthesised
    or bracketed part: the word Plus for a plus sign, the code unit itself
    when it is an ASCII letter or digit, nothing otherwise. *)
Definition unit_id (u : N) : jsstring :=
  if (u =? ch "+")%N then js "Plus" else if is_alnum u then [u] else [].

(** ** The two bracket patterns *)

(** A match of line 124 holds an opening parenthesis, and a match of line
    125 an opening bracket. *)
Lemma parens_match_has_open i s y : matches_at re_parens i s y → ch "(" ∈ s.
Proof.
  intros Hm. inv_derives.
  match goal with H : derives _ (RStar _) (MState i s ∅) _ |- _ =>
    apply derives_advances in H as (w & Hw & _) end.
  cbn [rest] in Hw. subst s. lit_compute. apply elem_of_app. right.
  match goal with H : rest ?y = _ :: _ |- _ ∈ rest ?y => rewrite H end. by left.
Qed.

Lemma brackets_match_has_open i s y : matches_at re_brackets i s y → ch "[" ∈ s.
Proof.
  intros Hm. inv_derives.
  match goal with H : derives _ (RStar _) (MState i s ∅) _ |- _ =>
    apply derives_advances in H as (w & Hw & _) end.
  cbn [rest] in Hw. subst s. lit_compute. apply elem_of_app. right.
  match goal with H : rest ?y = _ :: _ |- _ ∈ rest ?y => rewrite H end. by left.
Qed.

(** ** The two one-unit patterns *)

(** With the [i] flag the class of line 127 excludes exactly the ASCII
    letters and digits. *)
Lemma nonalnum_class u :
  class_mem true true [CRange (ch "a") (ch "z"); CDigit] u = negb (is_alnum u).
Proof.
  lit_compute. unfold class_mem, existsb, atom_mem. rewrite alpha_range_ci.
  unfold is_alnum. by destruct (is_alpha u), (is_digit u).
Qed.

(** With or without the [i] flag, only the plus sign matches line 126. *)
Lemma plus_class u : (canon true u =? canon true (ch "+"))%N = (u =? ch "+")%N.
Proof.
  lit_compute. unfold canon, upper_unit.
  change (is_lower 43) with false. cbv iota.
  destruct (is_lower u) eqn:El; [|done].
  destruct (N.eqb_spec (u - 32) 43), (N.eqb_spec u 43); try done; char_lia.
Qed.

(** A global replacement with the literal of line 127 rewrites each
    maximal run of code units that are not ASCII letters or digits. *)
Lemma replace_nonalnum_runs repl name :
  replace re_nonalnum repl name
  = replace_runs (λ u, negb (is_alnum u)) repl false name.
Proof.
  rewrite (replace_unit_plus re_nonalnum
             (RClass true [CRange (ch "a") (ch "z"); CDigit]) _ eq_refl eq_refl)
    by done.
  apply replace_runs_ext, nonalnum_class.
Qed.

Lemma bfilter_negb_negb {A} (p : A → bool) l :
  bfilter (λ x, negb (negb (p x))) l = bfilter p l.
Proof. apply bfilter_ext. intros x. apply negb_involutive. Qed.

(** C13. Line 127 keeps exactly the ASCII letters and digits of the name,
    in their order: the global replacement by the empty string equals a
    filter. *)
Theorem strip_nonalnum_filter name :
  strip_nonalnum name = bfilter is_alnum name.
Proof.
  unfold strip_nonalnum.
  by rewrite replace_nonalnum_runs, replace_runs_nil, bfilter_negb_negb.
Qed.

Lemma plus_to_word_replace_units name :
  plus_to_word name = replace_units (λ u, (u =? ch "+")%N) (js "Plus") name.
Proof.
  unfold plus_to_word.
  rewrite (replace_unit re_plus (RChar (ch "+")) _ eq_refl eq_refl) by done.
  apply replace_units_ext, plus_class.
Qed.

(** Line 126 replaces every plus sign by the word Plus and leaves the
    other code units alone. *)
Theorem plus_to_word_units name :
  plus_to_word name = replace_units (λ u, (u =? ch "+")%N) (js "Plus") name.
Proof. apply plus_to_word_replace_units. Qed.

(** Spelling out the plus signs and keeping the letters and digits, code
    unit by code unit. *)
Lemma alnum_of_replace_units name :
  bfilter is_alnum (replace_units (λ u, (u =? ch "+")%N) (js "Plus") name)
  = flat_map unit_id name.
Proof.
  induction name as [|u name IH]; [done|]. cbn [replace_units flat_map].
  rewrite bfilter_app, IH. f_equal. unfold unit_id.
  destruct (u =? ch "+")%N; [vm_compute; reflexivity|]. simpl.
  by destruct (is_alnum u).
Qed.

(** Lines 124 and 125 leave a name without opening parenthesis and
    without opening bracket alone. *)
Lemma strip_plain name :
  ch "(" ∉ name → ch "[" ∉ name → strip_brackets (strip_parens name) = name.
Proof.
  intros Hp Hb. unfold strip_brackets, strip_parens.
  rewrite (replace_without_unit re_parens (ch "(")) by eauto using parens_match_has_open.
  by rewrite (replace_without_unit re_brackets (ch "[")) by eauto using brackets_match_has_open.
Qed.

Lemma strip_nonalnum_alnum name :
  strip_nonalnum name = bfilter is_alnum name
  ∧ Forall (λ c, is_alnum c = true) (strip_nonalnum name).
Proof.
  unfold strip_nonalnum.
  rewrite replace_nonalnum_runs, replace_runs_nil, bfilter_negb_negb.
  split; [done | apply bfilter_all].
Qed.

(** ** The function *)

Section Properties.
Context `{JsRuntime}.
Implicit Types (name code : jsstring).

(** The name part of an identifier: the first four steps. *)
Definition normalizedName name : jsstring :=
  bfilter is_alnum (plus_to_word (strip_brackets (strip_parens name))).

Lemma generateChannelId_unfold name code :
  name ≠ [] → code ≠ [] →
  generateChannelId name code = normalizedName name ++ js "." ++ toLowerCase code.
Proof.
  intros Hn Hc. unfold generateChannelId, normalizedName.
  destruct name, code; try done. simpl negb. simpl orb. cbv iota.
  rewrite (proj1 (strip_nonalnum_alnum _)), trim_alnum, transliterate_alnum;
    auto using bfilter_all.
Qed.

(** C7. For a non-empty name and code the identifier is the ASCII letters
    and digits of the name, after the parenthesised and bracketed parts
    are removed and plus signs are spelled out, then a dot, then the
    lower-cased code.  The calls of [trim] and [transliterate] (lines 128
    and 129) never change the name: line 127 has already removed every
    code unit they act on. *)
Theorem generateChannelId_shape name code :
  name ≠ [] → code ≠ [] →
  generateChannelId name code = normalizedName name ++ js "." ++ toLowerCase code
  ∧ Forall (λ c, is_alnum c = true) (normalizedName name).
Proof.
  intros Hn Hc. split; [by apply generateChannelId_unfold | apply bfilter_all].
Qed.

(** The identifier is empty exactly when the name or the code is
    empty (line 122). *)
Theorem generateChannelId_empty_iff name code :
  generateChannelId name code = [] ↔ name = [] ∨ code = [].
Proof.
  split.
  - destruct (decide (name = [])) as [|Hn]; [by left|].
    destruct (decide (code = [])) as [|Hc]; [by right|].
    rewrite generateChannelId_unfold by done.
    intros Hnil. apply (f_equal length) in Hnil.
    rewrite !length_app in Hnil. simpl in Hnil. lia.
  - unfold generateChannelId. intros [-> | ->]; [done|]. by rewrite orb_true_r.
Qed.

(** Lines 124 and 125 without regular expressions.  Line 124 removes
    each group "blanks, opening parenthesis, text up to the next closing
    parenthesis, that parenthesis, blanks".  Line 125 removes "blanks,
    opening bracket, text up to the last closing bracket that stands
    before the next closing parenthesis, that bracket, blanks": its text
    may hold closing brackets, because the class of the literal excludes
    the parenthesis instead. *)
Theorem strips_are_scans name :
  strip_parens name = scan (group_len (ch "(") (ch ")")) [] 0 name
  ∧ strip_brackets name = scan (group_len (ch "[") (ch "]")) [] 0 name.
Proof. split; by apply replace_group. Qed.

(** C18. The identifier without regular expressions, for every non-empty
    name and code: the groups in parentheses and then the groups in
    brackets are cut out by the scanner, each plus sign becomes the word
    Plus, each ASCII letter or digit is kept and every other code unit
    dropped; then come a dot and the lower-cased code. *)
Theorem generateChannelId_reference name code :
  name ≠ [] → code ≠ [] →
  generateChannelId name code
  = flat_map unit_id
      (scan (group_len (ch "[") (ch "]")) [] 0
         (scan (group_len (ch "(") (ch ")")) [] 0 name))
    ++ js "." ++ toLowerCase code.
Proof.
  intros Hn Hc. rewrite generateChannelId_unfold by done.
  unfold normalizedName, strip_brackets, strip_parens.
  rewrite plus_to_word_replace_units, alnum_of_replace_units.
  rewrite (replace_group re_parens (ch "(") (ch ")")) by done.
  by rewrite (replace_group re_brackets (ch "[") (ch "]")) by done.
Qed.

(** A name without opening parenthesis and without opening bracket
    passes lines 124 and 125 unchanged: the two patterns match nowhere. *)
Theorem strips_keep_plain_names name :
  ch "(" ∉ name → ch "[" ∉ name →
  strip_parens name = name ∧ strip_brackets name = name.
Proof.
  intros Hp Hb. unfold strip_brackets, strip_parens. split.
  - apply (replace_without_unit re_parens (ch "(")); eauto using parens_match_has_open.
  - apply (replace_without_unit re_brackets (ch "[")); eauto using brackets_match_has_open.
Qed.

(** The identifier in closed form, for a name without parenthesised
    or bracketed part: each plus sign becomes the word Plus, each ASCII
    letter or digit is kept, every other code unit is dropped; then come
    a dot and the lower-cased code.  No regular expression is left. *)
Theorem generateChannelId_plain_name name code :
  name ≠ [] → code ≠ [] → ch "(" ∉ name → ch "[" ∉ name →
  generateChannelId name code
  = flat_map unit_id name ++ js "." ++ toLowerCase code.
Proof.
  intros Hn Hc Hp Hb. rewrite generateChannelId_unfold by done.
  unfold normalizedName.
  by rewrite strip_plain, plus_to_word_replace_units, alnum_of_replace_units.
Qed.

(** Evaluate [generateChannelId] on literals, whatever the runtime. *)
Ltac channelId_compute :=
  rewrite generateChannelId_unfold by (lit_compute; done);
  rewrite toLowerCase_ascii by all_units;
  vm_compute; reflexivity.

(** The examples of the specification: a parenthesised part is
    dropped, a plus sign is spelled out, an empty name gives the empty
    identifier. *)
Theorem generateChannelId_examples :
  generateChannelId (js "RT (Arabic)") (js "fr") = js "RT.fr"
  ∧ generateChannelId (js "Al Jazeera+") (js "qa") = js "AlJazeeraPlus.qa"
  ∧ generateChannelId (js "CNN International") (js "US") = js "CNNInternational.us"
  ∧ generateChannelId [] (js "us") = [].
Proof. repeat split; channelId_compute. Qed.


End Properties.

Lemma generateChannelId_shape_witness :
  generateChannelId (js "RT (Arabic)") (js "fr")
  = normalizedName (js "RT (Arabic)") ++ js "." ++ toLowerCase (js "fr")
  ∧ Forall (λ c, is_alnum c = true) (normalizedName (js "RT (Arabic)")).
Proof.
  apply (generateChannelId_shape (js "RT (Arabic)") (js "fr"));
    lit_compute; discriminate.
Defined.

Lemma strips_keep_plain_names_witness :
  strip_parens (js "Al Jazeera+") = js "Al Jazeera+"
  ∧ strip_brackets (js "Al Jazeera+") = js "Al Jazeera+".
Proof.
  apply (strips_keep_plain_names (js "Al Jazeera+")); by_compute.
Defined.

Lemma generateChannelId_plain_name_witness :
  generateChannelId (js "Al Jazeera+") (js "qa")
  = flat_map unit_id (js "Al Jazeera+") ++ js "." ++ toLowerCase (js "qa").
Proof.
  apply (generateChannelId_plain_name (js "Al Jazeera+") (js "qa")); by_compute.
Defined.

Lemma generateChannelId_reference_witness :
  generateChannelId (js "RT (Arabic) [HD]") (js "fr")
  = flat_map unit_id
      (scan (group_len (ch "[") (ch "]")) [] 0
         (scan (group_len (ch "(") (ch ")")) [] 0 (js "RT (Arabic) [HD]")))
    ++ js "." ++ toLowerCase (js "fr").
Proof.
  apply (generateChannelId_reference (js "RT (Arabic) [HD]") (js "fr"));
    lit_compute; discriminate.
Defined.
