(* ===== verification/Models.v ===== *)
(** * Data model

    The records the scripts receive from [../../models] and the class
    [File] of [../../core].  Their source is outside [src/]; the fields are
    the ones the scripts read and write, with the types the data model of
    the specification gives them.  A field of TypeScript type [string]
    whose absence the scripts test by truthiness is a [jsstring], absent
    when empty. *)

From Stdlib Require Import Ascii String.
From S2P Require Import Prelude JsString.

Module Category.
Record t := { id : jsstring; name : jsstring }.
End Category.

Module Language.
Record t := { code : jsstring; name : jsstring }.
End Language.

Module Channel.
Record t := {
  id : jsstring;
  categories : list jsstring;
  languages : list jsstring;
  broadcastArea : list jsstring;
  isNSFW : bool;
  logo : jsstring
}.
End Channel.

Module Stream.
Record t := {
  channel : jsstring;
  name : jsstring;
  url : jsstring;
  line : N;
  filepath : jsstring;
  logo : jsstring;
  categories : list Category.t;
  languages : list Language.t;
  broadcastArea : list jsstring;
  isNSFW : bool
}.
End Stream.

Module Blocked.
Record t := { channel : jsstring; ref : jsstring }.
End Blocked.

(** Equality of records is decidable, so facts about concrete data are
    settled by evaluation. *)
#[export] Instance Category_eq_dec : EqDecision Category.t.
Proof. solve_decision. Defined.
#[export] Instance Language_eq_dec : EqDecision Language.t.
Proof. solve_decision. Defined.
#[export] Instance Channel_eq_dec : EqDecision Channel.t.
Proof. solve_decision. Defined.
#[export] Instance Stream_eq_dec : EqDecision Stream.t.
Proof. solve_decision. Defined.
#[export] Instance Blocked_eq_dec : EqDecision Blocked.t.
Proof. solve_decision. Defined.

(** ** Paths

    [File] wraps a path and answers with Node's [path] module (POSIX
    flavour): [basename] is the last portion of the path, [extension] the
    text after the last dot of the base name (none when the only dot leads
    the name), [getFilename] the base name without that extension. *)
Module File.

Definition is_slash (c : N) : bool := (c =? ch "/")%N.

(** The text after the last separator, trailing separators ignored. *)
Definition basename (filepath : jsstring) : jsstring :=
  reverse (take_while (λ c, negb (is_slash c))
             (drop_while is_slash (reverse filepath))).

(** [path.extname] of a base name, the dot included. *)
Definition extname_of (base : jsstring) : jsstring :=
  let rtail := take_while (λ c, negb (c =? ch ".")%N) (reverse base) in
  let rhead := drop_while (λ c, negb (c =? ch ".")%N) (reverse base) in
  match rhead with
  | [] => []                           (* no dot *)
  | [_] => []                          (* the only dot leads the name *)
  | _ :: _ :: _ =>
      if bool_decide (base = js "..") then [] else ch "." :: reverse rtail
  end.

Definition extension (filepath : jsstring) : jsstring :=
  drop 1 (extname_of (basename filepath)).

Definition getFilename (filepath : jsstring) : jsstring :=
  let base := basename filepath in
  take (length base - length (extname_of base)) base.

(** The base name of a path that ends in a name without separator is
    that name. *)
Lemma basename_of_path dir name :
  name ≠ [] → Forall (λ c, is_slash c = false) name →
  basename (dir ++ ch "/" :: name) = name.
Proof.
  intros Hne Hname. unfold basename.
  rewrite reverse_app, reverse_cons, <-app_assoc.
  apply Forall_reverse in Hname.
  destruct (reverse name) as [|c rname] eqn:E.
  { apply (f_equal reverse) in E. rewrite reverse_involutive in E. done. }
  rewrite <-app_comm_cons, drop_while_false by (by inversion Hname).
  rewrite app_comm_cons, take_while_app
    by (eapply Forall_impl; [exact Hname|]; by intros ? ->).
  change ([ch "/"] ++ reverse dir) with (ch "/" :: reverse dir).
  rewrite (take_while_false _ (ch "/")) by done.
  by rewrite app_nil_r, <-E, reverse_involutive.
Qed.

Lemma basename_plain name :
  Forall (λ c, is_slash c = false) name → basename name = name.
Proof.
  intros Hname. unfold basename. apply Forall_reverse in Hname.
  destruct (reverse name) as [|c rname] eqn:E.
  { apply (f_equal reverse) in E. by rewrite reverse_involutive in E. }
  rewrite drop_while_false by (by inversion Hname).
  rewrite <-(app_nil_r (c :: rname)), take_while_app
    by (eapply Forall_impl; [exact Hname|]; by intros ? ->).
  by rewrite !app_nil_r, <-E, reverse_involutive.
Qed.

(** The extension of a name that ends in ".m3u" after some text. *)
Lemma extname_of_m3u stem :
  stem ≠ [] → extname_of (stem ++ js ".m3u") = js ".m3u".
Proof.
  intros Hne. unfold extname_of. rewrite reverse_app.
  change (reverse (js ".m3u")) with ([117; 51; 109]%N ++ [46%N] ++ []).
  rewrite <-!app_assoc, take_while_app, drop_while_app by (by repeat constructor).
  destruct (reverse stem) as [|c rstem] eqn:E.
  { apply (f_equal reverse) in E. by rewrite reverse_involutive in E. }
  cbn. case_bool_decide as Hb; [|done].
  apply (f_equal length) in Hb. rewrite length_app in Hb.
  destruct stem; [done|]. cbn in Hb. lia.
Qed.

Lemma getFilename_m3u stem :
  stem ≠ [] → Forall (λ c, is_slash c = false) stem →
  getFilename (stem ++ js ".m3u") = stem ∧ extension (stem ++ js ".m3u") = js "m3u".
Proof.
  intros Hne Hs. unfold getFilename, extension.
  rewrite basename_plain by (apply Forall_app; split; [done | by repeat constructor]).
  rewrite extname_of_m3u by done.
  split; [|done]. rewrite length_app, Nat.add_sub. by rewrite take_app_length.
Qed.

End File.
