(* ===== verification/Collection.v ===== *)
(** * Collections and dictionaries

    [Collection] of [../../core] wraps an array and forwards to lodash;
    [Dictionary] wraps an object used as a map.  The operations the
    scripts call are modelled on lists and on finite maps: [first],
    [filter], [concat], [count], [notEmpty], [keyBy], the stable
    multi-key [orderBy] and [uniqBy], whose key function may draw fresh
    tokens from the counter of lodash's [uniqueId]. *)

From stdpp Require Import gmap sorting.
From S2P Require Import Prelude JsString.

Module Dictionary.

Section Dict.
Context {V : Type}.

Definition has (dict : gmap jsstring V) (key : jsstring) : bool :=
  bool_decide (is_Some (dict !! key)).

Definition set (key : jsstring) (value : V) (dict : gmap jsstring V) :
    gmap jsstring V :=
  <[key := value]> dict.

Definition get (dict : gmap jsstring V) (key : jsstring) : option V :=
  dict !! key.

End Dict.
End Dictionary.

Module Collection.

Section Coll.
Context {A : Type}.

(** [first(predicate)]: the first element that satisfies the predicate. *)
Fixpoint first (predicate : A → bool) (items : list A) : option A :=
  match items with
  | [] => None
  | x :: items' => if predicate x then Some x else first predicate items'
  end.

Definition filter (predicate : A → bool) (items : list A) : list A :=
  bfilter predicate items.

Definition concat (items other : list A) : list A := items ++ other.

Definition count (items : list A) : nat := length items.

Definition notEmpty (items : list A) : bool :=
  match items with [] => false | _ :: _ => true end.

Definition add (items : list A) (x : A) : list A := items ++ [x].

(** [keyBy(iteratee)]: a dictionary from the key of each element to the
    element; a later element replaces an earlier one with the same key. *)
Definition keyBy (iteratee : A → jsstring) (items : list A) : gmap jsstring A :=
  fold_left (λ dict x, <[iteratee x := x]> dict) items ∅.

(** [orderBy]: a stable sort.  [leb x y] says that [x] may stand before
    [y]; an element is inserted before the first element it may stand
    before, so equal elements keep their order. *)
Fixpoint insert_sorted (leb : A → A → bool) (x : A) (sorted : list A) : list A :=
  match sorted with
  | [] => [x]
  | y :: sorted' =>
      if leb x y then x :: y :: sorted' else y :: insert_sorted leb x sorted'
  end.

Definition orderBy (leb : A → A → bool) (items : list A) : list A :=
  foldr (insert_sorted leb) [] items.

(** [uniqBy(iteratee)]: keeps the first element of each key.  The key
    function is called once per element, in order, and threads a state
    (the counter of [uniqueId]). *)
Fixpoint uniqBy_from {K S : Type} `{EqDecision K} (iteratee : A → S → K * S)
    (seen : list K) (st : S) (items : list A) : list A * S :=
  match items with
  | [] => ([], st)
  | x :: items' =>
      let '(key, st') := iteratee x st in
      if bool_decide (key ∈ seen) then uniqBy_from iteratee seen st' items'
      else
        let '(result, st'') := uniqBy_from iteratee (seen ++ [key]) st' items' in
        (x :: result, st'')
  end.

Definition uniqBy {K S : Type} `{EqDecision K} (iteratee : A → S → K * S)
    (st : S) (items : list A) : list A * S :=
  uniqBy_from iteratee [] st items.

(** *** [first] *)

Lemma first_None predicate items :
  first predicate items = None ↔ Forall (λ x, predicate x = false) items.
Proof.
  induction items as [|x items IH]; simpl; [by split; [constructor|]|].
  destruct (predicate x) eqn:E.
  - split; [done|]. intros Hf. inversion Hf; congruence.
  - rewrite IH. split; [by constructor | by inversion 1].
Qed.

(** [first] returns the leftmost element that satisfies the predicate. *)
Lemma first_Some predicate items x :
  first predicate items = Some x ↔
  ∃ before after, items = before ++ x :: after ∧ predicate x = true
                  ∧ Forall (λ y, predicate y = false) before.
Proof.
  induction items as [|y items IH]; simpl.
  { split; [done|]. by intros ([|??] & ? & ? & _). }
  destruct (predicate y) eqn:E.
  - split.
    + intros [= ->]. by exists [], items.
    + intros ([|z before] & after & Heq & Hx & Hb); simplify_eq/=; [done|].
      inversion Hb; congruence.
  - rewrite IH. split.
    + intros (before & after & -> & ? & ?). exists (y :: before), after. auto.
    + intros ([|z before] & after & Heq & Hx & Hb); simplify_eq/=.
      * congruence.
      * inversion Hb; subst. eauto.
Qed.

Lemma first_elem_of predicate items x :
  first predicate items = Some x → x ∈ items ∧ predicate x = true.
Proof.
  intros (before & after & -> & ? & _)%first_Some. split; [|done].
  apply elem_of_app. right. by left.
Qed.

Lemma first_is_Some predicate items :
  is_Some (first predicate items) ↔ ∃ x, x ∈ items ∧ predicate x = true.
Proof.
  split.
  - intros [x Hx]. exists x. by apply first_elem_of.
  - intros (x & Hin & Hx). destruct (first predicate items) eqn:E; [done|].
    apply first_None in E. rewrite Forall_forall in E.
    specialize (E x Hin). congruence.
Qed.

(** *** [filter] and [count] *)

(** Two tests that partition the elements split the count. *)
Lemma count_filter_partition p q items :
  Forall (λ x, p x = negb (q x)) items →
  count (filter p items) + count (filter q items) = count items.
Proof.
  unfold count, filter. induction 1 as [|x items Hx _ IH]; simpl; [done|].
  rewrite Hx. destruct (q x); simpl; lia.
Qed.

(** *** [orderBy] *)

Section Order.
Context (leb : A → A → bool).
Context (leb_total : ∀ x y, leb x y = true ∨ leb y x = true).
Context (leb_trans : ∀ x y z, leb x y = true → leb y z = true → leb x z = true).

(** Two elements have the same rank when each may stand before the
    other. *)
Definition same_rank (a x : A) : bool := leb a x && leb x a.

Lemma insert_sorted_perm x sorted : insert_sorted leb x sorted ≡ₚ x :: sorted.
Proof.
  induction sorted as [|y sorted IH]; simpl; [done|].
  destruct (leb x y); [done|]. rewrite IH. apply Permutation_swap.
Qed.

Lemma orderBy_perm items : orderBy leb items ≡ₚ items.
Proof.
  unfold orderBy. induction items as [|x items IH]; simpl; [done|].
  by rewrite insert_sorted_perm, IH.
Qed.

Lemma insert_sorted_Sorted x sorted :
  Sorted (λ a b, leb a b = true) sorted →
  Sorted (λ a b, leb a b = true) (insert_sorted leb x sorted).
Proof.
  induction 1 as [|y sorted Hs IH Hy]; simpl; [by repeat constructor|].
  destruct (leb x y) eqn:E; [by repeat constructor|].
  constructor; [done|]. destruct (leb_total x y) as [|Hyx]; [congruence|].
  destruct Hy as [|z sorted' Hz]; simpl; [by constructor|].
  destruct (leb x z); by constructor.
Qed.

Lemma orderBy_Sorted items : Sorted (λ a b, leb a b = true) (orderBy leb items).
Proof.
  unfold orderBy. induction items as [|x items IH]; simpl; [constructor|].
  by apply insert_sorted_Sorted.
Qed.

(** Elements of the same rank are kept in the order they arrive in. *)
Lemma insert_sorted_stable a x sorted :
  bfilter (same_rank a) (insert_sorted leb x sorted)
  = bfilter (same_rank a) (x :: sorted).
Proof.
  induction sorted as [|y sorted IH]; [done|]. cbn [insert_sorted].
  destruct (leb x y) eqn:E; [done|].
  cbn [bfilter] in *. rewrite IH.
  destruct (same_rank a x) eqn:Ex, (same_rank a y) eqn:Ey; try done.
  unfold same_rank in *. apply andb_true_iff in Ex as [_ Hxa].
  apply andb_true_iff in Ey as [Hay _].
  by rewrite (leb_trans _ _ _ Hxa Hay) in E.
Qed.

Lemma orderBy_stable a items :
  bfilter (same_rank a) (orderBy leb items) = bfilter (same_rank a) items.
Proof.
  unfold orderBy. induction items as [|x items IH]; [done|].
  cbn [foldr]. rewrite insert_sorted_stable. cbn [bfilter]. by rewrite IH.
Qed.

(** Sorting a sorted collection changes nothing. *)
Lemma orderBy_sorted items :
  Sorted (λ a b, leb a b = true) items → orderBy leb items = items.
Proof.
  unfold orderBy. induction 1 as [|x items _ IH Hx]; cbn [foldr]; [done|].
  rewrite IH. destruct Hx as [|y items Hxy]; cbn [insert_sorted]; [done|].
  by rewrite Hxy.
Qed.

Lemma same_rank_refl a : same_rank a a = true.
Proof. unfold same_rank. by destruct (leb_total a a) as [-> | ->]. Qed.

Lemma leb_head x items y :
  Sorted (λ a b, leb a b = true) (x :: items) → y ∈ x :: items → leb x y = true.
Proof.
  intros Hs. apply (@Sorted_StronglySorted _ _ leb_trans) in Hs.
  apply StronglySorted_inv in Hs as [_ Hx].
  intros [->|Hy]%elem_of_cons; [|by eapply Forall_forall in Hx].
  by destruct (leb_total x x).
Qed.

(** A sorted collection is determined by the order, within each rank, of
    its elements: there is one stable way to sort. *)
Lemma sorted_stable_unique items1 items2 :
  Sorted (λ a b, leb a b = true) items1 →
  Sorted (λ a b, leb a b = true) items2 →
  (∀ a, bfilter (same_rank a) items1 = bfilter (same_rank a) items2) →
  items1 = items2.
Proof.
  intros Hs1. revert items2.
  induction Hs1 as [|x items1 Hs1 IH Hx]; intros [|y items2] Hs2 Hr; [done|..].
  - specialize (Hr y). cbn [bfilter] in Hr. by rewrite same_rank_refl in Hr.
  - specialize (Hr x). cbn [bfilter] in Hr. by rewrite same_rank_refl in Hr.
  - assert (Hxy : same_rank x y = true).
    { apply andb_true_iff. split.
      - apply (leb_head x items1); [by constructor|].
        eapply (elem_of_bfilter (same_rank y)). rewrite Hr. cbn [bfilter].
        rewrite same_rank_refl. by left.
      - apply (leb_head y items2); [done|].
        eapply (elem_of_bfilter (same_rank x)). rewrite <-Hr. cbn [bfilter].
        rewrite same_rank_refl. by left. }
    pose proof (Hr x) as Hh. cbn [bfilter] in Hh.
    rewrite same_rank_refl, Hxy in Hh. injection Hh as -> _.
    f_equal. apply IH; [by apply Sorted_inv in Hs2 as [? _]|].
    intros a. specialize (Hr a). cbn [bfilter] in Hr.
    destruct (same_rank a y); congruence.
Qed.

(** Every stable sort returns what [orderBy] returns. *)
Lemma orderBy_unique sorted items :
  Sorted (λ a b, leb a b = true) sorted →
  (∀ a, bfilter (same_rank a) sorted = bfilter (same_rank a) items) →
  sorted = orderBy leb items.
Proof.
  intros Hs Hr. apply sorted_stable_unique; [done | apply orderBy_Sorted |].
  intros a. by rewrite Hr, orderBy_stable.
Qed.

(** What lodash promises of [orderBy], whatever its algorithm: the
    result is sorted, and elements of the same rank keep their order. *)
Class StableSort (sort : list A → list A) := {
  sort_Sorted items : Sorted (λ a b, leb a b = true) (sort items);
  sort_stable a items :
    bfilter (same_rank a) (sort items) = bfilter (same_rank a) items
}.

#[export] Instance orderBy_StableSort : StableSort (orderBy leb) := {|
  sort_Sorted := orderBy_Sorted;
  sort_stable := orderBy_stable
|}.

(** The promise determines the function. *)
Lemma StableSort_orderBy sort `{!StableSort sort} items :
  sort items = orderBy leb items.
Proof. apply orderBy_unique; [apply sort_Sorted | intros a; apply sort_stable]. Qed.

End Order.

(** *** [uniqBy] *)

Section Uniq.
Context {K S : Type} `{EqDecision K} (iteratee : A → S → K * S).

(** The keys under which the elements of the result were kept. *)
Fixpoint uniqBy_keys (seen : list K) (st : S) (items : list A) : list K :=
  match items with
  | [] => []
  | x :: items' =>
      let '(key, st') := iteratee x st in
      if bool_decide (key ∈ seen) then uniqBy_keys seen st' items'
      else key :: uniqBy_keys (seen ++ [key]) st' items'
  end.

Lemma uniqBy_from_sublist seen st items :
  (uniqBy_from iteratee seen st items).1 `sublist_of` items.
Proof.
  revert seen st. induction items as [|x items IH]; intros seen st; simpl; [done|].
  destruct (iteratee x st) as [key st']. case_bool_decide.
  - by apply sublist_cons.
  - specialize (IH (seen ++ [key]) st').
    destruct (uniqBy_from iteratee (seen ++ [key]) st' items). by apply sublist_skip.
Qed.

(** No key is kept twice, and no key already seen is kept. *)
Lemma uniqBy_keys_NoDup seen st items :
  NoDup seen → NoDup (seen ++ uniqBy_keys seen st items).
Proof.
  revert seen st. induction items as [|x items IH]; intros seen st Hs; simpl.
  { by rewrite app_nil_r. }
  destruct (iteratee x st) as [key st']. case_bool_decide as Hk; [by apply IH|].
  rewrite cons_middle, app_assoc. apply IH.
  apply NoDup_app. split; [done|]. split; [|apply NoDup_singleton].
  intros k Hin ->%list_elem_of_singleton. done.
Qed.

(** Each element of the result was kept under a key its key function
    returned for it. *)
Lemma uniqBy_from_keys seen st items :
  Forall2 (λ x key, ∃ st0, (iteratee x st0).1 = key)
    (uniqBy_from iteratee seen st items).1 (uniqBy_keys seen st items).
Proof.
  revert seen st. induction items as [|x items IH]; intros seen st; simpl.
  { constructor. }
  destruct (iteratee x st) as [key st'] eqn:E. case_bool_decide; [by apply IH|].
  specialize (IH (seen ++ [key]) st').
  destruct (uniqBy_from iteratee (seen ++ [key]) st' items). simpl in *.
  constructor; [|done]. exists st. by rewrite E.
Qed.

(** Deduplication of a concatenation continues, on the second part,
    from the keys and the state the first part leaves. *)
Lemma uniqBy_from_app seen st items1 items2 :
  uniqBy_from iteratee seen st (items1 ++ items2)
  = let r1 := uniqBy_from iteratee seen st items1 in
    let r2 := uniqBy_from iteratee (seen ++ uniqBy_keys seen st items1) r1.2 items2 in
    (r1.1 ++ r2.1, r2.2).
Proof.
  revert seen st. induction items1 as [|x items1 IH]; intros seen st; simpl.
  { rewrite app_nil_r. by destruct (uniqBy_from _ _ _ _). }
  destruct (iteratee x st) as [key st']. case_bool_decide; [by rewrite IH|].
  rewrite IH. cbn zeta.
  replace (seen ++ key :: uniqBy_keys (seen ++ [key]) st' items1)
    with ((seen ++ [key]) ++ uniqBy_keys (seen ++ [key]) st' items1)
    by (by rewrite <-app_assoc).
  by destruct (uniqBy_from iteratee (seen ++ [key]) st' items1).
Qed.

(** Keys that no element can produce may be dropped from the keys seen. *)
Lemma uniqBy_from_unseen seen0 seen st items :
  Forall (λ x, ∀ st0, (iteratee x st0).1 ∉ seen0) items →
  uniqBy_from iteratee (seen0 ++ seen) st items = uniqBy_from iteratee seen st items.
Proof.
  intros Hitems. revert seen st.
  induction Hitems as [|x items Hx _ IH]; intros seen st; simpl; [done|].
  specialize (Hx st). destruct (iteratee x st) as [key st']. simpl in Hx.
  rewrite <-app_assoc, IH.
  rewrite (bool_decide_ext (key ∈ seen0 ++ seen) (key ∈ seen)); [by rewrite IH|].
  rewrite elem_of_app. tauto.
Qed.

(** A collection whose elements have distinct keys, none of them seen,
    is kept whole.  [key] is the key of an element when the key function
    does not read the state. *)
Lemma uniqBy_from_distinct (key : A → K) seen st items :
  (∀ x st0, iteratee x st0 = (key x, st0)) →
  NoDup (key <$> items) → Forall (λ x, key x ∉ seen) items →
  uniqBy_from iteratee seen st items = (items, st).
Proof.
  intros Hkey. revert seen.
  induction items as [|x items IH]; intros seen Hnd Hseen; cbn [uniqBy_from]; [done|].
  rewrite fmap_cons in Hnd. apply NoDup_cons in Hnd as [Hx Hnd].
  apply Forall_cons in Hseen as [Hxs Hseen].
  rewrite Hkey, bool_decide_eq_false_2 by done. rewrite IH; [done..|].
  apply Forall_forall. intros y Hy. rewrite elem_of_app, list_elem_of_singleton.
  intros [Hys|E]; [by eapply Forall_forall in Hseen|].
  apply Hx. rewrite <-E. by apply list_elem_of_fmap_2.
Qed.

(** *** The survivor of a key

    [is_c] recognises the elements whose key is always [c]; the other
    elements never have key [c]. *)
Section Key.
Context (c : K) (is_c : A → bool).
Context (key_c : ∀ x st, is_c x = true → (iteratee x st).1 = c).
Context (key_other : ∀ x st, is_c x = false → (iteratee x st).1 ≠ c).

Lemma uniqBy_from_key_seen seen st items :
  c ∈ seen → bfilter is_c (uniqBy_from iteratee seen st items).1 = [].
Proof.
  revert seen st. induction items as [|x items IH]; intros seen st Hc; simpl; [done|].
  pose proof (key_c x st) as Hx. destruct (iteratee x st) as [key st'].
  case_bool_decide as Hk; [by apply IH|].
  specialize (IH (seen ++ [key]) st').
  destruct (uniqBy_from iteratee (seen ++ [key]) st' items). simpl in *.
  rewrite IH by (apply elem_of_app; auto).
  destruct (is_c x); [|done]. by rewrite Hx in Hk.
Qed.

(** Of the elements with key [c], exactly the first is kept. *)
Lemma uniqBy_from_key seen st items :
  c ∉ seen →
  bfilter is_c (uniqBy_from iteratee seen st items).1 = take 1 (bfilter is_c items).
Proof.
  revert seen st. induction items as [|x items IH]; intros seen st Hc; simpl; [done|].
  pose proof (key_c x st) as Hx. pose proof (key_other x st) as Hx'.
  destruct (iteratee x st) as [key st']. simpl in *. destruct (is_c x) eqn:E.
  - rewrite Hx by done. rewrite bool_decide_eq_false_2 by done.
    pose proof (uniqBy_from_key_seen (seen ++ [c]) st' items) as Hrest.
    destruct (uniqBy_from iteratee (seen ++ [c]) st' items). simpl in *.
    rewrite E, Hrest, take_0; [done|]. apply elem_of_app. right. by left.
  - case_bool_decide as Hk; [by apply IH|].
    specialize (IH (seen ++ [key]) st').
    destruct (uniqBy_from iteratee (seen ++ [key]) st' items). simpl in *.
    rewrite E. apply IH. rewrite elem_of_app, list_elem_of_singleton.
    intros [?| ->]; [done|]. by apply Hx'.
Qed.

End Key.

End Uniq.

End Coll.

(** lodash's [uniqueId()] without prefix: increments the counter and
    returns it printed in decimal. *)
Definition uniqueId (idCounter : N) : jsstring * N :=
  (number_toString (idCounter + 1), (idCounter + 1)%N).

(** *** Collections of references

    Sorting or deduplicating a collection by what its elements refer to
    ([f] reads an element) commutes with reading. *)

Lemma insert_sorted_fmap {A B} (f : A → B) (leb : B → B → bool) x items :
  f <$> insert_sorted (λ a b, leb (f a) (f b)) x items
  = insert_sorted leb (f x) (f <$> items).
Proof.
  induction items as [|y items IH]; simpl; [done|].
  destruct (leb (f x) (f y)); simpl; [done|]. f_equal. apply IH.
Qed.

Lemma orderBy_fmap {A B} (f : A → B) (leb : B → B → bool) items :
  f <$> orderBy (λ a b, leb (f a) (f b)) items = orderBy leb (f <$> items).
Proof.
  unfold orderBy. induction items as [|x items IH]; [done|].
  cbn [foldr fmap list_fmap]. rewrite insert_sorted_fmap. f_equal. apply IH.
Qed.

Lemma uniqBy_from_fmap {A B K S} `{EqDecision K} (f : A → B)
    (iteratee : B → S → K * S) seen st items :
  uniqBy_from iteratee seen st (f <$> items)
  = prod_map (fmap f) id (uniqBy_from (λ a, iteratee (f a)) seen st items).
Proof.
  revert seen st. induction items as [|x items IH]; intros seen st; [done|].
  cbn [uniqBy_from fmap list_fmap]. destruct (iteratee (f x) st) as [key st'].
  case_bool_decide; [apply IH|]. specialize (IH (seen ++ [key]) st').
  cbn [fmap] in IH. rewrite IH.
  by destruct (uniqBy_from _ (seen ++ [key]) st' items).
Qed.

Lemma uniqBy_fmap {A B K S} `{EqDecision K} (f : A → B)
    (iteratee : B → S → K * S) st items :
  uniqBy iteratee st (f <$> items)
  = prod_map (fmap f) id (uniqBy (λ a, iteratee (f a)) st items).
Proof. apply uniqBy_from_fmap. Qed.

(** [keyBy]: the last element with a key is the one stored. *)
Lemma keyBy_lookup_last {A} (iteratee : A → jsstring) (before after : list A) x :
  Forall (λ y, iteratee y ≠ iteratee x) after →
  keyBy iteratee (before ++ x :: after) !! iteratee x = Some x.
Proof.
  unfold keyBy. rewrite fold_left_app. simpl. generalize (fold_left
    (λ dict y, <[iteratee y := y]> dict) before (∅ : gmap jsstring A)).
  intros dict Hafter. assert (Hx : <[iteratee x := x]> dict !! iteratee x = Some x)
    by apply lookup_insert_eq.
  revert Hx. generalize (<[iteratee x := x]> dict). clear dict.
  induction Hafter as [|y after Hy _ IH]; intros dict Hx; simpl; [done|].
  apply IH. by rewrite lookup_insert_ne.
Qed.

Lemma keyBy_from_lookup_None {A} (iteratee : A → jsstring) (items : list A)
    (dict : gmap jsstring A) (key : jsstring) :
  fold_left (λ dict y, <[iteratee y := y]> dict) items dict !! key = None
  ↔ dict !! key = None ∧ Forall (λ y, iteratee y ≠ key) items.
Proof.
  revert dict. induction items as [|y items IH]; intros dict; simpl.
  { split; [by split; [|constructor] | by intros [? _]]. }
  rewrite IH, Forall_cons, lookup_insert_None. tauto.
Qed.

Lemma keyBy_lookup_None {A} (iteratee : A → jsstring) (items : list A) key :
  keyBy iteratee items !! key = None ↔ Forall (λ y, iteratee y ≠ key) items.
Proof.
  unfold keyBy. rewrite keyBy_from_lookup_None, lookup_empty. tauto.
Qed.

End Collection.
