(* ===== verification/CountryCode.v ===== *)
(** * The country code of a playlist file

    Line 39 of [validate.ts] takes a country code from the base name of
    the playlist file with a regular expression; the code is the region
    hint of [generateChannelId].  This file holds the literal, the
    extraction, a reference for it without regular expressions and the
    proof that both agree on every path. *)

From Stdlib Require Import Ascii String.
From stdpp Require Import gmap.
From S2P Require Import Prelude JsString Regex RegexSpec ChannelId Models.

(** Line 39, the literal "/([a-z]{2})(|_.* )\.m3u/i" (printed here with a
    blank before the parenthesis that closes the second group): two
    letters, then nothing or an underscore and any text, then ".m3u",
    anywhere in the subject and whatever the case. *)
Definition re_countryCode : Regex := {|
  pattern :=
    RSeq (RGroup 1 (RRepeat 2 (RClass false [CRange (ch "a") (ch "z")])))
   (RSeq (RGroup 2 (RAlt REmpty (RSeq (RChar (ch "_")) (RStar RDot))))
   (RSeq (RChar (ch "."))
   (RSeq (RChar (ch "m"))
   (RSeq (RChar (ch "3"))
         (RChar (ch "u"))))));
  ignoreCase := true;
  global := false
|}.

(** Line 39: the first group of the match on the base name, or the empty
    string of the default array.  (A group that did not take part would
    give [undefined], which [generateChannelId] treats like the empty
    string.) *)
Definition countryCodeOf (filepath : jsstring) : jsstring :=
  match js_match re_countryCode (File.basename filepath) with
  | Some (_ :: Some countryCode :: _) => countryCode
  | _ => []
  end.

(** *** A reference for line 39, without regular expressions

    [starts_ci lit s]: [s] starts with [lit], whatever the case of the
    ASCII letters.  [m3u_after s]: ".m3u" follows in [s] after code units
    of the same line.  [code_here s]: a match of the pattern of line 39
    starts at the head of [s].  [first_code s]: the two letters at the
    leftmost position of [s] where a match starts. *)
Fixpoint starts_ci (lit s : jsstring) : bool :=
  match lit, s with
  | [], _ => true
  | c :: lit', u :: s' => (upper_unit u =? upper_unit c)%N && starts_ci lit' s'
  | _ :: _, [] => false
  end.

Fixpoint m3u_after (s : jsstring) : bool :=
  starts_ci (js ".m3u") s
  || match s with
     | u :: s' => negb (is_line_terminator u) && m3u_after s'
     | [] => false
     end.

Definition code_here (s : jsstring) : bool :=
  match s with
  | a :: b :: t =>
      is_alpha a && is_alpha b
      && (starts_ci (js ".m3u") t || (starts_ci (js "_") t && m3u_after (drop 1 t)))
  | _ => false
  end.

Fixpoint first_code (s : jsstring) : jsstring :=
  if code_here s then take 2 s
  else match s with
       | [] => []
       | _ :: s' => first_code s'
       end.


(** ** The pattern of line 39 and its reference *)

Lemma letter_class_ci u : class_mem true false [CRange 97 122] u = is_alpha u.
Proof. unfold class_mem, existsb, atom_mem. by rewrite orb_false_r, alpha_range_ci. Qed.

Lemma starts_ci_app lit s : starts_ci lit s = true ↔
  ∃ w t, s = w ++ t ∧ Forall2 (λ c u, upper_unit u = upper_unit c) lit w.
Proof.
  revert s. induction lit as [|c lit IH]; intros s; simpl.
  { split; [by exists [], s | done]. }
  destruct s as [|u s].
  { split; [done|]. intros (w & t & Hs & Hw). inversion Hw; simplify_eq/=. }
  rewrite andb_true_iff, N.eqb_eq, IH. split.
  - intros (Hu & w & t & -> & Hw). exists (u :: w), t. by repeat constructor.
  - intros (w & t & Hs & Hw). inversion Hw; simplify_eq/=. eauto.
Qed.

Lemma m3u_after_app w t :
  Forall (λ u, negb (is_line_terminator u) = true) w →
  starts_ci (js ".m3u") t = true → m3u_after (w ++ t) = true.
Proof.
  intros Hw Ht. induction Hw as [|u w Hu _ IH]; simpl.
  - destruct t; simpl in *; by rewrite Ht.
  - by rewrite Hu, IH, orb_true_r.
Qed.

Lemma m3u_after_inv s :
  m3u_after s = true →
  ∃ w t, s = w ++ t ∧ Forall (λ u, negb (is_line_terminator u) = true) w
         ∧ starts_ci (js ".m3u") t = true.
Proof.
  induction s as [|u s IH]; cbn [m3u_after].
  - rewrite orb_false_r. by exists [], [].
  - intros [Hs|[Hu (w & t & -> & Hw & Ht)%IH]%andb_true_iff]%orb_true_iff.
    + by exists [], (u :: s).
    + exists (u :: w), t. by repeat constructor.
Qed.

(** The four literals that end the pattern. *)
Lemma derives_m3u_inv x y :
  derives true (RSeq (RChar 46) (RSeq (RChar 109) (RSeq (RChar 51) (RChar 117)))) x y →
  starts_ci (js ".m3u") (rest x) = true ∧ caps y = caps x.
Proof.
  intros Hd. inv_derives. cbn [rest] in *. simplify_eq.
  match goal with H : rest x = _ |- _ => rewrite H end. lit_compute.
  cbn [starts_ci]. by repeat match goal with
    | H : upper_unit _ = _ |- _ => rewrite H, N.eqb_refl; clear H end.
Qed.

Lemma derives_m3u x :
  starts_ci (js ".m3u") (rest x) = true →
  ∃ y, derives true (RSeq (RChar 46) (RSeq (RChar 109) (RSeq (RChar 51) (RChar 117))))
         x y.
Proof.
  destruct x as [i t cp]. cbn [rest]. intros (w & t' & -> & Hw)%starts_ci_app.
  repeat match goal with H : Forall2 _ _ _ |- _ => inversion H; clear H; subst end.
  eexists. repeat eapply derives_seq;
    (eapply derives_unit_intro; [reflexivity|]); by apply N.eqb_eq.
Qed.

Lemma starts_m3u u1 u2 u3 u4 t :
  upper_unit u1 = upper_unit 46 → upper_unit u2 = upper_unit 109 →
  upper_unit u3 = upper_unit 51 → upper_unit u4 = upper_unit 117 →
  starts_ci (js ".m3u") (u1 :: u2 :: u3 :: u4 :: t) = true.
Proof. intros H1 H2 H3 H4. lit_compute. cbn [starts_ci]. by rewrite H1, H2, H3, H4. Qed.

(** [code_here] spelled out. *)
Lemma code_here_iff s :
  code_here s = true ↔
  ∃ a b t, s = a :: b :: t ∧ is_alpha a = true ∧ is_alpha b = true
    ∧ (starts_ci (js ".m3u") t = true
       ∨ ∃ u w t', t = u :: w ++ t' ∧ upper_unit u = upper_unit 95
           ∧ Forall (λ u, negb (is_line_terminator u) = true) w
           ∧ starts_ci (js ".m3u") t' = true).
Proof.
  destruct s as [|a [|b t]]; cbn [code_here];
    [split; [done | by intros (? & ? & ? & ? & _)]..|].
  rewrite !andb_true_iff, orb_true_iff, andb_true_iff. split.
  - intros [[Ha Hb] Ht]. exists a, b, t. repeat split; [done..|].
    destruct Ht as [?|[Hu Hm]]; [by left | right].
    destruct t as [|u t]; [done|]. change (js "_") with [95%N] in Hu.
    cbn [starts_ci drop] in *. rewrite drop_0 in Hm.
    apply m3u_after_inv in Hm as (w & t' & -> & ? & ?). exists u, w, t'.
    apply andb_true_iff in Hu as [Hu%N.eqb_eq _]. done.
  - intros (? & ? & ? & [= <- <- <-] & Ha & Hb & Ht). repeat split; [done..|].
    destruct Ht as [?|(u & w & t' & -> & Hu & Hw & Ht')]; [by left | right].
    change (js "_") with [95%N]. cbn [starts_ci drop].
    rewrite drop_0, andb_true_r, N.eqb_eq. split; [done|].
    by apply m3u_after_app.
Qed.

(** A match of the pattern starts with two letters, which are its first
    group, and ".m3u" follows them at once or after an underscore and the
    rest of the line. *)
Lemma countryCode_match_inv i s y :
  matches_at re_countryCode i s y →
  code_here s = true ∧ caps y !! 1 = Some (take 2 s).
Proof.
  intros Hm. inv_derives; cbn [rest consumed caps] in *; simplify_eq;
    repeat match goal with
    | H : class_mem true false _ _ = true |- _ => rewrite letter_class_ci in H
    end.
  - split.
    + apply code_here_iff. do 3 eexists. repeat split; [done..|].
      left. by apply starts_m3u.
    + rewrite lookup_insert_ne, lookup_insert_eq by done.
      by replace (S (S i) - i) with 2 by lia.
  - match goal with H : derives true (RStar RDot) _ _ |- _ =>
      apply (derives_star_units_inv _ _ (λ u, negb (is_line_terminator u))) in H
        as (w & Hw & Hall & _ & Hcaps); [|done] end.
    cbn [rest caps] in *. subst. split.
    + apply code_here_iff. do 3 eexists. repeat split; [done..|].
      right. do 3 eexists. repeat split; [done..|].
      match goal with H : rest y = _ |- _ => rewrite H end. by apply starts_m3u.
    + rewrite Hcaps, lookup_insert_ne, lookup_insert_eq by done.
      by replace (S (S i) - i) with 2 by lia.
Qed.

(** Where [code_here] holds a match starts. *)
Lemma countryCode_match_intro i s :
  code_here s = true → ∃ y, matches_at re_countryCode i s y.
Proof.
  intros (a & b & t & -> & Ha & Hb & Ht)%code_here_iff.
  rewrite <-letter_class_ci in Ha, Hb.
  assert (Hgroup : derives true (RGroup 1 (RRepeat 2 (RClass false [CRange 97 122])))
            (MState i (a :: b :: t) ∅)
            (set_cap 1 (take (S (S i) - i) (a :: b :: t)) (MState (S (S i)) t ∅))).
  { apply (derives_group true 1 _ (MState i (a :: b :: t) ∅) (MState (S (S i)) t ∅)).
    repeat (eapply derives_repeat_S; [by eapply derives_unit_intro|]).
    apply derives_repeat_0. }
  set (y1 := set_cap 1 _ _) in Hgroup.
  destruct Ht as [Ht|(u & w & t' & -> & Hu & Hw & Ht')].
  - destruct (derives_m3u (set_cap 2 (take (consumed y1 - consumed y1) (rest y1)) y1))
      as [y Hy]; [exact Ht|].
    exists y. matches_goal. eapply derives_seq; [exact Hgroup|].
    eapply derives_seq; [|exact Hy].
    apply (derives_group true 2 _ y1 y1), derives_alt_l. constructor.
  - set (y2 := MState (S (S (S i)) + length w) t' (caps y1)).
    destruct (derives_m3u (set_cap 2 (take (consumed y2 - consumed y1) (rest y1)) y2))
      as [y Hy]; [exact Ht'|].
    exists y. matches_goal. eapply derives_seq; [exact Hgroup|].
    eapply derives_seq; [|exact Hy].
    apply (derives_group true 2 _ y1 y2), derives_alt_r.
    apply (derives_seq _ _ _ _ (MState (S (S (S i))) (w ++ t') (caps y1))).
    + eapply derives_unit_intro; [reflexivity | by apply N.eqb_eq].
    + by apply (derives_star_units _ _ (λ u, negb (is_line_terminator u))).
Qed.

(** The search of line 39 finds the first group of the leftmost match. *)
Lemma search_countryCode i s :
  match search re_countryCode i s with
  | Some (_, y) => default [] (caps y !! 1)
  | None => []
  end = first_code s.
Proof.
  rewrite (search_first_cap re_countryCode 1 (λ _, code_here) (take 2))
    by eauto using countryCode_match_inv, countryCode_match_intro.
  revert i. induction s as [|c s IH]; intros i; cbn [first_cap first_code];
    by rewrite ?IH.
Qed.

Lemma countryCodeOf_first_code filepath :
  countryCodeOf filepath = first_code (File.basename filepath).
Proof.
  unfold countryCodeOf, js_match. rewrite <-(search_countryCode 0).
  destruct (search re_countryCode 0 _) as [[j y]|]; [|done].
  change (length (groups (pattern re_countryCode))) with 2. cbn [seq fmap list_fmap].
  by destruct (caps y !! 1).
Qed.

(** C16. The country code of line 39 without regular expression: the two
    letters at the leftmost position of the base name where two ASCII
    letters are followed by ".m3u", at once or after an underscore and
    more text of the same line, whatever the case of the letters. *)
Theorem countryCodeOf_reference filepath :
  countryCodeOf filepath = first_code (File.basename filepath).
Proof. apply countryCodeOf_first_code. Qed.

Lemma first_code_letters s :
  first_code s = [] ∨
  ∃ a b, first_code s = [a; b] ∧ is_alpha a = true ∧ is_alpha b = true.
Proof.
  induction s as [|c s IH]; cbn [first_code]; [by left|].
  destruct (code_here (c :: s)) eqn:E; [|done].
  apply code_here_iff in E as (a & b & t & -> & ? & ? & _). right. by exists a, b.
Qed.

Lemma countryCodeOf_ascii filepath :
  Forall (λ c, is_ascii c = true) (countryCodeOf filepath).
Proof.
  rewrite countryCodeOf_first_code.
  destruct (first_code_letters (File.basename filepath))
    as [->|(a & b & -> & Ha & Hb)]; [constructor|].
  repeat apply Forall_cons_2; [..|apply Forall_nil_2];
    apply is_alnum_ascii; unfold is_alnum; by rewrite ?Ha, ?Hb, ?orb_true_r.
Qed.

(** The country code is empty or two ASCII letters, so lower-casing
    it in [generateChannelId] is the same on every runtime. *)
Theorem countryCodeOf_two_letters `{JsRuntime} filepath :
  (countryCodeOf filepath = [] ∨
   ∃ a b, countryCodeOf filepath = [a; b] ∧ is_alpha a = true ∧ is_alpha b = true)
  ∧ toLowerCase (countryCodeOf filepath) = lower_unit <$> countryCodeOf filepath.
Proof.
  split; [|apply toLowerCase_ascii, countryCodeOf_ascii].
  rewrite countryCodeOf_first_code. apply first_code_letters.
Qed.

(** For a playlist whose name starts with two ASCII letters followed
    by ".m3u", at once or after an underscore and more text, the country
    code is these two letters, whatever directory the file is in. *)
Theorem countryCodeOf_of_prefixed_name dir name :
  code_here name = true → Forall (λ c, File.is_slash c = false) name →
  countryCodeOf (dir ++ ch "/" :: name) = take 2 name
  ∧ countryCodeOf name = take 2 name.
Proof.
  intros Hc Hname. rewrite !countryCodeOf_first_code.
  rewrite File.basename_of_path, File.basename_plain by (done || by destruct name).
  destruct name; cbn [first_code]; by rewrite Hc.
Qed.

(** The identifier the blocklist check derives for a stream of a
    playlist file does not depend on the runtime: neither the Unicode case
    tables nor the table of the transliteration package can change it. *)
Theorem derived_id_runtime_independent (R1 R2 : JsRuntime) name filepath :
  @generateChannelId R1 name (countryCodeOf filepath)
  = @generateChannelId R2 name (countryCodeOf filepath).
Proof.
  destruct (decide (name = [])) as [->|Hn]; [done|].
  destruct (decide (countryCodeOf filepath = [])) as [->|Hc].
  { unfold generateChannelId. by rewrite !orb_true_r. }
  rewrite !generateChannelId_unfold by done.
  by rewrite !toLowerCase_ascii by apply countryCodeOf_ascii.
Qed.

Lemma countryCodeOf_of_prefixed_name_witness :
  countryCodeOf (js "streams" ++ ch "/" :: js "us_news.m3u") = take 2 (js "us_news.m3u")
  ∧ countryCodeOf (js "us_news.m3u") = take 2 (js "us_news.m3u").
Proof.
  apply (countryCodeOf_of_prefixed_name (js "streams") (js "us_news.m3u"));
    [vm_compute; reflexivity | by_compute].
Defined.
