(* ===== verification/Validate.v ===== *)
(** * The validation command

    [main] of [validate.ts] (lines 18-117).  For every playlist file the
    command derives a country code from the file name (file
    [CountryCode]), parses the file and
    runs three checks on each stream, in this order: the declared channel
    is in the database, the URL was not seen before in the file, neither
    the declared nor the derived identifier is on the blocklist.  A file
    that fails to parse logs one error at line 0.  Files with log items
    are reported; the command exits with status 1 when one of the items is
    an error.

    The parser and the directory of the playlists are parameters of the
    section: every theorem about the command holds whatever the parser
    returns.  The body of the loop over the streams calls total functions
    only, so the only exception the [try] block can see is the parser's. *)

From Stdlib Require Import Ascii String.
From stdpp Require Import gmap.
From S2P Require Import Prelude JsString Regex ChannelId Models Collection CountryCode.

Module Validate.

(** ** Log items and report lines *)

(** Lines 12-16. *)
Module LogItem.
Record t := { type : jsstring; line : N; message : jsstring }.
End LogItem.

(** Text with the styles of [chalk]. *)
Inductive styled :=
| Plain (s : jsstring)
| Underline (s : jsstring)
| Gray (s : jsstring)
| Red (s : jsstring)
| Yellow (s : jsstring).

(** A call of the logger. *)
Inductive output :=
| LogInfo (text : list styled)
| LogError (text : list styled).

(** The accumulators of [main]: the two collections of lines 30-31 and
    what has been printed. *)
Record run := {
  errors : list LogItem.t;
  warnings : list LogItem.t;
  printed : list output
}.

#[export] Instance LogItem_eq_dec : EqDecision LogItem.t.
Proof. solve_decision. Defined.
#[export] Instance styled_eq_dec : EqDecision styled.
Proof. solve_decision. Defined.
#[export] Instance output_eq_dec : EqDecision output.
Proof. solve_decision. Defined.
#[export] Instance run_eq_dec : EqDecision run.
Proof. solve_decision. Defined.

Section Checks.
Context `{JsRuntime}.
Context (parse : jsstring → jsstring + list Stream.t).
Context (STREAMS_DIR : jsstring).
Context (channels : list Channel.t) (blocklist : list Blocked.t).

(** ** The three checks of a stream *)

(** Lines 47-48. *)
Definition channelNotInDatabase (stream : Stream.t) : bool :=
  truthy (Stream.channel stream) &&
  negb (bool_decide (is_Some (Collection.first
    (λ channel, bool_decide (Channel.id channel = Stream.channel stream))
    channels))).

(** Line 57. *)
Definition alreadyOnPlaylist (buffer : gmap jsstring bool) (stream : Stream.t) : bool :=
  truthy (Stream.url stream) && Dictionary.has buffer (Stream.url stream).

(** Lines 68-73. *)
Definition findBlocked (countryCode : jsstring) (stream : Stream.t) : option Blocked.t :=
  let channelId := generateChannelId (Stream.name stream) countryCode in
  Collection.first
    (λ blocked,
       bool_decide (toLowerCase (Stream.channel stream)
                    = toLowerCase (Blocked.channel blocked))
       || bool_decide (toLowerCase channelId
                       = toLowerCase (Blocked.channel blocked)))
    blocklist.

(** The items the checks add. *)
Definition notInDatabaseItem (stream : Stream.t) : LogItem.t := {|
  LogItem.type := js "warning";
  LogItem.line := Stream.line stream;
  LogItem.message := dquote ++ Stream.channel stream ++ dquote
                     ++ js " is not in the database"
|}.

Definition alreadyOnPlaylistItem (stream : Stream.t) : LogItem.t := {|
  LogItem.type := js "warning";
  LogItem.line := Stream.line stream;
  LogItem.message := dquote ++ Stream.url stream ++ dquote
                     ++ js " is already on the playlist"
|}.

Definition blockedItem (stream : Stream.t) (blocked : Blocked.t) : LogItem.t := {|
  LogItem.type := js "error";
  LogItem.line := Stream.line stream;
  LogItem.message := dquote ++ Stream.name stream ++ dquote
      ++ js " is on the blocklist due to claims of copyright holders ("
      ++ Blocked.ref blocked ++ js ")"
|}.

(** Lines 46-81: the body of the loop over the streams, on the log and
    the buffer of seen URLs. *)
Definition checkStream (countryCode : jsstring)
    (st : list LogItem.t * gmap jsstring bool) (stream : Stream.t) :
    list LogItem.t * gmap jsstring bool :=
  let '(log, buffer) := st in
  let log :=
    if channelNotInDatabase stream
    then Collection.add log (notInDatabaseItem stream) else log in
  let '(log, buffer) :=
    if alreadyOnPlaylist buffer stream
    then (Collection.add log (alreadyOnPlaylistItem stream), buffer)
    else (log, Dictionary.set (Stream.url stream) true buffer) in
  let log :=
    match findBlocked countryCode stream with
    | Some blocked => Collection.add log (blockedItem stream blocked)
    | None => log
    end in
  (log, buffer).

(** ** One file: lines 39-88 *)

Definition parseErrorItem (message : jsstring) : LogItem.t := {|
  LogItem.type := js "error";
  LogItem.line := 0;
  LogItem.message := toLowerCase message
|}.

Definition validateFile (filepath : jsstring) : list LogItem.t :=
  let countryCode := countryCodeOf filepath in
  let relativeFilepath := replace_literal STREAMS_DIR [] filepath in
  match parse relativeFilepath with
  | inr streams => fst (fold_left (checkStream countryCode) streams ([], ∅))
  | inl message => [parseErrorItem message]
  end.

(** ** The report: lines 90-103 *)

Definition formatLogItem (logItem : LogItem.t) : output :=
  let position := padEnd 6 (js " ") (number_toString (LogItem.line logItem)) in
  let type := padEnd 9 (js " ") (LogItem.type logItem) in
  let status :=
    if bool_decide (LogItem.type logItem = js "error") then Red type
    else Yellow type in
  LogInfo [Plain (js " "); Gray position; status; Plain (LogItem.message logItem)].

Definition is_error (logItem : LogItem.t) : bool :=
  bool_decide (LogItem.type logItem = js "error").

Definition is_warning (logItem : LogItem.t) : bool :=
  bool_decide (LogItem.type logItem = js "warning").

(** Lines 35-104: one iteration of the loop over the files. *)
Definition fileStep (st : run) (filepath : jsstring) : run :=
  if negb (bool_decide (File.extension filepath = js "m3u")) then st
  else
    let log := validateFile filepath in
    if Collection.notEmpty log then {|
      errors := Collection.concat (errors st) (Collection.filter is_error log);
      warnings := Collection.concat (warnings st) (Collection.filter is_warning log);
      printed := printed st
        ++ LogInfo [Plain newline; Underline filepath] :: (formatLogItem <$> log)
    |}
    else st.

(** Lines 106-112. *)
Definition summary (st : run) : output :=
  let e := Collection.count (errors st) in
  let w := Collection.count (warnings st) in
  LogError [Red (newline
    ++ number_toString (N.of_nat (e + w)) ++ js " problems ("
    ++ number_toString (N.of_nat e) ++ js " errors, "
    ++ number_toString (N.of_nat w) ++ js " warnings)")].

(** Lines 114-116 and the normal end of the process. *)
Definition exitCode (st : run) : nat :=
  match Collection.count (errors st) with
  | 0 => 0
  | S _ => 1
  end.

(** Lines 21-28 print two lines before the loop. *)
Definition started : run := {|
  errors := [];
  warnings := [];
  printed :=
    [LogInfo [Plain (js "loading blocklist...")];
     LogInfo [Plain (js "found "
       ++ number_toString (N.of_nat (Collection.count blocklist))
       ++ js " records")]]
|}.

(** [main]: [args] are the command-line arguments and [listed] the
    playlist files the storage lists (line 34).  The result is everything
    printed and the exit status. *)
Definition main (args listed : list jsstring) : list output * nat :=
  let files := match args with [] => listed | _ :: _ => args end in
  let st := fold_left fileStep files started in
  (printed st ++ [summary st], exitCode st).

(** ** Specification of the log of a file

    What the loop over the streams computes, stated on the streams alone:
    the items of a stream depend on the stream and on the streams before
    it in the file, and the log is their concatenation in document
    order. *)

Definition seenBefore (earlier : list Stream.t) (stream : Stream.t) : bool :=
  truthy (Stream.url stream)
  && bool_decide (Stream.url stream ∈ Stream.url <$> earlier).

Definition streamItems (countryCode : jsstring) (earlier : list Stream.t)
    (stream : Stream.t) : list LogItem.t :=
  (if channelNotInDatabase stream then [notInDatabaseItem stream] else [])
  ++ (if seenBefore earlier stream then [alreadyOnPlaylistItem stream] else [])
  ++ match findBlocked countryCode stream with
     | Some blocked => [blockedItem stream blocked]
     | None => []
     end.

Fixpoint fileItems (countryCode : jsstring) (earlier streams : list Stream.t) :
    list LogItem.t :=
  match streams with
  | [] => []
  | stream :: streams' =>
      streamItems countryCode earlier stream
      ++ fileItems countryCode (earlier ++ [stream]) streams'
  end.

(** The test of lines 69-72 on one entry of the blocklist. *)
Definition matchesBlocked (countryCode : jsstring) (stream : Stream.t)
    (blocked : Blocked.t) : bool :=
  bool_decide (toLowerCase (Stream.channel stream)
               = toLowerCase (Blocked.channel blocked))
  || bool_decide (toLowerCase (generateChannelId (Stream.name stream) countryCode)
                  = toLowerCase (Blocked.channel blocked)).

(** The errors of the streams of a file: for each stream, in document
    order, the item of the first entry of the blocklist it matches. *)
Definition blockedItems (countryCode : jsstring) (streams : list Stream.t) :
    list LogItem.t :=
  flat_map (λ stream,
    match Collection.first (matchesBlocked countryCode stream) blocklist with
    | Some blocked => [blockedItem stream blocked]
    | None => []
    end) streams.

(** The warnings of the streams of a file: for each stream, in document
    order, the unknown channel and then the repeated URL. *)
Definition streamWarnings (earlier : list Stream.t) (stream : Stream.t) :
    list LogItem.t :=
  (if channelNotInDatabase stream then [notInDatabaseItem stream] else [])
  ++ (if seenBefore earlier stream then [alreadyOnPlaylistItem stream] else []).

Fixpoint fileWarnings (earlier streams : list Stream.t) : list LogItem.t :=
  match streams with
  | [] => []
  | stream :: streams' =>
      streamWarnings earlier stream ++ fileWarnings (earlier ++ [stream]) streams'
  end.

(** The buffer holds exactly the URLs of the streams processed so far. *)
Definition buffer_tracks (buffer : gmap jsstring bool) (earlier : list Stream.t) : Prop :=
  ∀ u, is_Some (buffer !! u) ↔ u ∈ Stream.url <$> earlier.

(** What the files of a run contribute to the accumulators. *)
Definition fileLog (filepath : jsstring) : list LogItem.t :=
  if bool_decide (File.extension filepath = js "m3u") then validateFile filepath
  else [].

Definition fileReport (filepath : jsstring) : list output :=
  match fileLog filepath with
  | [] => []
  | log => LogInfo [Plain newline; Underline filepath] :: (formatLogItem <$> log)
  end.

End Checks.

(** ** The loop over the streams *)

Section Streams.
Context `{JsRuntime}.
Context (channels : list Channel.t) (blocklist : list Blocked.t).
Implicit Types (stream : Stream.t) (earlier streams : list Stream.t).
Implicit Types (buffer : gmap jsstring bool) (log : list LogItem.t).

Lemma buffer_tracks_empty : buffer_tracks ∅ [].
Proof.
  intros u. rewrite lookup_empty. simpl.
  split; [by intros [] | by intros ?%elem_of_nil].
Qed.

Lemma buffer_tracks_has buffer earlier stream :
  buffer_tracks buffer earlier →
  alreadyOnPlaylist buffer stream = seenBefore earlier stream.
Proof.
  intros Hb. unfold alreadyOnPlaylist, seenBefore, Dictionary.has.
  f_equal. apply bool_decide_ext, Hb.
Qed.

Lemma buffer_tracks_set buffer earlier stream :
  buffer_tracks buffer earlier →
  buffer_tracks (Dictionary.set (Stream.url stream) true buffer) (earlier ++ [stream]).
Proof.
  unfold buffer_tracks, Dictionary.set. intros Hb u.
  rewrite fmap_app, elem_of_app, <-Hb. simpl. rewrite list_elem_of_singleton.
  destruct (decide (Stream.url stream = u)) as [->|Hne].
  - rewrite lookup_insert_eq. split; [by right | by eauto].
  - rewrite lookup_insert_ne by done. split; [by left | intros [?|?]; [done | congruence]].
Qed.

Lemma buffer_tracks_seen buffer earlier stream :
  buffer_tracks buffer earlier →
  alreadyOnPlaylist buffer stream = true →
  buffer_tracks buffer (earlier ++ [stream]).
Proof.
  unfold buffer_tracks. intros Hb Hdup u.
  rewrite fmap_app, elem_of_app, <-Hb. simpl.
  rewrite list_elem_of_singleton. split; [auto|]. intros [?| ->]; [done|].
  unfold alreadyOnPlaylist, Dictionary.has in Hdup.
  apply andb_true_iff in Hdup as [_ Hdup]. by apply bool_decide_eq_true in Hdup.
Qed.

(** One iteration appends the items of the stream and keeps the buffer
    in step. *)
Lemma checkStream_step countryCode log buffer earlier stream :
  buffer_tracks buffer earlier →
  ∃ buffer',
    checkStream channels blocklist countryCode (log, buffer) stream
    = (log ++ streamItems channels blocklist countryCode earlier stream, buffer')
    ∧ buffer_tracks buffer' (earlier ++ [stream]).
Proof.
  intros Hb. unfold checkStream, streamItems, Collection.add.
  rewrite <-(buffer_tracks_has _ _ _ Hb).
  destruct (alreadyOnPlaylist buffer stream) eqn:Hdup; eexists; (split; [|
    first [by apply buffer_tracks_seen | by apply buffer_tracks_set]]);
    destruct (channelNotInDatabase _ stream), (findBlocked _ _ stream);
    by rewrite <-?app_assoc, ?app_nil_r.
Qed.

(** What a stream logs depends on the streams before it only through
    the set of their URLs: their order does not matter. *)
#[export] Instance seenBefore_Permutation :
  Proper ((≡ₚ) ==> (=) ==> (=)) seenBefore.
Proof.
  intros earlier1 earlier2 He stream ? <-. unfold seenBefore. f_equal.
  apply bool_decide_ext. by rewrite He.
Qed.

#[export] Instance streamItems_Permutation countryCode :
  Proper ((≡ₚ) ==> (=) ==> (=)) (streamItems channels blocklist countryCode).
Proof. intros earlier1 earlier2 He stream ? <-. unfold streamItems. by rewrite He. Qed.

#[export] Instance fileItems_Permutation countryCode :
  Proper ((≡ₚ) ==> (=) ==> (=)) (fileItems channels blocklist countryCode).
Proof.
  intros earlier1 earlier2 He streams ? <-. revert earlier1 earlier2 He.
  induction streams as [|stream streams IH]; intros earlier1 earlier2 He; [done|].
  cbn [fileItems]. rewrite He at 1. f_equal. apply IH. by rewrite He.
Qed.

#[export] Instance buffer_tracks_Permutation buffer :
  Proper ((≡ₚ) ==> iff) (buffer_tracks buffer).
Proof. intros earlier1 earlier2 He. unfold buffer_tracks. by setoid_rewrite He. Qed.

Lemma fileItems_app countryCode earlier streams1 streams2 :
  fileItems channels blocklist countryCode earlier (streams1 ++ streams2)
  = fileItems channels blocklist countryCode earlier streams1
    ++ fileItems channels blocklist countryCode (earlier ++ streams1) streams2.
Proof.
  revert earlier. induction streams1 as [|stream streams1 IH]; intros earlier;
    cbn [fileItems app]; [by rewrite app_nil_r|].
  by rewrite IH, <-!app_assoc.
Qed.

Lemma fold_checkStream countryCode streams log buffer earlier :
  buffer_tracks buffer earlier →
  ∃ buffer',
    fold_left (checkStream channels blocklist countryCode) streams (log, buffer)
    = (log ++ fileItems channels blocklist countryCode earlier streams, buffer')
    ∧ buffer_tracks buffer' (earlier ++ streams).
Proof.
  revert log buffer earlier.
  induction streams as [|stream streams IH]; intros log buffer earlier Hb;
    cbn [fold_left fileItems].
  { exists buffer. by rewrite !app_nil_r. }
  destruct (checkStream_step countryCode log buffer earlier stream Hb)
    as (buffer' & -> & Hb').
  destruct (IH (log ++ streamItems channels blocklist countryCode earlier stream)
              _ _ Hb') as (buffer'' & -> & Hb'').
  rewrite <-app_assoc in Hb''. exists buffer''. by rewrite <-app_assoc.
Qed.

(** The errors among the items of a stream: the blocklist item, if any. *)
Lemma streamItems_errors countryCode earlier stream :
  bfilter is_error (streamItems channels blocklist countryCode earlier stream)
  = blockedItems blocklist countryCode [stream].
Proof.
  unfold streamItems, blockedItems, findBlocked, matchesBlocked. simpl.
  rewrite !bfilter_app, app_nil_r.
  destruct (channelNotInDatabase _ _), (seenBefore _ _), (Collection.first _ _); done.
Qed.

(** The errors of a file do not depend on the streams seen before. *)
Lemma fileItems_errors countryCode earlier streams :
  bfilter is_error (fileItems channels blocklist countryCode earlier streams)
  = blockedItems blocklist countryCode streams.
Proof.
  revert earlier. induction streams as [|stream streams IH]; intros earlier; [done|].
  cbn [fileItems]. rewrite bfilter_app, streamItems_errors, IH.
  unfold blockedItems. simpl. by rewrite app_nil_r.
Qed.

Lemma streamItems_warnings countryCode earlier stream :
  bfilter is_warning (streamItems channels blocklist countryCode earlier stream)
  = streamWarnings channels earlier stream.
Proof.
  unfold streamItems, streamWarnings. rewrite !bfilter_app.
  destruct (channelNotInDatabase _ _), (seenBefore _ _), (findBlocked _ _ _); done.
Qed.

Lemma fileItems_warnings countryCode earlier streams :
  bfilter is_warning (fileItems channels blocklist countryCode earlier streams)
  = fileWarnings channels earlier streams.
Proof.
  revert earlier. induction streams as [|stream streams IH]; intros earlier; [done|].
  cbn [fileItems fileWarnings]. by rewrite bfilter_app, streamItems_warnings, IH.
Qed.

(** The test of lines 47-48: the stream names a channel, and no channel
    of the database has that identifier. *)
Lemma channelNotInDatabase_iff stream :
  channelNotInDatabase channels stream = true ↔
  Stream.channel stream ≠ []
  ∧ Forall (λ channel, Channel.id channel ≠ Stream.channel stream) channels.
Proof.
  unfold channelNotInDatabase.
  rewrite andb_true_iff, negb_true_iff, bool_decide_eq_false, <-eq_None_not_Some.
  rewrite Collection.first_None. split; intros [Hc Hall]; (split;
    [by destruct (Stream.channel stream)|]); eapply Forall_impl; try exact Hall;
    intros channel; simpl; by rewrite bool_decide_eq_false.
Qed.

Lemma blockedItems_nil countryCode streams :
  blockedItems blocklist countryCode streams = [] ↔
  ∀ stream blocked, stream ∈ streams → blocked ∈ blocklist →
                    matchesBlocked countryCode stream blocked = false.
Proof.
  unfold blockedItems. induction streams as [|stream streams IH]; simpl.
  { split; [by intros _ ?? ?%elem_of_nil | done]. }
  destruct (Collection.first _ blocklist) as [blocked|] eqn:E.
  - split; [done|]. intros Hno. apply Collection.first_elem_of in E as [Hin Hm].
    rewrite Hno in Hm; [done | by left | done].
  - simpl. rewrite IH. apply Collection.first_None in E. rewrite Forall_forall in E.
    split; [intros Hno s b [->|?]%elem_of_cons; eauto |].
    intros Hno s b ??. apply Hno; [by right | done].
Qed.

End Streams.

(** ** The log of one file *)

Section Run.
Context `{JsRuntime}.
Context (parse : jsstring → jsstring + list Stream.t) (STREAMS_DIR : jsstring).
Context (channels : list Channel.t) (blocklist : list Blocked.t).
Implicit Types (stream : Stream.t) (earlier streams : list Stream.t).
Implicit Types (filepath : jsstring) (files : list jsstring) (st : run).

Local Abbreviation validateFile := (validateFile parse STREAMS_DIR channels blocklist).
Local Abbreviation fileLog := (fileLog parse STREAMS_DIR channels blocklist).
Local Abbreviation fileReport := (fileReport parse STREAMS_DIR channels blocklist).
Local Abbreviation fileStep := (fileStep parse STREAMS_DIR channels blocklist).
Local Abbreviation checkStream := (checkStream channels blocklist).
Local Abbreviation streamItems := (streamItems channels blocklist).
Local Abbreviation fileItems := (fileItems channels blocklist).

(** An item is an error or a warning, never both. *)
Definition well_typed (logItem : LogItem.t) : Prop :=
  LogItem.type logItem = js "error" ∨ LogItem.type logItem = js "warning".

#[export] Instance well_typed_dec logItem : Decision (well_typed logItem).
Proof. unfold well_typed. apply _. Defined.

Lemma well_typed_partition logItem :
  well_typed logItem → is_error logItem = negb (is_warning logItem).
Proof. unfold is_error, is_warning. by intros [-> | ->]. Qed.

Lemma streamItems_well_typed countryCode earlier stream :
  Forall well_typed (streamItems countryCode earlier stream).
Proof.
  unfold streamItems.
  repeat (apply Forall_app; split); repeat case_test;
    repeat constructor; by (left + right).
Qed.

Lemma fileItems_well_typed countryCode earlier streams :
  Forall well_typed (fileItems countryCode earlier streams).
Proof.
  revert earlier. induction streams as [|stream streams IH]; intros earlier;
    simpl; [constructor|].
  apply Forall_app. auto using streamItems_well_typed.
Qed.

(** One iteration of the loop over the streams adds typed items to a
    typed log, whatever the buffer holds, and stores nothing but [true]
    in the buffer. *)
Lemma checkStream_well_typed countryCode log buffer stream :
  Forall well_typed log →
  Forall well_typed (checkStream countryCode (log, buffer) stream).1.
Proof.
  intros Hlog. unfold Validate.checkStream, Collection.add.
  repeat case_test; simpl; repeat (apply Forall_app; split); try done;
    repeat constructor; by (left + right).
Qed.

Lemma checkStream_buffer countryCode log buffer stream :
  map_Forall (λ _ seen, seen = true) buffer →
  map_Forall (λ _ seen, seen = true) (checkStream countryCode (log, buffer) stream).2.
Proof.
  intros Hb. unfold Validate.checkStream, Dictionary.set.
  repeat case_test; simpl; try done; by apply map_Forall_insert_2.
Qed.

(** The loop over the streams of a file that parses computes the items
    of the specification. *)
Lemma validateFile_parsed filepath streams :
  parse (replace_literal STREAMS_DIR [] filepath) = inr streams →
  validateFile filepath = fileItems (countryCodeOf filepath) [] streams.
Proof.
  intros Hp. unfold Validate.validateFile. rewrite Hp.
  by destruct (fold_checkStream channels blocklist (countryCodeOf filepath)
                 streams [] ∅ [] buffer_tracks_empty) as (buffer & -> & _).
Qed.

(** C1. The log of a file that parses is the concatenation, in document
    order, of the items of its streams; the items of a stream are decided
    by the stream and the URLs of the streams before it.  The loop with
    its mutable buffer implements this specification. *)
Theorem validateFile_refines_fileItems filepath streams :
  parse (replace_literal STREAMS_DIR [] filepath) = inr streams →
  validateFile filepath = fileItems (countryCodeOf filepath) [] streams.
Proof.
  apply validateFile_parsed.
Qed.

(** C5. When the loop reaches a stream, the test of line 57 holds exactly
    when the stream has a URL and an earlier stream of the file has the
    same URL. *)
Theorem alreadyOnPlaylist_iff_seen_earlier countryCode earlier stream :
  alreadyOnPlaylist
    (snd (fold_left (checkStream countryCode) earlier ([], ∅))) stream = true
  ↔ Stream.url stream ≠ [] ∧ Stream.url stream ∈ Stream.url <$> earlier.
Proof.
  destruct (fold_checkStream channels blocklist countryCode earlier [] ∅ []
              buffer_tracks_empty) as (buffer & -> & Hb).
  rewrite (buffer_tracks_has _ _ _ Hb). unfold seenBefore. simpl.
  rewrite andb_true_iff, bool_decide_eq_true.
  destruct (Stream.url stream); simpl; intuition congruence.
Qed.

Lemma validateFile_well_typed filepath : Forall well_typed (validateFile filepath).
Proof.
  destruct (parse (replace_literal STREAMS_DIR [] filepath)) as [message|streams] eqn:Hp.
  - unfold Validate.validateFile. rewrite Hp. repeat constructor.
  - rewrite (validateFile_parsed _ _ Hp). apply fileItems_well_typed.
Qed.

Lemma fileLog_well_typed filepath : Forall well_typed (fileLog filepath).
Proof.
  unfold Validate.fileLog. case_bool_decide; [|constructor].
  apply validateFile_well_typed.
Qed.

(** ** Warnings *)

(** C25. The warnings of a file that parses are, in document order and
    for each stream, the unknown channel (the stream names a channel that
    no entry of the database has) and then the repeated URL; the blocklist
    has no part in them. *)
Theorem file_warnings_are_unknown_or_repeated filepath streams :
  parse (replace_literal STREAMS_DIR [] filepath) = inr streams →
  Collection.filter is_warning (validateFile filepath)
  = fileWarnings channels [] streams
  ∧ ∀ stream, channelNotInDatabase channels stream = true ↔
      Stream.channel stream ≠ []
      ∧ Forall (λ channel, Channel.id channel ≠ Stream.channel stream) channels.
Proof.
  intros Hp. split; [|apply channelNotInDatabase_iff].
  rewrite (validateFile_parsed _ _ Hp). apply fileItems_warnings.
Qed.

(** ** The columns of a report line *)

(** C35. A report line holds the line number, the type and the message in
    this order.  The number is printed in full and filled with blanks on
    its right up to six code units, so a number of more than six digits
    widens its column instead of being cut; the type, in red for an error
    and in yellow for a warning, is filled up to nine. *)
Theorem formatLogItem_columns logItem :
  well_typed logItem →
  ∃ position type,
    formatLogItem logItem
    = LogInfo [Plain (js " "); Gray position;
               (if is_error logItem then Red type else Yellow type);
               Plain (LogItem.message logItem)]
    ∧ number_toString (LogItem.line logItem) `prefix_of` position
    ∧ length position = max 6 (length (number_toString (LogItem.line logItem)))
    ∧ LogItem.type logItem `prefix_of` type
    ∧ length type = 9.
Proof.
  intros Ht. do 2 eexists. split; [reflexivity|].
  split; [apply padEnd_prefix|]. split; [by apply padEnd_length|].
  split; [apply padEnd_prefix|]. rewrite padEnd_length by done.
  by destruct Ht as [-> | ->].
Qed.

(** ** Errors and the blocklist *)

Lemma validateFile_errors filepath streams :
  parse (replace_literal STREAMS_DIR [] filepath) = inr streams →
  Collection.filter is_error (validateFile filepath)
  = blockedItems blocklist (countryCodeOf filepath) streams.
Proof.
  intros Hp. rewrite (validateFile_parsed _ _ Hp). apply fileItems_errors.
Qed.

(** C14. The errors of a file that parses are the blocklist items of its
    streams, in document order: one item for each stream that matches an
    entry of the blocklist, whatever the channel database holds and
    whatever URLs the file repeats. *)
Theorem file_errors_are_blocklist_hits filepath streams :
  parse (replace_literal STREAMS_DIR [] filepath) = inr streams →
  Collection.filter is_error (validateFile filepath)
  = blockedItems blocklist (countryCodeOf filepath) streams
  ∧ length (Collection.filter is_error (validateFile filepath)) ≤ length streams.
Proof.
  intros Hp. rewrite (validateFile_errors _ _ Hp). split; [done|]. clear Hp.
  unfold blockedItems. induction streams as [|stream streams' IH]; simpl; [done|].
  rewrite length_app. destruct (Collection.first _ _); simpl; lia.
Qed.

(** A file that parses logs no error exactly when none of its streams
    matches an entry of the blocklist, by its declared channel or by the
    identifier derived from its name and the country code of the file. *)
Theorem no_error_iff_no_blocklist_match filepath streams :
  parse (replace_literal STREAMS_DIR [] filepath) = inr streams →
  Collection.filter is_error (validateFile filepath) = [] ↔
  ∀ stream blocked, stream ∈ streams → blocked ∈ blocklist →
    matchesBlocked (countryCodeOf filepath) stream blocked = false.
Proof. intros Hp. rewrite (validateFile_errors _ _ Hp). apply blockedItems_nil. Qed.

(** A stream that matches entries of the blocklist logs exactly one
    error, and the error cites the reference of the first entry, in the
    order of the blocklist, that it matches. *)
Theorem blocked_stream_cites_first_entry countryCode earlier stream
    before blocked after :
  blocklist = before ++ blocked :: after →
  matchesBlocked countryCode stream blocked = true →
  Forall (λ b, matchesBlocked countryCode stream b = false) before →
  Collection.filter is_error (streamItems countryCode earlier stream)
  = [blockedItem stream blocked].
Proof.
  intros Hlist Hm Hbefore. unfold Collection.filter.
  rewrite streamItems_errors. unfold blockedItems. simpl.
  replace (Collection.first _ blocklist) with (Some blocked); [done|].
  symmetry. apply Collection.first_Some. by exists before, after.
Qed.

(** Matching against the blocklist ignores the case of ASCII letters:
    a declared channel that differs from an entry only in the case of its
    letters matches it. *)
Theorem matchesBlocked_ignores_ascii_case countryCode stream blocked :
  Forall (λ c, is_ascii c = true) (Stream.channel stream) →
  Forall (λ c, is_ascii c = true) (Blocked.channel blocked) →
  lower_unit <$> Stream.channel stream = lower_unit <$> Blocked.channel blocked →
  matchesBlocked countryCode stream blocked = true.
Proof.
  intros Hs Hb E. unfold matchesBlocked.
  rewrite (toLowerCase_ascii _ Hs), (toLowerCase_ascii _ Hb), E.
  by rewrite bool_decide_eq_true_2.
Qed.

(** ** The loop over the files *)

(** One iteration adds the contribution of its file to each accumulator. *)
Lemma fileStep_spec st filepath :
  fileStep st filepath = {|
    errors := errors st ++ Collection.filter is_error (fileLog filepath);
    warnings := warnings st ++ Collection.filter is_warning (fileLog filepath);
    printed := printed st ++ fileReport filepath
  |}.
Proof.
  unfold Validate.fileStep, Validate.fileReport, Validate.fileLog, Collection.concat.
  destruct st as [e w p]. case_bool_decide; simpl; [|by rewrite !app_nil_r].
  destruct (validateFile filepath); simpl; [by rewrite !app_nil_r | done].
Qed.

Lemma fold_fileStep files st :
  fold_left fileStep files st = {|
    errors := errors st
      ++ flat_map (λ f, Collection.filter is_error (fileLog f)) files;
    warnings := warnings st
      ++ flat_map (λ f, Collection.filter is_warning (fileLog f)) files;
    printed := printed st ++ flat_map fileReport files
  |}.
Proof.
  revert st. induction files as [|f files IH]; intros st; simpl.
  { destruct st. by rewrite !app_nil_r. }
  rewrite IH, fileStep_spec. simpl. by rewrite <-!app_assoc.
Qed.

Lemma exitCode_errors st : exitCode st = if errors st is [] then 0 else 1.
Proof. unfold exitCode, Collection.count. by destruct (errors st). Qed.

(** The files the command processes (line 34). *)
Definition filesOf (args listed : list jsstring) : list jsstring :=
  match args with [] => listed | _ :: _ => args end.

Lemma main_unfold args listed :
  main parse STREAMS_DIR channels blocklist args listed
  = let st := fold_left fileStep (filesOf args listed) (started blocklist) in
    (printed st ++ [summary st], exitCode st).
Proof. done. Qed.

Lemma elem_of_filter_is_error logItem log :
  logItem ∈ Collection.filter is_error log
  ↔ logItem ∈ log ∧ LogItem.type logItem = js "error".
Proof.
  unfold Collection.filter, is_error.
  by rewrite elem_of_bfilter, bool_decide_eq_true.
Qed.

(** C2. The command exits with status 1 exactly when some playlist file
    it processed logged an item of type error, and with status 0
    otherwise: warnings alone never fail the run, and an error in one file
    fails it whatever the other files log. *)
Theorem exit_status_iff_error args listed :
  let status := snd (main parse STREAMS_DIR channels blocklist args listed) in
  (status = 1 ↔
     ∃ filepath logItem,
       filepath ∈ filesOf args listed
       ∧ File.extension filepath = js "m3u"
       ∧ logItem ∈ validateFile filepath
       ∧ LogItem.type logItem = js "error")
  ∧ (status = 0 ∨ status = 1).
Proof.
  rewrite main_unfold. cbn zeta. cbn [snd].
  rewrite exitCode_errors, fold_fileStep. cbn [errors started app].
  set (errs := flat_map _ _).
  assert (Hin : ∀ logItem, logItem ∈ errs ↔ ∃ filepath,
    filepath ∈ filesOf args listed ∧ File.extension filepath = js "m3u"
    ∧ logItem ∈ validateFile filepath ∧ LogItem.type logItem = js "error").
  { intros logItem. unfold errs. rewrite elem_of_flat_map.
    setoid_rewrite elem_of_filter_is_error.
    unfold Validate.fileLog. split; intros (f & Hf & Hl & Ht); exists f.
    - case_bool_decide; [done | by apply elem_of_nil in Hl].
    - by rewrite bool_decide_eq_true_2. }
  destruct errs as [|logItem errs']; (split; [|auto]).
  - split; [done|]. intros (f & logItem & Hx). exfalso.
    apply (proj1 (elem_of_nil logItem)), Hin. by exists f.
  - split; [|done]. intros _. destruct (Hin logItem) as [(f & ?) _]; [by left|].
    by exists f, logItem.
Qed.

(** C8. A playlist file that fails to parse contributes exactly one item
    to the run, an error at line 0 with the lower-cased message of the
    exception; the files before and after it are validated as usual, and
    the run fails. *)
Theorem parse_failure_is_one_error before filepath after message :
  File.extension filepath = js "m3u" →
  parse (replace_literal STREAMS_DIR [] filepath) = inl message →
  let st := fold_left fileStep (before ++ filepath :: after) (started blocklist) in
  errors st
  = errors (fold_left fileStep before (started blocklist))
    ++ {| LogItem.type := js "error"; LogItem.line := 0;
          LogItem.message := toLowerCase message |}
    :: flat_map (λ f, Collection.filter is_error (fileLog f)) after
  ∧ warnings st
    = warnings (fold_left fileStep before (started blocklist))
      ++ flat_map (λ f, Collection.filter is_warning (fileLog f)) after
  ∧ exitCode st = 1.
Proof.
  intros Hext Hp. cbn zeta.
  assert (Hlog : fileLog filepath = [parseErrorItem message]).
  { unfold Validate.fileLog, Validate.validateFile.
    by rewrite bool_decide_eq_true_2, Hp. }
  rewrite exitCode_errors, !fold_fileStep. cbn [errors warnings started app].
  rewrite !flat_map_app. cbn [flat_map]. rewrite Hlog.
  split; [done|]. split; [done|]. by destruct (flat_map _ before).
Qed.

(** Every item the command logs is an error or a warning, so the
    number of problems of the summary line, the sum of the two counters,
    is the number of items logged over all the files. *)
Theorem problems_are_errors_plus_warnings files :
  let st := fold_left fileStep files (started blocklist) in
  Forall well_typed (errors st ++ warnings st)
  ∧ Collection.count (errors st) + Collection.count (warnings st)
    = length (flat_map fileLog files).
Proof.
  cbn zeta. rewrite fold_fileStep. cbn [errors warnings started app].
  split.
  - apply Forall_app. split; apply Forall_flat_map; intros f;
      apply Forall_forall; intros x [Hx _]%elem_of_bfilter;
      revert x Hx; apply Forall_forall, fileLog_well_typed.
  - unfold Collection.count. induction files as [|f files IH]; [done|].
    cbn [flat_map]. rewrite !length_app, <-IH.
    pose proof (Collection.count_filter_partition is_error is_warning (fileLog f)) as Hc.
    unfold Collection.count in Hc. rewrite <-Hc; [lia|].
    eapply Forall_impl; [apply fileLog_well_typed|]. apply well_typed_partition.
Qed.

(** The report lists the files in the order they were given: what is
    printed for a list of files is what is printed for its first part
    followed by the reports of the remaining files, each of which depends
    on its own file only. *)
Theorem report_in_file_order files1 files2 :
  printed (fold_left fileStep (files1 ++ files2) (started blocklist))
  = printed (fold_left fileStep files1 (started blocklist))
    ++ flat_map fileReport files2.
Proof. rewrite !fold_fileStep. cbn [printed]. by rewrite flat_map_app, app_assoc. Qed.

End Run.

(** ** A concrete run

    Two playlists: [us.m3u] parses into four streams, of which the second
    repeats the URL of the first and carries a blocked name; every other
    file fails to parse. *)

Definition example_stream (channel name url : string) (line : N) : Stream.t := {|
  Stream.channel := js channel; Stream.name := js name; Stream.url := js url;
  Stream.line := line; Stream.filepath := []; Stream.logo := [];
  Stream.categories := []; Stream.languages := []; Stream.broadcastArea := [];
  Stream.isNSFW := false
|}.

Definition example_streams : list Stream.t :=
  [example_stream "CNN.us" "CNN" "http://a" 2;
   example_stream "" "CNN International" "http://a" 4;
   example_stream "X.us" "X" "" 6;
   example_stream "Y.us" "Y" "" 8].

Definition example_parse (relativeFilepath : jsstring) : jsstring + list Stream.t :=
  if bool_decide (relativeFilepath = js "us.m3u") then inr example_streams
  else inl (js "Unexpected Token").

Definition example_channels : list Channel.t :=
  [{| Channel.id := js "CNN.us"; Channel.categories := [];
      Channel.languages := []; Channel.broadcastArea := [];
      Channel.isNSFW := false; Channel.logo := [] |}].

Definition example_blocklist : list Blocked.t :=
  [{| Blocked.channel := js "CNNInternational.us"; Blocked.ref := js "DMCA-123" |}].

Lemma validateFile_refines_fileItems_witness :
  validateFile example_parse (js "streams/") example_channels example_blocklist
    (js "streams/us.m3u")
  = fileItems example_channels example_blocklist
      (countryCodeOf (js "streams/us.m3u")) [] example_streams.
Proof.
  apply (validateFile_refines_fileItems example_parse (js "streams/")
           example_channels example_blocklist (js "streams/us.m3u")
           example_streams).
  vm_compute. reflexivity.
Defined.

Lemma parse_failure_is_one_error_witness :
  let st := fold_left
    (fileStep example_parse (js "streams/") example_channels example_blocklist)
    ([js "streams/us.m3u"] ++ js "streams/fr.m3u" :: [js "streams/us.m3u"])
    (started example_blocklist) in
  length (errors st) = 3 ∧ length (warnings st) = 6 ∧ exitCode st = 1.
Proof.
  destruct (parse_failure_is_one_error example_parse (js "streams/")
              example_channels example_blocklist
              [js "streams/us.m3u"] (js "streams/fr.m3u") [js "streams/us.m3u"]
              (js "Unexpected Token")) as (He & Hw & Hx).
  - vm_compute. reflexivity.
  - vm_compute. reflexivity.
  - cbv zeta. rewrite He, Hw, Hx. vm_compute. auto.
Defined.

Definition example_item : LogItem.t :=
  {| LogItem.type := js "error"; LogItem.line := 1234567; LogItem.message := js "m" |}.

Lemma file_warnings_are_unknown_or_repeated_witness :
  Collection.filter is_warning
    (validateFile example_parse (js "streams/") example_channels example_blocklist
       (js "streams/us.m3u"))
  = fileWarnings example_channels [] example_streams.
Proof.
  apply (file_warnings_are_unknown_or_repeated example_parse (js "streams/")
           example_channels example_blocklist (js "streams/us.m3u") example_streams).
  vm_compute. reflexivity.
Defined.

Lemma formatLogItem_columns_witness :
  ∃ position type,
    formatLogItem example_item
    = LogInfo [Plain (js " "); Gray position;
               (if is_error example_item then Red type else Yellow type);
               Plain (LogItem.message example_item)]
    ∧ number_toString (LogItem.line example_item) `prefix_of` position
    ∧ length position = max 6 (length (number_toString (LogItem.line example_item)))
    ∧ LogItem.type example_item `prefix_of` type
    ∧ length type = 9.
Proof. apply (formatLogItem_columns example_item). by left. Defined.

Lemma no_error_iff_no_blocklist_match_witness :
  Collection.filter is_error
    (validateFile example_parse (js "streams/") example_channels []
       (js "streams/us.m3u")) = [].
Proof.
  apply (no_error_iff_no_blocklist_match example_parse (js "streams/")
           example_channels [] (js "streams/us.m3u") example_streams).
  - vm_compute. reflexivity.
  - intros stream blocked _ Hin. by apply elem_of_nil in Hin.
Defined.

Lemma file_errors_are_blocklist_hits_witness :
  length (Collection.filter is_error
    (validateFile example_parse (js "streams/") example_channels example_blocklist
       (js "streams/us.m3u"))) ≤ 4.
Proof.
  apply (file_errors_are_blocklist_hits example_parse (js "streams/")
           example_channels example_blocklist (js "streams/us.m3u") example_streams).
  vm_compute. reflexivity.
Defined.

Lemma blocked_stream_cites_first_entry_witness :
  let stream := example_stream "" "CNN International" "http://a" 4 in
  let other := {| Blocked.channel := js "BBC.uk"; Blocked.ref := js "DMCA-7" |} in
  let blocked := {| Blocked.channel := js "cnninternational.US";
                    Blocked.ref := js "DMCA-8" |} in
  Collection.filter is_error
    (streamItems [] ([other] ++ blocked :: example_blocklist) (js "us") [] stream)
  = [blockedItem stream blocked].
Proof.
  cbv zeta.
  apply (blocked_stream_cites_first_entry [] _ (js "us") []
           (example_stream "" "CNN International" "http://a" 4)
           [{| Blocked.channel := js "BBC.uk"; Blocked.ref := js "DMCA-7" |}]
           {| Blocked.channel := js "cnninternational.US"; Blocked.ref := js "DMCA-8" |}
           example_blocklist eq_refl).
  - vm_compute. reflexivity.
  - apply Forall_cons_2; [vm_compute; reflexivity | apply Forall_nil_2].
Defined.

Lemma matchesBlocked_ignores_ascii_case_witness :
  matchesBlocked (js "us") (example_stream "cnn.US" "CNN" "http://a" 2)
    {| Blocked.channel := js "CNN.us"; Blocked.ref := js "DMCA-9" |} = true.
Proof.
  apply (matchesBlocked_ignores_ascii_case (js "us")
           (example_stream "cnn.US" "CNN" "http://a" 2)
           {| Blocked.channel := js "CNN.us"; Blocked.ref := js "DMCA-9" |});
    [all_units | all_units | vm_compute; reflexivity].
Defined.

(** The scenario of the specification: a stream whose derived
    identifier is on the blocklist logs exactly one error, which cites the
    reference of the entry, whatever channel it declares; the stream that
    repeats a URL logs one warning, on the second occurrence only. *)
Theorem example_blocked_and_duplicate (declared : jsstring) :
  let second := {|
    Stream.channel := declared; Stream.name := js "CNN International";
    Stream.url := js "http://a"; Stream.line := 4; Stream.filepath := [];
    Stream.logo := []; Stream.categories := []; Stream.languages := [];
    Stream.broadcastArea := []; Stream.isNSFW := false |} in
  let log := fileItems [] example_blocklist (js "us") []
               [example_stream "CNN.us" "CNN" "http://a" 2; second] in
  Collection.filter is_error log
  = [blockedItem second {| Blocked.channel := js "CNNInternational.us";
                           Blocked.ref := js "DMCA-123" |}]
  ∧ Collection.filter (λ i, bool_decide (LogItem.line i = 2%N)) log
    = [notInDatabaseItem (example_stream "CNN.us" "CNN" "http://a" 2)]
  ∧ alreadyOnPlaylistItem second ∈ log.
Proof.
  cbv zeta. unfold fileItems, streamItems, findBlocked, Collection.first,
    example_blocklist. cbn [Blocked.channel Stream.name Stream.channel].
  assert (Hid : ∀ n, n ∈ [js "CNN"; js "CNN International"] →
    bool_decide (toLowerCase (generateChannelId n (js "us"))
                 = toLowerCase (js "CNNInternational.us"))
    = bool_decide (n = js "CNN International")).
  { intros n [->|[->|[]%elem_of_nil]%elem_of_cons]%elem_of_cons;
      rewrite generateChannelId_unfold by (lit_compute; done);
      rewrite (toLowerCase_ascii (js "us")) by all_units;
      rewrite !toLowerCase_ascii by all_units; vm_compute; reflexivity. }
  rewrite !Hid by (rewrite !elem_of_cons; auto).
  rewrite orb_true_r.
  assert (Hcnn : bool_decide (toLowerCase (js "CNN.us")
                              = toLowerCase (js "CNNInternational.us")) = false).
  { rewrite !toLowerCase_ascii by all_units. vm_compute. reflexivity. }
  change (Stream.channel (example_stream "CNN.us" "CNN" "http://a" 2))
    with (js "CNN.us"). rewrite Hcnn.
  repeat split.
  - vm_compute bool_decide. unfold channelNotInDatabase. simpl.
    rewrite andb_true_r. destruct (truthy declared); reflexivity.
  - unfold channelNotInDatabase. simpl. rewrite andb_true_r.
    destruct (truthy declared); vm_compute; reflexivity.
  - unfold channelNotInDatabase. simpl. rewrite andb_true_r.
    destruct (truthy declared); vm_compute seenBefore; set_solver.
Qed.

End Validate.
