(* ===== verification/Playlist.v ===== *)
(** * The playlist parser

    [PlaylistParser] of [../../core] is outside [src/]; the validation
    command only calls [parser.parse] (validate.ts, line 45) and catches
    what it throws.  This file holds

    - the contract of the parser the command relies on, as the class
      [Parser]: the streams of a document come with their source lines,
      counted from 1, in document order;
    - a reference implementation on documents whose lines are already
      classified (a metadata directive, the location of a stream, anything
      else), which follows the directive structure the specification
      describes: every location is preceded by its directive, and a
      document that breaks this structure is an error;
    - what the contract gives the validation command: the lines of the
      report of a file are in document order, and line 0 marks a file that
      failed to parse and nothing else.

    The grammar of the attributes of a directive is an external format and
    is not modelled.  The group tag of a directive has no field in the
    stream record and is dropped. *)

From Stdlib Require Import Ascii String.
From stdpp Require Import gmap.
From S2P Require Import Prelude JsString Models Collection CountryCode Validate.

Module Playlist.
Import Validate.

(** ** Documents *)

Inductive line :=
| Directive (channel name logo group : jsstring)
    (* the metadata of a stream; an absent attribute is empty *)
| Location (url : jsstring)
    (* the URL of the stream the last directive describes *)
| Other.
    (* the header of the document, a blank line *)

#[export] Instance line_eq_dec : EqDecision line.
Proof. solve_decision. Defined.

Definition document := list line.

Inductive ParseError :=
| MissingDirective (at_line : N)   (* a location without directive *)
| MissingLocation (at_line : N).   (* a directive without location *)

(** The stream of a directive at line [n] and its location. *)
Definition streamOf (filepath : jsstring) (n : N) (channel name logo url : jsstring) :
    Stream.t := {|
  Stream.channel := channel; Stream.name := name; Stream.url := url;
  Stream.line := n; Stream.filepath := filepath; Stream.logo := logo;
  Stream.categories := []; Stream.languages := []; Stream.broadcastArea := [];
  Stream.isNSFW := false
|}.

(** The directive read last and not yet used: its line, channel, name
    and logo. *)
Definition pending := option (N * jsstring * jsstring * jsstring).

(** The streams of [doc], whose first line has number [n]. *)
Fixpoint parse_from (filepath : jsstring) (n : N) (p : pending) (doc : document) :
    ParseError + list Stream.t :=
  match doc with
  | [] =>
      match p with
      | Some (at_line, _, _, _) => inl (MissingLocation at_line)
      | None => inr []
      end
  | Other :: doc' => parse_from filepath (n + 1) p doc'
  | Directive channel name logo _ :: doc' =>
      match p with
      | Some (at_line, _, _, _) => inl (MissingLocation at_line)
      | None => parse_from filepath (n + 1) (Some (n, channel, name, logo)) doc'
      end
  | Location url :: doc' =>
      match p with
      | Some (at_line, channel, name, logo) =>
          match parse_from filepath (n + 1) None doc' with
          | inr streams =>
              inr (streamOf filepath at_line channel name logo url :: streams)
          | inl e => inl e
          end
      | None => inl (MissingDirective n)
      end
  end.

Definition parseDocument (filepath : jsstring) (doc : document) :
    ParseError + list Stream.t :=
  parse_from filepath 1 None doc.

(** ** The contract *)

(** What the validation command may assume of [parser.parse]: the lines
    of the streams it returns are positive and increase. *)
Class Parser := {
  parse : jsstring → jsstring + list Stream.t;
  parse_lines filepath streams :
    parse filepath = inr streams →
    StronglySorted N.lt (0%N :: (Stream.line <$> streams))
}.

(** ** Well-formed documents *)

(** The documents the reference implementation accepts: directives and
    locations alternate, starting with a directive and ending with a
    location; other lines may stand anywhere.  The index tells whether a
    directive waits for its location. *)
Inductive well_formed : bool → document → Prop :=
| wf_nil : well_formed false []
| wf_other waiting doc : well_formed waiting doc → well_formed waiting (Other :: doc)
| wf_directive channel name logo group doc :
    well_formed true doc →
    well_formed false (Directive channel name logo group :: doc)
| wf_location url doc :
    well_formed false doc → well_formed true (Location url :: doc).

(** The locations of a document, in order. *)
Definition locations (doc : document) : list jsstring :=
  omap (λ l, match l with Location url => Some url | _ => None end) doc.

(** The lines a directive and its location take in a document written
    from a list of streams. *)
Definition render (streams : list Stream.t) : document :=
  flat_map (λ s, [Directive (Stream.channel s) (Stream.name s) (Stream.logo s) [];
                  Location (Stream.url s)]) streams.

(** A stream as the parser returns it when it stands at line [n] of the
    document [filepath]. *)
Definition parsed (filepath : jsstring) (n : N) (s : Stream.t) : Stream.t :=
  streamOf filepath n (Stream.channel s) (Stream.name s) (Stream.logo s) (Stream.url s).

Fixpoint renumber (filepath : jsstring) (n : N) (streams : list Stream.t) :
    list Stream.t :=
  match streams with
  | [] => []
  | s :: streams' => parsed filepath n s :: renumber filepath (n + 2) streams'
  end.

(** ** The reference implementation *)

Section Reference.
Implicit Types (filepath : jsstring) (n : N) (p : pending) (doc : document).

Definition waiting (p : pending) : bool := bool_decide (is_Some p).

Lemma well_formed_parse filepath w doc :
  well_formed w doc →
  ∀ n p, waiting p = w → ∃ streams, parse_from filepath n p doc = inr streams.
Proof.
  induction 1 as [|w doc _ IH|channel name logo group doc _ IH|url doc _ IH];
    intros n [[[[at_line c] nm] lg]|] Hw; try done; cbn [parse_from]; eauto.
  destruct (IH (n + 1)%N None eq_refl) as [streams ->]. eauto.
Qed.

Lemma parse_well_formed filepath n p doc streams :
  parse_from filepath n p doc = inr streams → well_formed (waiting p) doc.
Proof.
  revert n p streams.
  induction doc as [|[channel name logo group|url|] doc IH];
    intros n [[[[at_line c] nm] lg]|] streams; cbn [parse_from]; try done.
  - constructor.
  - intros Hp%IH. by constructor.
  - destruct (parse_from filepath (n + 1) None doc) as [|streams'] eqn:E; [done|].
    intros _. constructor. by eapply (IH _ None).
  - intros Hp%IH. by constructor.
  - intros Hp%IH. by constructor.
Qed.

(** The lines of the streams increase, from the line of the directive
    that waits or from the line read next. *)
Lemma parse_from_lines filepath n p doc streams lo :
  parse_from filepath n p doc = inr streams →
  match p with
  | Some (at_line, _, _, _) => (lo < at_line < n)%N
  | None => (lo < n)%N
  end →
  StronglySorted N.lt (lo :: (Stream.line <$> streams)).
Proof.
  revert n p streams lo.
  induction doc as [|[channel name logo group|url|] doc IH];
    intros n [[[[at_line c] nm] lg]|] streams lo; cbn [parse_from]; try done.
  - intros [= <-] _. repeat constructor.
  - intros Hp Hlo. apply (IH _ _ _ _ Hp). lia.
  - destruct (parse_from filepath (n + 1) None doc) as [|streams'] eqn:E; [done|].
    intros [= <-] Hlo. rewrite fmap_cons. cbn [Stream.line streamOf].
    assert (Hs : StronglySorted N.lt (at_line :: (Stream.line <$> streams')))
      by (apply (IH _ None _ _ E); cbn; lia).
    constructor; [done|]. apply StronglySorted_cons in Hs as [Hat _].
    constructor; [lia|]. eapply Forall_impl; [exact Hat|]. cbn beta. lia.
  - intros Hp Hlo. apply (IH _ _ _ _ Hp). lia.
  - intros Hp Hlo. apply (IH _ _ _ _ Hp). lia.
Qed.

(** The streams come in the order of the locations of the document. *)
Lemma parse_from_urls filepath n p doc streams :
  parse_from filepath n p doc = inr streams →
  Stream.url <$> streams = locations doc.
Proof.
  revert n p streams. unfold locations.
  induction doc as [|[channel name logo group|url|] doc IH];
    intros n [[[[at_line c] nm] lg]|] streams; cbn [parse_from omap list_omap];
    try done; try (by intros [= <-]); try apply IH.
  destruct (parse_from filepath (n + 1) None doc) as [|streams'] eqn:E; [done|].
  intros [= <-]. rewrite fmap_cons. f_equal. by eapply IH.
Qed.

(** A document written from a list of streams parses to these streams,
    each at the line of its directive. *)
Lemma parse_render filepath n streams :
  parse_from filepath n None (render streams) = inr (renumber filepath n streams).
Proof.
  revert n. induction streams as [|s streams IH]; intros n; [done|].
  change (render (s :: streams))
    with (Directive (Stream.channel s) (Stream.name s) (Stream.logo s) []
            :: Location (Stream.url s) :: render streams).
  cbn [parse_from renumber].
  replace (n + 1 + 1)%N with (n + 2)%N by lia. by rewrite (IH (n + 2)%N).
Qed.

Lemma renumber_fields filepath n streams :
  Forall2 (λ s s', Stream.channel s' = Stream.channel s
                   ∧ Stream.name s' = Stream.name s
                   ∧ Stream.url s' = Stream.url s
                   ∧ Stream.logo s' = Stream.logo s
                   ∧ Stream.filepath s' = filepath)
    streams (renumber filepath n streams).
Proof.
  revert n. induction streams as [|s streams IH]; intros n; cbn [renumber];
    by constructor.
Qed.

Lemma renumber_lines filepath i streams :
  Stream.line <$> renumber filepath (N.of_nat (2 * i + 1)) streams
  = (λ i, N.of_nat (2 * i + 1)) <$> seq i (length streams).
Proof.
  revert i. induction streams as [|s streams IH]; intros i; [done|].
  cbn [renumber length seq]. rewrite !fmap_cons. f_equal.
  replace (N.of_nat (2 * i + 1) + 2)%N with (N.of_nat (2 * S i + 1)) by lia.
  apply IH.
Qed.

Lemma renumber_urls filepath n streams :
  Stream.url <$> renumber filepath n streams = Stream.url <$> streams.
Proof.
  revert n. induction streams as [|s streams IH]; intros n; [done|].
  cbn [renumber]. rewrite !fmap_cons. f_equal. apply IH.
Qed.

(** The reference parser returns streams exactly for the documents
    in which directives and locations alternate, and an error for every
    other document: a location without directive, or a directive that
    another directive or the end of the document follows. *)
Theorem parseDocument_well_formed filepath doc :
  (well_formed false doc ↔ ∃ streams, parseDocument filepath doc = inr streams)
  ∧ (¬ well_formed false doc ↔ ∃ e, parseDocument filepath doc = inl e).
Proof.
  assert (Hwf : well_formed false doc
                ↔ ∃ streams, parseDocument filepath doc = inr streams).
  { split; [|intros [streams Hp]; by apply parse_well_formed in Hp].
    intros Hwf. by apply (well_formed_parse filepath false doc Hwf 1%N None). }
  split; [done|]. rewrite Hwf.
  destruct (parseDocument filepath doc) as [e|streams]; split; try by eauto.
  - by intros _ [? [=]].
  - intros []. by eexists.
  - by intros [? [=]].
Qed.

(** Writing streams as a document and parsing it returns the streams
    in the same order with the same channel, name, URL and logo; the
    stream [i] (from 0) stands at line [2 i + 1], the line of its
    directive, and the locations of the document are their URLs. *)
Theorem parse_render_roundtrip filepath streams :
  parseDocument filepath (render streams) = inr (renumber filepath 1 streams)
  ∧ Forall2 (λ s s', Stream.channel s' = Stream.channel s
                     ∧ Stream.name s' = Stream.name s
                     ∧ Stream.url s' = Stream.url s
                     ∧ Stream.logo s' = Stream.logo s
                     ∧ Stream.filepath s' = filepath)
      streams (renumber filepath 1 streams)
  ∧ Stream.line <$> renumber filepath 1 streams
    = (λ i, N.of_nat (2 * i + 1)) <$> seq 0 (length streams)
  ∧ locations (render streams) = Stream.url <$> streams.
Proof.
  pose proof (parse_render filepath 1 streams) as Hp.
  split_and!; [done | apply renumber_fields | apply (renumber_lines filepath 0) |].
  apply parse_from_urls in Hp. by rewrite <-Hp, renumber_urls.
Qed.

End Reference.

(** ** The reference implementation keeps the contract *)

Section Instance.
Context (read : jsstring → document) (describe : ParseError → jsstring).

(** [parser.parse]: the document is read from the storage and parsed; an
    error is thrown with its description. *)
Definition referenceParse (filepath : jsstring) : jsstring + list Stream.t :=
  match parseDocument filepath (read filepath) with
  | inr streams => inr streams
  | inl e => inl (describe e)
  end.

Lemma referenceParse_lines filepath streams :
  referenceParse filepath = inr streams →
  StronglySorted N.lt (0%N :: (Stream.line <$> streams)).
Proof.
  unfold referenceParse, parseDocument.
  destruct (parse_from _ _ _ _) as [|streams'] eqn:E; [done|]. intros [= <-].
  by apply (parse_from_lines _ _ _ _ _ _ E).
Qed.

#[export] Instance referenceParser : Parser := {|
  parse := referenceParse;
  parse_lines := referenceParse_lines
|}.

End Instance.

(** ** Validation with the reference parser *)

Section Reference_validation.
Context `{JsRuntime}.
Context (read : jsstring → document) (describe : ParseError → jsstring).
Context (STREAMS_DIR : jsstring).
Context (channels : list Channel.t) (blocklist : list Blocked.t).

Local Abbreviation validate :=
  (validateFile (referenceParse read describe) STREAMS_DIR channels blocklist).
Local Abbreviation relative := (replace_literal STREAMS_DIR []).

(** C34. With the reference parser, a playlist file is checked stream by
    stream exactly when directives and locations alternate in its
    document; every other document gives one error at line 0 that
    describes what is missing, and none of its streams is checked. *)
Theorem malformed_playlist_is_one_error filepath :
  (well_formed false (read (relative filepath))
   ↔ ∃ streams,
       parseDocument (relative filepath) (read (relative filepath)) = inr streams
       ∧ validate filepath
         = fileItems channels blocklist (countryCodeOf filepath) [] streams)
  ∧ (¬ well_formed false (read (relative filepath))
     ↔ ∃ e,
         parseDocument (relative filepath) (read (relative filepath)) = inl e
         ∧ validate filepath = [parseErrorItem (describe e)]).
Proof.
  destruct (parseDocument_well_formed (relative filepath) (read (relative filepath)))
    as [Hwf Hnwf].
  split; [rewrite Hwf | rewrite Hnwf]; clear Hwf Hnwf; split.
  - intros [streams E]. exists streams. split; [done|].
    apply validateFile_parsed. unfold referenceParse. by rewrite E.
  - intros (streams & E & _). eauto.
  - intros [e E]. exists e. split; [done|].
    unfold Validate.validateFile, referenceParse. by rewrite E.
  - intros (e & E & _). eauto.
Qed.

(** A playlist written from a list of streams validates as these
    streams do: the log is that of the same streams, in the same order,
    each at the line of its directive. *)
Theorem rendered_playlist_validates filepath streams :
  read (relative filepath) = render streams →
  let streams' := renumber (relative filepath) 1 streams in
  validate filepath = fileItems channels blocklist (countryCodeOf filepath) [] streams'
  ∧ Forall2 (λ s s', Stream.channel s' = Stream.channel s
                     ∧ Stream.name s' = Stream.name s
                     ∧ Stream.url s' = Stream.url s
                     ∧ Stream.logo s' = Stream.logo s)
      streams streams'
  ∧ Stream.line <$> streams' = (λ i, N.of_nat (2 * i + 1)) <$> seq 0 (length streams).
Proof.
  intros Hr. cbv zeta.
  destruct (parse_render_roundtrip (relative filepath) streams) as (Hp & Hf & Hl & _).
  split_and!; [| |done].
  - apply validateFile_parsed. unfold referenceParse. by rewrite Hr, Hp.
  - eapply Forall2_impl; [exact Hf|]. by intros ?? (? & ? & ? & ? & _).
Qed.

End Reference_validation.

(** ** What the validation command gets from the contract *)

Section Client.
Context `{JsRuntime} `{Parser}.
Context (STREAMS_DIR : jsstring).
Context (channels : list Channel.t) (blocklist : list Blocked.t).
Implicit Types (stream : Stream.t) (earlier streams : list Stream.t).

Local Abbreviation validateFile := (validateFile parse STREAMS_DIR channels blocklist).
Local Abbreviation streamItems := (streamItems channels blocklist).
Local Abbreviation fileItems := (fileItems channels blocklist).

(** An item of a stream carries the line of the stream. *)
Lemma streamItems_line countryCode earlier stream logItem :
  logItem ∈ streamItems countryCode earlier stream →
  LogItem.line logItem = Stream.line stream.
Proof.
  unfold Validate.streamItems. rewrite !elem_of_app.
  intros [Hin|[Hin|Hin]]; revert Hin; repeat case_test;
    rewrite ?elem_of_nil, ?list_elem_of_singleton; try done; by intros ->.
Qed.

Lemma fileItems_line countryCode earlier streams logItem :
  logItem ∈ fileItems countryCode earlier streams →
  ∃ stream, stream ∈ streams ∧ LogItem.line logItem = Stream.line stream.
Proof.
  revert earlier. induction streams as [|stream streams IH]; intros earlier;
    cbn [Validate.fileItems]; [by intros ?%elem_of_nil|].
  intros [Hin%streamItems_line|(s & Hs & Hl)%IH]%elem_of_app.
  - exists stream. split; [by left | done].
  - exists s. split; [by right | done].
Qed.

(** The items of streams on increasing lines are sorted by line. *)
Lemma fileItems_sorted countryCode earlier streams :
  StronglySorted N.lt (Stream.line <$> streams) →
  StronglySorted N.le (LogItem.line <$> fileItems countryCode earlier streams).
Proof.
  revert earlier. induction streams as [|stream streams IH]; intros earlier;
    cbn [Validate.fileItems]; [constructor|].
  rewrite fmap_cons. intros [Hlt Hs]%StronglySorted_cons.
  rewrite fmap_app. apply StronglySorted_app_2; [| |by apply IH].
  - intros x1 x2 (i1 & -> & H1%streamItems_line)%list_elem_of_fmap
      (i2 & -> & (s & Hin & H2)%fileItems_line)%list_elem_of_fmap.
    rewrite Forall_fmap, Forall_forall in Hlt. specialize (Hlt s Hin).
    cbn in Hlt. lia.
  - apply StronglySorted_pairwise.
    intros x y (i1 & -> & H1%streamItems_line)%list_elem_of_fmap
      (i2 & -> & H2%streamItems_line)%list_elem_of_fmap. lia.
Qed.

(** The log of a file, by cases on the answer of the parser. *)
Lemma validateFile_cases filepath :
  (∃ streams,
     parse (replace_literal STREAMS_DIR [] filepath) = inr streams
     ∧ validateFile filepath = fileItems (countryCodeOf filepath) [] streams)
  ∨ (∃ message,
       parse (replace_literal STREAMS_DIR [] filepath) = inl message
       ∧ validateFile filepath = [parseErrorItem message]).
Proof.
  destruct (parse (replace_literal STREAMS_DIR [] filepath)) as [message|streams] eqn:E.
  - right. exists message. split; [done|]. unfold Validate.validateFile. by rewrite E.
  - left. exists streams. split; [done|]. by apply validateFile_parsed.
Qed.

(** The log of a file is in document order: the lines of its items
    never decrease, whether the file parses or not. *)
Theorem log_in_document_order filepath :
  StronglySorted N.le (LogItem.line <$> validateFile filepath).
Proof.
  destruct (validateFile_cases filepath) as [(streams & Hp & ->)|(message & _ & ->)].
  - apply fileItems_sorted. by apply parse_lines, StronglySorted_cons in Hp as [_ ?].
  - repeat constructor.
Qed.

(** Line 0 in the log of a file means that the file failed to parse,
    and nothing else does: an item of a stream is never at line 0. *)
Theorem line_zero_iff_parse_failure filepath :
  (∃ logItem, logItem ∈ validateFile filepath ∧ LogItem.line logItem = 0%N)
  ↔ ∃ message, parse (replace_literal STREAMS_DIR [] filepath) = inl message.
Proof.
  destruct (validateFile_cases filepath) as [(streams & Hp & ->)|(message & Hp & ->)].
  - split; [|intros [? ?]; congruence].
    intros (logItem & (s & Hin & Hl)%fileItems_line & Hz).
    apply parse_lines, StronglySorted_cons in Hp as [Hpos _].
    rewrite Forall_fmap, Forall_forall in Hpos. specialize (Hpos s Hin).
    cbn in Hpos. lia.
  - split; [by eauto|]. intros _. exists (parseErrorItem message).
    split; [by left | done].
Qed.

End Client.

(** ** A document *)

Lemma rendered_playlist_validates_witness :
  let streams' := renumber (js "us.m3u") 1 example_streams in
  validateFile (referenceParse (λ _, render example_streams) (λ _, js "Syntax error"))
    (js "streams/") example_channels example_blocklist (js "streams/us.m3u")
  = fileItems example_channels example_blocklist
      (countryCodeOf (js "streams/us.m3u")) [] streams'
  ∧ Forall2 (λ s s', Stream.channel s' = Stream.channel s
                     ∧ Stream.name s' = Stream.name s
                     ∧ Stream.url s' = Stream.url s
                     ∧ Stream.logo s' = Stream.logo s)
      example_streams streams'
  ∧ Stream.line <$> streams'
    = (λ i, N.of_nat (2 * i + 1)) <$> seq 0 (length example_streams).
Proof.
  apply (rendered_playlist_validates (λ _, render example_streams)
           (λ _, js "Syntax error") (js "streams/") example_channels
           example_blocklist (js "streams/us.m3u") example_streams).
  reflexivity.
Defined.

End Playlist.
