(* ===== verification/Machine.v ===== *)
(** * The validation command, step by step

    [main] of [validate.ts] as a transition system.  A configuration is a
    point of the program (the start, the head of the loop over the files,
    the head of the loop over the streams of a file, the report of a file,
    the summary, the end of the process) with the values of the variables
    live there.
    One transition is one iteration of a loop or one of the blocks between
    the loops.

    The file shows that the system is deterministic, that every
    configuration reaches the end of the process in a number of steps that
    is known in advance, that what it prints and the status it exits with
    are those of [Validate.main], that the variables of every reachable
    configuration are related to the files and streams already visited,
    that every transition keeps the configuration well formed,
    and in which order a run reads its data and calls the parser and the
    logger. *)

From Stdlib Require Import Ascii String.
From stdpp Require Import gmap relations.
From S2P Require Import Prelude JsString Models Collection CountryCode Validate.

Module Machine.
Import Validate.

(** ** Configurations *)

Inductive config :=
| AtStart (args listed : list jsstring)
    (* line 19: the command-line arguments and what the storage will
       list *)
| AtFiles (files : list jsstring) (st : run)
    (* line 35: [files] are still to be visited *)
| AtStreams (filepath countryCode : jsstring) (streams : list Stream.t)
    (log : list LogItem.t) (buffer : gmap jsstring bool)
    (files : list jsstring) (st : run)
    (* line 46: [streams] of [filepath] are still to be checked *)
| AtReport (filepath : jsstring) (log : list LogItem.t)
    (files : list jsstring) (st : run)
    (* line 90: the [try] statement of [filepath] is over *)
| AtSummary (st : run)
    (* line 106: the loop over the files is over *)
| Exited (printed : list output) (status : nat).
    (* the process has ended *)

#[export] Instance config_eq_dec : EqDecision config.
Proof. solve_decision. Defined.

Section Steps.
Context `{JsRuntime}.
Context (parse : jsstring → jsstring + list Stream.t).
Context (STREAMS_DIR : jsstring).
Context (channels : list Channel.t) (blocklist : list Blocked.t).

(** Line 44. *)
Definition relativeFilepath (filepath : jsstring) : jsstring :=
  replace_literal STREAMS_DIR [] filepath.

(** Lines 90-103: the report of a file and the two accumulators. *)
Definition report (filepath : jsstring) (log : list LogItem.t) (st : run) : run :=
  if Collection.notEmpty log then {|
    errors := Collection.concat (errors st) (Collection.filter is_error log);
    warnings := Collection.concat (warnings st) (Collection.filter is_warning log);
    printed := printed st
      ++ LogInfo [Plain newline; Underline filepath] :: (formatLogItem <$> log)
  |}
  else st.

(** The configuration [main] starts in. *)
Definition initial (args listed : list jsstring) : config := AtStart args listed.

(** ** Transitions *)

Inductive step : config → config → Prop :=
| step_start args listed :
    (* lines 19-34 *)
    step (AtStart args listed) (AtFiles (filesOf args listed) (started blocklist))
| step_files_end st :
    (* line 35, no file left *)
    step (AtFiles [] st) (AtSummary st)
| step_skip filepath files st :
    (* line 37 *)
    File.extension filepath ≠ js "m3u" →
    step (AtFiles (filepath :: files) st) (AtFiles files st)
| step_parsed filepath files st streams :
    (* lines 37-45, the parser returns *)
    File.extension filepath = js "m3u" →
    parse (relativeFilepath filepath) = inr streams →
    step (AtFiles (filepath :: files) st)
         (AtStreams filepath (countryCodeOf filepath) streams [] ∅ files st)
| step_failed filepath files st message :
    (* lines 37-45 and 82-88, the parser throws *)
    File.extension filepath = js "m3u" →
    parse (relativeFilepath filepath) = inl message →
    step (AtFiles (filepath :: files) st)
         (AtReport filepath [parseErrorItem message] files st)
| step_check filepath countryCode stream streams log buffer log' buffer' files st :
    (* lines 46-81, one call of the callback *)
    checkStream channels blocklist countryCode (log, buffer) stream = (log', buffer') →
    step (AtStreams filepath countryCode (stream :: streams) log buffer files st)
         (AtStreams filepath countryCode streams log' buffer' files st)
| step_streams_end filepath countryCode log buffer files st :
    (* line 81, no stream left *)
    step (AtStreams filepath countryCode [] log buffer files st)
         (AtReport filepath log files st)
| step_report filepath log files st :
    (* lines 90-104 *)
    step (AtReport filepath log files st) (AtFiles files (report filepath log st))
| step_summary st :
    (* lines 106-117 *)
    step (AtSummary st) (Exited (printed st ++ [summary st]) (exitCode st)).

(** The transition a configuration makes, as a function. *)
Definition next (c : config) : option config :=
  match c with
  | AtStart args listed => Some (AtFiles (filesOf args listed) (started blocklist))
  | AtFiles [] st => Some (AtSummary st)
  | AtFiles (filepath :: files) st =>
      if bool_decide (File.extension filepath = js "m3u") then
        match parse (relativeFilepath filepath) with
        | inr streams =>
            Some (AtStreams filepath (countryCodeOf filepath) streams [] ∅ files st)
        | inl message =>
            Some (AtReport filepath [parseErrorItem message] files st)
        end
      else Some (AtFiles files st)
  | AtStreams filepath countryCode [] log buffer files st =>
      Some (AtReport filepath log files st)
  | AtStreams filepath countryCode (stream :: streams) log buffer files st =>
      let '(log', buffer') :=
        checkStream channels blocklist countryCode (log, buffer) stream in
      Some (AtStreams filepath countryCode streams log' buffer' files st)
  | AtReport filepath log files st => Some (AtFiles files (report filepath log st))
  | AtSummary st => Some (Exited (printed st ++ [summary st]) (exitCode st))
  | Exited _ _ => None
  end.

(** [n] transitions, or as many as there are. *)
Fixpoint exec (n : nat) (c : config) : config :=
  match n with
  | 0 => c
  | S n' => match next c with Some c' => exec n' c' | None => c end
  end.

(** ** How far the end is *)

(** The transitions a file takes. *)
Definition fileCost (filepath : jsstring) : nat :=
  if bool_decide (File.extension filepath = js "m3u") then
    match parse (relativeFilepath filepath) with
    | inr streams => length streams + 3
    | inl _ => 2
    end
  else 1.

Definition filesCost (files : list jsstring) : nat :=
  sum_list (fileCost <$> files) + 2.

(** The transitions left before the process ends. *)
Definition distance (c : config) : nat :=
  match c with
  | AtStart args listed => 1 + filesCost (filesOf args listed)
  | AtFiles files _ => filesCost files
  | AtStreams _ _ streams _ _ files _ => length streams + 2 + filesCost files
  | AtReport _ _ files _ => 1 + filesCost files
  | AtSummary _ => 1
  | Exited _ _ => 0
  end.

(** ** What a configuration leads to *)

Definition finish (st : run) : list output * nat :=
  (printed st ++ [summary st], exitCode st).

(** What the process prints and exits with when it continues from [c],
    computed with the loops of [Validate]. *)
Definition outcome (c : config) : list output * nat :=
  let fileStep := fileStep parse STREAMS_DIR channels blocklist in
  match c with
  | AtStart args listed =>
      finish (fold_left fileStep (filesOf args listed) (started blocklist))
  | AtFiles files st => finish (fold_left fileStep files st)
  | AtStreams filepath countryCode streams log buffer files st =>
      let log' := fst (fold_left (checkStream channels blocklist countryCode)
                         streams (log, buffer)) in
      finish (fold_left fileStep files (report filepath log' st))
  | AtReport filepath log files st =>
      finish (fold_left fileStep files (report filepath log st))
  | AtSummary st => finish st
  | Exited printed status => (printed, status)
  end.

(** ** What a run does

    The calls a transition makes that the outside sees: a file of data
    read (lines 23 and 25), the playlists listed (line 34), the call of
    the parser (line 45), a line given to the logger (lines 21, 28, 91, 98
    and 106), the end of the process with its status (lines 114-117). *)
Inductive event :=
| Read (filename : jsstring)
| Listed (pattern : jsstring)
| Parsed (relativeFilepath : jsstring)
| Printed (text : output)
| Exit (status : nat).

#[export] Instance event_eq_dec : EqDecision event.
Proof. solve_decision. Defined.

(** The lines of the report of a file (lines 90-99). *)
Definition reportLines (filepath : jsstring) (log : list LogItem.t) : list output :=
  if Collection.notEmpty log
  then LogInfo [Plain newline; Underline filepath] :: (formatLogItem <$> log)
  else [].

(** Lines 21-34: the blocklist is announced, the two files of data are
    read, the number of records is printed, and the playlists are listed
    when no argument names any. *)
Definition startEvents (args : list jsstring) : list event :=
  [Printed (LogInfo [Plain (js "loading blocklist...")]);
   Read (js "channels.json");
   Read (js "blocklist.json");
   Printed (LogInfo [Plain (js "found "
     ++ number_toString (N.of_nat (Collection.count blocklist))
     ++ js " records")])]
  ++ match args with [] => [Listed (js "**/*.m3u")] | _ :: _ => [] end.

(** The events of the transition a configuration makes. *)
Definition emitted (c : config) : list event :=
  match c with
  | AtStart args _ => startEvents args
  | AtFiles (filepath :: _) _ =>
      if bool_decide (File.extension filepath = js "m3u")
      then [Parsed (relativeFilepath filepath)] else []
  | AtReport filepath log _ _ => Printed <$> reportLines filepath log
  | AtSummary st => [Printed (summary st); Exit (exitCode st)]
  | _ => []
  end.

(** The events of the first [n] transitions. *)
Fixpoint trace (n : nat) (c : config) : list event :=
  match n with
  | 0 => []
  | S n' =>
      emitted c ++ match next c with Some c' => trace n' c' | None => [] end
  end.

(** The paths the parser was called on, and the lines printed. *)
Definition parsedPaths (t : list event) : list jsstring :=
  omap (λ e, if e is Parsed p then Some p else None) t.

Definition printedLines (t : list event) : list output :=
  omap (λ e, if e is Printed o then Some o else None) t.

(** The events of a file: it is parsed if it is a playlist, then its
    report is printed. *)
Definition fileEvents (filepath : jsstring) : list event :=
  if bool_decide (File.extension filepath = js "m3u")
  then Parsed (relativeFilepath filepath)
       :: (Printed <$> reportLines filepath
             (validateFile parse STREAMS_DIR channels blocklist filepath))
  else [].

(** ** Reachable configurations *)

(** The accumulators after the files [visited]. *)
Definition storeAfter (visited : list jsstring) : run :=
  fold_left (fileStep parse STREAMS_DIR channels blocklist) visited (started blocklist).

(** What the variables of a configuration are, in a run over [files0]. *)
Definition inv (files0 : list jsstring) (c : config) : Prop :=
  match c with
  | AtStart args listed => files0 = filesOf args listed
  | AtFiles files st =>
      ∃ visited, files0 = visited ++ files ∧ st = storeAfter visited
  | AtStreams filepath countryCode streams log buffer files st =>
      ∃ visited earlier,
        files0 = visited ++ filepath :: files ∧ st = storeAfter visited
        ∧ File.extension filepath = js "m3u"
        ∧ countryCode = countryCodeOf filepath
        ∧ parse (relativeFilepath filepath) = inr (earlier ++ streams)
        ∧ buffer_tracks buffer earlier
        ∧ log = fileItems channels blocklist countryCode [] earlier
  | AtReport filepath log files st =>
      ∃ visited,
        files0 = visited ++ filepath :: files ∧ st = storeAfter visited
        ∧ File.extension filepath = js "m3u"
        ∧ log = validateFile parse STREAMS_DIR channels blocklist filepath
  | AtSummary st => st = storeAfter files0
  | Exited printed status => (printed, status) = finish (storeAfter files0)
  end.

(** ** Well-formed configurations *)

(** The collection [errors] holds items of type error and the collection
    [warnings] items of type warning. *)
Definition wf_run (st : run) : Prop :=
  Forall (λ logItem, LogItem.type logItem = js "error") (errors st)
  ∧ Forall (λ logItem, LogItem.type logItem = js "warning") (warnings st).

(** What the types of [validate.ts] do not say of the variables: the type
    of a log item is one of two strings, the buffer maps a URL to [true]
    and to nothing else, the status is 0 or 1. *)
Definition wf (c : config) : Prop :=
  match c with
  | AtStart _ _ => True
  | AtFiles _ st | AtSummary st => wf_run st
  | AtStreams _ _ _ log buffer _ st =>
      Forall well_typed log ∧ map_Forall (λ _ seen, seen = true) buffer ∧ wf_run st
  | AtReport _ log _ st => Forall well_typed log ∧ wf_run st
  | Exited _ status => status ≤ 1
  end.

#[export] Instance wf_run_dec st : Decision (wf_run st).
Proof. unfold wf_run. apply _. Defined.

#[export] Instance wf_dec c : Decision (wf c).
Proof. destruct c; simpl; apply _. Defined.

(** ** The transition function *)

(** Case analysis on the tests a transition makes. *)
Local Ltac case_next :=
  cbn [next];
  repeat first
    [ case_bool_decide
    | match goal with
      | |- context [parse ?p] => destruct (parse p) eqn:?
      | |- context [checkStream ?a ?b ?c ?d ?e] => destruct (checkStream a b c d e) eqn:?
      end ].

Lemma next_step c c' : next c = Some c' ↔ step c c'.
Proof.
  split.
  - destruct c as [|[|f files] st|f cc [|stream streams] log buffer files st| | |];
      case_next; intros [= <-]; by constructor.
  - destruct 1; case_next; congruence.
Qed.

Lemma step_deterministic c c1 c2 : step c c1 → step c c2 → c1 = c2.
Proof. rewrite <-!next_step. congruence. Qed.

Lemma next_None c : next c = None ↔ ∃ printed status, c = Exited printed status.
Proof.
  split; [|by intros (? & ? & ->)].
  destruct c as [|[|f files] st|f cc [|stream streams] log buffer files st| | |];
    case_next; try done. by eexists _, _.
Qed.

Lemma Exited_nf printed status : nf step (Exited printed status).
Proof. intros [c Hc]. inversion Hc. Qed.

(** ** The distance decreases *)

Lemma filesCost_cons filepath files :
  filesCost (filepath :: files) = fileCost filepath + filesCost files.
Proof. unfold filesCost. rewrite fmap_cons. simpl. lia. Qed.

Lemma step_distance c c' : step c c' → distance c = S (distance c').
Proof.
  destruct 1 as [| |? ? ? Hx|? ? ? ? Hx Hp|? ? ? ? Hx Hp| | | |];
    cbn [distance length]; rewrite ?filesCost_cons; unfold fileCost;
    try (rewrite bool_decide_eq_true_2 by done);
    try (rewrite bool_decide_eq_false_2 by done);
    try rewrite Hp; unfold filesCost; simpl; lia.
Qed.

Lemma nsteps_distance n c c' : nsteps step n c c' → distance c = n + distance c'.
Proof.
  induction 1 as [|n c c1 c' Hs _ IH]; [done|].
  rewrite (step_distance _ _ Hs), IH. lia.
Qed.

(** ** The outcome is kept *)

Lemma fileStep_report filepath st :
  File.extension filepath = js "m3u" →
  fileStep parse STREAMS_DIR channels blocklist st filepath
  = report filepath (validateFile parse STREAMS_DIR channels blocklist filepath) st.
Proof. intros E. unfold fileStep, report. by rewrite E. Qed.

Lemma validateFile_unfold filepath :
  validateFile parse STREAMS_DIR channels blocklist filepath
  = match parse (relativeFilepath filepath) with
    | inr streams =>
        fst (fold_left (checkStream channels blocklist (countryCodeOf filepath))
               streams ([], ∅))
    | inl message => [parseErrorItem message]
    end.
Proof. done. Qed.

Lemma step_outcome c c' : step c c' → outcome c = outcome c'.
Proof.
  destruct 1 as [| |f files st Hx|f files st streams Hx Hp|f files st message Hx Hp
                 |f cc stream streams log buffer log' buffer' files st Hc| | |];
    cbn [outcome fold_left]; try done.
  - unfold fileStep at 2. by case_bool_decide.
  - by rewrite fileStep_report, validateFile_unfold, Hp.
  - by rewrite fileStep_report, validateFile_unfold, Hp.
  - by rewrite Hc.
Qed.

Lemma rtc_outcome c c' : rtc step c c' → outcome c = outcome c'.
Proof. induction 1 as [|c c1 c' Hs _ IH]; [done|]. by rewrite (step_outcome _ _ Hs). Qed.

(** Every configuration runs to the end of the process: the number of
    transitions is its distance and the result its outcome. *)
Lemma runs_to_exit c :
  nsteps step (distance c) c (Exited (outcome c).1 (outcome c).2).
Proof.
  remember (distance c) as n eqn:En. revert c En.
  induction n as [|n IH]; intros c En.
  - destruct c as [|files st|f cc streams log buffer files st|f log files st| |];
      cbn [distance] in En; unfold filesCost in *; try lia. constructor.
  - destruct (next c) as [c'|] eqn:Hn.
    + apply next_step in Hn. pose proof (step_distance _ _ Hn) as Hd.
      rewrite (step_outcome _ _ Hn). econstructor; [done|]. apply IH. lia.
    + apply next_None in Hn as (? & ? & ->). done.
Qed.

Lemma outcome_initial args listed :
  outcome (initial args listed) = main parse STREAMS_DIR channels blocklist args listed.
Proof. done. Qed.

(** ** The invariant *)

Lemma storeAfter_snoc visited filepath :
  storeAfter (visited ++ [filepath])
  = fileStep parse STREAMS_DIR channels blocklist (storeAfter visited) filepath.
Proof. unfold storeAfter. by rewrite fold_left_app. Qed.

Lemma inv_initial args listed : inv (filesOf args listed) (initial args listed).
Proof. done. Qed.

Lemma inv_step files0 c c' : inv files0 c → step c c' → inv files0 c'.
Proof.
  intros Hi Hs.
  destruct Hs as [args listed|st|f files st Hx|f files st streams Hx Hp
                 |f files st message Hx Hp
                 |f cc stream streams log buffer log' buffer' files st Hc
                 |f cc log buffer files st|f log files st|st]; cbn [inv] in *.
  - subst. by exists [].
  - destruct Hi as (visited & -> & ->). by rewrite app_nil_r.
  - destruct Hi as (visited & -> & ->). exists (visited ++ [f]).
    rewrite <-app_assoc, storeAfter_snoc. split; [done|].
    unfold fileStep. by case_bool_decide.
  - destruct Hi as (visited & -> & ->). exists visited, [].
    auto 10 using buffer_tracks_empty.
  - destruct Hi as (visited & -> & ->). exists visited.
    split_and!; try done. by rewrite validateFile_unfold, Hp.
  - destruct Hi as (visited & earlier & -> & -> & Hx & -> & Hp & Hb & ->).
    destruct (checkStream_step channels blocklist (countryCodeOf f)
                (fileItems channels blocklist (countryCodeOf f) [] earlier)
                buffer earlier stream Hb) as (buffer'' & E & Hb').
    rewrite E in Hc. simplify_eq.
    exists visited, (earlier ++ [stream]). rewrite <-app_assoc.
    split_and!; try done. rewrite fileItems_app. cbn [fileItems]. by rewrite app_nil_r.
  - destruct Hi as (visited & earlier & -> & -> & Hx & -> & Hp & Hb & ->).
    exists visited. split_and!; try done. rewrite app_nil_r in Hp.
    symmetry. by apply validateFile_parsed.
  - destruct Hi as (visited & -> & -> & Hx & ->). exists (visited ++ [f]).
    by rewrite <-app_assoc, storeAfter_snoc, fileStep_report.
  - by subst.
Qed.

Lemma rtc_inv files0 c c' : inv files0 c → rtc step c c' → inv files0 c'.
Proof. induction 2; eauto using inv_step. Qed.

(** ** Well-formedness is preserved *)

Lemma wf_started : wf_run (started blocklist).
Proof. by split. Qed.

Lemma wf_report filepath log st : wf_run st → wf_run (report filepath log st).
Proof.
  intros [He Hw]. unfold report, Collection.concat, Collection.filter.
  destruct (Collection.notEmpty log); [|done].
  split; simpl; (apply Forall_app; split; [done|]);
    apply Forall_forall; by intros i [_ ?%bool_decide_eq_true]%elem_of_bfilter.
Qed.

Lemma exitCode_le st : exitCode st ≤ 1.
Proof. unfold exitCode. destruct (Collection.count _); lia. Qed.

Lemma wf_step c c' : wf c → step c c' → wf c'.
Proof.
  intros Hwf Hs.
  destruct Hs as [| | | | |? cc stream ? log buffer ? ? ? ? Hc| | |];
    cbn [wf] in *; try tauto.
  - apply wf_started.
  - split_and!; [done | apply map_Forall_empty | done].
  - split; [|done]. apply Forall_singleton. by left.
  - destruct Hwf as (Hlog & Hb & Hst).
    pose proof (checkStream_well_typed channels blocklist cc log buffer stream Hlog).
    pose proof (checkStream_buffer channels blocklist cc log buffer stream Hb).
    by rewrite Hc in *.
  - apply wf_report, Hwf.
  - apply exitCode_le.
Qed.

(** ** The events of a run *)

Lemma report_printed filepath log st :
  printed (report filepath log st) = printed st ++ reportLines filepath log.
Proof.
  unfold report, reportLines. destruct (Collection.notEmpty log); [done|].
  by rewrite app_nil_r.
Qed.

(** From the head of the loop over the streams: no event until the
    report of the file. *)
Lemma trace_streams k filepath countryCode streams log buffer files st :
  let log' := fst (fold_left (checkStream channels blocklist countryCode)
                     streams (log, buffer)) in
  trace (length streams + 2 + k)
    (AtStreams filepath countryCode streams log buffer files st)
  = (Printed <$> reportLines filepath log')
    ++ trace k (AtFiles files (report filepath log' st)).
Proof.
  revert log buffer. induction streams as [|stream streams IH]; intros log buffer; [done|].
  cbn [length Nat.add trace emitted next fold_left app].
  destruct (checkStream _ _ _ _ _) as [log1 buffer1]. apply IH.
Qed.

Lemma trace_file k filepath files st :
  trace (fileCost filepath + k) (AtFiles (filepath :: files) st)
  = fileEvents filepath
    ++ trace k (AtFiles files (fileStep parse STREAMS_DIR channels blocklist st filepath)).
Proof.
  unfold fileCost, fileEvents. case_bool_decide as Hx.
  - rewrite (fileStep_report _ _ Hx), validateFile_unfold.
    destruct (parse (relativeFilepath filepath)) as [message|streams] eqn:Hp.
    + cbn [Nat.add trace emitted next]. by rewrite bool_decide_eq_true_2, Hp.
    + replace (length streams + 3 + k) with (S (length streams + 2 + k)) by lia.
      cbn [trace emitted next]. rewrite bool_decide_eq_true_2, Hp by done.
      by rewrite trace_streams.
  - cbn [Nat.add trace emitted next]. rewrite bool_decide_eq_false_2 by done.
    unfold fileStep. by rewrite bool_decide_eq_false_2.
Qed.

Lemma parsedPaths_Printed lines : parsedPaths (Printed <$> lines) = [].
Proof. unfold parsedPaths. by induction lines. Qed.

Lemma printedLines_Printed lines : printedLines (Printed <$> lines) = lines.
Proof. unfold printedLines. induction lines; [done|]. cbn. by f_equal. Qed.

Lemma fileEvents_parsed files :
  parsedPaths (flat_map fileEvents files)
  = relativeFilepath
    <$> bfilter (λ f, bool_decide (File.extension f = js "m3u")) files.
Proof.
  unfold parsedPaths. induction files as [|f files IH]; [done|].
  cbn [flat_map bfilter]. rewrite omap_app, IH. unfold fileEvents.
  case_bool_decide; [|done]. cbn [omap list_omap].
  by rewrite (parsedPaths_Printed (reportLines f _)).
Qed.

Lemma fileEvents_printed files :
  printedLines (flat_map fileEvents files)
  = flat_map (fileReport parse STREAMS_DIR channels blocklist) files.
Proof.
  unfold printedLines. induction files as [|f files IH]; [done|].
  cbn [flat_map]. rewrite omap_app, IH. f_equal.
  unfold fileEvents, fileReport, fileLog, reportLines.
  case_bool_decide; [|done]. cbn [omap list_omap].
  rewrite (printedLines_Printed (if Collection.notEmpty _ then _ else _)).
  by destruct (validateFile _ _ _ _ _).
Qed.

Lemma storeAfter_printed files :
  printed (storeAfter files)
  = printed (started blocklist) ++ printedLines (flat_map fileEvents files).
Proof. unfold storeAfter. by rewrite fold_fileStep, fileEvents_printed. Qed.

Lemma trace_files files st :
  let st' := fold_left (fileStep parse STREAMS_DIR channels blocklist) files st in
  trace (filesCost files) (AtFiles files st)
  = flat_map fileEvents files ++ [Printed (summary st'); Exit (exitCode st')].
Proof.
  revert st. induction files as [|filepath files IH]; intros st; [done|].
  rewrite filesCost_cons, trace_file, IH. cbn [flat_map fold_left].
  by rewrite <-app_assoc.
Qed.

(** The calls of a whole run, and what they print and parse. *)
Lemma trace_initial args listed :
  let c := initial args listed in
  let st := storeAfter (filesOf args listed) in
  trace (distance c) c
  = (startEvents args ++ flat_map fileEvents (filesOf args listed))
    ++ [Printed (summary st); Exit (exitCode st)].
Proof.
  cbv zeta. unfold initial. cbn [distance Nat.add trace emitted next].
  by rewrite trace_files, <-app_assoc.
Qed.

Lemma printedLines_run args files :
  printedLines (startEvents args ++ flat_map fileEvents files)
  = printed (storeAfter files).
Proof.
  rewrite storeAfter_printed. unfold printedLines. rewrite omap_app.
  by destruct args.
Qed.

Lemma parsedPaths_run args files :
  parsedPaths (startEvents args ++ flat_map fileEvents files)
  = relativeFilepath <$> bfilter (λ f, bool_decide (File.extension f = js "m3u")) files.
Proof.
  rewrite <-fileEvents_parsed. unfold parsedPaths. rewrite omap_app.
  by destruct args.
Qed.

(** ** Running the transition function *)

Lemma exec_rtc n c : rtc step c (exec n c).
Proof.
  revert c. induction n as [|n IH]; intros c; cbn [exec]; [done|].
  destruct (next c) as [c'|] eqn:Hn; [|done].
  apply next_step in Hn. by econstructor.
Qed.

Lemma nsteps_exec n c c' : nsteps step n c c' → exec n c = c'.
Proof.
  induction 1 as [|n c c1 c' Hs _ IH]; [done|].
  apply next_step in Hs. cbn [exec]. by rewrite Hs.
Qed.

(** ** The theorems *)

(** C3. The transition system computes [main]: the process that starts
    in the initial configuration ends having printed [printed] with
    status [status] exactly when [main] returns them. *)
Theorem machine_refines_main args listed printed status :
  rtc step (initial args listed) (Exited printed status)
  ↔ main parse STREAMS_DIR channels blocklist args listed = (printed, status).
Proof.
  rewrite <-outcome_initial. split.
  - by intros ->%rtc_outcome.
  - intros E. pose proof (runs_to_exit (initial args listed)) as Hr.
    rewrite E in Hr. by eapply rtc_nsteps_2.
Qed.

(** C12. Whatever the parser answers, the process ends: from every
    configuration a run reaches, the end of the process is reached after
    exactly [distance] more transitions, with the output and the status of
    [main]. *)
Theorem every_run_exits args listed c :
  rtc step (initial args listed) c →
  ∃ printed status,
    nsteps step (distance c) c (Exited printed status)
    ∧ exec (distance c) c = Exited printed status
    ∧ main parse STREAMS_DIR channels blocklist args listed = (printed, status).
Proof.
  intros Hr. exists (outcome c).1, (outcome c).2.
  pose proof (runs_to_exit c) as Hn. split_and!; [done | by apply nsteps_exec |].
  rewrite <-outcome_initial, (rtc_outcome _ _ Hr). by destruct (outcome c).
Qed.

(** No run is infinite, and no run from a configuration is longer
    than its distance: one transition per file skipped, two per file that
    fails to parse, three and one per stream for a file that parses, and
    two for the end of the loop and the summary. *)
Theorem step_terminates c :
  sn step c ∧ ∀ n c', nsteps step n c c' → n ≤ distance c.
Proof.
  split; [|intros n c' ->%nsteps_distance; lia].
  apply (Acc_impl (ltof config distance)); [apply well_founded_ltof|].
  intros c1 c2 Hs%step_distance. unfold ltof. lia.
Qed.

(** A configuration has at most one successor, the one [next]
    computes, and the only configurations without successor are those
    where the process has ended: no configuration is stuck. *)
Theorem step_deterministic_no_stuck c :
  (∀ c', step c c' ↔ next c = Some c')
  ∧ (∀ c1 c2, step c c1 → step c c2 → c1 = c2)
  ∧ (nf step c ↔ ∃ printed status, c = Exited printed status).
Proof.
  split_and!; [by intros c'; rewrite next_step | apply step_deterministic |].
  rewrite <-next_None. unfold nf, red. split.
  - intros Hnf. destruct (next c) as [c'|] eqn:Hn; [|done].
    destruct Hnf. exists c'. by apply next_step.
  - intros Hn [c' Hs%next_step]. congruence.
Qed.

(** C22. In every configuration a run reaches, the accumulators are
    those of the files already visited, and inside a file the log holds
    the items of the streams already checked and the buffer exactly
    their URLs. *)
Theorem reachable_inv args listed c :
  rtc step (initial args listed) c → inv (filesOf args listed) c.
Proof. apply rtc_inv, inv_initial. Qed.

(** C23. Well-formedness is preserved along every run, from the start of
    [main] and from every other well-formed configuration: the collection
    of errors never holds a warning nor the collection of warnings an
    error, the type of an item of the log of a file is one of the two,
    the buffer of a file maps the URLs it holds to [true], and the
    process ends with status 0 or 1. *)
Theorem run_preserves_wf c c' : wf c → rtc step c c' → wf c'.
Proof. induction 2; eauto using wf_step. Qed.

(** C24. What a run of the command does, in order: the blocklist is
    announced, the channels and the blocklist are read, the number of
    records is printed and, when no argument names a file, the playlists
    are listed; then, for each file that
    is a playlist, the parser is called on its relative path and then its
    report is printed, before the next file is touched; a file that is no
    playlist causes nothing; at the end the summary is printed and the
    process ends with its status.  The reports are those of
    [Validate.main]. *)
Theorem trace_of_run args listed :
  let c := initial args listed in
  let st := storeAfter (filesOf args listed) in
  trace (distance c) c
  = startEvents args ++ flat_map fileEvents (filesOf args listed)
    ++ [Printed (summary st); Exit (exitCode st)]
  ∧ parsedPaths (trace (distance c) c)
    = relativeFilepath
      <$> bfilter (λ f, bool_decide (File.extension f = js "m3u")) (filesOf args listed)
  ∧ main parse STREAMS_DIR channels blocklist args listed
    = (printedLines (trace (distance c) c), exitCode st).
Proof.
  cbv zeta. rewrite trace_initial, <-app_assoc. split; [done|]. split.
  - unfold parsedPaths. rewrite app_assoc, omap_app. cbn [omap list_omap].
    rewrite app_nil_r. apply parsedPaths_run.
  - rewrite main_unfold. cbv zeta. fold (storeAfter (filesOf args listed)).
    unfold printedLines. rewrite app_assoc, omap_app. cbn [omap list_omap].
    fold (printedLines (startEvents args ++ flat_map fileEvents (filesOf args listed))).
    by rewrite printedLines_run.
Qed.

End Steps.

(** ** A run *)

(** A playlist that parses, a file that is no playlist and a playlist
    that fails to parse. *)
Definition example_files : list jsstring :=
  [js "streams/us.m3u"; js "streams/notes.txt"; js "streams/fr.m3u"].

Local Abbreviation example_step :=
  (step example_parse (js "streams/") example_channels example_blocklist).
Local Abbreviation example_exec :=
  (exec example_parse (js "streams/") example_channels example_blocklist).
Local Abbreviation example_initial := (initial example_files []).

(** The run over the three files: twelve transitions do not reach the
    end, the thirteenth does, with status 1 and ten lines printed (two of
    the start, a heading and four items for the first file, a heading
    and one item for the third, the summary). *)
Example example_run :
  distance example_parse (js "streams/") example_initial = 13
  ∧ next example_parse (js "streams/") example_channels example_blocklist
      (example_exec 12 example_initial) ≠ None
  ∧ ∃ printed, example_exec 13 example_initial = Exited printed 1
               ∧ length printed = 10.
Proof.
  split; [by vm_compute|]. split; [by vm_compute|].
  eexists. split; [vm_compute; reflexivity | by vm_compute].
Qed.

Lemma every_run_exits_witness :
  let c := example_exec 4 example_initial in
  ∃ printed status,
    nsteps example_step (distance example_parse (js "streams/") c) c
      (Exited printed status)
    ∧ example_exec (distance example_parse (js "streams/") c) c = Exited printed status
    ∧ main example_parse (js "streams/") example_channels example_blocklist
        example_files [] = (printed, status).
Proof.
  apply (every_run_exits example_parse (js "streams/") example_channels
           example_blocklist example_files []), exec_rtc.
Defined.

Lemma run_preserves_wf_witness :
  wf (example_exec 6 example_initial).
Proof.
  apply (run_preserves_wf example_parse (js "streams/") example_channels
           example_blocklist example_initial); [exact I | apply exec_rtc].
Defined.

Lemma reachable_inv_witness :
  inv example_parse (js "streams/") example_channels example_blocklist
    example_files (example_exec 4 example_initial).
Proof.
  apply (reachable_inv example_parse (js "streams/") example_channels
           example_blocklist example_files []), exec_rtc.
Defined.

End Machine.
