(* ===== verification/Async.v ===== *)
(** * Commands that await

    The two commands are [async] functions: they suspend on promises (of
    the storage, the database, the parser, the generators), call the
    logger and may end the process.  This file holds what the models of
    both as interaction trees share: the monad notation, [await] with a
    rejected promise thrown as an error, loops over collections, the ways
    a run ends, the tree left of a run that has ended, its evaluation
    with fuel, and the lemmas that interpret [await] under a handler.

    A handler interprets the events of a command in a state of type [St].
    A run either returns, with its state, or halts with an ending (the
    process exits with a status, or an error that nothing caught reaches
    the top) and with what can be observed of it then, of type [O]: the
    calls it has made. *)

From Stdlib Require Import Ascii String.
From stdpp Require Import base list.
From Paco Require Import paco.
From ITree Require Import ITree ITreeFacts Events.State Events.StateFacts.
From S2P Require Import Prelude JsString.

Module Async.

(** The monad of interaction trees, with the notation of the other
    files. *)
#[export] Instance itree_ret {E} : MRet (itree E) := λ A a, Ret a.
#[export] Instance itree_bind {E} : MBind (itree E) := λ A B k t, ITree.bind t k.

(** How a run ends when the command does not return. *)
Inductive ending :=
| Exits (status : nat)          (* [process.exit(status)] *)
| Crashes (message : jsstring). (* an error that nothing caught *)

#[export] Instance ending_eq_dec : EqDecision ending.
Proof. solve_decision. Defined.

(** ** Runs *)

Section Runs.
Context {O St : Type}.

(** What is left of a run that has ended: what was observed of it, and
    its ending. *)
Variant haltE : Type → Type :=
| Halt (o : O) (e : ending) : haltE Empty_set.

Definition halt {A} (o : O) (e : ending) : itree haltE A :=
  Vis (Halt o e) (λ v : Empty_set, match v with end).

Definition halted {X} (e : haltE X) : O * ending :=
  match e with Halt o e => (o, e) end.

Inductive result :=
| Returns (s : St)
| Halts (o : O) (e : ending).

Definition of_result (r : result) : itree haltE (St * unit) :=
  match r with
  | Returns s => Ret (s, ())
  | Halts o e => halt o e
  end.

(** A tree evaluated: at most [fuel] silent steps are taken; [None] when
    that is not enough to see how the run ends. *)
Definition evaluate (fuel : nat) (tree : itree haltE (St * unit)) : option result :=
  match observe (burn fuel tree) with
  | RetF (s, _) => Some (Returns s)
  | VisF e _ => Some (Halts (halted e).1 (halted e).2)
  | TauF _ => None
  end.

Lemma halt_bind {A B} o e (k : A → itree haltE B) :
  ITree.bind (halt o e) k ≈ halt o e.
Proof. unfold halt. rewrite bind_vis. apply eqit_Vis. by intros []. Qed.

(** Two runs that are the same tree are the same run. *)
Lemma eqeq_halted {X Y} (p : X = Y) (e1 : haltE X) (e2 : haltE Y) :
  eqeq haltE p e1 e2 → halted e1 = halted e2.
Proof. destruct p. by intros ->. Qed.

Lemma of_result_inj r1 r2 : of_result r1 ≈ of_result r2 → r1 = r2.
Proof.
  intros Heq%eqit_inv. destruct r1 as [s1|o1 e1], r2 as [s2|o2 e2]; cbn in Heq; try done.
  - by injection Heq as ->.
  - destruct Heq as (p & [= -> ->]%eqeq_halted & _). done.
Qed.

(** A tree that is a run evaluates to it, given enough fuel. *)
Lemma evaluate_now n tree ot r :
  ot = observe tree →
  match ot with
  | RetF (s, _) => r = Returns s
  | VisF e _ => r = Halts (halted e).1 (halted e).2
  | TauF _ => False
  end →
  evaluate n tree = Some r.
Proof.
  intros ->. unfold evaluate. destruct n as [|n]; cbn [burn];
    destruct (observe tree) as [[s []]| |X e k]; cbn; by (intros -> || intros []).
Qed.

Lemma evaluate_of_result tree r :
  tree ≈ of_result r → ∃ fuel, ∀ n, fuel ≤ n → evaluate n tree = Some r.
Proof.
  intros Heq. punfold Heq. red in Heq.
  remember (observe tree) as ot eqn:Hot.
  remember (observe (of_result r)) as or eqn:Hor.
  revert tree Hot. induction Heq as [? ? ->| |X e k1 k2 _|t1 ot2 _ _ IH|];
    intros tree Hot; try (by destruct r).
  - exists 0. intros n _. eapply evaluate_now; [exact Hot|].
    destruct r; [by injection Hor as -> | done].
  - exists 0. intros n _. eapply evaluate_now; [exact Hot|].
    destruct r as [|o e']; [done|].
    by rewrite (f_equal (λ ot, match ot with VisF e _ => halted e | _ => (o, e') end) Hor).
  - destruct (IH Hor t1 eq_refl) as [fuel Hfuel]. exists (S fuel).
    intros [|n] Hn; [lia|]. unfold evaluate. cbn [burn]. rewrite <-Hot.
    apply Hfuel. lia.
Qed.

End Runs.
Arguments haltE : clear implicits.
Arguments result : clear implicits.
Arguments of_result {O St} r.

(** ** The statements of a command *)

Section Statements.
Context {E : Type → Type}.

(** An action that does not return. *)
Definition never {A} (e : E Empty_set) : itree E A :=
  ITree.bind (ITree.trigger e) (λ v : Empty_set, match v with end).

(** [await]: the value of a promise, or its error thrown.  [Throw] is
    the event of the command that throws. *)
Definition await (Throw : jsstring → E Empty_set) {A} (e : E (jsstring + A)) :
    itree E A :=
  answer ← ITree.trigger e;
  match answer with
  | inr value => Ret value
  | inl message => never (Throw message)
  end.

(** A [for ... of] or [forEach] loop whose body updates [acc]. *)
Fixpoint forOf {A B} (body : B → A → itree E B) (items : list A) (acc : B) :
    itree E B :=
  match items with
  | [] => Ret acc
  | item :: items' => acc' ← body acc item; forOf body items' acc'
  end.

(** A [forEach] loop, or statements of the same shape one after the
    other. *)
Fixpoint forEach {A} (body : A → itree E unit) (items : list A) : itree E unit :=
  match items with
  | [] => Ret ()
  | item :: items' => _ ← body item; forEach body items'
  end.

(** *** Under a handler *)

Context {O St : Type} (handle : E ~> Monads.stateT St (itree (haltE O))).
Context (observe_state : St → O).

(** An action that halts, halts. *)
Lemma interp_never {A} (e : E Empty_set) s e' :
  handle _ e s = halt (observe_state s) e' →
  interp_state handle (never (A:=A) e) s ≈ halt (observe_state s) e'.
Proof.
  intros He. unfold never. rewrite interp_state_bind, interp_state_trigger, He.
  apply halt_bind.
Qed.

(** A promise that is awaited gives its value, or ends the run. *)
Lemma interp_await Throw {A B} (e : E (jsstring + A)) (k : A → itree E B) s :
  (∀ message s', handle _ (Throw message) s' = halt (observe_state s') (Crashes message)) →
  interp_state handle (ITree.bind (await Throw e) k) s
  ≈ ITree.bind (handle _ e s) (λ '(s', answer),
      match answer with
      | inr value => interp_state handle (k value) s'
      | inl message => halt (observe_state s') (Crashes message)
      end).
Proof.
  intros Hthrow. unfold await, mbind, itree_bind.
  rewrite !interp_state_bind, interp_state_trigger, bind_bind.
  apply eutt_eq_bind. intros [s' [message|value]]; cbn [fst snd].
  - rewrite interp_never by apply Hthrow. apply halt_bind.
  - by rewrite interp_state_ret, bind_ret_l.
Qed.

End Statements.

End Async.
