(* ===== verification/ValidateProcess.v ===== *)
(** * The validation command and its environment

    [main] of [validate.ts] is an [async] function: it awaits the storage
    (lines 23, 25 and 34) and the parser (line 45), calls the logger and
    may end the process (line 115).  This file writes it as an interaction
    tree whose events are these calls, with the answers of the environment
    as the results of the events.  A promise that is rejected and not
    caught (the storage cannot read a file of data or list the playlists)
    ends the run where it happens; the rejection of the parser is caught
    by the [try] statement of lines 43-88.

    A handler gives the events their meaning in a world (the content of
    the files of data, the listing of the playlists, the answers of the
    parser) and records them.  The file shows what the interpreted tree
    is, for every world: when the data can be read it makes the calls of
    [Machine.startEvents] and [Machine.fileEvents] in order and prints
    what [Validate.main] returns; when the data cannot be read it stops
    before any playlist is parsed. *)

From Stdlib Require Import Ascii String.
From stdpp Require Import gmap.
From ITree Require Import ITree ITreeFacts Events.State Events.StateFacts.
From S2P Require Import Prelude JsString Models Collection CountryCode Validate Machine.
From S2P Require Import Async.

Module ValidateProcess.
Import Validate Async.

(** ** Events *)

Section Events.
Context {data : Type}.

(** The calls [main] makes, each with the type of its answer.  The answer
    of a promise is the value it resolves to or the message of the error
    it is rejected with. *)
Variant ioE : Type → Type :=
| StorageJson (filename : jsstring) : ioE (jsstring + list data)
    (* lines 23 and 25 *)
| StorageList (pattern : jsstring) : ioE (jsstring + list jsstring)
    (* line 34 *)
| ParserParse (relativeFilepath : jsstring) : ioE (jsstring + list Stream.t)
    (* line 45 *)
| Logger (call : output) : ioE unit
    (* lines 21, 28, 91, 98 and 106 *)
| ProcessExit (status : nat) : ioE Empty_set
    (* line 115 *)
| Throw (message : jsstring) : ioE Empty_set.
    (* an error nothing catches *)

End Events.
Arguments ioE : clear implicits.

Section Command.
Context `{JsRuntime}.
Context {data : Type}.
Context (newChannel : data → Channel.t) (newBlocked : data → Blocked.t).
Context (STREAMS_DIR : jsstring).

Local Abbreviation ioE := (ioE data).
Local Abbreviation await := (await (E:=ioE) Throw).
Local Abbreviation haltE := (haltE (list Machine.event)).
Local Abbreviation result := (result (list Machine.event) (list Machine.event)).

(** Lines 41-88: the log of a file; the rejection of the parser is
    caught. *)
Definition fileLog (channels : list Channel.t) (blocklist : list Blocked.t)
    (filepath : jsstring) : itree ioE (list LogItem.t) :=
  let countryCode := countryCodeOf filepath in
  let relativeFilepath := replace_literal STREAMS_DIR [] filepath in
  playlist ← ITree.trigger (ParserParse relativeFilepath);
  match playlist with
  | inr streams =>
      Ret (fold_left (checkStream channels blocklist countryCode) streams ([], ∅)).1
  | inl message => Ret [parseErrorItem message]
  end.

(** Lines 35-104: one iteration of the loop over the files, on the
    collections of lines 30-31. *)
Definition fileBody (channels : list Channel.t) (blocklist : list Blocked.t)
    (acc : list LogItem.t * list LogItem.t) (filepath : jsstring) :
    itree ioE (list LogItem.t * list LogItem.t) :=
  let '(errors, warnings) := acc in
  if negb (bool_decide (File.extension filepath = js "m3u")) then Ret acc
  else
    log ← fileLog channels blocklist filepath;
    if Collection.notEmpty log then
      _ ← ITree.trigger (Logger (LogInfo [Plain newline; Underline filepath]));
      _ ← forOf (λ _ logItem, ITree.trigger (Logger (formatLogItem logItem))) log ();
      Ret (Collection.concat errors (Collection.filter is_error log),
           Collection.concat warnings (Collection.filter is_warning log))
    else Ret acc.

(** Lines 30-31 and 35-116: the loop over the files, the summary and the
    end of the process. *)
Definition validateFiles (channels : list Channel.t) (blocklist : list Blocked.t)
    (files : list jsstring) : itree ioE unit :=
  '(errors, warnings) ← forOf (fileBody channels blocklist) files ([], []);
  _ ← ITree.trigger (Logger (summary
        {| errors := errors; warnings := warnings; printed := [] |}));
  match Collection.count errors with
  | 0 => Ret ()
  | S _ => never (ProcessExit 1)
  end.

(** Lines 18-117. *)
Definition main (args : list jsstring) : itree ioE unit :=
  _ ← ITree.trigger (Logger (LogInfo [Plain (js "loading blocklist...")]));
  channelsContent ← await (StorageJson (js "channels.json"));
  let channels := newChannel <$> channelsContent in
  blocklistContent ← await (StorageJson (js "blocklist.json"));
  let blocklist := newBlocked <$> blocklistContent in
  _ ← ITree.trigger (Logger (LogInfo [Plain (js "found "
        ++ number_toString (N.of_nat (Collection.count blocklist))
        ++ js " records")]));
  files ← match args with
          | [] => await (StorageList (js "**/*.m3u"))
          | _ :: _ => Ret args
          end;
  validateFiles channels blocklist files.

(** ** The environment *)

(** What the storage, the file system and the parser answer. *)
Record world := {
  json : jsstring → jsstring + list data;
  listing : jsstring → jsstring + list jsstring;
  parse : jsstring → jsstring + list Stream.t
}.

(** The meaning of the events: an event is recorded and answered by the
    world. *)
Definition handle (w : world) : ioE ~> Monads.stateT (list Machine.event) (itree haltE) :=
  λ _ e t,
    match e with
    | StorageJson filename => Ret (t ++ [Machine.Read filename], json w filename)
    | StorageList pattern => Ret (t ++ [Machine.Listed pattern], listing w pattern)
    | ParserParse filepath => Ret (t ++ [Machine.Parsed filepath], parse w filepath)
    | Logger call => Ret (t ++ [Machine.Printed call], ())
    | ProcessExit status => halt t (Exits status)
    | Throw message => halt t (Crashes message)
    end.

(** The run of the command in a world. *)
Definition behaviour (w : world) (args : list jsstring) :
    itree haltE (list Machine.event * unit) :=
  interp_state (handle w) (main args) [].

(** The tree evaluated with fuel. *)
Definition observed (fuel : nat) (w : world) (args : list jsstring) : option result :=
  evaluate fuel (behaviour w args).

(** ** What a run is *)

(** The files of a run: the arguments, or what the storage lists. *)
Definition filesIn (w : world) (args : list jsstring) : jsstring + list jsstring :=
  match args with
  | [] => listing w (js "**/*.m3u")
  | _ :: _ => inr args
  end.

(** The end of a run that has made the calls [t] and holds the
    collections of [st]: the summary, and the exit when there are
    errors. *)
Definition finish (t : list Machine.event) (st : run) : result :=
  let t' := t ++ [Machine.Printed (summary st)] in
  match exitCode st with
  | 0 => Returns t'
  | S _ => Halts t' (Exits 1)
  end.

(** The run of the command in a world, from the functions of
    [Validate] and [Machine]. *)
Definition run (w : world) (args : list jsstring) : result :=
  let announced := [Machine.Printed (LogInfo [Plain (js "loading blocklist...")]);
                    Machine.Read (js "channels.json")] in
  match json w (js "channels.json") with
  | inl message => Halts announced (Crashes message)
  | inr channelsContent =>
      match json w (js "blocklist.json") with
      | inl message =>
          Halts (announced ++ [Machine.Read (js "blocklist.json")]) (Crashes message)
      | inr blocklistContent =>
          let channels := newChannel <$> channelsContent in
          let blocklist := newBlocked <$> blocklistContent in
          let started := Machine.startEvents blocklist args in
          match filesIn w args with
          | inl message => Halts started (Crashes message)
          | inr files =>
              finish
                (started
                 ++ flat_map (Machine.fileEvents (parse w) STREAMS_DIR channels blocklist)
                      files)
                (Machine.storeAfter (parse w) STREAMS_DIR channels blocklist files)
          end
      end
  end.

(** ** The interpretation of the parts of [main] *)

Implicit Types (w : world) (t : list Machine.event).

Local Ltac run_event :=
  unfold mbind, itree_bind, mret, itree_ret;
  rewrite ?interp_state_bind, ?interp_state_trigger; cbn [handle];
  rewrite ?bind_ret_l; cbn [fst snd].

Lemma handle_Throw w message t :
  handle w _ (Throw message) t = halt t (Crashes message).
Proof. done. Qed.

Section Files.
Context (w : world) (channels : list Channel.t) (blocklist : list Blocked.t).

Local Abbreviation validateFile := (validateFile (parse w) STREAMS_DIR channels blocklist).
Local Abbreviation fileStep := (fileStep (parse w) STREAMS_DIR channels blocklist).
Local Abbreviation fileEvents := (Machine.fileEvents (parse w) STREAMS_DIR channels blocklist).

(** Lines 93-99. *)
Lemma interp_report t log :
  interp_state (handle w)
    (forOf (λ _ logItem, ITree.trigger (Logger (formatLogItem logItem))) log ()) t
  ≈ Ret (t ++ (Machine.Printed <$> (formatLogItem <$> log)), ()).
Proof.
  revert t. induction log as [|logItem log IH]; intros t; cbn [forOf fmap list_fmap].
  - by rewrite interp_state_ret, app_nil_r.
  - run_event. by rewrite IH, <-app_assoc.
Qed.

Lemma interp_fileLog t filepath :
  interp_state (handle w) (fileLog channels blocklist filepath) t
  ≈ Ret (t ++ [Machine.Parsed (Machine.relativeFilepath STREAMS_DIR filepath)],
         validateFile filepath).
Proof.
  unfold fileLog, Validate.validateFile, Machine.relativeFilepath. run_event.
  destruct (parse w _); by rewrite interp_state_ret.
Qed.

(** One iteration of the loop over the files makes the calls of
    [Machine.fileEvents] and updates the two collections as
    [Validate.fileStep] does. *)
Lemma interp_fileBody t st filepath :
  interp_state (handle w)
    (fileBody channels blocklist (errors st, warnings st) filepath) t
  ≈ Ret (t ++ fileEvents filepath,
         (errors (fileStep st filepath), warnings (fileStep st filepath))).
Proof.
  unfold fileBody, Validate.fileStep, Machine.fileEvents, Machine.reportLines.
  case_bool_decide; cbn [negb]; [|by rewrite interp_state_ret, app_nil_r].
  unfold mbind, itree_bind. rewrite interp_state_bind, interp_fileLog, bind_ret_l.
  cbn [fst snd]. destruct (Collection.notEmpty (validateFile filepath)).
  - run_event. rewrite interp_state_bind, interp_report, bind_ret_l, interp_state_ret.
    cbn [fst snd fmap list_fmap]. by rewrite <-!app_assoc.
  - by rewrite interp_state_ret.
Qed.

Lemma interp_files t st files :
  interp_state (handle w)
    (forOf (fileBody channels blocklist) files (errors st, warnings st)) t
  ≈ Ret (t ++ flat_map fileEvents files,
         (errors (fold_left fileStep files st), warnings (fold_left fileStep files st))).
Proof.
  revert t st. induction files as [|filepath files IH]; intros t st;
    cbn [forOf flat_map fold_left].
  - by rewrite interp_state_ret, app_nil_r.
  - unfold mbind, itree_bind. rewrite interp_state_bind, interp_fileBody, bind_ret_l.
    cbn [fst snd]. by rewrite IH, <-app_assoc.
Qed.

End Files.

(** ** The run of the command *)

Lemma interp_validateFiles w t channels blocklist files :
  interp_state (handle w) (validateFiles channels blocklist files) t
  ≈ of_result
      (finish (t ++ flat_map (Machine.fileEvents (parse w) STREAMS_DIR channels blocklist)
                      files)
         (Machine.storeAfter (parse w) STREAMS_DIR channels blocklist files)).
Proof.
  unfold validateFiles, finish, Machine.storeAfter, exitCode.
  unfold mbind, itree_bind.
  rewrite interp_state_bind.
  rewrite (interp_files w channels blocklist t (started blocklist) files), bind_ret_l.
  cbn [fst snd]. run_event.
  destruct (Collection.count _); [by rewrite interp_state_ret | by apply (interp_never (handle w) id)].
Qed.

Lemma behaviour_run w args : behaviour w args ≈ of_result (run w args).
Proof.
  unfold behaviour, main, run. run_event.
  rewrite (interp_await (handle w) id) by apply handle_Throw. cbn [handle app]. rewrite bind_ret_l.
  destruct (json w (js "channels.json")) as [?|channelsContent]; [done|].
  rewrite (interp_await (handle w) id) by apply handle_Throw. cbn [handle app]. rewrite bind_ret_l.
  destruct (json w (js "blocklist.json")) as [?|blocklistContent]; [done|].
  run_event. unfold Machine.startEvents, filesIn. destruct args as [|arg args].
  - rewrite (interp_await (handle w) id) by apply handle_Throw. cbn [handle app]. rewrite bind_ret_l.
    destruct (listing w _) as [?|files]; [done|]. apply interp_validateFiles.
  - rewrite bind_ret_l, app_nil_r. apply interp_validateFiles.
Qed.

(** C33. The process ends, whatever the storage and the parser answer:
    with enough fuel the tree of [main], interpreted in a world, evaluates
    to the run of that world, and more fuel changes nothing. *)
Theorem process_always_ends w args :
  ∃ fuel, ∀ n, fuel ≤ n → observed n w args = Some (run w args).
Proof. apply evaluate_of_result, behaviour_run. Qed.

Lemma filesIn_filesOf w args listed :
  (args = [] → listing w (js "**/*.m3u") = inr listed) →
  filesIn w args = inr (filesOf args listed).
Proof. destruct args; [intros Hl; exact (Hl eq_refl) | done]. Qed.

(** C4. In a world where the two files of data can be read and the
    playlists listed, the command as a process does what the transition
    system and the function say: it makes the calls of the trace of the
    machine in the same order, it prints the lines [Validate.main]
    returns, and it returns when the status of [Validate.main] is 0 and
    ends the process with status 1 otherwise. *)
Theorem process_refines_main w args channelsContent blocklistContent listed :
  json w (js "channels.json") = inr channelsContent →
  json w (js "blocklist.json") = inr blocklistContent →
  (args = [] → listing w (js "**/*.m3u") = inr listed) →
  let channels := newChannel <$> channelsContent in
  let blocklist := newBlocked <$> blocklistContent in
  let c := Machine.initial args listed in
  ∃ t status,
    behaviour w args
    ≈ of_result match status with 0 => Returns t | S _ => Halts t (Exits 1) end
    ∧ Machine.trace (parse w) STREAMS_DIR channels blocklist
        (Machine.distance (parse w) STREAMS_DIR c) c
      = t ++ [Machine.Exit status]
    ∧ Validate.main (parse w) STREAMS_DIR channels blocklist args listed
      = (Machine.printedLines t, status).
Proof.
  intros Hc Hb Hl%filesIn_filesOf. cbv zeta.
  set (channels := newChannel <$> channelsContent).
  set (blocklist := newBlocked <$> blocklistContent).
  set (st := Machine.storeAfter (parse w) STREAMS_DIR channels blocklist
               (filesOf args listed)).
  set (calls := Machine.startEvents blocklist args
    ++ flat_map (Machine.fileEvents (parse w) STREAMS_DIR channels blocklist)
         (filesOf args listed)).
  exists (calls ++ [Machine.Printed (summary st)]), (exitCode st). split_and!.
  - rewrite behaviour_run. unfold run. by rewrite Hc, Hb, Hl.
  - rewrite <-app_assoc. apply Machine.trace_initial.
  - unfold Machine.printedLines. rewrite omap_app. cbn [omap list_omap].
    fold (Machine.printedLines calls). unfold calls.
    by rewrite Machine.printedLines_run.
Qed.

(** A run that the storage ended. *)
Local Ltac crashed :=
  intros [= <- ->]; split_and!;
    [ by eauto 6
    | done
    | unfold Machine.printedLines, Machine.startEvents; cbn [omap list_omap app];
      repeat constructor; by eexists ].

(** C19. The only errors that end a run are those of the storage: when a
    run ends with an error that nothing caught, the storage could not
    read the channels or the blocklist, or could not list the playlists;
    no playlist has been parsed and no summary printed.  An error of the
    parser never ends the run. *)
Theorem only_the_storage_ends_a_run w args t message :
  behaviour w args ≈ halt t (Crashes message) →
  (json w (js "channels.json") = inl message
   ∨ json w (js "blocklist.json") = inl message
   ∨ args = [] ∧ listing w (js "**/*.m3u") = inl message)
  ∧ Machine.parsedPaths t = []
  ∧ Forall (λ call, ∃ text, call = LogInfo text) (Machine.printedLines t).
Proof.
  rewrite behaviour_run. intros Hr%(of_result_inj _ (Halts t (Crashes message))).
  revert Hr. unfold run, finish, filesIn.
  destruct (json w (js "channels.json")); [crashed|].
  destruct (json w (js "blocklist.json")); [crashed|].
  destruct args as [|arg args]; [|by destruct (exitCode _)].
  destruct (listing w _); [crashed | by destruct (exitCode _)].
Qed.

End Command.

(** ** Two worlds *)

(** A record of a file of data: a channel or an entry of the blocklist. *)
Definition example_data : Type := Channel.t + Blocked.t.

Definition example_newChannel (record : example_data) : Channel.t :=
  match record with
  | inl channel => channel
  | inr blocked =>
      {| Channel.id := Blocked.channel blocked; Channel.categories := [];
         Channel.languages := []; Channel.broadcastArea := [];
         Channel.isNSFW := false; Channel.logo := [] |}
  end.

Definition example_newBlocked (record : example_data) : Blocked.t :=
  match record with
  | inl channel => {| Blocked.channel := Channel.id channel; Blocked.ref := [] |}
  | inr blocked => blocked
  end.

(** The files of [Machine.example_files], with the data of the examples
    of [Validate]. *)
Definition example_world : world (data:=example_data) := {|
  json filename :=
    if bool_decide (filename = js "channels.json") then inr (inl <$> example_channels)
    else inr (inr <$> example_blocklist);
  listing _ := inr Machine.example_files;
  parse := example_parse
|}.

(** The same world without its blocklist. *)
Definition broken_world : world (data:=example_data) := {|
  json filename :=
    if bool_decide (filename = js "channels.json") then inr (inl <$> example_channels)
    else inl (js "ENOENT: no such file or directory");
  listing := listing example_world;
  parse := example_parse
|}.

Local Abbreviation example_behaviour :=
  (behaviour example_newChannel example_newBlocked (js "streams/")).
Local Abbreviation example_run :=
  (run example_newChannel example_newBlocked (js "streams/")).

(** In the first world the run prints ten lines and exits with status 1;
    in the second it stops after three calls. *)
Example example_runs :
  (∃ t, example_run example_world [] = Halts t (Exits 1)
        ∧ length (Machine.printedLines t) = 10
        ∧ Machine.parsedPaths t = [js "us.m3u"; js "fr.m3u"])
  ∧ example_run broken_world []
    = Halts [Machine.Printed (LogInfo [Plain (js "loading blocklist...")]);
             Machine.Read (js "channels.json"); Machine.Read (js "blocklist.json")]
        (Crashes (js "ENOENT: no such file or directory")).
Proof. split; [eexists; split_and!|]; by vm_compute. Qed.

Example example_observed :
  observed example_newChannel example_newBlocked (js "streams/") 100 example_world []
  = Some (example_run example_world [])
  ∧ observed example_newChannel example_newBlocked (js "streams/") 10 example_world []
    = None.
Proof. by vm_compute. Qed.

Lemma process_refines_main_witness :
  let channels := example_newChannel <$> (inl <$> example_channels) in
  let blocklist := example_newBlocked <$> (inr <$> example_blocklist) in
  let c := Machine.initial [] Machine.example_files in
  ∃ t status,
    example_behaviour example_world []
    ≈ of_result match status with 0 => Returns t | S _ => Halts t (Exits 1) end
    ∧ Machine.trace (parse example_world) (js "streams/") channels blocklist
        (Machine.distance (parse example_world) (js "streams/") c) c
      = t ++ [Machine.Exit status]
    ∧ Validate.main (parse example_world) (js "streams/") channels blocklist
        [] Machine.example_files
      = (Machine.printedLines t, status).
Proof.
  apply (process_refines_main example_newChannel example_newBlocked (js "streams/")
           example_world [] (inl <$> example_channels) (inr <$> example_blocklist)
           Machine.example_files); vm_compute; reflexivity.
Defined.

Lemma only_the_storage_ends_a_run_witness :
  json broken_world (js "blocklist.json") = inl (js "ENOENT: no such file or directory")
  ∧ Machine.parsedPaths
      [Machine.Printed (LogInfo [Plain (js "loading blocklist...")]);
       Machine.Read (js "channels.json"); Machine.Read (js "blocklist.json")] = [].
Proof.
  destruct (only_the_storage_ends_a_run example_newChannel example_newBlocked
              (js "streams/") broken_world []
              [Machine.Printed (LogInfo [Plain (js "loading blocklist...")]);
               Machine.Read (js "channels.json"); Machine.Read (js "blocklist.json")]
              (js "ENOENT: no such file or directory")) as (_ & Hparsed & _).
  - exact (behaviour_run example_newChannel example_newBlocked (js "streams/")
             broken_world []).
  - split; [reflexivity | exact Hparsed].
Defined.

End ValidateProcess.
