(* ===== verification/Reconcile.v ===== *)
(** * Reconciliation of the stream database

    [loadStreams] of [generate.ts] (lines 100-148): the streams of the
    database are sorted by channel and URL, deduplicated by channel (a
    stream without channel gets a fresh token of lodash's [uniqueId] as
    its key), and each survivor is completed from its channel, or, when
    the channel is unknown, gets a default broadcast area from the name of
    its playlist file. *)

From Stdlib Require Import Ascii String.
From stdpp Require Import gmap.
From S2P Require Import Prelude JsString Regex RegexSpec Models Collection.

(** Line 138, the literal "/^([a-z]{2})(_|$)/": two lower-case letters at
    the start of the name, followed by an underscore or the end. *)
Definition re_filename : Regex := {|
  pattern :=
    RSeq RBol
   (RSeq (RGroup 1 (RRepeat 2 (RClass false [CRange (ch "a") (ch "z")])))
         (RGroup 2 (RAlt (RChar (ch "_")) REol)));
  ignoreCase := false;
  global := false
|}.

(** Line 138: the first group, or the [null] of the default array, which
    is as falsy as the empty string. *)
Definition filenameCountryCode (filename : jsstring) : jsstring :=
  match js_match re_filename filename with
  | Some (_ :: Some countryCode :: _) => countryCode
  | _ => []
  end.

(** A reference for line 138 without regular expression: the name starts
    with two lower-case ASCII letters, and ends there or goes on with an
    underscore. *)
Definition code_prefix (filename : jsstring) : bool :=
  match filename with
  | a :: b :: t =>
      is_lower a && is_lower b
      && match t with [] => true | u :: _ => (u =? ch "_")%N end
  | _ => false
  end.

Definition filename_code (filename : jsstring) : jsstring :=
  if code_prefix filename then take 2 filename else [].

(** Line 118: the order of [orderBy] on the keys (channel, url), both
    ascending. *)
Definition stream_leb (a b : Stream.t) : bool :=
  match js_compare (Stream.channel a) (Stream.channel b) with
  | Lt => true
  | Gt => false
  | Eq => js_leb (Stream.url a) (Stream.url b)
  end.

(** Line 119: the key of [uniqBy], the channel or a fresh token. *)
Definition dedupKey (stream : Stream.t) (idCounter : N) : jsstring * N :=
  if truthy (Stream.channel stream) then (Stream.channel stream, idCounter)
  else Collection.uniqueId idCounter.

(** The tests the statements about line 119 use: a row without channel,
    a row that declares channel [c], a key made of decimal digits only
    (which a token of [uniqueId] is), and the key of a row that has a
    channel. *)
Definition channelless (stream : Stream.t) : bool :=
  negb (truthy (Stream.channel stream)).

Definition declares (c : jsstring) (stream : Stream.t) : bool :=
  bool_decide (Stream.channel stream = c).

Definition is_numeral (key : jsstring) : bool := forallb is_digit key.

Definition channelKey (stream : Stream.t) (st : unit) : jsstring * unit :=
  (Stream.channel stream, st).

Section Reconcile.
Context `{JsRuntime}.
Context (channels : list Channel.t).
Context (categories : list Category.t) (languages : list Language.t).

(** Lines 109-111. *)
Definition groupedChannels : gmap jsstring Channel.t :=
  Collection.keyBy Channel.id channels.
Definition groupedCategories : gmap jsstring Category.t :=
  Collection.keyBy Category.id categories.
Definition groupedLanguages : gmap jsstring Language.t :=
  Collection.keyBy Language.code languages.

(** Lines 137-141: the broadcast area of a stream without channel data. *)
Definition defaultBroadcastArea (filepath : jsstring) : list jsstring :=
  let countryCode := filenameCountryCode (File.getFilename filepath) in
  if truthy countryCode then [js "c/" ++ toUpperCase countryCode] else [].

(** Lines 120-145: the function mapped over the deduplicated streams. *)
Definition enrich (stream : Stream.t) : Stream.t :=
  match Dictionary.get groupedChannels (Stream.channel stream) with
  | Some channel =>
      let channelCategories :=
        omap (Dictionary.get groupedCategories) (Channel.categories channel) in
      let channelLanguages :=
        omap (Dictionary.get groupedLanguages) (Channel.languages channel) in
      {| Stream.channel := Stream.channel stream;
         Stream.name := Stream.name stream;
         Stream.url := Stream.url stream;
         Stream.line := Stream.line stream;
         Stream.filepath := Stream.filepath stream;
         Stream.logo :=
           if truthy (Channel.logo channel) then Channel.logo channel
           else Stream.logo stream;
         Stream.categories := channelCategories;
         Stream.languages := channelLanguages;
         Stream.broadcastArea := Channel.broadcastArea channel;
         Stream.isNSFW := Channel.isNSFW channel |}
  | None =>
      {| Stream.channel := Stream.channel stream;
         Stream.name := Stream.name stream;
         Stream.url := Stream.url stream;
         Stream.line := Stream.line stream;
         Stream.filepath := Stream.filepath stream;
         Stream.logo := Stream.logo stream;
         Stream.categories := Stream.categories stream;
         Stream.languages := Stream.languages stream;
         Stream.broadcastArea := defaultBroadcastArea (Stream.filepath stream);
         Stream.isNSFW := Stream.isNSFW stream |}
  end.

(** Lines 116-147: [docs] are the rows of the database and [idCounter]
    the counter of [uniqueId] when the function is called; the result is
    the reconciled list and the counter afterwards. *)
Definition loadStreams (docs : list Stream.t) (idCounter : N) :
    list Stream.t * N :=
  let sorted := Collection.orderBy stream_leb docs in
  let '(unique, idCounter') := Collection.uniqBy dedupKey idCounter sorted in
  (enrich <$> unique, idCounter').

End Reconcile.

(** ** The pattern of line 138 *)

Lemma lower_class u : class_mem false false [CRange 97 122] u = is_lower u.
Proof. unfold class_mem, existsb, atom_mem. by rewrite orb_false_r. Qed.

(** A match starts at index 0 with two lower-case letters, its first
    group, followed by an underscore or the end of the name. *)
Lemma filename_match_inv i s y :
  matches_at re_filename i s y →
  (i =? 0) && code_prefix s = true ∧ caps y !! 1 = Some (take 2 s).
Proof.
  intros Hm. inv_derives; cbn [rest consumed caps] in *; simplify_eq;
    repeat match goal with
    | H : class_mem false false _ _ = true |- _ => rewrite lower_class in H
    end; (split; [|by rewrite lookup_insert_ne, lookup_insert_eq by done]);
    cbn [code_prefix Nat.eqb andb];
    repeat match goal with H : is_lower _ = true |- _ => rewrite H; clear H end.
  - by apply N.eqb_eq.
  - done.
Qed.

Lemma filename_match_intro i s :
  (i =? 0) && code_prefix s = true → ∃ y, matches_at re_filename i s y.
Proof.
  intros [->%Nat.eqb_eq Hs]%andb_true_iff. destruct s as [|a [|b t]]; try done.
  apply andb_true_iff in Hs as [[Ha Hb]%andb_true_iff Ht].
  rewrite <-lower_class in Ha, Hb.
  assert (Hgroup : derives false (RGroup 1 (RRepeat 2 (RClass false [CRange 97 122])))
            (MState 0 (a :: b :: t) ∅)
            (set_cap 1 (take (2 - 0) (a :: b :: t)) (MState 2 t ∅))).
  { apply (derives_group false 1 _ (MState 0 (a :: b :: t) ∅) (MState 2 t ∅)).
    repeat (eapply derives_repeat_S; [by eapply derives_unit_intro|]).
    apply derives_repeat_0. }
  set (y1 := set_cap 1 _ _) in Hgroup.
  destruct t as [|u t]; eexists; matches_goal;
    (eapply derives_seq; [by constructor|]); (eapply derives_seq; [exact Hgroup|]).
  - apply (derives_group false 2 _ y1 y1), derives_alt_r. by constructor.
  - apply (derives_group false 2 _ y1 (MState 3 t (caps y1))), derives_alt_l.
    eapply derives_unit_intro; [reflexivity | done].
Qed.

Lemma filenameCountryCode_filename_code filename :
  filenameCountryCode filename = filename_code filename.
Proof.
  unfold filenameCountryCode, js_match.
  pose proof (search_first_cap re_filename 1 (λ i s, (i =? 0) && code_prefix s)
                (take 2) filename_match_inv filename_match_intro 0 filename) as Hs.
  assert (Hlater : ∀ s i, first_cap (λ i s, (i =? 0) && code_prefix s) (take 2) (S i) s = []).
  { clear. induction s as [|c s IH]; intros i; cbn [first_cap Nat.eqb andb]; auto. }
  assert (Hfirst : first_cap (λ i s, (i =? 0) && code_prefix s) (take 2) 0 filename
                   = filename_code filename).
  { unfold filename_code. destruct filename; cbn [first_cap Nat.eqb andb];
      destruct (code_prefix _); by rewrite ?Hlater. }
  rewrite Hfirst in Hs. destruct (search re_filename 0 filename) as [[j y]|]; [|done].
  change (length (groups (pattern re_filename))) with 2. cbn [seq fmap list_fmap].
  by destruct (caps y !! 1).
Qed.

(** ** The order of line 118 *)

Lemma stream_leb_total a b : stream_leb a b = true ∨ stream_leb b a = true.
Proof.
  unfold stream_leb. rewrite (js_compare_antisym (Stream.channel a)).
  destruct (js_compare (Stream.channel a) (Stream.channel b)); simpl; auto.
  apply js_leb_total.
Qed.

Lemma stream_leb_trans a b c :
  stream_leb a b = true → stream_leb b c = true → stream_leb a c = true.
Proof.
  unfold stream_leb.
  destruct (js_compare (Stream.channel a) (Stream.channel b)) eqn:E1; [| |done];
    (destruct (js_compare (Stream.channel b) (Stream.channel c)) eqn:E2; [| |done]);
    rewrite ?js_compare_eq in *.
  - rewrite E1, <-E2, js_compare_refl. apply js_leb_trans.
  - by rewrite E1, E2.
  - by rewrite <-E2, E1.
  - by rewrite (js_compare_lt_trans _ _ _ E1 E2).
Qed.

(** The order of line 118 as a relation: a total preorder (two rows with
    the same channel and URL are of the same rank). *)
Definition stream_le (a b : Stream.t) : Prop := stream_leb a b = true.

#[export] Instance stream_le_dec a b : Decision (stream_le a b).
Proof. unfold stream_le. apply _. Defined.

#[export] Instance stream_le_total : Total stream_le.
Proof. exact stream_leb_total. Qed.

#[export] Instance stream_le_preorder : PreOrder stream_le.
Proof.
  split; [|exact stream_leb_trans].
  intros a. by destruct (total stream_le a a).
Qed.

#[export] Instance stream_leb_transitive :
  Transitive (λ a b, stream_leb a b = true).
Proof. exact stream_leb_trans. Qed.

(** Streams of the same rank have the same channel and the same URL. *)
Lemma stream_same_rank a b :
  Collection.same_rank stream_leb a b = true
  ↔ Stream.channel a = Stream.channel b ∧ Stream.url a = Stream.url b.
Proof.
  unfold Collection.same_rank, stream_leb.
  rewrite (js_compare_antisym (Stream.channel a)).
  destruct (js_compare (Stream.channel a) (Stream.channel b)) eqn:E; simpl.
  - apply js_compare_eq in E. rewrite andb_true_iff. split.
    + intros [??]. split; [done|]. by apply js_leb_antisym.
    + intros [_ ->]. by rewrite js_leb_refl.
  - split; [done|]. intros [Hc _]. apply js_compare_eq in Hc. congruence.
  - split; [done|]. intros [Hc _]. apply js_compare_eq in Hc. congruence.
Qed.

(** ** Keys of the deduplication *)

Lemma dedupKey_channel stream idCounter :
  truthy (Stream.channel stream) = true →
  (dedupKey stream idCounter).1 = Stream.channel stream.
Proof. unfold dedupKey. by intros ->. Qed.

Lemma is_numeral_token n : is_numeral (number_toString n) = true.
Proof. apply forallb_Forall, number_toString_digits. Qed.

Lemma is_numeral_truthy c : is_numeral c = false → truthy c = true.
Proof. by destruct c. Qed.

Lemma dedupKey_token stream idCounter :
  channelless stream = true →
  dedupKey stream idCounter = Collection.uniqueId idCounter.
Proof. unfold dedupKey, channelless. by intros ->%negb_true_iff. Qed.

Lemma dedupKey_declared stream idCounter :
  negb (channelless stream) = true →
  dedupKey stream idCounter = (Stream.channel stream, idCounter).
Proof. unfold dedupKey, channelless. rewrite negb_involutive. by intros ->. Qed.

Lemma dedupKey_declares c stream idCounter :
  is_numeral c = false → declares c stream = true →
  (dedupKey stream idCounter).1 = c.
Proof.
  intros Hc%is_numeral_truthy Hs%bool_decide_eq_true.
  rewrite dedupKey_channel; congruence.
Qed.

Lemma dedupKey_other c stream idCounter :
  is_numeral c = false → declares c stream = false →
  (dedupKey stream idCounter).1 ≠ c.
Proof.
  intros Hc Hs%bool_decide_eq_false. unfold dedupKey.
  destruct (truthy _); simpl; [done|]. intros <-.
  by rewrite is_numeral_token in Hc.
Qed.

(** Rows without channel sort before the others. *)
Lemma stream_leb_channelless a b :
  stream_leb a b = true → channelless b = true → channelless a = true.
Proof.
  unfold stream_leb, channelless.
  destruct (Stream.channel b); [|done]. by destruct (Stream.channel a).
Qed.

Lemma channelless_first streams :
  StronglySorted (λ a b, stream_leb a b = true) streams →
  streams = bfilter channelless streams ++ bfilter (λ s, negb (channelless s)) streams.
Proof.
  apply (StronglySorted_partition (λ a b, stream_leb a b = true)).
  apply stream_leb_channelless.
Qed.

Lemma orderBy_StronglySorted docs :
  StronglySorted (λ a b, stream_leb a b = true) (Collection.orderBy stream_leb docs).
Proof.
  apply Sorted_StronglySorted; [apply _|].
  apply Collection.orderBy_Sorted, stream_leb_total.
Qed.

(** Rows without channel draw consecutive tokens; while no token above
    the counter has been seen, all of them are kept. *)
Lemma uniqBy_channelless seen idCounter items :
  Forall (λ s, channelless s = true) items →
  (∀ n, (idCounter < n)%N → number_toString n ∉ seen) →
  Collection.uniqBy_from dedupKey seen idCounter items
  = (items, (idCounter + N.of_nat (length items))%N).
Proof.
  intros Hitems. revert seen idCounter.
  induction Hitems as [|s items Hs _ IH]; intros seen idCounter Hseen.
  { simpl. f_equal. lia. }
  cbn [Collection.uniqBy_from]. rewrite (dedupKey_token _ _ Hs). cbn [Collection.uniqueId].
  rewrite bool_decide_eq_false_2 by (apply Hseen; lia).
  rewrite IH; [f_equal; simpl length; lia|]. intros n Hn.
  rewrite elem_of_app, list_elem_of_singleton.
  intros [Hin|E%number_toString_inj]; [|lia]. revert Hin. apply Hseen. lia.
Qed.

Lemma uniqBy_keys_tokens seen idCounter items :
  Forall (λ s, channelless s = true) items →
  Forall (λ key, is_numeral key = true)
    (Collection.uniqBy_keys dedupKey seen idCounter items).
Proof.
  intros Hitems. revert seen idCounter.
  induction Hitems as [|s items Hs _ IH]; intros seen idCounter; [constructor|].
  cbn [Collection.uniqBy_keys]. rewrite (dedupKey_token _ _ Hs). cbn [Collection.uniqueId].
  case_bool_decide; [done|]. constructor; [apply is_numeral_token | done].
Qed.

(** Rows with a channel leave the counter alone, and their
    deduplication does not read it. *)
Lemma uniqBy_declared seen idCounter items :
  Forall (λ s, negb (channelless s) = true) items →
  Collection.uniqBy_from dedupKey seen idCounter items
  = ((Collection.uniqBy_from channelKey seen () items).1, idCounter).
Proof.
  intros Hitems. revert seen.
  induction Hitems as [|s items Hs _ IH]; intros seen; [done|].
  cbn [Collection.uniqBy_from channelKey]. rewrite (dedupKey_declared _ _ Hs).
  case_bool_decide; [done|]. rewrite IH.
  by destruct (Collection.uniqBy_from channelKey _ _ _) as [? []].
Qed.

(** Deduplication of sorted rows: every row without channel, then the
    rows with a channel deduplicated against the tokens drawn. *)
Lemma uniqBy_partitioned sorted idCounter :
  StronglySorted (λ a b, stream_leb a b = true) sorted →
  let anonymous := bfilter channelless sorted in
  let declared := bfilter (λ s, negb (channelless s)) sorted in
  Collection.uniqBy dedupKey idCounter sorted
  = (anonymous ++ (Collection.uniqBy_from channelKey
                     (Collection.uniqBy_keys dedupKey [] idCounter anonymous)
                     () declared).1,
     (idCounter + N.of_nat (length anonymous))%N).
Proof.
  intros Hs anonymous declared.
  etrans; [apply (f_equal (Collection.uniqBy dedupKey idCounter)),
             (channelless_first _ Hs)|].
  unfold Collection.uniqBy. rewrite Collection.uniqBy_from_app. cbv zeta.
  rewrite uniqBy_channelless by (apply bfilter_all || set_solver).
  cbn [fst snd app]. by rewrite uniqBy_declared by apply bfilter_all.
Qed.

Lemma uniqBy_sorted docs idCounter :
  let sorted := Collection.orderBy stream_leb docs in
  let anonymous := bfilter channelless sorted in
  let declared := bfilter (λ s, negb (channelless s)) sorted in
  Collection.uniqBy dedupKey idCounter sorted
  = (anonymous ++ (Collection.uniqBy_from channelKey
                     (Collection.uniqBy_keys dedupKey [] idCounter anonymous)
                     () declared).1,
     (idCounter + N.of_nat (length anonymous))%N).
Proof. apply uniqBy_partitioned, orderBy_StronglySorted. Qed.

(** Rows that declare channels which are no numerals are deduplicated
    among themselves: the tokens drawn for the rows without channel do
    not matter. *)
Lemma uniqBy_declared_tokens tokens declared :
  Forall (λ key, is_numeral key = true) tokens →
  Forall (λ s, is_numeral (Stream.channel s) = false) declared →
  Collection.uniqBy_from channelKey tokens () declared
  = Collection.uniqBy_from channelKey [] () declared.
Proof.
  intros Htok Hd. rewrite <-(app_nil_r tokens).
  apply Collection.uniqBy_from_unseen.
  eapply Forall_impl; [exact Hd|]. intros s Hs st0 Hin. cbn in Hin.
  eapply Forall_forall in Htok; [|done]. congruence.
Qed.

Section Properties.
Context `{JsRuntime}.
Context (channels : list Channel.t).
Context (categories : list Category.t) (languages : list Language.t).
Implicit Types (stream : Stream.t) (docs : list Stream.t) (idCounter : N).

Local Abbreviation enrich := (enrich channels categories languages).
Local Abbreviation loadStreams := (loadStreams channels categories languages).

(** Completion never touches the channel, the URL, the name or the
    position of a stream. *)
Lemma enrich_identity stream :
  Stream.channel (enrich stream) = Stream.channel stream
  ∧ Stream.url (enrich stream) = Stream.url stream
  ∧ Stream.name (enrich stream) = Stream.name stream
  ∧ Stream.line (enrich stream) = Stream.line stream
  ∧ Stream.filepath (enrich stream) = Stream.filepath stream.
Proof. unfold Reconcile.enrich. by destruct (Dictionary.get _ _). Qed.

Lemma stream_leb_enrich a b : stream_leb (enrich a) (enrich b) = stream_leb a b.
Proof.
  unfold stream_leb.
  destruct (enrich_identity a) as (-> & -> & _), (enrich_identity b) as (-> & -> & _).
  done.
Qed.

(** The deduplicated streams, before completion. *)
Definition survivors docs idCounter : list Stream.t :=
  (Collection.uniqBy dedupKey idCounter (Collection.orderBy stream_leb docs)).1.

Lemma loadStreams_survivors docs idCounter :
  (loadStreams docs idCounter).1 = enrich <$> survivors docs idCounter.
Proof.
  unfold Reconcile.loadStreams, survivors.
  by destruct (Collection.uniqBy _ _ _).
Qed.

Lemma survivors_sublist docs idCounter :
  survivors docs idCounter `sublist_of` Collection.orderBy stream_leb docs.
Proof. apply Collection.uniqBy_from_sublist. Qed.

(** C26. Completion on both branches.  A stream whose channel the database
    knows takes categories, languages, broadcast area and NSFW flag from
    the entry stored for that identifier, which is the last one of the
    database with it; identifiers of categories and languages that are
    not known are dropped; the logo of the channel replaces the logo of
    the stream only when the channel has one.  A stream whose channel the
    database does not know keeps everything but its broadcast area, which
    becomes the default of its playlist file. *)
Theorem enrich_completes_stream stream :
  (∀ before channel after,
     channels = before ++ channel :: after →
     Channel.id channel = Stream.channel stream →
     Forall (λ c, Channel.id c ≠ Channel.id channel) after →
     enrich stream = {|
       Stream.channel := Stream.channel stream;
       Stream.name := Stream.name stream;
       Stream.url := Stream.url stream;
       Stream.line := Stream.line stream;
       Stream.filepath := Stream.filepath stream;
       Stream.logo := if truthy (Channel.logo channel) then Channel.logo channel
                      else Stream.logo stream;
       Stream.categories :=
         omap (Dictionary.get (groupedCategories categories)) (Channel.categories channel);
       Stream.languages :=
         omap (Dictionary.get (groupedLanguages languages)) (Channel.languages channel);
       Stream.broadcastArea := Channel.broadcastArea channel;
       Stream.isNSFW := Channel.isNSFW channel |})
  ∧ (Forall (λ c, Channel.id c ≠ Stream.channel stream) channels →
     enrich stream = {|
       Stream.channel := Stream.channel stream;
       Stream.name := Stream.name stream;
       Stream.url := Stream.url stream;
       Stream.line := Stream.line stream;
       Stream.filepath := Stream.filepath stream;
       Stream.logo := Stream.logo stream;
       Stream.categories := Stream.categories stream;
       Stream.languages := Stream.languages stream;
       Stream.broadcastArea := defaultBroadcastArea (Stream.filepath stream);
       Stream.isNSFW := Stream.isNSFW stream |}).
Proof.
  unfold Reconcile.enrich, Dictionary.get, groupedChannels. split.
  - intros before channel after -> <- Hafter.
    by rewrite (Collection.keyBy_lookup_last Channel.id).
  - intros Hno%Collection.keyBy_lookup_None. by rewrite Hno.
Qed.

(** Every stream of the reconciled list completes a row of the database. *)
Lemma loadStreams_elem_of docs idCounter stream' :
  stream' ∈ (loadStreams docs idCounter).1 →
  ∃ stream, stream ∈ docs ∧ stream' = enrich stream.
Proof.
  rewrite loadStreams_survivors. intros (stream & -> & Hin)%list_elem_of_fmap.
  exists stream. split; [|done]. rewrite <-(Collection.orderBy_perm stream_leb docs).
  eapply elem_of_sublist; [done | apply survivors_sublist].
Qed.

(** What the generators rely on: the list is sorted by channel and then
    by URL, and no channel is declared twice. *)
Definition reconciled (streams : list Stream.t) : Prop :=
  StronglySorted (λ a b, stream_leb a b = true) streams
  ∧ NoDup (bfilter truthy (Stream.channel <$> streams)).

Lemma loadStreams_reconciled docs idCounter :
  reconciled (loadStreams docs idCounter).1.
Proof.
  rewrite loadStreams_survivors. split.
  - apply (StronglySorted_fmap _ (λ a b, stream_leb a b = true)).
    + intros a b. by rewrite stream_leb_enrich.
    + eapply StronglySorted_sublist; [apply survivors_sublist|].
      apply orderBy_StronglySorted.
  - rewrite <-list_fmap_compose.
    eapply sublist_NoDup;
      [apply (Collection.uniqBy_keys_NoDup dedupKey [] idCounter), NoDup_nil_2|].
    apply bfilter_sublist_Forall2. simpl.
    eapply Forall2_impl; [apply Collection.uniqBy_from_keys|].
    intros stream key [st0 <-]. simpl.
    destruct (enrich_identity stream) as (-> & _). intros Ht.
    by rewrite dedupKey_channel.
Qed.

(** The reconciled list is sorted by channel, then by URL. *)
Theorem loadStreams_sorted docs idCounter :
  StronglySorted (λ a b, stream_leb a b = true) (loadStreams docs idCounter).1.
Proof. apply loadStreams_reconciled. Qed.

(** C9. No channel is declared by two streams of the reconciled list. *)
Theorem loadStreams_channels_unique docs idCounter :
  NoDup (bfilter truthy (Stream.channel <$> (loadStreams docs idCounter).1)).
Proof. apply loadStreams_reconciled. Qed.

(** Every stream of the reconciled list completes a row of the
    database, and the list has no more streams than the database. *)
Theorem loadStreams_from_docs docs idCounter :
  Forall (λ stream', ∃ stream, stream ∈ docs ∧ stream' = enrich stream)
    (loadStreams docs idCounter).1
  ∧ length (loadStreams docs idCounter).1 ≤ length docs.
Proof.
  split; [apply Forall_forall, loadStreams_elem_of|].
  rewrite loadStreams_survivors, length_fmap.
  rewrite <-(Permutation_length (Collection.orderBy_perm stream_leb docs)).
  apply sublist_length, survivors_sublist.
Qed.

Lemma channelless_enrich stream : channelless (enrich stream) = channelless stream.
Proof. unfold channelless. by destruct (enrich_identity stream) as (-> & _). Qed.

Lemma declares_enrich c stream : declares c (enrich stream) = declares c stream.
Proof. unfold declares. by destruct (enrich_identity stream) as (-> & _). Qed.

(** Of the sorted rows that declare a channel which is not a numeral,
    deduplication keeps the first. *)
Lemma survivors_declares c docs idCounter :
  is_numeral c = false →
  bfilter (declares c) (survivors docs idCounter)
  = take 1 (bfilter (declares c) (Collection.orderBy stream_leb docs)).
Proof.
  intros Hc. apply (Collection.uniqBy_from_key dedupKey c); [..|set_solver];
    intros s st; [by apply dedupKey_declares | by apply dedupKey_other].
Qed.

(** C10. Deduplication keeps, of the rows that declare the same channel,
    exactly the one that comes first in the sorted order; the channel must
    not be a decimal numeral, which a token could equal. *)
Theorem loadStreams_keeps_first_of_channel c docs idCounter :
  is_numeral c = false →
  bfilter (declares c) (loadStreams docs idCounter).1
  = enrich <$> take 1 (bfilter (declares c) (Collection.orderBy stream_leb docs)).
Proof.
  intros Hc. rewrite loadStreams_survivors, bfilter_fmap.
  rewrite (bfilter_ext _ _ _ (declares_enrich c)). by rewrite survivors_declares.
Qed.

(** C28. The stream that survives for a channel has the least URL among
    the rows of the database that declare the channel. *)
Theorem survivor_has_least_url docs idCounter stream' stream :
  stream' ∈ (loadStreams docs idCounter).1 →
  is_numeral (Stream.channel stream') = false →
  stream ∈ docs → Stream.channel stream = Stream.channel stream' →
  js_leb (Stream.url stream') (Stream.url stream) = true.
Proof.
  rewrite loadStreams_survivors. intros (s0 & -> & Hs0)%list_elem_of_fmap.
  destruct (enrich_identity s0) as (-> & -> & _). intros Hc Hin Hch.
  assert (Hfirst : s0 ∈ bfilter (declares (Stream.channel s0)) (survivors docs idCounter))
    by (apply elem_of_bfilter; split; [done | by apply bool_decide_eq_true]).
  rewrite (survivors_declares _ _ _ Hc) in Hfirst.
  assert (Hsorted : StronglySorted (λ a b, stream_leb a b = true)
            (bfilter (declares (Stream.channel s0)) (Collection.orderBy stream_leb docs))).
  { eapply StronglySorted_sublist; [apply bfilter_sublist|].
    apply Sorted_StronglySorted; [apply _|].
    apply Collection.orderBy_Sorted, stream_leb_total. }
  assert (Hs : stream ∈ bfilter (declares (Stream.channel s0))
                 (Collection.orderBy stream_leb docs)).
  { apply elem_of_bfilter. rewrite Collection.orderBy_perm.
    split; [done | by apply bool_decide_eq_true]. }
  destruct (bfilter _ (Collection.orderBy _ _)) as [|s1 rest]; [by apply elem_of_nil in Hs|].
  apply list_elem_of_singleton in Hfirst as ->.
  apply elem_of_cons in Hs as [->|Hs]; [apply js_leb_refl|].
  apply StronglySorted_inv in Hsorted as [_ Hleb]. rewrite Forall_forall in Hleb.
  specialize (Hleb _ Hs). unfold stream_leb in Hleb.
  by rewrite Hch, js_compare_refl in Hleb.
Qed.

Lemma loadStreams_idCounter docs idCounter :
  (loadStreams docs idCounter).2
  = (idCounter + N.of_nat (length (bfilter channelless docs)))%N.
Proof.
  unfold Reconcile.loadStreams. rewrite uniqBy_sorted. cbn [snd].
  by rewrite (Collection.orderBy_perm stream_leb docs).
Qed.

(** C15. Every row without channel survives deduplication, whatever the
    counter and whatever the other rows declare, and the counter advances
    by the number of such rows. *)
Theorem channelless_rows_survive docs idCounter :
  bfilter channelless (loadStreams docs idCounter).1
  = enrich <$> bfilter channelless (Collection.orderBy stream_leb docs)
  ∧ (loadStreams docs idCounter).2
    = (idCounter + N.of_nat (length (bfilter channelless docs)))%N.
Proof.
  split; [|apply loadStreams_idCounter].
  unfold Reconcile.loadStreams. rewrite uniqBy_sorted. cbn [fst].
  rewrite bfilter_fmap, (bfilter_ext _ _ _ channelless_enrich), bfilter_app.
  rewrite bfilter_idemp.
  rewrite (bfilter_none _ (Collection.uniqBy_from _ _ _ _).1), app_nil_r; [done|].
  eapply sublist_Forall; [apply Collection.uniqBy_from_sublist|].
  eapply Forall_impl; [apply bfilter_all|]. by intros s ?%negb_true_iff.
Qed.

(** When no declared channel is a decimal numeral, the reconciled
    list does not depend on the value of the counter of [uniqueId]. *)
Theorem loadStreams_counter_irrelevant docs idCounter idCounter' :
  Forall (λ s, channelless s = true ∨ is_numeral (Stream.channel s) = false) docs →
  (loadStreams docs idCounter).1 = (loadStreams docs idCounter').1.
Proof.
  intros Hdocs. unfold Reconcile.loadStreams. rewrite !uniqBy_sorted. cbn [fst].
  f_equal. set (declared := bfilter (λ s, negb (channelless s)) _).
  assert (Hunseen : ∀ tokens, Forall (λ key, is_numeral key = true) tokens →
    Forall (λ s, ∀ st0 : unit, (channelKey s st0).1 ∉ tokens) declared).
  { intros tokens Htok. rewrite Forall_forall in Htok. apply Forall_forall.
    intros s [Hs Hd]%elem_of_bfilter st0 Hin%Htok.
    rewrite Collection.orderBy_perm in Hs. rewrite Forall_forall in Hdocs.
    destruct (Hdocs s Hs) as [E|E]; [apply negb_true_iff in Hd; congruence|].
    unfold channelKey in Hin. simpl in Hin. congruence. }
  rewrite <-(app_nil_r (Collection.uniqBy_keys dedupKey [] idCounter _)).
  rewrite <-(app_nil_r (Collection.uniqBy_keys dedupKey [] idCounter' _)).
  by rewrite !Collection.uniqBy_from_unseen
    by (apply Hunseen, uniqBy_keys_tokens, bfilter_all).
Qed.

(** *** The sort of line 118

    The reconciled list is the same whatever stable sort stands at line
    118: the model's insertion sort is no restriction. *)
Lemma loadStreams_any_sort sort `{!Collection.StableSort stream_leb sort} docs idCounter :
  loadStreams docs idCounter
  = let '(unique, idCounter') := Collection.uniqBy dedupKey idCounter (sort docs) in
    (enrich <$> unique, idCounter').
Proof.
  unfold Reconcile.loadStreams.
  by rewrite (Collection.StableSort_orderBy stream_leb stream_leb_total stream_leb_trans sort).
Qed.

(** *** Reconciling twice *)

(** Completing a completed stream changes nothing. *)
Lemma enrich_idempotent stream : enrich (enrich stream) = enrich stream.
Proof.
  unfold Reconcile.enrich at 1. destruct (enrich_identity stream) as (-> & _).
  unfold Reconcile.enrich.
  destruct (Dictionary.get _ (Stream.channel stream)) as [channel|]; cbn; [|done].
  by destruct (truthy (Channel.logo channel)).
Qed.

(** Reconciled streams whose channels are no numerals are their own
    survivors. *)
Lemma uniqBy_reconciled streams idCounter :
  reconciled streams →
  Forall (λ s, channelless s = true ∨ is_numeral (Stream.channel s) = false) streams →
  (Collection.uniqBy dedupKey idCounter streams).1 = streams.
Proof.
  intros [Hs Hnd] Hn. rewrite (uniqBy_partitioned _ _ Hs). cbn [fst].
  rewrite uniqBy_declared_tokens; [|apply uniqBy_keys_tokens, bfilter_all|].
  - rewrite (Collection.uniqBy_from_distinct _ Stream.channel); [|done|..].
    + symmetry. by apply channelless_first.
    + rewrite bfilter_fmap in Hnd.
      rewrite (bfilter_ext _ (λ s, truthy (Stream.channel s))); [done|].
      intros s. apply negb_involutive.
    + apply Forall_forall. by intros ? _ ?%elem_of_nil.
  - apply Forall_forall. intros s [Hin Hd%negb_true_iff]%elem_of_bfilter.
    rewrite Forall_forall in Hn. destruct (Hn s Hin); [congruence|done].
Qed.

(** C27. Reconciling the reconciled list once more returns it unchanged,
    whatever the counter of [uniqueId] has become, when no declared
    channel is a decimal numeral: the list is already sorted, no stream
    of it is dropped, and completion is idempotent. *)
Theorem loadStreams_idempotent docs idCounter idCounter' :
  Forall (λ s, channelless s = true ∨ is_numeral (Stream.channel s) = false) docs →
  (loadStreams (loadStreams docs idCounter).1 idCounter').1
  = (loadStreams docs idCounter).1.
Proof.
  intros Hdocs. pose proof (loadStreams_reconciled docs idCounter) as Hr.
  assert (Hn : Forall (λ s, channelless s = true ∨ is_numeral (Stream.channel s) = false)
                 (loadStreams docs idCounter).1).
  { apply Forall_forall. intros s' (s & Hin & ->)%loadStreams_elem_of.
    rewrite channelless_enrich. destruct (enrich_identity s) as (-> & _).
    by eapply Forall_forall in Hdocs. }
  rewrite (loadStreams_survivors (loadStreams docs idCounter).1). unfold survivors.
  rewrite Collection.orderBy_sorted by apply StronglySorted_Sorted, Hr.
  rewrite uniqBy_reconciled by done.
  rewrite loadStreams_survivors, <-list_fmap_compose.
  apply list_fmap_ext. intros _ s _. apply enrich_idempotent.
Qed.

End Properties.

(** ** The sort and the tokens *)

Section Sorting.
Implicit Types (docs : list Stream.t).

Lemma same_key_rank a s :
  bool_decide (Stream.channel a = Stream.channel s ∧ Stream.url a = Stream.url s)
  = Collection.same_rank stream_leb a s.
Proof. apply eq_true_iff_eq. by rewrite bool_decide_eq_true, stream_same_rank. Qed.

(** Line 118 sorts the rows by channel and then by URL, keeps every
    row, and keeps rows with the same channel and URL in the order of the
    database.  These three facts determine the result: every stable sort
    returns the same list, whatever its algorithm. *)
Theorem orderBy_streams_stable docs :
  let sorted := Collection.orderBy stream_leb docs in
  let same a s := bool_decide (Stream.channel a = Stream.channel s
                               ∧ Stream.url a = Stream.url s) in
  Sorted (λ a b, stream_leb a b = true) sorted
  ∧ sorted ≡ₚ docs
  ∧ (∀ a, bfilter (same a) sorted = bfilter (same a) docs)
  ∧ ∀ sorted',
      Sorted (λ a b, stream_leb a b = true) sorted' →
      (∀ a, bfilter (same a) sorted' = bfilter (same a) docs) →
      sorted' = sorted.
Proof.
  cbv zeta. setoid_rewrite (bfilter_ext _ _ _ (λ s, same_key_rank _ s)).
  split_and!.
  - apply Collection.orderBy_Sorted, stream_leb_total.
  - apply Collection.orderBy_perm.
  - intros a. apply Collection.orderBy_stable, stream_leb_trans.
  - intros sorted'.
    apply Collection.orderBy_unique; [apply stream_leb_total | apply stream_leb_trans].
Qed.

End Sorting.

Definition example_doc (channel url filepath : string) : Stream.t := {|
  Stream.channel := js channel; Stream.name := []; Stream.url := js url;
  Stream.line := 0; Stream.filepath := js filepath; Stream.logo := [];
  Stream.categories := []; Stream.languages := []; Stream.broadcastArea := [];
  Stream.isNSFW := false
|}.

Section Examples.
Context `{JsRuntime}.


(** C17. The default broadcast area in closed form, for every file path
    and every runtime: when the file name starts with two lower-case ASCII
    letters followed by an underscore or by nothing, the single tag "c/"
    with the two letters in upper case; otherwise no tag. *)
Theorem defaultBroadcastArea_reference filepath :
  defaultBroadcastArea filepath
  = let filename := File.getFilename filepath in
    if code_prefix filename then [js "c/" ++ (upper_unit <$> take 2 filename)]
    else [].
Proof.
  unfold defaultBroadcastArea. cbv zeta. rewrite filenameCountryCode_filename_code.
  unfold filename_code. destruct (File.getFilename filepath) as [|a [|b t]]; try done.
  destruct (code_prefix (a :: b :: t)) eqn:E; [|done].
  cbn [take truthy]. rewrite toUpperCase_ascii; [done|].
  apply andb_true_iff in E as [[Ha Hb]%andb_true_iff _].
  repeat apply Forall_cons_2; [..|apply Forall_nil_2]; char_lia.
Qed.

(** The default broadcast area of the specification: a file name with
    a two-letter prefix gives the tag of that country, any other name
    gives no tag; unlike the pattern of the validation command, this one is
    anchored at the start of the name. *)
Example defaultBroadcastArea_examples :
  defaultBroadcastArea (js "fr_news.m3u") = [js "c/FR"]
  ∧ defaultBroadcastArea (js "streams/us.m3u") = [js "c/US"]
  ∧ defaultBroadcastArea (js "news.m3u") = []
  ∧ defaultBroadcastArea (js "usa.m3u") = []
  ∧ defaultBroadcastArea (js "UK.m3u") = [].
Proof.
  unfold defaultBroadcastArea.
  repeat split;
    match goal with
    | |- context [filenameCountryCode ?f] =>
        let v := eval vm_compute in (filenameCountryCode f) in
        change (filenameCountryCode f) with v
    end; cbn [truthy]; [| |done..];
    rewrite toUpperCase_ascii by all_units; vm_compute; reflexivity.
Qed.

End Examples.

(** ** The theorems on a small database *)

Definition example_docs : list Stream.t :=
  [example_doc "CNN.us" "http://b" "us.m3u";
   example_doc "" "http://x" "us.m3u";
   example_doc "CNN.us" "http://a" "us_extra.m3u";
   example_doc "" "http://x" "fr.m3u"].

Lemma loadStreams_keeps_first_of_channel_witness :
  bfilter (declares (js "CNN.us")) (loadStreams [] [] [] example_docs 0).1
  = enrich [] [] [] <$>
      take 1 (bfilter (declares (js "CNN.us"))
                (Collection.orderBy stream_leb example_docs)).
Proof.
  apply (loadStreams_keeps_first_of_channel [] [] [] (js "CNN.us") example_docs 0).
  vm_compute. reflexivity.
Defined.

Lemma survivor_has_least_url_witness :
  js_leb (js "http://a") (js "http://b") = true.
Proof.
  apply (survivor_has_least_url [] [] [] example_docs 0
           (enrich [] [] [] (example_doc "CNN.us" "http://a" "us_extra.m3u"))
           (example_doc "CNN.us" "http://b" "us.m3u")).
  - vm_compute. do 2 right. left.
  - vm_compute. reflexivity.
  - left.
  - reflexivity.
Defined.

Lemma loadStreams_counter_irrelevant_witness :
  (loadStreams [] [] [] example_docs 0).1 = (loadStreams [] [] [] example_docs 41).1.
Proof.
  apply (loadStreams_counter_irrelevant [] [] [] example_docs 0 41).
  repeat (apply Forall_cons_2;
          [first [left; vm_compute; reflexivity | right; vm_compute; reflexivity]|]).
  apply Forall_nil_2.
Defined.

Lemma loadStreams_idempotent_witness :
  (loadStreams [] [] [] (loadStreams [] [] [] example_docs 0).1 7).1
  = (loadStreams [] [] [] example_docs 0).1.
Proof. apply (loadStreams_idempotent [] [] [] example_docs 0 7). by_compute. Defined.

Lemma enrich_completes_stream_witness :
  Stream.broadcastArea
    (enrich [{| Channel.id := js "CNN.us"; Channel.categories := [];
                Channel.languages := []; Channel.broadcastArea := [js "c/US"];
                Channel.isNSFW := false; Channel.logo := [] |}] [] []
       (example_doc "CNN.us" "http://a" "fr.m3u"))
  = [js "c/US"].
Proof.
  destruct (enrich_completes_stream
              [{| Channel.id := js "CNN.us"; Channel.categories := [];
                  Channel.languages := []; Channel.broadcastArea := [js "c/US"];
                  Channel.isNSFW := false; Channel.logo := [] |}] [] []
              (example_doc "CNN.us" "http://a" "fr.m3u")) as [Hknown _].
  by rewrite (Hknown [] _ [] eq_refl eq_refl (Forall_nil_2 _)).
Defined.
