(* ===== verification/Number.v ===== *)
(** * Numbers at their width

    A JavaScript number is a double.  The scripts do arithmetic in two
    places: [validate.ts] adds the number of errors to the number of
    warnings (line 109), and lodash's [uniqueId], which [generate.ts]
    calls for every row without channel (line 119), increments a counter.
    The other files compute both in [N] and [nat].  This file models the
    addition of doubles that hold natural numbers (the sum rounded to 53
    bits, ties to even), writes the two computations with it, and shows
    up to which bound the unbounded models are exact: always for the
    counts of the summary, since an array holds fewer than [2^32]
    elements, and for the counter of [uniqueId] as long as it stays at or
    below [2^53], where it stops: from there on every token is the same. *)

From Stdlib Require Import Ascii String.
From stdpp Require Import gmap.
From S2P Require Import Prelude JsString Models Collection Validate Reconcile.

Module Number.
Import Validate.

Local Open Scope N_scope.

(** ** Doubles that hold natural numbers *)

(** The double nearest to the natural number [x], ties to the even
    mantissa: the rounding of every arithmetic operation.  The natural
    numbers up to [2^53] are doubles; above, a double has 53 significant
    bits.  Numbers of more than 1024 bits, which round to [Infinity],
    are out of reach of the scripts. *)
Definition round53 (x : N) : N :=
  if x <? 2 ^ 53 then x
  else
    let shift := N.log2 x - 52 in
    let q := N.shiftr x shift in
    let r := N.land x (N.ones shift) in
    let half := N.shiftl 1 (shift - 1) in
    let q' := match r ?= half with
              | Lt => q
              | Gt => q + 1
              | Eq => if N.even q then q else q + 1
              end in
    N.shiftl q' shift.

(** [a + b] on doubles that hold [a] and [b]. *)
Definition js_add (a b : N) : N := round53 (a + b).

(** [++n]. *)
Definition js_increment (n : N) : N := js_add n 1.

(** ** The two computations *)

(** lodash's [uniqueId()]: [var id = ++idCounter] and the decimal
    numeral of [id]. *)
Definition uniqueIdDouble (idCounter : N) : jsstring * N :=
  let id := js_increment idCounter in (number_toString id, id).

(** Line 119 of [generate.ts]. *)
Definition dedupKeyDouble (stream : Stream.t) (idCounter : N) : jsstring * N :=
  if truthy (Stream.channel stream) then (Stream.channel stream, idCounter)
  else uniqueIdDouble idCounter.

(** Lines 106-112 of [validate.ts]. *)
Definition summaryDouble (st : run) : output :=
  let e := N.of_nat (Collection.count (errors st)) in
  let w := N.of_nat (Collection.count (warnings st)) in
  LogError [Red (newline
    ++ number_toString (js_add e w) ++ js " problems ("
    ++ number_toString e ++ js " errors, "
    ++ number_toString w ++ js " warnings)")].

Section Reconcile.
Context `{JsRuntime}.
Context (channels : list Channel.t).
Context (categories : list Category.t) (languages : list Language.t).

(** Lines 116-147 of [generate.ts]. *)
Definition loadStreamsDouble (docs : list Stream.t) (idCounter : N) :
    list Stream.t * N :=
  let sorted := Collection.orderBy stream_leb docs in
  let '(unique, idCounter') := Collection.uniqBy dedupKeyDouble idCounter sorted in
  (enrich channels categories languages <$> unique, idCounter').

End Reconcile.

(** ** Rounding *)

Lemma round53_small x : x < 2 ^ 53 → round53 x = x.
Proof. unfold round53. by intros ->%N.ltb_lt. Qed.

(** [2^53] is the first number whose successor is no double. *)
Lemma round53_exact x : x ≤ 2 ^ 53 → round53 x = x.
Proof.
  intros [Hx| ->]%N.lt_eq_cases; [by apply round53_small | by vm_compute].
Qed.

(** The parts of a number of more than 53 bits: its 53 leading bits [q],
    the [shift] bits [r] below them, and half a unit of [q]. *)
Lemma round53_parts x :
  2 ^ 53 ≤ x →
  let shift := N.log2 x - 52 in
  let half := 2 ^ (shift - 1) in
  x = N.shiftr x shift * (2 * half) + N.land x (N.ones shift)
  ∧ N.land x (N.ones shift) < 2 * half
  ∧ N.shiftl 1 (shift - 1) = half
  ∧ ∀ q, N.shiftl q shift = q * (2 * half).
Proof.
  intros Hx. cbv zeta. set (shift := N.log2 x - 52).
  assert (53 ≤ N.log2 x) by (apply N.log2_le_pow2; lia).
  assert (2 * 2 ^ (shift - 1) = 2 ^ shift) as ->.
  { rewrite <-N.pow_succ_r'. f_equal. lia. }
  rewrite N.shiftr_div_pow2, N.land_ones, N.shiftl_1_l.
  split_and!; [|apply N.mod_lt; by apply N.pow_nonzero|done|].
  - rewrite N.mul_comm. apply N.div_mod. by apply N.pow_nonzero.
  - intros q. apply N.shiftl_mul_pow2.
Qed.

(** Above [2^53] the rounding moves a number by at most half a unit of
    its 53 leading bits, to a multiple of that unit. *)
Lemma round53_nearest x :
  2 ^ 53 ≤ x →
  let unit := 2 ^ (N.log2 x - 52) in
  (∃ q, round53 x = q * unit)
  ∧ 2 * round53 x ≤ 2 * x + unit
  ∧ 2 * x ≤ 2 * round53 x + unit.
Proof.
  intros Hx. destruct (round53_parts x Hx) as (Hparts & Hr & Hhalf & Hshift).
  cbv zeta in *. assert (53 ≤ N.log2 x) by (apply N.log2_le_pow2; lia).
  assert (2 ^ (N.log2 x - 52) = 2 * 2 ^ (N.log2 x - 52 - 1)) as ->.
  { rewrite <-N.pow_succ_r'. f_equal. lia. }
  unfold round53. rewrite (proj2 (N.ltb_ge _ _) Hx), Hhalf, Hshift.
  split; [by eexists|].
  generalize dependent (N.land x (N.ones (N.log2 x - 52))). intros r.
  generalize dependent (2 ^ (N.log2 x - 52 - 1)). intros half.
  generalize dependent (N.shiftr x (N.log2 x - 52)). intros q Hparts _ Hr.
  destruct (N.compare_spec r half); [destruct (N.even q)|..]; nia.
Qed.

(** ** The counter of [uniqueId] *)

Lemma js_increment_exact n : n < 2 ^ 53 → js_increment n = n + 1.
Proof. intros Hn. apply round53_exact. lia. Qed.

Lemma js_increment_saturates : js_increment (2 ^ 53) = 2 ^ 53.
Proof. by vm_compute. Qed.

(** The counter never passes [2^53]. *)
Lemma js_increment_le n : n ≤ 2 ^ 53 → js_increment n ≤ 2 ^ 53.
Proof.
  intros [Hn| ->]%N.lt_eq_cases; [rewrite js_increment_exact by done; lia|].
  by rewrite js_increment_saturates.
Qed.

Lemma uniqueIdDouble_exact idCounter :
  idCounter < 2 ^ 53 → uniqueIdDouble idCounter = Collection.uniqueId idCounter.
Proof.
  intros Hc. unfold uniqueIdDouble, Collection.uniqueId.
  by rewrite js_increment_exact.
Qed.

(** A key is the same as long as the counter is below [2^53] when a
    token is drawn, and the counter then has room for one row less. *)
Lemma dedupKeyDouble_exact stream idCounter rest :
  idCounter + N.of_nat (length (bfilter channelless (stream :: rest))) ≤ 2 ^ 53 →
  dedupKeyDouble stream idCounter = dedupKey stream idCounter
  ∧ (dedupKey stream idCounter).2 + N.of_nat (length (bfilter channelless rest))
    ≤ 2 ^ 53.
Proof.
  cbn [bfilter]. unfold dedupKeyDouble, dedupKey, channelless.
  destruct (truthy (Stream.channel stream)); cbn [negb length snd]; [done|].
  intros Hroom. rewrite uniqueIdDouble_exact by lia. cbn [Collection.uniqueId snd].
  split; [done | lia].
Qed.

(** Deduplication draws the same tokens as long as the counter has room
    for the rows without channel that are left. *)
Lemma uniqBy_from_double seen idCounter items :
  idCounter + N.of_nat (length (bfilter channelless items)) ≤ 2 ^ 53 →
  Collection.uniqBy_from dedupKeyDouble seen idCounter items
  = Collection.uniqBy_from dedupKey seen idCounter items.
Proof.
  revert seen idCounter.
  induction items as [|stream items IH]; intros seen idCounter; [done|].
  intros [Hkey Hroom]%dedupKeyDouble_exact. cbn [Collection.uniqBy_from].
  rewrite Hkey. destruct (dedupKey stream idCounter) as [key idCounter']. by rewrite !IH.
Qed.

(** ** The counts of the summary *)

(** The sum of two array lengths is exact. *)
Lemma js_add_lengths {A B} (l : list A) (k : list B) :
  N.of_nat (length l) < 2 ^ 32 → N.of_nat (length k) < 2 ^ 32 →
  js_add (N.of_nat (length l)) (N.of_nat (length k)) = N.of_nat (length l + length k).
Proof.
  intros Hl Hk. unfold js_add. rewrite round53_small, Nat2N.inj_add; [done|].
  assert (2 ^ 32 + 2 ^ 32 < 2 ^ 53) by by vm_compute. lia.
Qed.

Section Claims.
Context `{JsRuntime}.
Context (channels : list Channel.t).
Context (categories : list Category.t) (languages : list Language.t).

(** C36. The counter of [uniqueId] at the width of a double.  As long as
    the counter and the rows without channel together do not pass [2^53],
    [loadStreams] with a counter that is a double returns what
    [loadStreams] with an unbounded counter returns, the streams and the
    counter. *)
Theorem loadStreams_exact_up_to_2_53 docs idCounter :
  idCounter + N.of_nat (length (bfilter channelless docs)) ≤ 2 ^ 53 →
  loadStreamsDouble channels categories languages docs idCounter
  = loadStreams channels categories languages docs idCounter.
Proof.
  intros Hroom. unfold loadStreamsDouble, loadStreams, Collection.uniqBy.
  rewrite uniqBy_from_double; [done|].
  by rewrite (Collection.orderBy_perm stream_leb docs).
Qed.

(** The summary of [validate.ts] prints exact counts: the collections
    of errors and warnings are arrays, which hold fewer than [2^32]
    elements, and the sum of two such lengths is far below [2^53]. *)
Lemma summary_counts_exact st :
  N.of_nat (Collection.count (errors st)) < 2 ^ 32 →
  N.of_nat (Collection.count (warnings st)) < 2 ^ 32 →
  summaryDouble st = summary st.
Proof.
  intros He Hw. unfold summaryDouble, summary, Collection.count in *.
  by rewrite js_add_lengths.
Qed.

End Claims.

(** ** At the bound *)

(** A counter at [2^53] stays there, and every token is the same: of two
    rows without channel the second is dropped as a duplicate of the
    first, while with an unbounded counter both survive. *)
Example counter_saturates :
  let docs := [example_doc "" "http://a" "us.m3u"; example_doc "" "http://b" "us.m3u"] in
  Stream.url <$> (loadStreamsDouble [] [] [] docs (2 ^ 53)).1 = [js "http://a"]
  ∧ (loadStreamsDouble [] [] [] docs (2 ^ 53)).2 = 2 ^ 53
  ∧ Stream.url <$> (loadStreams [] [] [] docs (2 ^ 53)).1 = [js "http://a"; js "http://b"]
  ∧ loadStreamsDouble [] [] [] docs (2 ^ 53 - 1)
    ≠ loadStreams [] [] [] docs (2 ^ 53 - 1).
Proof.
  split_and!; [by vm_compute..|]. intros Heq%(f_equal snd).
  vm_compute in Heq. discriminate.
Qed.

(** Rounding above [2^53]: odd numbers are no doubles, and a tie goes to
    the even mantissa. *)
Example round53_examples :
  round53 (2 ^ 53 + 1) = 2 ^ 53
  ∧ round53 (2 ^ 53 + 2) = 2 ^ 53 + 2
  ∧ round53 (2 ^ 53 + 3) = 2 ^ 53 + 4
  ∧ round53 (2 ^ 54 + 2) = 2 ^ 54
  ∧ round53 (2 ^ 54 + 6) = 2 ^ 54 + 8.
Proof. by vm_compute. Qed.

Lemma loadStreams_exact_up_to_2_53_witness :
  loadStreamsDouble [] [] [] example_docs 0 = loadStreams [] [] [] example_docs 0.
Proof.
  apply (loadStreams_exact_up_to_2_53 [] [] [] example_docs 0). by vm_compute.
Defined.

End Number.
