(* ===== verification/InPlace.v ===== *)
(** * Reconciliation in place

    [loadStreams] of [generate.ts] builds one object per row of the
    database (line 117), sorts and deduplicates the collection of these
    objects (lines 118-119) and then assigns to the properties of each
    object that is left (lines 131-135 and 141): the streams are completed
    in place, and the collection it returns holds the objects it was
    given.  [Reconcile] models the function on values.  This file models
    it on a heap of objects with references, the counter of [uniqueId]
    beside it, and shows that the two agree, that the objects are new and
    distinct, that nothing else in the heap is touched, and that the
    assignments would be harmless even if an object occurred twice.

    The ten generators of [main] (lines 50-95) are given this collection,
    one after the other: they share its objects.  The file models the
    calls as programs of the heap and shows what each generator finds
    when none assigns to a stream. *)

From Stdlib Require Import Ascii String.
From stdpp Require Import gmap.
From S2P Require Import Prelude JsString Models Collection Reconcile.

Module InPlace.

(** ** The heap *)

Definition ref := positive.

(** The stream objects by reference, and the counter of lodash. *)
Record heap := { objects : gmap ref Stream.t; idCounter : N }.

#[export] Instance Stream_inhabited : Inhabited Stream.t := populate {|
  Stream.channel := []; Stream.name := []; Stream.url := []; Stream.line := 0;
  Stream.filepath := []; Stream.logo := []; Stream.categories := [];
  Stream.languages := []; Stream.broadcastArea := []; Stream.isNSFW := false
|}.

(** The object a reference points to. *)
Definition deref (h : heap) (r : ref) : Stream.t := objects h !!! r.

(** A computation on the heap. *)
Definition M (A : Type) : Type := heap → A * heap.

#[export] Instance M_ret : MRet M := λ A a h, (a, h).
#[export] Instance M_bind : MBind M := λ A B f c h, let '(a, h') := c h in f a h'.

(** [new Stream(data)]: a new object. *)
Definition newStream (data : Stream.t) : M ref :=
  λ h, let r := fresh (dom (objects h)) in
       (r, {| objects := <[r := data]> (objects h); idCounter := idCounter h |}).

(** The object behind a reference, to read its properties. *)
Definition getStream (r : ref) : M Stream.t := λ h, (deref h r, h).

(** An assignment to a property of the object behind a reference. *)
Definition assign (r : ref) (update : Stream.t → Stream.t) : M unit :=
  λ h, ((), {| objects := alter update r (objects h); idCounter := idCounter h |}).

(** [_.uniqueId()]. *)
Definition drawId : M jsstring :=
  λ h, let '(token, idCounter') := Collection.uniqueId (idCounter h) in
       (token, {| objects := objects h; idCounter := idCounter' |}).

(** [map] with a callback that has effects: the elements in order. *)
Fixpoint mapM {A B} (callback : A → M B) (items : list A) : M (list B) :=
  match items with
  | [] => mret []
  | x :: items' => y ← callback x; ys ← mapM callback items'; mret (y :: ys)
  end.

(** [uniqBy] with a callback that has effects: the callback is called
    once per element, in order. *)
Fixpoint uniqByM_from {A K} `{EqDecision K} (iteratee : A → M K)
    (seen : list K) (items : list A) : M (list A) :=
  match items with
  | [] => mret []
  | x :: items' =>
      key ← iteratee x;
      if bool_decide (key ∈ seen) then uniqByM_from iteratee seen items'
      else result ← uniqByM_from iteratee (seen ++ [key]) items'; mret (x :: result)
  end.

(** ** The properties a stream is assigned *)

Definition set_categories (value : list Category.t) (stream : Stream.t) : Stream.t := {|
  Stream.channel := Stream.channel stream; Stream.name := Stream.name stream;
  Stream.url := Stream.url stream; Stream.line := Stream.line stream;
  Stream.filepath := Stream.filepath stream; Stream.logo := Stream.logo stream;
  Stream.categories := value; Stream.languages := Stream.languages stream;
  Stream.broadcastArea := Stream.broadcastArea stream;
  Stream.isNSFW := Stream.isNSFW stream
|}.

Definition set_languages (value : list Language.t) (stream : Stream.t) : Stream.t := {|
  Stream.channel := Stream.channel stream; Stream.name := Stream.name stream;
  Stream.url := Stream.url stream; Stream.line := Stream.line stream;
  Stream.filepath := Stream.filepath stream; Stream.logo := Stream.logo stream;
  Stream.categories := Stream.categories stream; Stream.languages := value;
  Stream.broadcastArea := Stream.broadcastArea stream;
  Stream.isNSFW := Stream.isNSFW stream
|}.

Definition set_broadcastArea (value : list jsstring) (stream : Stream.t) : Stream.t := {|
  Stream.channel := Stream.channel stream; Stream.name := Stream.name stream;
  Stream.url := Stream.url stream; Stream.line := Stream.line stream;
  Stream.filepath := Stream.filepath stream; Stream.logo := Stream.logo stream;
  Stream.categories := Stream.categories stream;
  Stream.languages := Stream.languages stream;
  Stream.broadcastArea := value; Stream.isNSFW := Stream.isNSFW stream
|}.

Definition set_isNSFW (value : bool) (stream : Stream.t) : Stream.t := {|
  Stream.channel := Stream.channel stream; Stream.name := Stream.name stream;
  Stream.url := Stream.url stream; Stream.line := Stream.line stream;
  Stream.filepath := Stream.filepath stream; Stream.logo := Stream.logo stream;
  Stream.categories := Stream.categories stream;
  Stream.languages := Stream.languages stream;
  Stream.broadcastArea := Stream.broadcastArea stream; Stream.isNSFW := value
|}.

Definition set_logo (value : jsstring) (stream : Stream.t) : Stream.t := {|
  Stream.channel := Stream.channel stream; Stream.name := Stream.name stream;
  Stream.url := Stream.url stream; Stream.line := Stream.line stream;
  Stream.filepath := Stream.filepath stream; Stream.logo := value;
  Stream.categories := Stream.categories stream;
  Stream.languages := Stream.languages stream;
  Stream.broadcastArea := Stream.broadcastArea stream;
  Stream.isNSFW := Stream.isNSFW stream
|}.

(** ** The generators

    Each generator of lines 50-95 is constructed with [streams], the
    collection line 44 returned: with the objects themselves, not with
    copies.  What a generator does with them is outside [src/]; here it
    is any program of the heap. *)

Definition generatorRun : Type := list ref → M unit.

(** Lines 50-95: the generators run one after the other on the same
    collection. *)
Fixpoint runGenerators (generators : list generatorRun) (streams : list ref) :
    M unit :=
  match generators with
  | [] => mret ()
  | g :: generators' => _ ← g streams; runGenerators generators' streams
  end.

(** What each generator finds in the collection when it is called: what
    the generators before it left there. *)
Definition seenBy (generators : list generatorRun) (streams : list ref) (h : heap) :
    list (list Stream.t) :=
  (λ k, deref (runGenerators (take k generators) streams h).2 <$> streams)
    <$> seq 0 (length generators).


(** A generator that marks every stream it is given. *)
Definition example_marking : generatorRun :=
  λ streams, _ ← mapM (λ r, assign r (set_isNSFW true)) streams; mret ().

(** A generator that only reads. *)
Definition example_reading : generatorRun :=
  λ streams, _ ← mapM getStream streams; mret ().

(** ** [loadStreams] on the heap *)

Section Reconcile.
Context `{JsRuntime}.
Context (channels : list Channel.t).
Context (categories : list Category.t) (languages : list Language.t).

(** Line 118: the collection sorted by the channel and the URL of its
    objects. *)
Definition orderByRef (streams : list ref) : M (list ref) :=
  λ h, (Collection.orderBy (λ a b, stream_leb (deref h a) (deref h b)) streams, h).

(** Line 119: the key of [uniqBy]. *)
Definition dedupKeyRef (r : ref) : M jsstring :=
  stream ← getStream r;
  if truthy (Stream.channel stream) then mret (Stream.channel stream) else drawId.

(** Lines 120-145: the callback of [map], which assigns to the stream it
    is given and returns it. *)
Definition enrichInPlace (r : ref) : M ref :=
  stream ← getStream r;
  _ ← match Dictionary.get (groupedChannels channels) (Stream.channel stream) with
      | Some channel =>
          let channelCategories :=
            omap (Dictionary.get (groupedCategories categories))
              (Channel.categories channel) in
          let channelLanguages :=
            omap (Dictionary.get (groupedLanguages languages))
              (Channel.languages channel) in
          _ ← assign r (set_categories channelCategories);
          _ ← assign r (set_languages channelLanguages);
          _ ← assign r (set_broadcastArea (Channel.broadcastArea channel));
          _ ← assign r (set_isNSFW (Channel.isNSFW channel));
          if truthy (Channel.logo channel)
          then assign r (set_logo (Channel.logo channel)) else mret ()
      | None =>
          assign r (set_broadcastArea (defaultBroadcastArea (Stream.filepath stream)))
      end;
  mret r.

(** Lines 116-147. *)
Definition loadStreamsInPlace (docs : list Stream.t) : M (list ref) :=
  streams ← mapM newStream docs;
  sorted ← orderByRef streams;
  unique ← uniqByM_from dedupKeyRef [] sorted;
  mapM enrichInPlace unique.


End Reconcile.

(** ** The operations of the heap *)

Section Heap.
Implicit Types (h : heap) (r : ref) (stream : Stream.t).

Lemma deref_lookup h r stream : objects h !! r = Some stream → deref h r = stream.
Proof. unfold deref. rewrite lookup_total_alt. by intros ->. Qed.

Lemma mapM_cons {A B} (callback : A → M B) x items h :
  mapM callback (x :: items) h
  = let '(y, h1) := callback x h in
    let '(ys, h2) := mapM callback items h1 in (y :: ys, h2).
Proof.
  cbn [mapM]. unfold mbind, M_bind. destruct (callback x h) as [y h1].
  by destruct (mapM callback items h1).
Qed.


(** The objects of [new Stream] are new, distinct, and hold the rows; the
    objects that were there stay as they are. *)
Lemma mapM_newStream docs h :
  ∃ refs h',
    mapM newStream docs h = (refs, h')
    ∧ deref h' <$> refs = docs
    ∧ NoDup refs
    ∧ Forall (λ r, r ∉ dom (objects h)) refs
    ∧ Forall (λ r, r ∈ dom (objects h')) refs
    ∧ idCounter h' = idCounter h
    ∧ ∀ r, r ∈ dom (objects h) → objects h' !! r = objects h !! r.
Proof.
  revert h. induction docs as [|data docs IH]; intros h.
  { exists [], h. by repeat split; try constructor. }
  set (r := fresh (dom (objects h))).
  set (h1 := {| objects := <[r := data]> (objects h); idCounter := idCounter h |}).
  destruct (IH h1) as (refs & h' & Hrun & Hdocs & Hnd & Hnew & Hin & Hc & Hframe).
  assert (Hr : r ∉ dom (objects h)) by apply is_fresh.
  assert (Hr1 : r ∈ dom (objects h1)) by (apply elem_of_dom; simpl; by rewrite lookup_insert_eq).
  assert (Hsub : ∀ r', r' ∈ dom (objects h) → r' ∈ dom (objects h1)).
  { intros r' Hr'. simpl. rewrite dom_insert. apply elem_of_union. by right. }
  exists (r :: refs), h'. split_and!.
  - rewrite mapM_cons. change (newStream data h) with (r, h1). cbv iota beta.
    by rewrite Hrun.
  - cbn [fmap list_fmap]. f_equal; [|done]. apply deref_lookup.
    rewrite Hframe by done. simpl. apply lookup_insert_eq.
  - constructor; [|done]. intros Hrin. rewrite Forall_forall in Hnew. by apply (Hnew r).
  - constructor; [done|]. eapply Forall_impl; [exact Hnew|]. naive_solver.
  - constructor; [|done]. apply elem_of_dom. rewrite Hframe by done.
    simpl. by rewrite lookup_insert_eq.
  - done.
  - intros r' Hr'. rewrite Hframe by auto. simpl. apply lookup_insert_ne. congruence.
Qed.

End Heap.

(** ** The steps of [loadStreams] on the heap and on values *)

Section Steps.
Context `{JsRuntime}.
Context (channels : list Channel.t).
Context (categories : list Category.t) (languages : list Language.t).
Implicit Types (h : heap) (r : ref) (stream : Stream.t).

Local Abbreviation enrich := (enrich channels categories languages).
Local Abbreviation enrichInPlace := (enrichInPlace channels categories languages).

(** The heap with other objects. *)
Definition with_objects (h : heap) (objects' : gmap ref Stream.t) : heap :=
  {| objects := objects'; idCounter := idCounter h |}.

(** The heap with another counter. *)
Definition with_counter (h : heap) (idCounter' : N) : heap :=
  {| objects := objects h; idCounter := idCounter' |}.

(** Line 119: the key of a reference is the key of its object, and the
    objects stay as they are. *)
Lemma dedupKeyRef_spec r h :
  dedupKeyRef r h
  = prod_map id (with_counter h) (dedupKey (deref h r) (idCounter h)).
Proof.
  unfold dedupKeyRef, dedupKey, mbind, M_bind, getStream, drawId, with_counter.
  destruct (truthy _); [by destruct h | done].
Qed.

Lemma uniqByM_from_spec seen refs h :
  uniqByM_from dedupKeyRef seen refs h
  = prod_map id (with_counter h)
      (Collection.uniqBy_from (λ r, dedupKey (deref h r)) seen (idCounter h) refs).
Proof.
  revert seen h. induction refs as [|r refs IH]; intros seen h.
  { by destruct h. }
  cbn [uniqByM_from Collection.uniqBy_from]. unfold mbind, M_bind.
  rewrite dedupKeyRef_spec.
  destruct (dedupKey (deref h r) (idCounter h)) as [key idCounter'].
  cbn [prod_map fst snd id]. case_bool_decide; rewrite IH; [done|].
  change (deref (with_counter h idCounter')) with (deref h).
  cbn [with_counter idCounter]. by destruct (Collection.uniqBy_from _ _ _ _).
Qed.

(** Lines 120-145: the assignments to a stream amount to replacing it by
    its completion. *)
Lemma enrichInPlace_spec r h :
  enrichInPlace r h = (r, with_objects h (alter enrich r (objects h))).
Proof.
  unfold InPlace.enrichInPlace, mbind, M_bind, getStream, assign, mret, M_ret.
  unfold with_objects.
  destruct (Dictionary.get _ (Stream.channel (deref h r))) as [channel|] eqn:Hc;
    [destruct (truthy (Channel.logo channel)) eqn:Hl|]; cbn [objects idCounter];
    do 2 f_equal; rewrite ?alter_alter_eq; apply alter_ext; intros stream Hs;
    apply deref_lookup in Hs; subst stream; unfold Reconcile.enrich, compose;
    rewrite Hc, ?Hl; by destruct (deref h r).
Qed.

(** The objects after the callback of [map] has been called on [refs]. *)
Definition enriched (refs : list ref) (objects : gmap ref Stream.t) :
    gmap ref Stream.t :=
  foldl (λ m r, alter enrich r m) objects refs.

Lemma mapM_enrichInPlace refs h :
  mapM enrichInPlace refs h = (refs, with_objects h (enriched refs (objects h))).
Proof.
  revert h. induction refs as [|r refs IH]; intros h; [by destruct h|].
  by rewrite mapM_cons, enrichInPlace_spec, IH.
Qed.

(** An object the callback was called on is completed, however many
    times it was called on it; the other objects are as they were. *)
Lemma lookup_enriched refs m r :
  enriched refs m !! r = if bool_decide (r ∈ refs) then enrich <$> m !! r else m !! r.
Proof.
  revert m. induction refs as [|r' refs IH]; intros m; [done|].
  cbn [enriched foldl]. fold (enriched refs (alter enrich r' m)). rewrite IH.
  rewrite lookup_alter. destruct (decide (r' = r)) as [->|Hne].
  - rewrite (bool_decide_eq_true_2 (r ∈ r :: refs)) by left.
    case_bool_decide; [|done]. rewrite <-option_fmap_compose.
    apply option_fmap_ext. intros stream. apply enrich_idempotent.
  - case_bool_decide as Hin.
    + by rewrite bool_decide_eq_true_2 by by right.
    + rewrite bool_decide_eq_false_2; [done|]. by intros [->|?]%elem_of_cons.
Qed.

Lemma deref_enriched refs h r :
  r ∈ refs → r ∈ dom (objects h) →
  deref (with_objects h (enriched refs (objects h))) r = enrich (deref h r).
Proof.
  intros Hin [stream Hs]%elem_of_dom. apply deref_lookup. cbn [with_objects objects].
  rewrite lookup_enriched, bool_decide_eq_true_2, Hs by done.
  by rewrite (deref_lookup h r stream).
Qed.

(** The sorted and deduplicated references: they are among the given
    ones, and their objects are the survivors of the values. *)
Lemma uniqBy_refs refs h :
  let sorted := Collection.orderBy (λ a b, stream_leb (deref h a) (deref h b)) refs in
  let result := Collection.uniqBy_from (λ r, dedupKey (deref h r)) [] (idCounter h) sorted in
  (NoDup refs → NoDup result.1)
  ∧ (∀ r, r ∈ result.1 → r ∈ refs)
  ∧ prod_map (fmap (deref h)) id result
    = Collection.uniqBy dedupKey (idCounter h)
        (Collection.orderBy stream_leb (deref h <$> refs)).
Proof.
  cbv zeta. split_and!.
  - intros Hnd. eapply sublist_NoDup; [|apply Collection.uniqBy_from_sublist].
    by rewrite Collection.orderBy_perm.
  - intros r Hr. rewrite <-(Collection.orderBy_perm (λ a b, stream_leb (deref h a) (deref h b))).
    eapply elem_of_sublist; [done | apply Collection.uniqBy_from_sublist].
  - by rewrite <-Collection.orderBy_fmap, Collection.uniqBy_fmap.
Qed.

(** C11. [loadStreams] on the heap computes what [loadStreams] on values
    computes: the objects it returns hold the reconciled streams, in
    order, and the counter of [uniqueId] ends where it ends on values.
    The objects are new and distinct, and the objects that were in the
    heap before the call are not touched. *)
Theorem loadStreamsInPlace_refines docs h :
  ∃ refs h',
    loadStreamsInPlace channels categories languages docs h = (refs, h')
    ∧ (deref h' <$> refs, idCounter h')
      = loadStreams channels categories languages docs (idCounter h)
    ∧ NoDup refs
    ∧ Forall (λ r, r ∉ dom (objects h)) refs
    ∧ ∀ r, r ∈ dom (objects h) → objects h' !! r = objects h !! r.
Proof.
  destruct (mapM_newStream docs h)
    as (refs0 & h0 & Hrun & Hdocs & Hnd & Hnew & Hin & Hc & Hframe).
  destruct (uniqBy_refs refs0 h0) as (Hnd' & Hsub & Hval). revert Hnd' Hsub Hval.
  unfold loadStreamsInPlace, mbind, M_bind, orderByRef, Reconcile.loadStreams.
  rewrite Hrun, uniqByM_from_spec, Hdocs, Hc.
  destruct (Collection.uniqBy_from _ [] _ _) as [unique idCounter'].
  cbn [prod_map fst snd id]. intros Hnd' Hsub <-. rewrite mapM_enrichInPlace.
  rewrite Forall_forall in Hnew, Hin. eexists _, _. split_and!; [done| | | |].
  - f_equal. rewrite <-list_fmap_compose. apply list_fmap_ext.
    intros _ r Hr%list_elem_of_lookup_2. apply (deref_enriched unique (with_counter h0 _)); [done|].
    auto.
  - auto.
  - apply Forall_forall. auto.
  - intros r Hr. cbn [with_objects with_counter objects].
    rewrite lookup_enriched, bool_decide_eq_false_2; [by apply Hframe|].
    intros Hu. by apply (Hnew r); auto.
Qed.

(** The assignments of lines 131-141 tolerate aliases: when the
    callback of [map] is called on a collection of references in which a
    stream may occur more than once, every stream of the collection ends
    completed once, as on values; the callback returns the references it
    is given, and no other object and not the counter are changed. *)
Theorem enrichInPlace_tolerates_aliases refs h :
  Forall (λ r, r ∈ dom (objects h)) refs →
  ∃ h',
    mapM enrichInPlace refs h = (refs, h')
    ∧ deref h' <$> refs = enrich <$> (deref h <$> refs)
    ∧ idCounter h' = idCounter h
    ∧ ∀ r, r ∉ refs → objects h' !! r = objects h !! r.
Proof.
  intros Hin. rewrite Forall_forall in Hin. rewrite mapM_enrichInPlace.
  eexists. split_and!; [done| |done|].
  - rewrite <-list_fmap_compose. apply list_fmap_ext.
    intros _ r Hr%list_elem_of_lookup_2. apply deref_enriched; auto.
  - intros r Hr. cbn [with_objects objects].
    by rewrite lookup_enriched, bool_decide_eq_false_2.
Qed.

(** ** The generators *)





End Steps.

(** ** A small database *)

Definition empty_heap : heap := {| objects := ∅; idCounter := 0 |}.

(** The four rows of [Reconcile.example_docs] become the objects 1 to 4.
    Three are returned: the two rows without channel, then the row of the
    channel with the least URL.  The row dropped as a duplicate is still
    in the heap, with the broadcast area it came with; two tokens have
    been drawn. *)
Example example_in_place :
  let '(refs, h') := loadStreamsInPlace [] [] [] example_docs empty_heap in
  refs = [2; 4; 3]%positive
  ∧ Stream.broadcastArea <$> (deref h' <$> refs) = [[js "c/US"]; [js "c/FR"]; [js "c/US"]]
  ∧ Stream.broadcastArea (deref h' 1%positive) = []
  ∧ idCounter h' = 2%N.
Proof. by vm_compute. Qed.

(** A generator that assigns to the streams is seen by the generators
    after it: of two generators given the collection of the example, the
    first of which marks every stream, the second finds them marked. *)
Example example_shared_objects :
  let '(refs, h') := loadStreamsInPlace [] [] [] example_docs empty_heap in
  (λ found : list Stream.t, Stream.isNSFW <$> found)
    <$> seenBy [example_marking; example_reading] refs h'
  = [[false; false; false]; [true; true; true]].
Proof. by vm_compute. Qed.


Lemma enrichInPlace_tolerates_aliases_witness :
  let h := {| objects := {[ 1%positive := example_doc "" "http://x" "fr.m3u" ]};
              idCounter := 0 |} in
  ∃ h',
    mapM (enrichInPlace [] [] []) [1; 1]%positive h = ([1; 1]%positive, h')
    ∧ deref h' <$> [1; 1]%positive
      = enrich [] [] [] <$> (deref h <$> [1; 1]%positive)
    ∧ idCounter h' = idCounter h
    ∧ ∀ r, r ∉ [1; 1]%positive → objects h' !! r = objects h !! r.
Proof.
  apply (enrichInPlace_tolerates_aliases [] [] [] [1; 1]%positive).
  repeat constructor; by vm_compute.
Defined.

End InPlace.
