(* ===== verification/Generate.v ===== *)
(** * The generation command

    [main] of [generate.ts] (lines 21-96): the command reads six reference
    files, reconciles the stream database ([loadStreams]), opens the log
    of the generators and runs the ten playlist generators one after the
    other, announcing each.  The generators, the storage and the database
    are outside [src/]; what the command does with them is a sequence of
    calls, modelled as a trace of events written by a small state monad
    whose state also holds the counter of lodash's [uniqueId].  What a call
    returns (the content of a file, the rows of the database) is a
    parameter of the section. *)

From Stdlib Require Import Ascii String.
From stdpp Require Import gmap.
From S2P Require Import Prelude JsString Models Collection Reconcile.

Module Generate.

(** ** Events *)

Inductive generator :=
| CategoriesGenerator | CountriesGenerator | LanguagesGenerator
| RegionsGenerator | IndexGenerator | IndexNsfwGenerator
| IndexCategoryGenerator | IndexCountryGenerator | IndexLanguageGenerator
| IndexRegionGenerator.

#[export] Instance generator_eq_dec : EqDecision generator.
Proof. solve_decision. Defined.

Section Command.
Context `{JsRuntime}.
Context {Country Region Subdivision : Type}.

(** The properties of the object a generator is constructed with, the
    logger apart; a property the call does not pass is [None]. *)
Record arguments := {
  categories : option (list Category.t);
  countries : option (list Country);
  regions : option (list Region);
  subdivisions : option (list Subdivision);
  streams : list Stream.t
}.

Definition only (streams : list Stream.t) : arguments := {|
  categories := None; countries := None; regions := None;
  subdivisions := None; streams := streams
|}.

Inductive event :=
| StorageJson (filename : jsstring)        (* storage.json(filename) *)
| DatabaseLoad (filename : jsstring)       (* db.load(filename) *)
| DatabaseFind (filename : jsstring)       (* find({}) on what was loaded *)
| CreateStream (filename : jsstring)       (* Storage(LOGS_DIR).createStream *)
| LoggerInfo (message : jsstring)          (* logger.info(message) *)
| Generate (g : generator) (args : arguments).   (* new g(args).generate() *)

(** ** The monad of the command: the trace so far and the counter of
    [uniqueId] *)

Record world := { idCounter : N; trace : list event }.

Definition M (A : Type) : Type := world → A * world.

#[export] Instance M_ret : MRet M := λ A a w, (a, w).
#[export] Instance M_bind : MBind M := λ A B f c w, let '(a, w') := c w in f a w'.

Definition emit {A} (e : event) (result : A) : M A :=
  λ w, (result, {| idCounter := idCounter w; trace := trace w ++ [e] |}).

Definition storage_json {A} (filename : jsstring) (content : A) : M A :=
  emit (StorageJson filename) content.

Definition logger_info (message : jsstring) : M unit := emit (LoggerInfo message) ().

Definition generate (g : generator) (args : arguments) : M unit :=
  emit (Generate g args) ().

(** ** The files and the database *)

Context (channelsContent : list Channel.t) (categoriesContent : list Category.t).
Context (countriesContent : list Country) (languagesContent : list Language.t).
Context (regionsContent : list Region) (subdivisionsContent : list Subdivision).
Context (docs : list Stream.t).

(** Lines 100-148 as a step of the command: the rows are read from the
    database (lines 113-115) and reconciled, drawing tokens from the
    counter. *)
Definition reconcile (channels : list Channel.t) (categories : list Category.t)
    (languages : list Language.t) (rows : list Stream.t) : M (list Stream.t) :=
  λ w, let '(streams, idCounter') :=
         loadStreams channels categories languages rows (idCounter w) in
       (streams, {| idCounter := idCounter'; trace := trace w |}).

Definition loadStreamsM (channels : list Channel.t) (categories : list Category.t)
    (languages : list Language.t) : M (list Stream.t) :=
  _ ← emit (DatabaseLoad (js "streams.db")) ();
  rows ← emit (DatabaseFind (js "streams.db")) docs;
  reconcile channels categories languages rows.

(** Lines 21-96. *)
Definition main : M unit :=
  channels ← storage_json (js "channels.json") channelsContent;
  categories ← storage_json (js "categories.json") categoriesContent;
  countries ← storage_json (js "countries.json") countriesContent;
  languages ← storage_json (js "languages.json") languagesContent;
  regions ← storage_json (js "regions.json") regionsContent;
  subdivisions ← storage_json (js "subdivisions.json") subdivisionsContent;
  streams ← loadStreamsM channels categories languages;
  _ ← emit (CreateStream (js "generators.log")) ();
  _ ← logger_info (js "generating categories/...");
  _ ← generate CategoriesGenerator
        {| categories := Some categories; countries := None; regions := None;
           subdivisions := None; streams := streams |};
  _ ← logger_info (js "generating countries/...");
  _ ← generate CountriesGenerator
        {| categories := None; countries := Some countries;
           regions := Some regions; subdivisions := Some subdivisions;
           streams := streams |};
  _ ← logger_info (js "generating languages/...");
  _ ← generate LanguagesGenerator (only streams);
  _ ← logger_info (js "generating regions/...");
  _ ← generate RegionsGenerator
        {| categories := None; countries := None; regions := Some regions;
           subdivisions := Some subdivisions; streams := streams |};
  _ ← logger_info (js "generating index.m3u...");
  _ ← generate IndexGenerator (only streams);
  _ ← logger_info (js "generating index.nsfw.m3u...");
  _ ← generate IndexNsfwGenerator (only streams);
  _ ← logger_info (js "generating index.category.m3u...");
  _ ← generate IndexCategoryGenerator (only streams);
  _ ← logger_info (js "generating index.country.m3u...");
  _ ← generate IndexCountryGenerator
        {| categories := None; countries := Some countries;
           regions := Some regions; subdivisions := Some subdivisions;
           streams := streams |};
  _ ← logger_info (js "generating index.language.m3u...");
  _ ← generate IndexLanguageGenerator (only streams);
  _ ← logger_info (js "generating index.region.m3u...");
  generate IndexRegionGenerator
    {| categories := None; countries := None; regions := Some regions;
       subdivisions := None; streams := streams |}.

(** ** What the trace is read with *)

(** The run of the command from a fresh trace. *)
Definition run (counter : N) : world :=
  (main {| idCounter := counter; trace := [] |}).2.

(** The generators that ran, in order, and the streams each was given. *)
Definition generated (t : list event) : list (generator * list Stream.t) :=
  omap (λ e, match e with
             | Generate g args => Some (g, streams args)
             | _ => None
             end) t.

Definition all_generators : list generator :=
  [CategoriesGenerator; CountriesGenerator; LanguagesGenerator; RegionsGenerator;
   IndexGenerator; IndexNsfwGenerator; IndexCategoryGenerator;
   IndexCountryGenerator; IndexLanguageGenerator; IndexRegionGenerator].

(** The message that announces a generator. *)
Definition announcement (g : generator) : jsstring :=
  js "generating " ++
  match g with
  | CategoriesGenerator => js "categories/"
  | CountriesGenerator => js "countries/"
  | LanguagesGenerator => js "languages/"
  | RegionsGenerator => js "regions/"
  | IndexGenerator => js "index.m3u"
  | IndexNsfwGenerator => js "index.nsfw.m3u"
  | IndexCategoryGenerator => js "index.category.m3u"
  | IndexCountryGenerator => js "index.country.m3u"
  | IndexLanguageGenerator => js "index.language.m3u"
  | IndexRegionGenerator => js "index.region.m3u"
  end ++ js "...".

(** The generator calls of lines 52-95 as a list: each generator with the
    object it is constructed with. *)
Definition calls (streams : list Stream.t) : list (generator * arguments) :=
  [(CategoriesGenerator,
    {| categories := Some categoriesContent; countries := None; regions := None;
       subdivisions := None; streams := streams |});
   (CountriesGenerator,
    {| categories := None; countries := Some countriesContent;
       regions := Some regionsContent; subdivisions := Some subdivisionsContent;
       streams := streams |});
   (LanguagesGenerator, only streams);
   (RegionsGenerator,
    {| categories := None; countries := None; regions := Some regionsContent;
       subdivisions := Some subdivisionsContent; streams := streams |});
   (IndexGenerator, only streams);
   (IndexNsfwGenerator, only streams);
   (IndexCategoryGenerator, only streams);
   (IndexCountryGenerator,
    {| categories := None; countries := Some countriesContent;
       regions := Some regionsContent; subdivisions := Some subdivisionsContent;
       streams := streams |});
   (IndexLanguageGenerator, only streams);
   (IndexRegionGenerator,
    {| categories := None; countries := None; regions := Some regionsContent;
       subdivisions := None; streams := streams |})].

(** ** The run *)

Local Abbreviation reconciledStreams counter :=
  (loadStreams channelsContent categoriesContent languagesContent docs counter).1.

(** The command leaves the counter where [loadStreams] left it. *)
Lemma run_idCounter counter :
  idCounter (run counter)
  = (loadStreams channelsContent categoriesContent languagesContent docs counter).2.
Proof.
  unfold run, main, loadStreamsM, reconcile, mbind, M_bind, storage_json, emit. cbn.
  by destruct (loadStreams _ _ _ _ _).
Qed.

Lemma run_generated counter :
  generated (trace (run counter))
  = (λ g, (g, reconciledStreams counter)) <$> all_generators.
Proof.
  unfold run, main, loadStreamsM, reconcile, mbind, M_bind, storage_json, emit. cbn.
  by destruct (loadStreams _ _ _ _ _).
Qed.

(** C31. Every playlist generator is given the same list of streams, the
    one [loadStreams] returns: it is sorted by channel and URL, declares
    no channel twice, and each of its streams completes a row of the
    database. *)
Theorem generators_receive_reconciled_streams counter g given :
  (g, given) ∈ generated (trace (run counter)) →
  given = reconciledStreams counter
  ∧ reconciled given
  ∧ Forall (λ stream', ∃ stream, stream ∈ docs ∧
       stream' = enrich channelsContent categoriesContent languagesContent stream)
      given.
Proof.
  rewrite run_generated. intros (g' & [= -> ->] & _)%list_elem_of_fmap.
  split; [done|]. split; [apply loadStreams_reconciled|].
  apply Forall_forall, loadStreams_elem_of.
Qed.

(** The order of the command: the six reference files are read, then
    the database, then the log of the generators is opened, then the ten
    generators run, each once, in the order of the source and each right
    after its announcement. *)
Theorem run_in_source_order counter :
  trace (run counter)
  = (StorageJson <$>
       [js "channels.json"; js "categories.json"; js "countries.json";
        js "languages.json"; js "regions.json"; js "subdivisions.json"])
    ++ DatabaseLoad (js "streams.db") :: DatabaseFind (js "streams.db")
    :: CreateStream (js "generators.log")
    :: flat_map (λ c, [LoggerInfo (announcement c.1); Generate c.1 c.2])
         (calls (reconciledStreams counter))
  ∧ fst <$> calls (reconciledStreams counter) = all_generators
  ∧ NoDup all_generators.
Proof.
  split; [|split; [done | apply (bool_decide_unpack _); by vm_compute]].
  unfold run, main, loadStreamsM, reconcile, mbind, M_bind, storage_json, emit. cbn.
  by destruct (loadStreams _ _ _ _ _).
Qed.

(** The command draws one token of [uniqueId] for each row of the
    database without channel, and none otherwise. *)
Theorem run_draws_one_token_per_channelless_row counter :
  idCounter (run counter)
  = (counter + N.of_nat (length (bfilter channelless docs)))%N.
Proof. rewrite run_idCounter. apply loadStreams_idCounter. Qed.

End Command.

Lemma generators_receive_reconciled_streams_witness :
  reconciled (loadStreams [] [] [] example_docs 0).1.
Proof.
  apply (generators_receive_reconciled_streams (Country := unit) (Region := unit)
           (Subdivision := unit) [] [] [] [] [] [] example_docs 0 IndexGenerator
           (loadStreams [] [] [] example_docs 0).1).
  rewrite run_generated. apply list_elem_of_fmap. exists IndexGenerator.
  split; [done|]. do 4 right. left.
Defined.

End Generate.
