(* ===== verification/GenerateProcess.v ===== *)
(** * The generation command and its environment

    [main] of [generate.ts] (lines 21-96) awaits the storage six times,
    the database twice (to load it and to read its rows), the stream of
    the log and each of the ten generators;
    [loadStreams] (lines 100-148) draws tokens from [uniqueId].  This file
    writes both as interaction trees whose events are these calls
    ([main], and [loadStreamsT] for [loadStreams], whose name
    [Reconcile] has taken for the function on values).  A promise that is
    rejected ends the run where it is awaited: the script catches
    nothing.

    A handler answers the events from a world and records them in the
    state of [Generate] (the trace of calls and the counter of
    [uniqueId]).  The file shows what the interpreted tree is in every
    world: the calls of [Generate.main] up to the first promise that is
    rejected. *)

From Stdlib Require Import Ascii String.
From stdpp Require Import gmap.
From ITree Require Import ITree ITreeFacts Events.State Events.StateFacts.
From S2P Require Import Prelude JsString Models Collection Reconcile Generate Async.

Module GenerateProcess.
Import Async.

(** ** Events *)

Section Events.
Context {data Country Region Subdivision : Type}.

Local Abbreviation arguments := (@Generate.arguments Country Region Subdivision).

(** The calls of the command, each with the type of its answer. *)
Variant genE : Type → Type :=
| StorageJson (filename : jsstring) : genE (jsstring + list data)
    (* lines 26-41 *)
| DatabaseLoad (filename : jsstring) : genE (jsstring + unit)
    (* line 114 *)
| DatabaseFind (filename : jsstring) : genE (jsstring + list data)
    (* line 115, on the collection loaded from [filename] *)
| CreateStream (filename : jsstring) : genE (jsstring + unit)
    (* line 47 *)
| LoggerInfo (message : jsstring) : genE unit
    (* lines 50-94 *)
| GeneratorGenerate (g : Generate.generator) (args : arguments) : genE (jsstring + unit)
    (* lines 51-95 *)
| UniqueId : genE jsstring
    (* line 119 *)
| Throw (message : jsstring) : genE Empty_set.
    (* an error nothing catches *)

End Events.
Arguments genE : clear implicits.

Section Command.
Context `{JsRuntime}.
Context {data Country Region Subdivision : Type}.
Context (newChannel : data → Channel.t) (newCategory : data → Category.t).
Context (newCountry : data → Country) (newLanguage : data → Language.t).
Context (newRegion : data → Region) (newSubdivision : data → Subdivision).
Context (newStream : data → Stream.t).

Local Abbreviation genE := (genE data Country Region Subdivision).
Local Abbreviation await := (await (E:=genE) Throw).
Local Abbreviation arguments := (@Generate.arguments Country Region Subdivision).
Local Abbreviation only := (@Generate.only Country Region Subdivision).

(** Line 119: the key of [uniqBy]. *)
Definition dedupKeyT (stream : Stream.t) : itree genE jsstring :=
  if truthy (Stream.channel stream) then Ret (Stream.channel stream)
  else ITree.trigger UniqueId.

(** [uniqBy] with an iteratee that has effects: it is called once per
    element, in order. *)
Fixpoint uniqByT_from {A K} `{EqDecision K} (iteratee : A → itree genE K)
    (seen : list K) (items : list A) : itree genE (list A) :=
  match items with
  | [] => Ret []
  | x :: items' =>
      key ← iteratee x;
      if bool_decide (key ∈ seen) then uniqByT_from iteratee seen items'
      else result ← uniqByT_from iteratee (seen ++ [key]) items'; Ret (x :: result)
  end.

(** Lines 100-148. *)
Definition loadStreamsT (channels : list Channel.t) (categories : list Category.t)
    (languages : list Language.t) : itree genE (list Stream.t) :=
  _ ← await (DatabaseLoad (js "streams.db"));
  docs ← await (DatabaseFind (js "streams.db"));
  let streams := newStream <$> (docs : list data) in
  let sorted := Collection.orderBy stream_leb streams in
  unique ← uniqByT_from dedupKeyT [] sorted;
  Ret (enrich channels categories languages <$> (unique : list Stream.t)).

(** One of the ten blocks of lines 50-95: the announcement, then the
    generator. *)
Definition generate (g : Generate.generator) (args : arguments) : itree genE unit :=
  _ ← ITree.trigger (LoggerInfo (Generate.announcement g));
  await (GeneratorGenerate g args).

(** Lines 21-96. *)
Definition main : itree genE unit :=
  channelsContent ← await (StorageJson (js "channels.json"));
  let channels := newChannel <$> channelsContent in
  categoriesContent ← await (StorageJson (js "categories.json"));
  let categories := newCategory <$> categoriesContent in
  countriesContent ← await (StorageJson (js "countries.json"));
  let countries := newCountry <$> countriesContent in
  languagesContent ← await (StorageJson (js "languages.json"));
  let languages := newLanguage <$> languagesContent in
  regionsContent ← await (StorageJson (js "regions.json"));
  let regions := newRegion <$> regionsContent in
  subdivisionsContent ← await (StorageJson (js "subdivisions.json"));
  let subdivisions := newSubdivision <$> subdivisionsContent in
  streams ← loadStreamsT channels categories languages;
  _ ← await (CreateStream (js "generators.log"));
  _ ← generate Generate.CategoriesGenerator
        {| Generate.categories := Some categories; Generate.countries := None;
           Generate.regions := None; Generate.subdivisions := None;
           Generate.streams := streams |};
  _ ← generate Generate.CountriesGenerator
        {| Generate.categories := None; Generate.countries := Some countries;
           Generate.regions := Some regions; Generate.subdivisions := Some subdivisions;
           Generate.streams := streams |};
  _ ← generate Generate.LanguagesGenerator (only streams);
  _ ← generate Generate.RegionsGenerator
        {| Generate.categories := None; Generate.countries := None;
           Generate.regions := Some regions; Generate.subdivisions := Some subdivisions;
           Generate.streams := streams |};
  _ ← generate Generate.IndexGenerator (only streams);
  _ ← generate Generate.IndexNsfwGenerator (only streams);
  _ ← generate Generate.IndexCategoryGenerator (only streams);
  _ ← generate Generate.IndexCountryGenerator
        {| Generate.categories := None; Generate.countries := Some countries;
           Generate.regions := Some regions; Generate.subdivisions := Some subdivisions;
           Generate.streams := streams |};
  _ ← generate Generate.IndexLanguageGenerator (only streams);
  _ ← generate Generate.IndexRegionGenerator
        {| Generate.categories := None; Generate.countries := None;
           Generate.regions := Some regions; Generate.subdivisions := None;
           Generate.streams := streams |};
  Ret ().

(** ** The environment *)

Local Abbreviation event := (@Generate.event Country Region Subdivision).
Local Abbreviation state := (@Generate.world Country Region Subdivision).

(** What the storage, the database, the file system and the generators
    answer. *)
Record world := {
  json : jsstring → jsstring + list data;
  load : jsstring → jsstring + unit;
  database : jsstring → jsstring + list data;
  createStream : jsstring → jsstring + unit;
  generator : Generate.generator → arguments → jsstring + unit
}.

(** The state after one more call. *)
Definition record (e : event) (s : state) : state :=
  {| Generate.idCounter := Generate.idCounter s;
     Generate.trace := Generate.trace s ++ [e] |}.

(** The meaning of the events: a call is recorded and answered by the
    world; [uniqueId] advances the counter. *)
Definition handle (w : world) :
    genE ~> Monads.stateT state (itree (haltE (list event))) :=
  λ _ e s,
    match e with
    | StorageJson filename =>
        Ret (record (Generate.StorageJson filename) s, json w filename)
    | DatabaseLoad filename =>
        Ret (record (Generate.DatabaseLoad filename) s, load w filename)
    | DatabaseFind filename =>
        Ret (record (Generate.DatabaseFind filename) s, database w filename)
    | CreateStream filename =>
        Ret (record (Generate.CreateStream filename) s, createStream w filename)
    | LoggerInfo message => Ret (record (Generate.LoggerInfo message) s, ())
    | GeneratorGenerate g args =>
        Ret (record (Generate.Generate g args) s, generator w g args)
    | UniqueId =>
        let '(token, idCounter') := Collection.uniqueId (Generate.idCounter s) in
        Ret ({| Generate.idCounter := idCounter'; Generate.trace := Generate.trace s |},
             token)
    | Throw message => halt (Generate.trace s) (Crashes message)
    end.

(** The run of the command in a world, with the counter at [counter]. *)
Definition behaviour (w : world) (counter : N) : itree (haltE (list event)) (state * unit) :=
  interp_state (handle w) main
    {| Generate.idCounter := counter; Generate.trace := [] |}.

Definition observed (fuel : nat) (w : world) (counter : N) :
    option (result (list event) state) :=
  evaluate fuel (behaviour w counter).

(** ** What a run is *)

(** The error a call is answered with, if it is. *)
Definition failure (w : world) (e : event) : option jsstring :=
  let error {A} (answer : jsstring + A) : option jsstring :=
    match answer with inl message => Some message | inr _ => None end in
  match e with
  | Generate.StorageJson filename => error (json w filename)
  | Generate.DatabaseLoad filename => error (load w filename)
  | Generate.DatabaseFind filename => error (database w filename)
  | Generate.CreateStream filename => error (createStream w filename)
  | Generate.LoggerInfo _ => None
  | Generate.Generate g args => error (generator w g args)
  end.

(** The calls of [t] up to the first that fails, with its error. *)
Fixpoint upto {A} (failure : A → option jsstring) (t : list A) :
    list A * option jsstring :=
  match t with
  | [] => ([], None)
  | e :: t' =>
      match failure e with
      | Some message => ([e], Some message)
      | None => prod_map (cons e) id (upto failure t')
      end
  end.

(** The content of a file that was read, and none for a file that was
    not. *)
Definition content (answer : jsstring + list data) : list data :=
  match answer with inr records => records | inl _ => [] end.

(** The run of [Generate.main] on what the world answers. *)
Definition completed (w : world) (counter : N) : state :=
  Generate.run
    (newChannel <$> content (json w (js "channels.json")))
    (newCategory <$> content (json w (js "categories.json")))
    (newCountry <$> content (json w (js "countries.json")))
    (newLanguage <$> content (json w (js "languages.json")))
    (newRegion <$> content (json w (js "regions.json")))
    (newSubdivision <$> content (json w (js "subdivisions.json")))
    (newStream <$> content (database w (js "streams.db")))
    counter.

(** The run of the command in a world: the calls of [Generate.main] up to
    the first that fails. *)
Definition run (w : world) (counter : N) : result (list event) state :=
  match upto (failure w) (Generate.trace (completed w counter)) with
  | (_, None) => Returns (completed w counter)
  | (t, Some message) => Halts t (Crashes message)
  end.

(** The run from state [s] when the calls [rest] are still to be made
    and the counter ends at [idCounter']. *)
Definition ended (w : world) (idCounter' : N) (s : state) (rest : list event) :
    result (list event) state :=
  match upto (failure w) rest with
  | (t, None) =>
      Returns {| Generate.idCounter := idCounter';
                 Generate.trace := Generate.trace s ++ t |}
  | (t, Some message) => Halts (Generate.trace s ++ t) (Crashes message)
  end.

(** ** The interpretation of the parts of [main] *)

Implicit Types (w : world) (s : state) (e : event).

(** What [upto] returns: the whole list when no call fails, and else the
    calls up to the first that does. *)
Lemma upto_spec {A} (f : A → option jsstring) t :
  match upto f t with
  | (p, None) => p = t ∧ Forall (λ a, f a = None) t
  | (p, Some message) =>
      ∃ before a rest, p = before ++ [a] ∧ t = p ++ rest ∧ f a = Some message
        ∧ Forall (λ a, f a = None) before
  end.
Proof.
  induction t as [|a t IH]; cbn [upto]; [done|].
  destruct (f a) as [message|] eqn:Ha; [by exists [], a, t|].
  destruct (upto f t) as [p [message|]]; cbn [prod_map fst snd id].
  - destruct IH as (before & e & rest & -> & -> & He & Hb).
    exists (a :: before), e, rest. split_and!; try done. by constructor.
  - destruct IH as [-> Ht]. split; [done | by constructor].
Qed.

Lemma upto_None {A} (f : A → option jsstring) t p : upto f t = (p, None) → p = t.
Proof. intros Hu. pose proof (upto_spec f t) as Hs. rewrite Hu in Hs. by destruct Hs. Qed.

Lemma upto_all {A} (f : A → option jsstring) t :
  Forall (λ a, f a = None) t → upto f t = (t, None).
Proof. induction 1 as [|a t Ha _ IH]; cbn [upto]; [done|]. by rewrite Ha, IH. Qed.

Lemma upto_app_failing {A} (f : A → option jsstring) p q :
  Exists (λ a, is_Some (f a)) p → upto f (p ++ q) = upto f p.
Proof.
  induction 1 as [a p [message Ha]|a p _ IH]; cbn [upto app]; [by rewrite Ha|].
  by rewrite IH.
Qed.

Lemma ended_cons w idCounter' s e rest :
  ended w idCounter' s (e :: rest)
  = match failure w e with
    | Some message => Halts (Generate.trace s ++ [e]) (Crashes message)
    | None => ended w idCounter' (record e s) rest
    end.
Proof.
  unfold ended. cbn [upto record Generate.trace]. destruct (failure w e); [done|].
  destruct (upto (failure w) rest) as [t [message|]]; cbn [prod_map fst snd id];
    by rewrite <-app_assoc.
Qed.

Lemma run_ended w counter :
  run w counter
  = ended w (Generate.idCounter (completed w counter))
      {| Generate.idCounter := counter; Generate.trace := [] |}
      (Generate.trace (completed w counter)).
Proof.
  unfold run, ended. destruct (upto _ _) as [t [message|]] eqn:Hu; [done|].
  apply upto_None in Hu as ->. by destruct (completed w counter).
Qed.

Lemma handle_Throw_crashes w message s :
  handle w _ (Throw message) s = halt (Generate.trace s) (Crashes message).
Proof. done. Qed.

(** A promise that is awaited: the call is made; when it fails the run
    ends there, and when it succeeds the run goes on with its value. *)
Lemma await_ended {A} w idCounter' s e rest (call : genE (jsstring + A))
    (k : A → itree genE unit) (answer : jsstring + A) :
  handle w _ call s = Ret (record e s, answer) →
  failure w e = match answer with inl message => Some message | inr _ => None end →
  (∀ value, answer = inr value →
     interp_state (handle w) (k value) (record e s)
     ≈ of_result (ended w idCounter' (record e s) rest)) →
  interp_state (handle w) (ITree.bind (await call) k) s
  ≈ of_result (ended w idCounter' s (e :: rest)).
Proof.
  intros Hcall Hfail Hk.
  rewrite (interp_await (handle w) Generate.trace) by apply handle_Throw_crashes.
  rewrite Hcall, bind_ret_l, ended_cons, Hfail.
  destruct answer as [message|value]; [done | by apply Hk].
Qed.

(** The ten blocks of lines 50-95, or as many as there are in [cs]. *)
Lemma interp_generators w s cs :
  interp_state (handle w) (forEach (λ c, generate c.1 c.2) cs) s
  ≈ of_result
      (ended w (Generate.idCounter s) s
         (flat_map (λ c, [Generate.LoggerInfo (Generate.announcement c.1);
                          Generate.Generate c.1 c.2]) cs)).
Proof.
  revert s. induction cs as [|[g args] cs IH]; intros s; cbn [forEach flat_map app fst snd].
  { rewrite interp_state_ret. unfold ended. cbn [upto]. rewrite app_nil_r. by destruct s. }
  unfold mbind, itree_bind.
  change (generate g args) with
    (ITree.bind (ITree.trigger (LoggerInfo (Generate.announcement g)))
       (λ _, await (GeneratorGenerate g args))).
  rewrite bind_bind, interp_state_bind, interp_state_trigger. cbn [handle].
  rewrite bind_ret_l, ended_cons. cbn [failure fst snd].
  apply (await_ended w _ _ _ _ (GeneratorGenerate g args) _ (generator w g args)); [done..|].
  intros [] _. exact (IH (record _ (record _ s))).
Qed.

(** Line 119, for every stream: the tokens are those of [uniqBy] on
    values, and the counter ends where it ends there. *)
Lemma interp_uniqByT w s seen items :
  interp_state (handle w) (uniqByT_from dedupKeyT seen items) s
  ≈ Ret ({| Generate.idCounter :=
              (Collection.uniqBy_from dedupKey seen (Generate.idCounter s) items).2;
            Generate.trace := Generate.trace s |},
         (Collection.uniqBy_from dedupKey seen (Generate.idCounter s) items).1).
Proof.
  revert seen s. induction items as [|stream items IH]; intros seen s.
  { cbn. rewrite interp_state_ret. by destruct s. }
  cbn [uniqByT_from Collection.uniqBy_from]. unfold mbind, itree_bind.
  rewrite interp_state_bind. unfold dedupKeyT, dedupKey.
  destruct (truthy (Stream.channel stream)).
  - rewrite interp_state_ret, bind_ret_l. cbn [fst snd]. case_bool_decide; [apply IH|].
    rewrite interp_state_bind, IH, bind_ret_l, interp_state_ret.
    by destruct (Collection.uniqBy_from _ _ _ _).
  - rewrite interp_state_trigger. cbn [handle Collection.uniqueId].
    rewrite bind_ret_l. cbn [fst snd]. case_bool_decide; [by rewrite IH|].
    rewrite interp_state_bind, IH, bind_ret_l, interp_state_ret.
    cbn [Generate.idCounter Generate.trace].
    by destruct (Collection.uniqBy_from _ _ _ _).
Qed.

(** Lines 116-147, after the rows have been read. *)
Lemma interp_reconcile w s channels categories languages docs :
  interp_state (handle w)
    (ITree.bind (uniqByT_from dedupKeyT [] (Collection.orderBy stream_leb docs))
       (λ unique, Ret (enrich channels categories languages <$> unique))) s
  ≈ Ret ({| Generate.idCounter :=
              (Reconcile.loadStreams channels categories languages docs
                 (Generate.idCounter s)).2;
            Generate.trace := Generate.trace s |},
         (Reconcile.loadStreams channels categories languages docs
            (Generate.idCounter s)).1).
Proof.
  rewrite interp_state_bind, interp_uniqByT, bind_ret_l, interp_state_ret.
  unfold Reconcile.loadStreams, Collection.uniqBy.
  by destruct (Collection.uniqBy_from _ _ _ _).
Qed.

(** ** The run of the command *)

(** What is left of a run depends on the calls made, not on the counter
    of the state. *)
Lemma ended_trace w idCounter' s s' rest :
  Generate.trace s = Generate.trace s' →
  ended w idCounter' s rest = ended w idCounter' s' rest.
Proof. unfold ended. by intros ->. Qed.

(** The calls that come before the generators: the six files, the
    database and the log. *)
Definition inputs : list event :=
  (Generate.StorageJson <$>
     [js "channels.json"; js "categories.json"; js "countries.json";
      js "languages.json"; js "regions.json"; js "subdivisions.json"])
  ++ [Generate.DatabaseLoad (js "streams.db");
      Generate.DatabaseFind (js "streams.db");
      Generate.CreateStream (js "generators.log")].

(** The announcements and the generators of [streams], in order. *)
Definition generatorCalls (w : world) (streams : list Stream.t) : list event :=
  flat_map (λ c, [Generate.LoggerInfo (Generate.announcement c.1);
                  Generate.Generate c.1 c.2])
    (Generate.calls
       (newCategory <$> content (json w (js "categories.json")))
       (newCountry <$> content (json w (js "countries.json")))
       (newRegion <$> content (json w (js "regions.json")))
       (newSubdivision <$> content (json w (js "subdivisions.json")))
       streams).

(** The streams [Generate.main] hands to the generators. *)
Definition reconciledStreams (w : world) (counter : N) : list Stream.t * N :=
  Reconcile.loadStreams
    (newChannel <$> content (json w (js "channels.json")))
    (newCategory <$> content (json w (js "categories.json")))
    (newLanguage <$> content (json w (js "languages.json")))
    (newStream <$> content (database w (js "streams.db")))
    counter.

Lemma completed_spec w counter :
  Generate.trace (completed w counter)
  = inputs ++ generatorCalls w (reconciledStreams w counter).1
  ∧ Generate.idCounter (completed w counter) = (reconciledStreams w counter).2.
Proof.
  unfold completed. split; [|apply Generate.run_idCounter].
  by destruct (Generate.run_in_source_order
    (newChannel <$> content (json w (js "channels.json")))
    (newCategory <$> content (json w (js "categories.json")))
    (newCountry <$> content (json w (js "countries.json")))
    (newLanguage <$> content (json w (js "languages.json")))
    (newRegion <$> content (json w (js "regions.json")))
    (newSubdivision <$> content (json w (js "subdivisions.json")))
    (newStream <$> content (database w (js "streams.db"))) counter) as [-> _].
Qed.

(** A promise of [main] that is awaited in state [s], for a value and
    for nothing. *)
Local Ltac awaited answer :=
  eapply (await_ended _ _ _ _ _ _ _ answer);
    [done | done | intros ? ->; cbn [content]].
Local Ltac opened answer :=
  eapply (await_ended _ _ _ _ _ _ _ answer); [done | done | intros [] _].

Lemma behaviour_generation w counter : behaviour w counter ≈ of_result (run w counter).
Proof.
  rewrite run_ended. destruct (completed_spec w counter) as [-> ->].
  unfold behaviour, main, loadStreamsT, mbind, itree_bind, inputs, generatorCalls,
    reconciledStreams.
  cbn [fmap list_fmap app].
  awaited (json w (js "channels.json")).
  awaited (json w (js "categories.json")).
  awaited (json w (js "countries.json")).
  awaited (json w (js "languages.json")).
  awaited (json w (js "regions.json")).
  awaited (json w (js "subdivisions.json")).
  rewrite bind_bind.
  opened (load w (js "streams.db")).
  rewrite bind_bind.
  awaited (database w (js "streams.db")).
  rewrite interp_state_bind, interp_reconcile, bind_ret_l. cbn [fst snd].
  match goal with
  | |- interp_state _ _ ?s ≈ of_result (ended _ _ ?s' _) =>
      rewrite (ended_trace w _ s' s) by done
  end.
  opened (createStream w (js "generators.log")).
  exact (interp_generators w _ (Generate.calls _ _ _ _ _)).
Qed.

(** ** What the command promises *)

Lemma generated_inputs t : t `prefix_of` inputs → Generate.generated t = [].
Proof.
  intros [rest Hrest]. assert (Generate.generated inputs = []) as Hi by done.
  rewrite Hrest in Hi. unfold Generate.generated in Hi. rewrite omap_app in Hi.
  by apply app_eq_nil in Hi as [? _].
Qed.

(** C6. In a world where the six files, the database and the log can be
    opened and every generator succeeds, the command as a process is
    [Generate.main] on the records read: it makes the same calls in the
    same order and leaves the counter of [uniqueId] where [Generate.main]
    leaves it. *)
Theorem generation_refines_main w counter channelsContent categoriesContent
    countriesContent languagesContent regionsContent subdivisionsContent docs :
  json w (js "channels.json") = inr channelsContent →
  json w (js "categories.json") = inr categoriesContent →
  json w (js "countries.json") = inr countriesContent →
  json w (js "languages.json") = inr languagesContent →
  json w (js "regions.json") = inr regionsContent →
  json w (js "subdivisions.json") = inr subdivisionsContent →
  load w (js "streams.db") = inr () →
  database w (js "streams.db") = inr docs →
  createStream w (js "generators.log") = inr () →
  (∀ g args, generator w g args = inr ()) →
  behaviour w counter
  ≈ Ret (Generate.run (newChannel <$> channelsContent)
           (newCategory <$> categoriesContent) (newCountry <$> countriesContent)
           (newLanguage <$> languagesContent) (newRegion <$> regionsContent)
           (newSubdivision <$> subdivisionsContent) (newStream <$> docs) counter, ()).
Proof.
  intros Hch Hca Hco Hla Hre Hsu Hload Hdb Hlog Hgen. rewrite behaviour_generation. unfold run.
  destruct (completed_spec w counter) as [-> _]. rewrite upto_all.
  { unfold completed. by rewrite Hch, Hca, Hco, Hla, Hre, Hsu, Hdb. }
  repeat constructor; cbn [failure fst snd];
    by rewrite ?Hch, ?Hca, ?Hco, ?Hla, ?Hre, ?Hsu, ?Hload, ?Hdb, ?Hlog, ?Hgen.
Qed.

(** C20. The command ends in every world, and where the first rejected
    promise says: with enough fuel the interpreted tree evaluates; when
    it returns, no call of [Generate.main] failed and the state is that
    of [Generate.main]; when it ends with an error, the calls made are
    those of [Generate.main] up to the first that fails, and the error is
    the error of that call. *)
Theorem generation_ends_at_first_failure w counter :
  ∃ fuel, ∀ n, fuel ≤ n →
    match observed n w counter with
    | Some (Returns s) =>
        s = completed w counter
        ∧ Forall (λ e, failure w e = None) (Generate.trace s)
    | Some (Halts t (Crashes message)) =>
        ∃ before e rest,
          t = before ++ [e]
          ∧ Generate.trace (completed w counter) = t ++ rest
          ∧ failure w e = Some message
          ∧ Forall (λ e', failure w e' = None) before
    | _ => False
    end.
Proof.
  destruct (evaluate_of_result _ _ (behaviour_generation w counter)) as [fuel Hfuel].
  exists fuel. intros n Hn. unfold observed. rewrite (Hfuel n Hn). unfold run.
  pose proof (upto_spec (failure w) (Generate.trace (completed w counter))) as Hu.
  destruct (upto _ _) as [t [message|]]; [done|]. by destruct Hu as [-> ?].
Qed.

(** C21. No generator runs on incomplete data: when one of the six files,
    the database or the log cannot be opened, the run ends with an error
    before the first announcement, and no generator has been called. *)
Theorem generators_wait_for_inputs w counter e :
  e ∈ inputs → is_Some (failure w e) →
  ∃ t message,
    behaviour w counter ≈ halt t (Crashes message)
    ∧ t `prefix_of` inputs
    ∧ Generate.generated t = [].
Proof.
  intros He Hf. pose proof (upto_spec (failure w) inputs) as Hu.
  assert (upto (failure w) (Generate.trace (completed w counter))
          = upto (failure w) inputs) as Happ.
  { destruct (completed_spec w counter) as [-> _].
    apply upto_app_failing, Exists_exists. eauto. }
  destruct (upto (failure w) inputs) as [t [message|]].
  - destruct Hu as (before & e' & rest & -> & Hin & _).
    assert (before ++ [e'] `prefix_of` inputs) by by exists rest.
    exists (before ++ [e']), message. split_and!; [|done | by apply generated_inputs].
    rewrite behaviour_generation. unfold run. by rewrite Happ.
  - destruct Hu as [_ Hall]. rewrite Forall_forall in Hall.
    rewrite (Hall e He) in Hf. by destruct Hf.
Qed.

End Command.

(** ** Two worlds *)

(** A record of a file of data or a row of the database. *)
Definition example_data : Type := Channel.t + Stream.t.

Definition example_channel : Channel.t := {|
  Channel.id := js "CNN.us"; Channel.categories := []; Channel.languages := [];
  Channel.broadcastArea := [js "c/US"]; Channel.isNSFW := false;
  Channel.logo := js "https://logo/cnn.png"
|}.

Definition example_newChannel (record : example_data) : Channel.t :=
  match record with inl channel => channel | inr _ => example_channel end.

Definition example_newStream (record : example_data) : Stream.t :=
  match record with inl _ => example_doc "" "" "" | inr stream => stream end.

Definition example_newCategory (_ : example_data) : Category.t :=
  {| Category.id := []; Category.name := [] |}.

Definition example_newLanguage (_ : example_data) : Language.t :=
  {| Language.code := []; Language.name := [] |}.

Definition example_newOther (_ : example_data) : unit := ().

(** A world with one channel, the rows of [example_docs], and no
    categories, countries, languages, regions or subdivisions. *)
Definition example_world : world (data:=example_data) (Country:=unit)
    (Region:=unit) (Subdivision:=unit) := {|
  json filename :=
    if bool_decide (filename = js "channels.json") then inr [inl example_channel]
    else inr [];
  load _ := inr ();
  database _ := inr (inr <$> example_docs);
  createStream _ := inr ();
  generator _ _ := inr ()
|}.

(** The same world without its database. *)
Definition broken_world : world (data:=example_data) (Country:=unit)
    (Region:=unit) (Subdivision:=unit) := {|
  json := json example_world;
  load _ := inl (js "ENOENT: no such file or directory");
  database := database example_world;
  createStream := createStream example_world;
  generator := generator example_world
|}.

Local Abbreviation example_behaviour :=
  (behaviour example_newChannel example_newCategory
     example_newOther example_newLanguage example_newOther
     example_newOther example_newStream).
Local Abbreviation example_observed fuel w counter :=
  (evaluate fuel (example_behaviour w counter)).

(** In the first world the command makes its 29 calls, runs the ten
    generators on three streams and draws two tokens; in the second it
    stops at the database, after seven calls. *)
Example example_generations :
  (∃ s, example_observed 100 example_world 0 = Some (Returns s)
        ∧ length (Generate.trace s) = 29
        ∧ Generate.idCounter s = 2%N
        ∧ (λ c, (c.1, length c.2)) <$> Generate.generated (Generate.trace s)
          = (λ g, (g, 3)) <$> Generate.all_generators)
  ∧ (∃ t, example_observed 100 broken_world 0
          = Some (Halts t (Crashes (js "ENOENT: no such file or directory")))
          ∧ last t = Some (Generate.DatabaseLoad (js "streams.db"))
          ∧ length t = 7)
  ∧ example_observed 5 example_world 0 = None.
Proof. split_and!; [eexists; split_and!|eexists; split_and!|]; by vm_compute. Qed.

Lemma generation_refines_main_witness :
  example_behaviour example_world 0
  ≈ Ret (Generate.run (example_newChannel <$> [inl example_channel])
           (example_newCategory <$> [])
           (example_newOther <$> [])
           (example_newLanguage <$> [])
           (example_newOther <$> []) (example_newOther <$> [])
           (example_newStream <$> (inr <$> example_docs)) 0, ()).
Proof.
  apply (generation_refines_main example_newChannel
           example_newCategory example_newOther
           example_newLanguage example_newOther example_newOther
           example_newStream example_world 0 [inl example_channel] [] [] [] [] []
           (inr <$> example_docs)); reflexivity.
Defined.

Lemma generators_wait_for_inputs_witness :
  ∃ t message,
    example_behaviour broken_world 0 ≈ halt t (Crashes message)
    ∧ t `prefix_of` inputs
    ∧ Generate.generated t = [].
Proof.
  apply (generators_wait_for_inputs example_newChannel
           example_newCategory example_newOther
           example_newLanguage example_newOther example_newOther
           example_newStream broken_world 0 (Generate.DatabaseLoad (js "streams.db"))).
  - unfold inputs. cbn [fmap list_fmap app]. do 6 right. left.
  - by eexists.
Defined.

End GenerateProcess.
