(* ===== verification/Pipeline.v ===== *)
(** * Validation and reconciliation side by side

    The two commands answer the same two questions about a stream with
    different code: whether its channel is in the database
    ([validate.ts] searches the collection, line 48; [generate.ts] looks
    the identifier up in a dictionary built by [keyBy], lines 109 and
    121), and which country its playlist file belongs to ([validate.ts]
    line 39 and [generate.ts] line 138 use different patterns on
    different parts of the path).  This file states when the answers
    agree. *)

From Stdlib Require Import Ascii String.
From stdpp Require Import gmap.
From S2P Require Import Prelude JsString Regex Models Collection CountryCode.
From S2P Require Import Validate Reconcile.

Module Pipeline.
Import Validate.

(** The playlist [dir/ab.m3u] or [dir/ab_rest.m3u]. *)
Definition playlist (dir : jsstring) (a b : N) (rest : jsstring) : jsstring :=
  dir ++ ch "/" :: a :: b :: rest ++ js ".m3u".

(** What may follow the two letters of a well-named playlist: nothing,
    or an underscore and text of one line without separator. *)
Definition suffix_ok (rest : jsstring) : bool :=
  match rest with
  | [] => true
  | u :: body =>
      (u =? ch "_")%N
      && forallb (λ c, negb (File.is_slash c) && negb (is_line_terminator c)) body
  end.

(** A stream that declares a channel for which the dictionary of
    [generate.ts] (lines 109 and 121) has no entry. *)
Definition noChannelData (channels : list Channel.t) (stream : Stream.t) : Prop :=
  Stream.channel stream ≠ []
  ∧ Dictionary.get (groupedChannels channels) (Stream.channel stream) = None.

Section Pipeline.
Context `{JsRuntime}.
Context (channels : list Channel.t).
Context (categories : list Category.t) (languages : list Language.t).

(** ** The channel of a stream *)

Lemma first_keyBy_None key :
  Collection.first (λ channel, bool_decide (Channel.id channel = key)) channels = None
  ↔ Dictionary.get (groupedChannels channels) key = None.
Proof.
  unfold Dictionary.get, groupedChannels.
  rewrite Collection.first_None, Collection.keyBy_lookup_None.
  apply Forall_iff. intros channel. by rewrite bool_decide_eq_false.
Qed.

(** C29. Validation warns that the channel of a stream is not in the
    database exactly when the stream declares a channel for which
    reconciliation finds no entry; reconciliation then gives that stream
    the default broadcast area of its playlist file and leaves its
    categories, languages, logo and NSFW flag alone. *)
Theorem unknown_channel_iff_no_channel_data stream :
  (channelNotInDatabase channels stream = true ↔ noChannelData channels stream)
  ∧ (channelNotInDatabase channels stream = true →
     let stream' := enrich channels categories languages stream in
     Stream.broadcastArea stream' = defaultBroadcastArea (Stream.filepath stream)
     ∧ Stream.categories stream' = Stream.categories stream
     ∧ Stream.languages stream' = Stream.languages stream
     ∧ Stream.logo stream' = Stream.logo stream
     ∧ Stream.isNSFW stream' = Stream.isNSFW stream).
Proof.
  assert (Hiff : channelNotInDatabase channels stream = true
    ↔ noChannelData channels stream).
  { unfold channelNotInDatabase, noChannelData.
    rewrite andb_true_iff, negb_true_iff, bool_decide_eq_false.
    rewrite <-first_keyBy_None, <-eq_None_not_Some.
    destruct (Stream.channel stream); simpl; split; intros [??]; done. }
  split; [done|]. intros [_ Hnone]%Hiff. cbv zeta. unfold enrich.
  by rewrite Hnone.
Qed.

(** ** The country of a playlist file *)

Lemma suffix_ok_parts rest :
  suffix_ok rest = true →
  Forall (λ c, File.is_slash c = false) (rest ++ js ".m3u")
  ∧ (starts_ci (js ".m3u") (rest ++ js ".m3u")
     || (starts_ci (js "_") (rest ++ js ".m3u")
         && m3u_after (drop 1 (rest ++ js ".m3u")))) = true
  ∧ match rest with [] => true | u :: _ => (u =? ch "_")%N end = true.
Proof.
  destruct rest as [|u body];
    [intros _; split_and!; [by repeat constructor | done | done]|].
  cbn [suffix_ok]. intros [Hu%N.eqb_eq Hbody%Forall_forallb]%andb_true_iff. subst u.
  split_and!; [| |done].
  - rewrite <-app_comm_cons. apply Forall_cons_2; [done|].
    apply Forall_app. split; [|by repeat constructor].
    eapply Forall_impl; [exact Hbody|]. by intros c [?%negb_true_iff _]%andb_true_iff.
  - apply orb_true_iff. right. rewrite <-app_comm_cons. cbn [drop].
    rewrite drop_0. apply andb_true_iff. split; [done|].
    apply m3u_after_app; [|done].
    eapply Forall_impl; [exact Hbody|]. by intros c [_ ?]%andb_true_iff.
Qed.

Lemma lower_not_slash a : is_lower a = true → File.is_slash a = false.
Proof.
  unfold is_lower, in_range, File.is_slash. rewrite andb_true_iff, !N.leb_le.
  intros [??]. apply N.eqb_neq. change (ch "/") with 47%N. lia.
Qed.

Lemma lower_alpha a : is_lower a = true → is_alpha a = true.
Proof. unfold is_alpha. intros ->. apply orb_true_r. Qed.

(** C30. For a playlist file named by two lower-case letters, followed by
    the extension at once or after an underscore and more text, the two
    commands derive the same country code, the two letters: the command
    that validates from the base name with the pattern of its line 39,
    the command that generates from the name without extension with the
    pattern of its line 138. *)
Theorem country_codes_agree dir a b rest :
  is_lower a = true → is_lower b = true → suffix_ok rest = true →
  File.extension (playlist dir a b rest) = js "m3u"
  ∧ countryCodeOf (playlist dir a b rest) = [a; b]
  ∧ filenameCountryCode (File.getFilename (playlist dir a b rest)) = [a; b].
Proof.
  intros Ha Hb (Hslash & Hhere & Hnext)%suffix_ok_parts. unfold playlist.
  assert (Hname : Forall (λ c, File.is_slash c = false) (a :: b :: rest ++ js ".m3u"))
    by auto using Forall_cons_2, lower_not_slash.
  assert (Hbase : File.basename (dir ++ ch "/" :: a :: b :: rest ++ js ".m3u")
                  = (a :: b :: rest) ++ js ".m3u")
    by (by apply File.basename_of_path).
  assert (Hstem : Forall (λ c, File.is_slash c = false) (a :: b :: rest)).
  { apply Forall_app in Hslash as [Hrest _].
    auto using Forall_cons_2, lower_not_slash. }
  destruct (File.getFilename_m3u (a :: b :: rest) ltac:(done) Hstem) as [Hf Hx].
  unfold File.getFilename, File.extension in *.
  rewrite File.basename_plain in Hf, Hx by exact Hname.
  rewrite Hbase. split_and!; [done| |].
  - rewrite countryCodeOf_first_code, Hbase. cbn [app first_code code_here take].
    by rewrite (lower_alpha a), (lower_alpha b), Hhere.
  - rewrite Hf, filenameCountryCode_filename_code. unfold filename_code, code_prefix.
    by rewrite Ha, Hb, Hnext.
Qed.

End Pipeline.

Lemma unknown_channel_iff_no_channel_data_witness :
  let stream := example_stream "X.us" "X" "" 6 in
  let stream' := enrich example_channels [] [] stream in
  Stream.broadcastArea stream' = defaultBroadcastArea (Stream.filepath stream)
  ∧ Stream.categories stream' = Stream.categories stream
  ∧ Stream.languages stream' = Stream.languages stream
  ∧ Stream.logo stream' = Stream.logo stream
  ∧ Stream.isNSFW stream' = Stream.isNSFW stream.
Proof.
  apply (unknown_channel_iff_no_channel_data example_channels [] []
           (example_stream "X.us" "X" "" 6)).
  vm_compute. reflexivity.
Defined.

Lemma country_codes_agree_witness :
  File.extension (js "streams/fr_news.m3u") = js "m3u"
  ∧ countryCodeOf (js "streams/fr_news.m3u") = js "fr"
  ∧ filenameCountryCode (File.getFilename (js "streams/fr_news.m3u")) = js "fr".
Proof.
  apply (country_codes_agree (js "streams") (ch "f") (ch "r") (js "_news"));
    vm_compute; reflexivity.
Defined.

End Pipeline.
